(** * pypureomapi: the OMAPI wire codec, message signing and client engine

    A shallow embedding of [pypureomapi.py] (Python 2).  Python classes are
    modules, a method that mutates [self] is a computation in a state and
    exception monad over the object, and a generator is a value of the
    resumable-parser type [Parser]. *)

From Stdlib Require Import ZArith Lia ZifyBool List Bool Strings.Byte Strings.String.
From stdpp Require Import base option list gmap.
Import ListNotations.
Local Open Scope Z_scope.

(** ** Python values *)

(** A Python 2 [str] is a byte string. *)
Definition bytes : Type := list byte.

#[global] Instance byte_eq_dec : EqDecision byte := Byte.byte_eq_dec.

(** String literals of the source, as bytes. *)
Definition b (s : string) : bytes := list_byte_of_string s.

(** [len(x)] *)
Definition len {A : Type} (l : list A) : Z := Z.of_nat (length l).

(** [ord(c)] for a one-character string. *)
Definition ord (c : byte) : Z := Z.of_N (Byte.to_N c).

(** The character with code [z mod 256]. *)
Definition byte_of (z : Z) : byte :=
  default x00 (Byte.of_N (Z.to_N (z mod 256))).

(** [s[:n]] and [s[n:]], with Python's reading of a negative index. *)
Definition slice_to {A : Type} (s : list A) (n : Z) : list A :=
  if 0 <=? n then firstn (Z.to_nat n) s
  else firstn (length s - Z.to_nat (- n))%nat s.

Definition slice_from {A : Type} (s : list A) (n : Z) : list A :=
  if 0 <=? n then skipn (Z.to_nat n) s
  else skipn (length s - Z.to_nat (- n))%nat s.

(** ["\0" * n]: a non-positive count gives the empty string. *)
Definition zeroes (n : Z) : bytes := repeat x00 (Z.to_nat n).

(** A Python dict from strings to strings, given by its items in iteration
    order; the keys are pairwise distinct. *)
Definition pydict : Type := list (bytes * bytes).

(** [key in d] *)
Definition dict_contains (key : bytes) (d : pydict) : bool :=
  existsb (fun kv => bool_decide (fst kv = key)) d.

(** [d.items()] *)
Definition dict_items (d : pydict) : list (bytes * bytes) := d.

(** [sep.join(parts)] *)
Fixpoint join (sep : bytes) (parts : list bytes) : bytes :=
  match parts with
  | [] => []
  | [p] => p
  | p :: rest => p ++ sep ++ join sep rest
  end.

(** [s.split(c)] for a one-character separator: the result is never empty. *)
Fixpoint split (c : byte) (s : bytes) : list bytes :=
  match s with
  | [] => [[]]
  | x :: s' =>
      if decide (x = c) then [] :: split c s'
      else match split c s' with
           | [] => [[x]]
           | p :: ps => (x :: p) :: ps
           end
  end.

(** ** Exceptions, and the state and exception monad of a mutable object *)

Inductive exn : Type :=
| OmapiError (msg : string)
| OmapiSizeLimitError          (* OmapiError("Packet size limit reached.") *)
| OmapiErrorNotFound           (* OmapiError("not found") *)
| ValueError (msg : string)
| OverflowError (msg : string)
| KeyError
| AssertionError
| socket_error.

(** How a call ends.  [Hang] is a call that does not return: it is what the
    model gives when a loop reaches its recursion bound, and the loop of
    [receive_message] is shown not to reach it ([receive_message_settles]
    below). *)
Inductive result (A : Type) : Type :=
| Ok (a : A)
| Raise (e : exn)
| Hang.
Arguments Ok {A} a.
Arguments Raise {A} e.
Arguments Hang {A}.

(** A method of an object of type [St]: it returns or raises, and in both
    cases leaves the object in a new state. *)
Definition M (St A : Type) : Type := St -> result A * St.

Definition ret {St A : Type} (a : A) : M St A := fun s => (Ok a, s).

Definition raise {St A : Type} (e : exn) : M St A := fun s => (Raise e, s).

Definition bind {St A B : Type} (m : M St A) (k : A -> M St B) : M St B :=
  fun s =>
    match m s with
    | (Ok a, s') => k a s'
    | (Raise e, s') => (Raise e, s')
    | (Hang, s') => (Hang, s')
    end.

(** [try: m / except <handles>: handler] *)
Definition try_except {St A : Type} (m : M St A) (handles : exn -> bool)
    (handler : exn -> M St A) : M St A :=
  fun s =>
    match m s with
    | (Raise e, s') => if handles e then handler e s' else (Raise e, s')
    | other => other
    end.

Definition get {St : Type} : M St St := fun s => (Ok s, s).

Definition modify {St : Type} (f : St -> St) : M St unit := fun s => (Ok tt, f s).

(** A pure computation that may raise, run inside a method. *)
Definition lift {St A : Type} (r : result A) : M St A := fun s => (r, s).

Notation "'let*' x ':=' m 'in' k" := (bind m (fun x => k))
  (at level 10, x name, m at level 100, k at level 200).

Definition rbind {A B : Type} (r : result A) (k : A -> result B) : result B :=
  match r with
  | Ok a => k a
  | Raise e => Raise e
  | Hang => Hang
  end.

Notation "'try*' x ':=' r 'in' k" := (rbind r (fun x => k))
  (at level 10, x name, r at level 100, k at level 200).

(** [map(f, xs)] where [f] may raise: the first exception wins. *)
Fixpoint map_result {A B : Type} (f : A -> result B) (xs : list A) : result (list B) :=
  match xs with
  | [] => Ok []
  | x :: xs' =>
      try* y := f x in
      try* ys := map_result f xs' in
      Ok (y :: ys)
  end.

(** ** struct.pack / struct.unpack, network byte order *)

(** [struct.pack("!L", n)] for [0 <= n < 2**32]. *)
Definition struct_pack_L (n : Z) : bytes :=
  [byte_of (n / 16777216); byte_of (n / 65536); byte_of (n / 256); byte_of n].

(** [struct.pack("!H", n)] for [0 <= n < 2**16]. *)
Definition struct_pack_H (n : Z) : bytes :=
  [byte_of (n / 256); byte_of n].

(** [struct.unpack("!H", data)[0]] and [struct.unpack("!L", data)[0]]: the
    big-endian value of [data].  The parsers hand it exactly two or four
    bytes, so the length error of the library never arises. *)
Definition struct_unpack (data : bytes) : Z :=
  fold_left (fun acc c => acc * 256 + ord c) data 0.

(** [struct.pack("!I", n)]: four bytes in network byte order, as for
    ["!L"]. *)
Definition struct_pack_I (n : Z) : bytes := struct_pack_L n.

(** ** Opcodes *)

Definition OMAPI_OP_OPEN : Z := 1.

Definition OMAPI_OP_REFRESH : Z := 2.

Definition OMAPI_OP_UPDATE : Z := 3.

Definition OMAPI_OP_NOTIFY : Z := 4.

Definition OMAPI_OP_STATUS : Z := 5.

Definition OMAPI_OP_DELETE : Z := 6.

(** ** class OutBuffer *)

Module OutBuffer.

(** [self.buff] is a StringIO that is only ever written at its end, so its
contents stand for it and [tell()] is their length. *)
Record t : Type := mk { buff : bytes }.

Definition sizelimit : Z := 65536.

(** [OutBuffer()] *)
Definition init : t := {| buff := [] |}.

Definition write (data : bytes) : M t unit :=
modify (fun self => {| buff := buff self ++ data |}).

Definition tell : M t Z := fun self => (Ok (len (buff self)), self).

Definition add (data : bytes) : M t unit :=
let* _ := write data in
let* pos := tell in
if pos >? sizelimit then raise OmapiSizeLimitError else ret tt.

Definition add_net32int (integer : Z) : M t unit :=
if (integer <? 0) || (integer >=? 4294967296)
then raise (ValueError "not a 32bit unsigned integer")
else add (struct_pack_L integer).

Definition add_net16int (integer : Z) : M t unit :=
if (integer <? 0) || (integer >=? 65536)
then raise (ValueError "not a 16bit unsigned integer")
else add (struct_pack_H integer).

Definition add_net32string (string : bytes) : M t unit :=
if len string >=? 4294967296
then raise (ValueError "string too long")
else let* _ := add_net32int (len string) in add string.

Definition add_net16string (string : bytes) : M t unit :=
if len string >=? 65536
then raise (ValueError "string too long")
else let* _ := add_net16int (len string) in add string.

(** The loop of [add_bindict] over the items. *)
Fixpoint add_entries (items : list (bytes * bytes)) : M t unit :=
match items with
| [] => ret tt
| (key, value) :: rest =>
  let* _ := add_net16string key in
  let* _ := add_net32string value in
  add_entries rest
end.

Definition add_bindict (items : list (bytes * bytes)) : M t unit :=
let* _ := add_entries items in
add [x00; x00].

Definition getvalue : M t bytes := fun self => (Ok (buff self), self).

End OutBuffer.

(** ** Authenticators *)

(** The interface of [OmapiAuthenticatorBase]; the library's digest is a
    function, so every authenticator signs deterministically. *)
Module OmapiAuthenticatorBase.

Record t : Type := mk {
authlen : Z;
algorithm : option bytes;
authid : Z;
auth_object : pydict;
sign : bytes -> bytes
}.

(** [authenticator.authid = authid] *)
Definition set_authid (a : Z) (self : t) : t :=
{| authlen := authlen self; algorithm := algorithm self; authid := a;
 auth_object := auth_object self; sign := sign self |}.

End OmapiAuthenticatorBase.

Definition OmapiNullAuthenticator : OmapiAuthenticatorBase.t :=
  {| OmapiAuthenticatorBase.authlen := 0;
     OmapiAuthenticatorBase.algorithm := None;
     OmapiAuthenticatorBase.authid := 0;
     OmapiAuthenticatorBase.auth_object := [];
     OmapiAuthenticatorBase.sign := fun _ => [] |}.

Section HMAC.

(** [hmac.HMAC(key, message).digest()] of the Python library (HMAC-MD5 by
default), taken as given. *)
Variable hmac_digest : bytes -> bytes -> bytes.

(** [OmapiHMACMD5Authenticator(user, key)], with [key] already decoded
from base64; [authid] is the class default until the handshake sets
it. *)
Definition OmapiHMACMD5Authenticator (user key : bytes) : OmapiAuthenticatorBase.t :=
{| OmapiAuthenticatorBase.authlen := 16;
 OmapiAuthenticatorBase.algorithm := Some (b "hmac-md5.SIG-ALG.REG.INT.");
 OmapiAuthenticatorBase.authid := -1;
 OmapiAuthenticatorBase.auth_object :=
   [(b "name", user); (b "algorithm", b "hmac-md5.SIG-ALG.REG.INT.")];
 OmapiAuthenticatorBase.sign := fun message => hmac_digest key message |}.

End HMAC.

(** ** The random number generator of the module

    [sysrand = random.SystemRandom()] draws from the operating system.  The
    numbers it will give are an arbitrary sequence, and [randrange] brings
    the next one into the range asked for. *)

Module SystemRandom.

Record t : Type := mk {
draws : nat -> Z;   (* what the system will give *)
drawn : nat         (* how many have been taken *)
}.

(** [randrange(start, stop)] *)
Definition randrange (start stop : Z) : M t Z :=
fun self =>
if stop <=? start then (Raise (ValueError "empty range for randrange()"), self)
else (Ok (start + draws self (drawn self) mod (stop - start)),
      mk (draws self) (Datatypes.S (drawn self))).

End SystemRandom.

(** ** class OmapiMessage *)

Module OmapiMessage.

Record t : Type := mk {
authid : Z;
opcode : Z;
handle : Z;
tid : Z;
rid : Z;
message : list (bytes * bytes);
obj : list (bytes * bytes);
signature : bytes
}.

(** [OmapiMessage()] *)
Definition init : t := mk 0 0 0 0 0 [] [] [].

Definition set_authid (v : Z) (self : t) : t :=
mk v (opcode self) (handle self) (tid self) (rid self)
 (message self) (obj self) (signature self).

Definition set_opcode (v : Z) (self : t) : t :=
mk (authid self) v (handle self) (tid self) (rid self)
 (message self) (obj self) (signature self).

Definition set_handle (v : Z) (self : t) : t :=
mk (authid self) (opcode self) v (tid self) (rid self)
 (message self) (obj self) (signature self).

Definition set_tid (v : Z) (self : t) : t :=
mk (authid self) (opcode self) (handle self) v (rid self)
 (message self) (obj self) (signature self).

Definition set_rid (v : Z) (self : t) : t :=
mk (authid self) (opcode self) (handle self) (tid self) v
 (message self) (obj self) (signature self).

Definition set_message (v : list (bytes * bytes)) (self : t) : t :=
mk (authid self) (opcode self) (handle self) (tid self) (rid self)
 v (obj self) (signature self).

Definition set_obj (v : list (bytes * bytes)) (self : t) : t :=
mk (authid self) (opcode self) (handle self) (tid self) (rid self)
 (message self) v (signature self).

Definition set_signature (v : bytes) (self : t) : t :=
mk (authid self) (opcode self) (handle self) (tid self) (rid self)
 (message self) (obj self) v.

(** The buffer [ret] is local to the call: an exception loses it. *)
Definition as_string (self : t) (forsigning : bool) : result bytes :=
fst ((let* _ := (if negb forsigning
               then OutBuffer.add_net32int (authid self) else ret tt) in
    let* _ := OutBuffer.add_net32int (len (signature self)) in
    let* _ := OutBuffer.add_net32int (opcode self) in
    let* _ := OutBuffer.add_net32int (handle self) in
    let* _ := OutBuffer.add_net32int (tid self) in
    let* _ := OutBuffer.add_net32int (rid self) in
    let* _ := OutBuffer.add_bindict (message self) in
    let* _ := OutBuffer.add_bindict (obj self) in
    let* _ := (if negb forsigning
               then OutBuffer.add (signature self) else ret tt) in
    OutBuffer.getvalue) OutBuffer.init).

Definition sign (authenticator : OmapiAuthenticatorBase.t) : M t unit :=
let* _ := modify (set_authid (OmapiAuthenticatorBase.authid authenticator)) in
let* _ := modify (set_signature (zeroes (OmapiAuthenticatorBase.authlen authenticator))) in
let* self := get in
let* data := lift (as_string self true) in
let* _ := modify (set_signature (OmapiAuthenticatorBase.sign authenticator data)) in
let* self := get in
if decide (len (signature self) = OmapiAuthenticatorBase.authlen authenticator)
then ret tt else raise AssertionError.

Definition from_fields (authid opcode handle tid rid : Z)
(message obj : list (bytes * bytes)) (signature : bytes) : t :=
mk authid opcode handle tid rid message obj signature.

(** Only the [KeyError] of the registry lookup is caught; an exception of
[as_string] propagates. *)
Definition verify (self : t) (authenticators : gmap Z OmapiAuthenticatorBase.t)
: result bool :=
match authenticators !! authid self with
| None => Ok false
| Some authenticator =>
  try* data := as_string self true in
  Ok (bool_decide (OmapiAuthenticatorBase.sign authenticator data = signature self))
end.

Definition is_response (self other : t) : bool :=
bool_decide (rid self = tid other).

Definition update_object (update : pydict) : M t unit :=
let* _ := modify (fun self =>
          set_obj (List.filter (fun kv => negb (dict_contains (fst kv) update))
                          (obj self)) self) in
modify (fun self => set_obj (obj self ++ dict_items update) self).

(** [generate_tid()]: the message is returned as the call leaves it, and the
state is that of [sysrand]. *)
Definition generate_tid (self : t) : M SystemRandom.t t :=
let* tid := SystemRandom.randrange 0 4294967296 in
ret (set_tid tid self).

(** The class methods [open], [delete] and [update]. *)
Definition open (typename : bytes) : M SystemRandom.t t :=
let self := init in
let self := set_opcode OMAPI_OP_OPEN self in
let self := set_message (message self ++ [(b "type", typename)]) self in
generate_tid self.

Definition delete (handle : Z) : M SystemRandom.t t :=
let self := init in
let self := set_opcode OMAPI_OP_DELETE self in
let self := set_handle handle self in
generate_tid self.

Definition update (handle : Z) : M SystemRandom.t t :=
let self := init in
let self := set_opcode OMAPI_OP_UPDATE self in
let self := set_handle handle self in
generate_tid self.

End OmapiMessage.

(** ** Generators that parse

    A parser of the source is a generator over the buffer of its InBuffer:
    it yields [None] while it needs more data, and then its result.  As a
    value it is the computation still to run: the only operation that reads
    the buffer or yields [None] is [parse_fixedbuffer], the rest is
    sequencing ([parse_map], [parse_chain]), and [parse_bindict] loops.  A
    generator that has yielded [None] is resumed where it stopped, with the
    items it has parsed so far and on the buffer as it then is. *)

Inductive Parser : Type -> Type :=
| Ret {A : Type} (a : A) : Parser A
| ParseFixed (length : Z) : Parser bytes
| Bind {A B : Type} (p : Parser A) (k : A -> Parser B) : Parser B
| Loop {S A : Type} (body : S -> Parser (S + A)) (s : S) : Parser A.

(** What one [next()] of the generator gives: [Blocked g] is a yielded
    [None], with [g] the suspended generator; [Yielded a] is the result.
    [Exhausted] is returned when a loop has completed more iterations than
    the buffer has bytes, the recursion bound of [next]; the parsers of the
    source read at least two bytes per iteration and never reach it
    ([productive_next] and [productive_parse_message] below). *)
Inductive Step (A : Type) : Type :=
| Blocked (resume : Parser A)
| Yielded (a : A)
| Exhausted.
Arguments Blocked {A} resume.
Arguments Yielded {A} a.
Arguments Exhausted {A}.

(** After an iteration of a loop: go round again, or leave with the result. *)
Definition loop_k {S A : Type} (body : S -> Parser (S + A)) (r : S + A) : Parser A :=
  match r with
  | inl s' => Loop body s'
  | inr a => Ret a
  end.

Fixpoint loop_run {S A : Type} (body : S -> Parser (S + A))
    (run : S -> bytes -> Step (S + A) * bytes)
    (fuel : nat) (s : S) (buff : bytes) : Step A * bytes :=
  match run s buff with
  | (Blocked p', buff') => (Blocked (Bind p' (loop_k body)), buff')
  | (Yielded (inr a), buff') => (Yielded a, buff')
  | (Yielded (inl s'), buff') =>
      match fuel with
      | O => (Exhausted, buff')
      | Datatypes.S fuel' => loop_run body run fuel' s' buff'
      end
  | (Exhausted, buff') => (Exhausted, buff')
  end.

(** Run the generator on the buffer up to its next yield; the second
    component is the buffer it leaves. *)
Fixpoint next {A : Type} (p : Parser A) (buff : bytes) {struct p} : Step A * bytes :=
  match p in Parser T return Step T * bytes with
  | Ret a => (Yielded a, buff)
  | ParseFixed length =>
      (* while len(self.buff) < length: yield None *)
      if len buff <? length then (Blocked (ParseFixed length), buff)
      else (Yielded (slice_to buff length), slice_from buff length)
  | Bind p k =>
      match next p buff with
      | (Yielded a, buff') => next (k a) buff'
      | (Blocked p', buff') => (Blocked (Bind p' k), buff')
      | (Exhausted, buff') => (Exhausted, buff')
      end
  | Loop body s =>
      loop_run body (fun s' buff' => next (body s') buff') (Datatypes.length buff) s buff
  end.

(** [parse_map(filterfun, parser)] *)
Definition parse_map {A B : Type} (filterfun : A -> B) (parser : Parser A) : Parser B :=
  Bind parser (fun element => Ret (filterfun element)).

(** [parse_chain] over its argument parsers: [items] grows by one element
    per parser, and each parser is called with the items so far.  The tuple
    of items is nested to the left, starting from [tt]. *)
Definition parse_chain0 : Parser unit := Ret tt.

Definition parse_chain_snoc {T A : Type} (chain : Parser T) (parser : T -> Parser A)
    : Parser (T * A) :=
  Bind chain (fun items =>
  Bind (parser items) (fun element =>
  Ret (items, element))).

Notation "chain +> parser" := (parse_chain_snoc chain parser)
  (at level 50, left associativity).

(** ** class InBuffer *)

Module InBuffer.

Record t : Type := mk { buff : bytes; totalsize : Z }.

Definition sizelimit : Z := 65536.

(** [InBuffer()] *)
Definition init : t := {| buff := []; totalsize := 0 |}.

Definition feed (data : bytes) : M t unit :=
let* _ := modify (fun self => {| buff := buff self ++ data;
                               totalsize := totalsize self |}) in
let* _ := modify (fun self => {| buff := buff self;
                               totalsize := totalsize self + len data |}) in
let* self := get in
if totalsize self >? sizelimit then raise OmapiSizeLimitError else ret tt.

Definition resetsize : M t unit :=
modify (fun self => {| buff := buff self; totalsize := len (buff self) |}).

(** One [next()] of a generator bound to this buffer. *)
Definition step {A : Type} (gen : Parser A) (self : t) : Step A * t :=
let (r, buff') := next gen (buff self) in
(r, {| buff := buff'; totalsize := totalsize self |}).

Definition parse_fixedbuffer (length : Z) : Parser bytes := ParseFixed length.

Definition parse_net16int : Parser Z :=
parse_map struct_unpack (parse_fixedbuffer 2).

Definition parse_net32int : Parser Z :=
parse_map struct_unpack (parse_fixedbuffer 4).

Definition parse_net16string : Parser bytes :=
parse_map snd
(parse_chain0 +> (fun _ => parse_net16int)
              +> (fun '(_, length) => parse_fixedbuffer length)).

Definition parse_net32string : Parser bytes :=
parse_map snd
(parse_chain0 +> (fun _ => parse_net32int)
              +> (fun '(_, length) => parse_fixedbuffer length)).

(** One round of the [while True] of [parse_bindict]: [inr] is the
[StopIteration] raised on an empty key. *)
Definition parse_bindict_body (entries : list (bytes * bytes))
: Parser (list (bytes * bytes) + list (bytes * bytes)) :=
Bind parse_net16string (fun key =>
match key with
| [] => Ret (inr entries)
| _ :: _ =>
    Bind parse_net32string (fun value =>
      Ret (inl (entries ++ [(key, value)])))
end).

Definition parse_bindict : Parser (list (bytes * bytes)) :=
Loop parse_bindict_body [].

Definition parse_startup_message : Parser (unit * Z * Z) :=
parse_chain0 +> (fun _ => parse_net32int) +> (fun _ => parse_net32int).

Definition parse_message : Parser OmapiMessage.t :=
parse_map
(fun '(_, authid, _, opcode, handle, tid, rid, message, obj, signature) =>
   OmapiMessage.from_fields authid opcode handle tid rid message obj signature)
(parse_chain0
   +> (fun _ => parse_net32int)   (* authid *)
   +> (fun _ => parse_net32int)   (* authlen *)
   +> (fun _ => parse_net32int)   (* opcode *)
   +> (fun _ => parse_net32int)   (* handle *)
   +> (fun _ => parse_net32int)   (* tid *)
   +> (fun _ => parse_net32int)   (* rid *)
   +> (fun _ => parse_bindict)    (* message *)
   +> (fun _ => parse_bindict)    (* object *)
   +> (fun '(_, _, authlen, _, _, _, _, _, _) =>
         parse_fixedbuffer authlen)).   (* signature *)

End InBuffer.

(** ** Conversions of the Python library used by the address helpers *)

Definition is_space (c : byte) : bool :=
  (ord c =? 32) || ((9 <=? ord c) && (ord c <=? 13)).

Fixpoint lstrip (s : bytes) : bytes :=
  match s with
  | c :: s' => if is_space c then lstrip s' else s
  | [] => []
  end.

Definition strip (s : bytes) : bytes := rev (lstrip (rev (lstrip s))).

(** The value of a digit in the given base, if it is one. *)
Definition digit_value (base : Z) (c : byte) : option Z :=
  let v := if (48 <=? ord c) && (ord c <=? 57) then ord c - 48
           else if (97 <=? ord c) && (ord c <=? 122) then ord c - 87
           else if (65 <=? ord c) && (ord c <=? 90) then ord c - 55
           else base in
  if v <? base then Some v else None.

Fixpoint digits_value (base : Z) (acc : Z) (s : bytes) : option Z :=
  match s with
  | [] => Some acc
  | c :: s' =>
      match digit_value base c with
      | Some v => digits_value base (acc * base + v) s'
      | None => None
      end
  end.

(** [int(s)] and [int(s, 16)]: surrounding white space, an optional sign
    and white space after it, for base 16 an optional [0x] prefix, then at
    least one digit.  The text of the ValueError is cut short: Python goes
    on with the base and the [repr] of the literal. *)
Definition int (s : bytes) (base : Z) : result Z :=
  let s := strip s in
  let '(negative, s) :=
    match s with
    | "+"%byte :: r => (false, r)
    | "-"%byte :: r => (true, r)
    | _ => (false, s)
    end in
  let s := lstrip s in
  let s :=
    if base =? 16 then
      match s with
      | "0"%byte :: "x"%byte :: r => r
      | "0"%byte :: "X"%byte :: r => r
      | _ => s
      end
    else s in
  match s with
  | [] => Raise (ValueError "invalid literal for int()")
  | _ :: _ =>
      match digits_value base 0 s with
      | Some v => Ok (if negative then - v else v)
      | None => Raise (ValueError "invalid literal for int()")
      end
  end.

(** [chr(i)]: an integer outside [range(256)] is a ValueError when it fits
    the C [long] to which the argument is converted, here of 64 bits, and
    an OverflowError when it does not. *)
Definition chr (i : Z) : result bytes :=
  if (0 <=? i) && (i <? 256) then Ok [byte_of i]
  else if (- 2 ^ 63 <=? i) && (i <? 2 ^ 63)
  then Raise (ValueError "chr() arg not in range(256)")
  else Raise (OverflowError "Python int too large to convert to C long").

Fixpoint bytes_of_uint (u : Decimal.uint) : bytes :=
  match u with
  | Decimal.Nil => []
  | Decimal.D0 u => "0"%byte :: bytes_of_uint u
  | Decimal.D1 u => "1"%byte :: bytes_of_uint u
  | Decimal.D2 u => "2"%byte :: bytes_of_uint u
  | Decimal.D3 u => "3"%byte :: bytes_of_uint u
  | Decimal.D4 u => "4"%byte :: bytes_of_uint u
  | Decimal.D5 u => "5"%byte :: bytes_of_uint u
  | Decimal.D6 u => "6"%byte :: bytes_of_uint u
  | Decimal.D7 u => "7"%byte :: bytes_of_uint u
  | Decimal.D8 u => "8"%byte :: bytes_of_uint u
  | Decimal.D9 u => "9"%byte :: bytes_of_uint u
  end.

(** [str(n)] for an integer. *)
Definition str (n : Z) : bytes :=
  match Z.to_int n with
  | Decimal.Pos u => bytes_of_uint u
  | Decimal.Neg u => "-"%byte :: bytes_of_uint u
  end.

Fixpoint bytes_of_hex_uint (u : Hexadecimal.uint) : bytes :=
  match u with
  | Hexadecimal.Nil => []
  | Hexadecimal.D0 u => "0"%byte :: bytes_of_hex_uint u
  | Hexadecimal.D1 u => "1"%byte :: bytes_of_hex_uint u
  | Hexadecimal.D2 u => "2"%byte :: bytes_of_hex_uint u
  | Hexadecimal.D3 u => "3"%byte :: bytes_of_hex_uint u
  | Hexadecimal.D4 u => "4"%byte :: bytes_of_hex_uint u
  | Hexadecimal.D5 u => "5"%byte :: bytes_of_hex_uint u
  | Hexadecimal.D6 u => "6"%byte :: bytes_of_hex_uint u
  | Hexadecimal.D7 u => "7"%byte :: bytes_of_hex_uint u
  | Hexadecimal.D8 u => "8"%byte :: bytes_of_hex_uint u
  | Hexadecimal.D9 u => "9"%byte :: bytes_of_hex_uint u
  | Hexadecimal.Da u => "a"%byte :: bytes_of_hex_uint u
  | Hexadecimal.Db u => "b"%byte :: bytes_of_hex_uint u
  | Hexadecimal.Dc u => "c"%byte :: bytes_of_hex_uint u
  | Hexadecimal.Dd u => "d"%byte :: bytes_of_hex_uint u
  | Hexadecimal.De u => "e"%byte :: bytes_of_hex_uint u
  | Hexadecimal.Df u => "f"%byte :: bytes_of_hex_uint u
  end.

(** ["%2.2x" % n]: lower-case hexadecimal with at least two digits. *)
Definition format_2_2x (n : Z) : bytes :=
  let pad ds := repeat "0"%byte (2 - Datatypes.length ds) ++ ds in
  match Z.to_hex_int n with
  | Hexadecimal.Pos u => pad (bytes_of_hex_uint u)
  | Hexadecimal.Neg u => "-"%byte :: pad (bytes_of_hex_uint u)
  end.

(** [s.lower()] *)
Definition lower (s : bytes) : bytes :=
  map (fun c => if (65 <=? ord c) && (ord c <=? 90) then byte_of (ord c + 32) else c) s.

(** ** Address helpers *)

Definition pack_ip (ipstr : bytes) : result bytes :=
  let parts := split "."%byte ipstr in
  if negb (len parts =? 4)
  then Raise (ValueError "given ip address has an invalid number of dots")
  else
    try* parts := map_result (fun part => int part 10) parts in
    try* parts := map_result chr parts in
    Ok (join [] parts).

Definition unpack_ip (fourbytes : bytes) : result bytes :=
  if negb (len fourbytes =? 4)
  then Raise (ValueError "given buffer is not exactly four bytes long")
  else Ok (join (b ".") (map str (map ord fourbytes))).

Definition pack_mac (macstr : bytes) : result bytes :=
  let parts := split ":"%byte macstr in
  if negb (len parts =? 6)
  then Raise (ValueError "given mac addresses has an invalid number of colons")
  else
    try* parts := map_result (fun part => int part 16) parts in
    try* parts := map_result chr parts in
    Ok (join [] parts).

Definition unpack_mac (sixbytes : bytes) : result bytes :=
  if negb (len sixbytes =? 6)
  then Raise (ValueError "given buffer is not exactly six bytes long")
  else Ok (join (b ":") (map format_2_2x (map ord sixbytes))).

(** ** dict(items) and d[key] *)

(** [d[key] = value] *)
Fixpoint dict_setitem (key value : bytes) (d : pydict) : pydict :=
  match d with
  | [] => [(key, value)]
  | (k, v) :: rest =>
      if decide (k = key) then (k, value) :: rest
      else (k, v) :: dict_setitem key value rest
  end.

(** [dict(items)] for a list of pairs: a later pair replaces the value of an
    earlier one with the same key.  The result is only looked up below, so
    the order in which it would be iterated plays no part. *)
Definition dict (items : list (bytes * bytes)) : pydict :=
  fold_left (fun d kv => dict_setitem (fst kv) (snd kv) d) items [].

(** [d[key]] *)
Fixpoint dict_getitem (d : pydict) (key : bytes) : result bytes :=
  match d with
  | [] => Raise KeyError
  | (k, v) :: rest => if decide (k = key) then Ok v else dict_getitem rest key
  end.

(** ** The dict of CPython 2.7 with [str] keys

    [update_object] is given a dict and appends [update.items()].  In
    CPython 2.7 the items come in the order of the slots of the hash table
    of the dict (Objects/dictobject.c), in which a key is placed by its hash
    (Objects/stringobject.c), not in the order of insertion.  The dict is
    modelled as far as [d = {}] and [d[key] = value] go, on a platform whose
    [long] and [size_t] both have [long_bits] bits and without randomized
    hashes.  A hash is given as the unsigned number with the same bits. *)

Module PyDictObject.

Section Platform.

Variable long_bits : Z.

(** [string_hash]: [x = s[0] << 7], then [x = (1000003 * x) ^ c] for every
    character [c], then [x ^= len(s)], in the arithmetic of [long]; the hash
    of the empty string is 0, and -1 is replaced by -2. *)
Definition string_hash (s : bytes) : Z :=
  match s with
  | [] => 0
  | p :: _ =>
      let x := Z.shiftl (ord p) 7 in
      let x := fold_left (fun x c => Z.lxor ((1000003 * x) mod 2 ^ long_bits) (ord c)) s x in
      let x := Z.lxor x (len s) in
      if x =? 2 ^ long_bits - 1 then 2 ^ long_bits - 2 else x
  end.

Record PyDictEntry : Type := mk_entry {
me_hash : Z;
me_key : bytes;
me_value : bytes
}.

(** [ma_table]: [ma_mask + 1] slots, each one empty ([me_key == NULL]) or
    holding an entry.  Nothing is deleted, so that there is no dummy entry,
    and [ma_fill] and [ma_used] are both the number of entries. *)
Record t : Type := mk { ma_table : list (option PyDictEntry) }.

Definition PyDict_MINSIZE : Z := 8.

Definition PERTURB_SHIFT : Z := 5.

Definition ma_mask (mp : t) : Z := len (ma_table mp) - 1.

Definition ma_used (mp : t) : Z := len (omap id (ma_table mp)).

Definition ma_fill (mp : t) : Z := ma_used mp.

(** [{}] *)
Definition empty : t := mk (replicate (Z.to_nat PyDict_MINSIZE) None).

(** The search of [lookdict_string] and of [insertdict_clean], from the
    slot [i & mask] on: it ends at an empty slot or at an entry that
    [found] accepts, and goes on otherwise with
    [i = (i << 2) + i + perturb + 1] and [perturb >>= PERTURB_SHIFT].  The
    loop of the source has no bound and ends since the table has an empty
    slot; here [None] stands for a search that has not ended after [fuel]
    rounds. *)
Fixpoint probe (fuel : nat) (table : list (option PyDictEntry))
    (found : PyDictEntry -> bool) (i perturb : Z) : option nat :=
  let slot := Z.to_nat (Z.land i (len table - 1)) in
  match table !! slot with
  | Some None => Some slot
  | Some (Some ep) =>
      if found ep then Some slot
      else match fuel with
           | O => None
           | Datatypes.S fuel' =>
               probe fuel' table found
                 ((Z.shiftl i 2 + i + perturb + 1) mod 2 ^ long_bits)
                 (Z.shiftr perturb PERTURB_SHIFT)
           end
  | None => None
  end.

(** Rounds enough for a search in a table with an empty slot: [perturb] is
    0 after [long_bits / 5 + 1] of them, and from then on [i = 5 i + 1]
    goes through all the slots of a table whose size is a power of two. *)
Definition rounds (table : list (option PyDictEntry)) : nat :=
  (Z.to_nat long_bits + length table)%nat.

(** [lookdict_string(mp, key, hash)]: the slot of the key, or the empty
    slot where it is to go. *)
Definition lookdict_string (mp : t) (key : bytes) (hash : Z) : option nat :=
  probe (rounds (ma_table mp)) (ma_table mp)
    (fun ep => (me_hash ep =? hash) && bool_decide (me_key ep = key))
    (Z.land hash (ma_mask mp)) hash.

(** [insertdict_clean(mp, key, hash, value)], on a table without the key. *)
Definition insertdict_clean (table : option (list (option PyDictEntry))) (ep : PyDictEntry)
    : option (list (option PyDictEntry)) :=
  table ← table;
  slot ← probe (rounds table) table (fun _ => false)
           (Z.land (me_hash ep) (len table - 1)) (me_hash ep);
  Some (<[slot := Some ep]> table).

(** The smallest table size above [minused]. *)
Fixpoint table_size (fuel : nat) (newsize minused : Z) : Z :=
  match fuel with
  | O => newsize
  | Datatypes.S fuel' =>
      if newsize <=? minused then table_size fuel' (Z.shiftl newsize 1) minused
      else newsize
  end.

(** [dictresize(mp, minused)]: the entries go to a new table in the order
    of their slots; a table of the least size without dummy entries is left
    as it is. *)
Definition dictresize (mp : t) (minused : Z) : option t :=
  let newsize := table_size (Z.to_nat minused) PyDict_MINSIZE minused in
  if (newsize =? PyDict_MINSIZE) && (len (ma_table mp) =? PyDict_MINSIZE)
  then Some mp
  else
    table ← fold_left insertdict_clean (omap id (ma_table mp))
              (Some (replicate (Z.to_nat newsize) None));
    Some (mk table).

(** [d[key] = value] ([PyDict_SetItem]): the value of a key that the dict
    holds is replaced where it is; a new key goes to the slot that the search
    has found, and the table is resized when it is two thirds full. *)
Definition setitem (key value : bytes) (mp : t) : option t :=
  let hash := string_hash key in
  slot ← lookdict_string mp key hash;
  match ma_table mp !! slot with
  | Some (Some ep) =>
      Some (mk (<[slot := Some (mk_entry (me_hash ep) (me_key ep) value)]> (ma_table mp)))
  | _ =>
      let mp' := mk (<[slot := Some (mk_entry hash key value)]> (ma_table mp)) in
      if ma_fill mp' * 3 >=? (ma_mask mp' + 1) * 2
      then dictresize mp' ((if ma_used mp' >? 50000 then 2 else 4) * ma_used mp')
      else Some mp'
  end.

(** [d.items()]: the entries in the order of their slots. *)
Definition items (mp : t) : pydict :=
  map (fun ep => (me_key ep, me_value ep)) (omap id (ma_table mp)).

(** The dict after [d = {}] and [d[key] = value] for the given pairs, in
    their order. *)
Definition of_insertions (pairs : list (bytes * bytes)) : option t :=
  fold_left (fun mp kv => mp ← mp; setitem (fst kv) (snd kv) mp) pairs (Some empty).

End Platform.

End PyDictObject.

(** ** The transport *)

(** What the peer does next on the stream: deliver some bytes, or break the
    connection.  When nothing is left the peer has closed the stream. *)
Inductive recv_event : Type :=
| RecvData (data : bytes)
| RecvError.

Module Socket.

Record t : Type := mk {
inbound : list recv_event;   (* what the peer will deliver *)
outbound : bytes;            (* what has been sent *)
broken : bool                (* sendall raises socket.error *)
}.

(** [connection.recv(length)]: at most [length] of the bytes that have
arrived; the empty string at the end of the stream. *)
Definition recv (length : Z) : M t bytes :=
fun self =>
match inbound self with
| [] => (Ok [], self)
| RecvError :: rest => (Raise socket_error, mk rest (outbound self) (broken self))
| RecvData data :: rest =>
    let later := match slice_from data length with
                 | [] => rest
                 | more => RecvData more :: rest
                 end in
    (Ok (slice_to data length), mk later (outbound self) (broken self))
end.

(** [connection.sendall(data)] *)
Definition sendall (data : bytes) : M t unit :=
fun self =>
if broken self then (Raise socket_error, self)
else (Ok tt, mk (inbound self) (outbound self ++ data) (broken self)).

(** The number of [recv] calls that the pending input can serve is below
this measure. *)
Definition pending (self : t) : nat :=
fold_right (fun ev n =>
            match ev with
            | RecvData data => Datatypes.S (Datatypes.length data + n)
            | RecvError => Datatypes.S n
            end) O (inbound self).

End Socket.

(** ** class Omapi *)

Module Omapi.

(** [hostname], [port] and [debug] only serve the constructor and the
debug printing, which are left out. *)
Record t : Type := mk {
authenticators : gmap Z OmapiAuthenticatorBase.t;
defauth : Z;
connection : option Socket.t;   (* [None] once closed *)
inbuffer : InBuffer.t
}.

Definition protocol_version : Z := 100.

Definition set_connection (c : option Socket.t) (self : t) : t :=
mk (authenticators self) (defauth self) c (inbuffer self).

Definition set_inbuffer (ib : InBuffer.t) (self : t) : t :=
mk (authenticators self) (defauth self) (connection self) ib.

(** A method call on [self.inbuffer]. *)
Definition on_inbuffer {A : Type} (m : M InBuffer.t A) : M t A :=
fun self =>
let (r, ib) := m (inbuffer self) in (r, set_inbuffer ib self).

(** A method call on [self.connection], which the caller has checked. *)
Definition on_connection {A : Type} (m : M Socket.t A) : M t A :=
fun self =>
match connection self with
| Some sock => let (r, sock') := m sock in (r, set_connection (Some sock') self)
| None => (Raise (OmapiError "not connected"), self)
end.

Definition is_socket_error (e : exn) : bool :=
match e with socket_error => true | _ => false end.

Definition is_size_limit (e : exn) : bool :=
match e with OmapiSizeLimitError => true | _ => false end.

Definition close : M t unit :=
fun self =>
match connection self with
| Some _ => (Ok tt, set_connection None self)
| None => (Ok tt, self)
end.

Definition check_connected : M t unit :=
fun self =>
match connection self with
| Some _ => (Ok tt, self)
| None => (Raise (OmapiError "not connected"), self)
end.

Definition recv_conn (length : Z) : M t bytes :=
let* _ := check_connected in
try_except (on_connection (Socket.recv length)) is_socket_error
(fun e => let* _ := close in raise e).

Definition send_conn (data : bytes) : M t unit :=
let* _ := check_connected in
try_except (on_connection (Socket.sendall data)) is_socket_error
(fun e => let* _ := close in raise e).

Definition fill_inbuffer : M t unit :=
let* data := recv_conn 2048 in
match data with
| [] => let* _ := close in raise (OmapiError "connection closed")
| _ :: _ =>
  try_except (on_inbuffer (InBuffer.feed data)) is_size_limit
    (fun e => let* _ := close in raise e)
end.

(** The [for message in self.inbuffer.parse_message()] of
[receive_message], from the generator [gen] on.  Every round but the
last takes input from the connection, so [fuel] rounds are enough when
[fuel] exceeds what is pending. *)
Fixpoint receive_message_from (fuel : nat) (gen : Parser OmapiMessage.t)
: M t OmapiMessage.t :=
fun self =>
match InBuffer.step gen (inbuffer self) with
| (Blocked gen', ib) =>
    match fuel with
    | O => (Hang, set_inbuffer ib self)
    | Datatypes.S fuel' =>
        (let* _ := fill_inbuffer in receive_message_from fuel' gen')
          (set_inbuffer ib self)
    end
| (Yielded message, ib) =>
    (let* _ := on_inbuffer InBuffer.resetsize in
     let* self' := get in
     let* verified := lift (OmapiMessage.verify message (authenticators self')) in
     if negb verified
     then let* _ := close in raise (OmapiError "bad omapi message signature")
     else ret message)
      (set_inbuffer ib self)
| (Exhausted, ib) => (Hang, set_inbuffer ib self)
end.

Definition receive_message : M t OmapiMessage.t :=
fun self =>
receive_message_from
  (Datatypes.S (from_option Socket.pending O (connection self)))
  InBuffer.parse_message self.

Definition receive_response (message : OmapiMessage.t) (insecure : bool)
: M t OmapiMessage.t :=
let* response := receive_message in
if negb (OmapiMessage.is_response response message)
then raise (OmapiError "received message is not the desired response")
else
let* self := get in
if negb (bool_decide (OmapiMessage.authid response = defauth self)) && negb insecure
then raise (OmapiError "received message is signed with wrong authenticator")
else ret response.

(** [send_message(message, sign)]: the message object is signed in place;
its state after the call is returned with the result. *)
Definition send_message (message : OmapiMessage.t) (sign : bool)
: M t OmapiMessage.t :=
let* _ := check_connected in
let* self := get in
let* message :=
(if sign then
   match authenticators self !! defauth self with
   | Some authenticator =>
       fun s => match OmapiMessage.sign authenticator message with
                | (Ok _, message') => (Ok message', s)
                | (Raise e, _) => (Raise e, s)
                | (Hang, _) => (Hang, s)
                end
   | None => raise KeyError
   end
 else ret message) in
let* data := lift (OmapiMessage.as_string message false) in
let* _ := send_conn data in
ret message.

Definition send_protocol_initialization : M t unit :=
let* _ := check_connected in
let* data := lift (fst ((let* _ := OutBuffer.add_net32int protocol_version in
                       let* _ := OutBuffer.add_net32int (4 * 6) in   (* header size *)
                       OutBuffer.getvalue) OutBuffer.init)) in
send_conn data.

(** The [for result in self.inbuffer.parse_startup_message()] of
[recv_protocol_initialization], from the generator [gen] on.  Once the
generator has yielded its result it is finished, which ends the loop. *)
Fixpoint recv_protocol_initialization_from (fuel : nat) (gen : Parser (unit * Z * Z))
: M t unit :=
fun self =>
match InBuffer.step gen (inbuffer self) with
| (Blocked gen', ib) =>
    match fuel with
    | O => (Hang, set_inbuffer ib self)
    | Datatypes.S fuel' =>
        (let* _ := fill_inbuffer in recv_protocol_initialization_from fuel' gen')
          (set_inbuffer ib self)
    end
| (Yielded result, ib) =>
    (let* _ := on_inbuffer InBuffer.resetsize in
     let '(_, version, header_size) := result in
     if negb (version =? protocol_version)
     then let* _ := close in raise (OmapiError "protocol mismatch")
     else if negb (header_size =? 4 * 6)
     then let* _ := close in raise (OmapiError "header size mismatch")
     else ret tt)
      (set_inbuffer ib self)
| (Exhausted, ib) => (Hang, set_inbuffer ib self)
end.

Definition recv_protocol_initialization : M t unit :=
fun self =>
recv_protocol_initialization_from
  (Datatypes.S (from_option Socket.pending O (connection self)))
  InBuffer.parse_startup_message self.

(** [query_server(message)]: the message is signed in place by
[send_message], and it is the signed message that [receive_response] is
given. *)
Definition query_server (message : OmapiMessage.t) : M t OmapiMessage.t :=
let* message := send_message message true in
receive_response message false.

(** The methods below make messages, whose transaction ids come from the
module's [sysrand]: they run on the client together with the generator. *)
Record process : Type := mk_process {
client : t;
sysrand : SystemRandom.t
}.

Definition on_client {A : Type} (m : M t A) : M process A :=
fun p =>
let (r, self) := m (client p) in (r, mk_process self (sysrand p)).

Definition on_sysrand {A : Type} (m : M SystemRandom.t A) : M process A :=
fun p =>
let (r, rand) := m (sysrand p) in (r, mk_process (client p) rand).

(** [msg.message.append(item)] and [msg.obj.append(item)] *)
Definition message_append (item : bytes * bytes) (msg : OmapiMessage.t) : OmapiMessage.t :=
OmapiMessage.set_message (OmapiMessage.message msg ++ [item]) msg.

Definition obj_append (item : bytes * bytes) (msg : OmapiMessage.t) : OmapiMessage.t :=
OmapiMessage.set_obj (OmapiMessage.obj msg ++ [item]) msg.

Definition is_key_error (e : exn) : bool :=
match e with KeyError => true | _ => false end.

(** [initialize_authenticator(authenticator)].  The authenticator is an
object that the registry does not hold yet, as in the constructor: the
assignment to its [authid] is then seen through the new entry only. *)
Definition initialize_authenticator (authenticator : OmapiAuthenticatorBase.t)
: M process unit :=
let* msg := on_sysrand (OmapiMessage.open (b "authenticator")) in
let msg := snd (OmapiMessage.update_object
                (OmapiAuthenticatorBase.auth_object authenticator) msg) in
let* response := on_client (query_server msg) in
if negb (OmapiMessage.opcode response =? OMAPI_OP_UPDATE)
then raise (OmapiError "received non-update response for open")
else
let authid := OmapiMessage.handle response in
if authid =? 0
then raise (OmapiError "received invalid authid from server")
else
on_client (modify (fun self =>
  mk (<[authid := OmapiAuthenticatorBase.set_authid authid authenticator]>
        (authenticators self))
     authid (connection self) (inbuffer self))).

Definition add_host (ip mac : bytes) : M process unit :=
let* msg := on_sysrand (OmapiMessage.open (b "host")) in
let msg := message_append (b "create", struct_pack_I 1) msg in
let msg := message_append (b "exclusive", struct_pack_I 1) msg in
let* hardware_address := lift (pack_mac mac) in
let msg := obj_append (b "hardware-address", hardware_address) msg in
let msg := obj_append (b "hardware-type", struct_pack_I 1) msg in
let* ip_address := lift (pack_ip ip) in
let msg := obj_append (b "ip-address", ip_address) msg in
let* response := on_client (query_server msg) in
if negb (OmapiMessage.opcode response =? OMAPI_OP_UPDATE)
then raise (OmapiError "add failed")
else ret tt.

Definition update_host (mac ip : bytes) : M process unit :=
let* msg := on_sysrand (OmapiMessage.open (b "host")) in
let* hardware_address := lift (pack_mac mac) in
let msg := obj_append (b "hardware-address", hardware_address) msg in
let* response := on_client (query_server msg) in
if negb (OmapiMessage.opcode response =? OMAPI_OP_UPDATE)
then add_host ip mac   (* this host does not exist *)
else
let* update := on_sysrand (OmapiMessage.update (OmapiMessage.handle response)) in
let* ip_address := lift (pack_ip ip) in
let update := OmapiMessage.set_obj [(b "ip-address", ip_address)] update in
let* response := on_client (query_server update) in
if negb (OmapiMessage.opcode response =? OMAPI_OP_STATUS)
then raise (OmapiError ("Could not update host with mac: " ++ string_of_list_byte mac))
else ret tt.

Definition del_host (mac : bytes) : M process unit :=
let* msg := on_sysrand (OmapiMessage.open (b "host")) in
let* hardware_address := lift (pack_mac mac) in
let msg := obj_append (b "hardware-address", hardware_address) msg in
let msg := obj_append (b "hardware-type", struct_pack_I 1) msg in
let* response := on_client (query_server msg) in
if negb (OmapiMessage.opcode response =? OMAPI_OP_UPDATE)
then raise OmapiErrorNotFound
else if OmapiMessage.handle response =? 0
then raise (OmapiError "received invalid handle from server")
else
let* msg := on_sysrand (OmapiMessage.delete (OmapiMessage.handle response)) in
let* response := on_client (query_server msg) in
if negb (OmapiMessage.opcode response =? OMAPI_OP_STATUS)
then raise (OmapiError "delete failed")
else ret tt.

Definition lookup_ip (mac : bytes) : M process bytes :=
let* msg := on_sysrand (OmapiMessage.open (b "host")) in
let* hardware_address := lift (pack_mac mac) in
let msg := obj_append (b "hardware-address", hardware_address) msg in
let* response := on_client (query_server msg) in
if negb (OmapiMessage.opcode response =? OMAPI_OP_UPDATE)
then raise OmapiErrorNotFound
else
try_except
  (let* fourbytes := lift (dict_getitem (dict (OmapiMessage.obj response))
                                        (b "ip-address")) in
   lift (unpack_ip fourbytes))
  is_key_error
  (fun _ => raise OmapiErrorNotFound).

Definition lookup_mac (ip : bytes) : M process bytes :=
let* msg := on_sysrand (OmapiMessage.open (b "host")) in
let* ip_address := lift (pack_ip ip) in
let msg := obj_append (b "ip-address", ip_address) msg in
let* response := on_client (query_server msg) in
if negb (OmapiMessage.opcode response =? OMAPI_OP_UPDATE)
then raise OmapiErrorNotFound
else
try_except
  (let* sixbytes := lift (dict_getitem (dict (OmapiMessage.obj response))
                                       (b "hardware-address")) in
   lift (unpack_mac sixbytes))
  is_key_error
  (fun _ => raise OmapiErrorNotFound).

(** [Omapi(hostname, port, username, key)] from the point where the socket
is connected: [sock] is the connection that [connect] has made, and
[newauth] the authenticator that the constructor has built from
[username] and [key], if both were given.  The new object is the client
of the process. *)
Definition init (sock : Socket.t) (newauth : option OmapiAuthenticatorBase.t)
  (rand : SystemRandom.t) : result unit * process :=
(let* _ := on_client send_protocol_initialization in
 let* _ := on_client recv_protocol_initialization in
 match newauth with
 | Some authenticator => initialize_authenticator authenticator
 | None => ret tt
 end)
  (mk_process (mk {[ 0 := OmapiNullAuthenticator ]} 0 (Some sock) InBuffer.init) rand).

End Omapi.

(** ** The wire format of the module's docstring

    [dictionary = entry* 0x00 0x00], [entry = key (net16str) value
    (net32str)], and the nine parts of a message.  The encoders are compared
    with it below. *)

Definition wire_net16string (s : bytes) : bytes := struct_pack_H (len s) ++ s.

Definition wire_net32string (s : bytes) : bytes := struct_pack_L (len s) ++ s.

Definition wire_entry (kv : bytes * bytes) : bytes :=
  wire_net16string (fst kv) ++ wire_net32string (snd kv).

Definition wire_entries (items : list (bytes * bytes)) : bytes :=
  concat (map wire_entry items).

Definition wire_bindict (items : list (bytes * bytes)) : bytes :=
  wire_entries items ++ [x00; x00].

(** The part of a message that is signed: authlen to object. *)
Definition wire_signed (m : OmapiMessage.t) : bytes :=
  struct_pack_L (len (OmapiMessage.signature m))
  ++ struct_pack_L (OmapiMessage.opcode m)
  ++ struct_pack_L (OmapiMessage.handle m)
  ++ struct_pack_L (OmapiMessage.tid m)
  ++ struct_pack_L (OmapiMessage.rid m)
  ++ wire_bindict (OmapiMessage.message m)
  ++ wire_bindict (OmapiMessage.obj m).

Definition wire_message (m : OmapiMessage.t) : bytes :=
  struct_pack_L (OmapiMessage.authid m) ++ wire_signed m ++ OmapiMessage.signature m.

(** Keys and values that a dictionary on the wire can carry: a key is not
    empty and its length fits 16 bits, the length of a value fits 32 bits. *)
Definition wf_entry (kv : bytes * bytes) : Prop :=
  0 < len (fst kv) <= 65535 /\ len (snd kv) < 4294967296.

Definition wf_dict (items : list (bytes * bytes)) : Prop := Forall wf_entry items.

Definition uint32 (n : Z) : Prop := 0 <= n < 4294967296.

Definition uint16 (n : Z) : Prop := 0 <= n < 65536.

(** ** Encoding: what an operation appends *)

(** [m] appends [wire] to the buffer, or stops with the size-limit error
    just after the write that crossed the limit.  When [strict], [m] ends
    with a checked write, so that it returns only within the limit. *)
Definition appends (strict : bool) (m : M OutBuffer.t unit) (wire : bytes) : Prop :=
  forall self,
    (m self = (Ok tt, OutBuffer.mk (OutBuffer.buff self ++ wire)) /\
     (strict = true -> len (OutBuffer.buff self ++ wire) <= OutBuffer.sizelimit))
    \/
    (exists written rest,
        wire = written ++ rest /\
        len (OutBuffer.buff self ++ written) > OutBuffer.sizelimit /\
        m self = (Raise OmapiSizeLimitError,
                  OutBuffer.mk (OutBuffer.buff self ++ written))).

(** The range checks of the integer encoders. *)
Definition uint32b (n : Z) : bool := negb ((n <? 0) || (n >=? 4294967296)).
Definition uint16b (n : Z) : bool := negb ((n <? 0) || (n >=? 65536)).

(** Keys and values that the encoder accepts. *)
Definition encodable (kv : bytes * bytes) : Prop :=
  len (fst kv) < 65536 /\ len (snd kv) < 4294967296.

(** The arguments that [as_string] passes to the encoders are in range. *)
Definition serializable (m : OmapiMessage.t) (forsigning : bool) : Prop :=
  (forsigning = false -> uint32 (OmapiMessage.authid m)) /\
  len (OmapiMessage.signature m) < 4294967296 /\
  uint32 (OmapiMessage.opcode m) /\ uint32 (OmapiMessage.handle m) /\
  uint32 (OmapiMessage.tid m) /\ uint32 (OmapiMessage.rid m) /\
  Forall encodable (OmapiMessage.message m) /\
  Forall encodable (OmapiMessage.obj m).

(** The bytes that [as_string] is to produce. *)
Definition wire (m : OmapiMessage.t) (forsigning : bool) : bytes :=
  if forsigning then wire_signed m else wire_message m.

Inductive encode_op : Type :=
| Add (data : bytes)
| Add_net16int (integer : Z)
| Add_net32int (integer : Z)
| Add_net16string (string : bytes)
| Add_net32string (string : bytes)
| Add_bindict (items : list (bytes * bytes)).

(** The method that the operation stands for. *)
Definition run_op (op : encode_op) : M OutBuffer.t unit :=
  match op with
  | Add data => OutBuffer.add data
  | Add_net16int integer => OutBuffer.add_net16int integer
  | Add_net32int integer => OutBuffer.add_net32int integer
  | Add_net16string string => OutBuffer.add_net16string string
  | Add_net32string string => OutBuffer.add_net32string string
  | Add_bindict items => OutBuffer.add_bindict items
  end.

(** The bytes that the operation is to append. *)
Definition op_wire (op : encode_op) : bytes :=
  match op with
  | Add data => data
  | Add_net16int integer => struct_pack_H integer
  | Add_net32int integer => struct_pack_L integer
  | Add_net16string string => wire_net16string string
  | Add_net32string string => wire_net32string string
  | Add_bindict items => wire_bindict items
  end.

(** The arguments pass the range checks of the encoders (no ValueError). *)
Definition op_in_range (op : encode_op) : Prop :=
  match op with
  | Add _ => True
  | Add_net16int integer => uint16 integer
  | Add_net32int integer => uint32 integer
  | Add_net16string string => len string < 65536
  | Add_net32string string => len string < 4294967296
  | Add_bindict items => Forall encodable items
  end.

(** ** The writes of an encode operation *)

(** The writes that [add_bindict] makes for its items, in order: the length
    of a key and the key, the length of a value and the value, and the end
    marker after the last entry.  A key or a value that its encoder rejects
    ends them. *)
Fixpoint entries_writes (items : list (bytes * bytes)) : list bytes :=
  match items with
  | [] => [[x00; x00]]
  | (key, value) :: rest =>
      if len key >=? 65536 then []
      else struct_pack_H (len key) :: key ::
           (if len value >=? 4294967296 then []
            else struct_pack_L (len value) :: value :: entries_writes rest)
  end.

(** The writes that the operation makes, in order, each by one call of
    [add]; an encoder that rejects its argument makes none. *)
Definition op_writes (op : encode_op) : list bytes :=
  match op with
  | Add data => [data]
  | Add_net16int integer => if uint16b integer then [struct_pack_H integer] else []
  | Add_net32int integer => if uint32b integer then [struct_pack_L integer] else []
  | Add_net16string string =>
      if len string >=? 65536 then [] else [struct_pack_H (len string); string]
  | Add_net32string string =>
      if len string >=? 4294967296 then [] else [struct_pack_L (len string); string]
  | Add_bindict items => entries_writes items
  end.

Fixpoint entries_rejected (items : list (bytes * bytes)) : option string :=
  match items with
  | [] => None
  | (key, value) :: rest =>
      if (len key >=? 65536) || (len value >=? 4294967296)
      then Some "string too long"%string
      else entries_rejected rest
  end.

(** The message of the ValueError of the first range check that fails, if
    one does. *)
Definition op_rejected (op : encode_op) : option string :=
  match op with
  | Add _ => None
  | Add_net16int integer =>
      if uint16b integer then None else Some "not a 16bit unsigned integer"%string
  | Add_net32int integer =>
      if uint32b integer then None else Some "not a 32bit unsigned integer"%string
  | Add_net16string string =>
      if len string >=? 65536 then Some "string too long"%string else None
  | Add_net32string string =>
      if len string >=? 4294967296 then Some "string too long"%string else None
  | Add_bindict items => entries_rejected items
  end.

(** Calls of [add] one after the other, and then the ValueError, if any. *)
Fixpoint run_writes (writes : list bytes) (rejected : option string) : M OutBuffer.t unit :=
  match writes with
  | [] =>
      match rejected with
      | Some msg => raise (ValueError msg)
      | None => ret tt
      end
  | data :: rest => let* _ := OutBuffer.add data in run_writes rest rejected
  end.

(** The encoders that take one integer or one string. *)
Definition scalar_op (op : encode_op) : bool :=
  match op with
  | Add_bindict _ => false
  | _ => true
  end.

(** ** Signing *)

(** The state of a message when [sign] serializes it. *)
Definition presigned (authenticator : OmapiAuthenticatorBase.t) (m : OmapiMessage.t)
    : OmapiMessage.t :=
  OmapiMessage.set_signature (zeroes (OmapiAuthenticatorBase.authlen authenticator))
    (OmapiMessage.set_authid (OmapiAuthenticatorBase.authid authenticator) m).

(** The fields of a message that are signed, with the length of its
    signature. *)
Definition signed_fields (m : OmapiMessage.t)
    : Z * Z * Z * Z * Z * list (bytes * bytes) * list (bytes * bytes) :=
  (len (OmapiMessage.signature m), OmapiMessage.opcode m, OmapiMessage.handle m,
   OmapiMessage.tid m, OmapiMessage.rid m, OmapiMessage.message m, OmapiMessage.obj m).

(** A parser for the signed part of a message, built from the parsers of
    the source; it serves to show that the signed part determines the
    signed fields. *)
Definition parse_signed
    : Parser (Z * Z * Z * Z * Z * list (bytes * bytes) * list (bytes * bytes)) :=
  parse_map
    (fun '(_, authlen, opcode, handle, tid, rid, message, obj) =>
       (authlen, opcode, handle, tid, rid, message, obj))
    (parse_chain0
       +> (fun _ => InBuffer.parse_net32int)
       +> (fun _ => InBuffer.parse_net32int)
       +> (fun _ => InBuffer.parse_net32int)
       +> (fun _ => InBuffer.parse_net32int)
       +> (fun _ => InBuffer.parse_net32int)
       +> (fun _ => InBuffer.parse_bindict)
       +> (fun _ => InBuffer.parse_bindict)).

(** ** The specification's reading of update_object *)

(** Remove every entry with the given key. *)
Fixpoint remove_key (key : bytes) (entries : list (bytes * bytes)) : list (bytes * bytes) :=
  match entries with
  | [] => []
  | (k, v) :: rest =>
      if decide (k = key) then remove_key key rest else (k, v) :: remove_key key rest
  end.

(** Remove any entry whose key appears among [keys]. *)
Definition remove_keys (keys : list bytes) (entries : list (bytes * bytes))
    : list (bytes * bytes) :=
  fold_left (fun acc key => remove_key key acc) keys entries.

(** ** The operations on an InBuffer, as data *)

(** What a user of an InBuffer does with it: feed it, reset its meter, or
    ask a generator bound to it for its next element. *)
Inductive inbuffer_op : Type :=
| Feed (data : bytes)
| Resetsize
| Next {A : Type} (gen : Parser A).

(** The buffer after the operation, whether it returned or raised. *)
Definition run_inbuffer_op (self : InBuffer.t) (op : inbuffer_op) : InBuffer.t :=
  match op with
  | Feed data => snd (InBuffer.feed data self)
  | Resetsize => snd (InBuffer.resetsize self)
  | Next gen => snd (InBuffer.step gen self)
  end.

(** A sequence of operations, from left to right. *)
Definition run_inbuffer_ops (ops : list inbuffer_op) (self : InBuffer.t) : InBuffer.t :=
  fold_left run_inbuffer_op ops self.

(** No [feed] of the sequence raised. *)
Fixpoint feeds_return (ops : list inbuffer_op) (self : InBuffer.t) : Prop :=
  match ops with
  | [] => True
  | op :: rest =>
      match op with
      | Feed data => fst (InBuffer.feed data self) = Ok tt
      | _ => True
      end /\ feeds_return rest (run_inbuffer_op self op)
  end.

(** ** Generators that end *)

(** A generator whose loops take bytes: every round of a loop that goes
    round again has taken at least one byte off the buffer.  For such a
    generator the bound of [next] is never reached. *)
Inductive productive : forall A : Type, Parser A -> Prop :=
| productive_Ret (A : Type) (a : A) : productive A (Ret a)
| productive_ParseFixed (n : Z) : productive bytes (ParseFixed n)
| productive_Bind (A B : Type) (p : Parser A) (k : A -> Parser B) :
    productive A p -> (forall a, productive B (k a)) -> productive B (Bind p k)
| productive_Loop (S A : Type) (body : S -> Parser (S + A)) (s : S) :
    (forall s', productive (S + A) (body s')) ->
    (forall s0 buff s' buff',
        next (body s0) buff = (Yielded (inl s'), buff') ->
        (length buff' < length buff)%nat) ->
    productive A (Loop body s).

(** What [next] gives for such a generator: never [Exhausted], and a
    suspended generator of the same kind. *)
Definition proceeds {A : Type} (r : Step A * bytes) : Prop :=
  match r with
  | (Exhausted, _) => False
  | (Blocked p', _) => productive A p'
  | (Yielded _, _) => True
  end.

(** A call that returns or raises. *)
Definition settles {St A : Type} (m : M St A) : Prop :=
  forall s, fst (m s) <> Hang.

(** What the peer of a client still has to deliver, zero once closed. *)
Definition client_pending (self : Omapi.t) : nat :=
  from_option Socket.pending O (Omapi.connection self).

(** ** Generators that are resumed *)

(** A generator that reads forward: it asks [parse_fixedbuffer] for
    non-negative lengths only, its loops take bytes at every round, and what
    it yields satisfies [Q].  In a loop, [I] holds of the state at every
    round. *)
Inductive reads : forall A : Type, (A -> Prop) -> Parser A -> Prop :=
| reads_Ret (A : Type) (Q : A -> Prop) (a : A) : Q a -> reads A Q (Ret a)
| reads_ParseFixed (Q : bytes -> Prop) (n : Z) :
    0 <= n -> (forall data, Q data) -> reads bytes Q (ParseFixed n)
| reads_Bind (A B : Type) (P : A -> Prop) (Q : B -> Prop) (p : Parser A)
    (k : A -> Parser B) :
    reads A P p -> (forall a, P a -> reads B Q (k a)) -> reads B Q (Bind p k)
| reads_Loop (S A : Type) (I : S -> Prop) (Q : A -> Prop)
    (body : S -> Parser (S + A)) (s : S) :
    I s ->
    (forall s', I s' ->
                reads (S + A) (fun r => match r with inl s'' => I s'' | inr a => Q a end)
                  (body s')) ->
    (forall s0 buff s' buff',
        next (body s0) buff = (Yielded (inl s'), buff') ->
        (length buff' < length buff)%nat) ->
    reads A Q (Loop body s).

(** The loop of the callers of a generator, on a buffer that is fed a chunk
    each time the generator yields [None]. *)
Fixpoint next_fed {A : Type} (gen : Parser A) (buff : bytes) (chunks : list bytes)
    : Step A * bytes :=
  match next gen buff with
  | (Blocked gen', buff') =>
      match chunks with
      | [] => (Blocked gen', buff')
      | chunk :: later => next_fed gen' (buff' ++ chunk) later
      end
  | other => other
  end.

(** What [next] gives on a buffer, and what it gives when [more] follows. *)
Definition resumes {A : Type} (Q : A -> Prop) (p : Parser A) (b1 more : bytes) : Prop :=
  match next p b1 with
  | (Yielded a, rest) => Q a /\ next p (b1 ++ more) = (Yielded a, rest ++ more)
  | (Blocked p', rest) => reads A Q p' /\ next p (b1 ++ more) = next p' (rest ++ more)
  | (Exhausted, _) => False
  end.

(** ** Well-formed addresses *)

(** An octet in canonical decimal: decimal digits, at least one, no leading
    zero unless it is the single digit, value at most 255. *)
Definition canonical_octet (p : bytes) : bool :=
  match digits_value 10 0 p with
  | Some v =>
      (v <? 256)
      && match p with
         | [] => false
         | "0"%byte :: _ :: _ => false
         | _ => true
         end
  | None => false
  end.

(** Decimal digits, at least one, with value at most 255: leading zeros are
    allowed. *)
Definition decimal_octet (p : bytes) : bool :=
  match digits_value 10 0 p with
  | Some v => (v <? 256) && negb (bool_decide (p = []))
  | None => false
  end.

(** A hexadecimal digit, of either case. *)
Definition is_hex (c : byte) : bool :=
  match digit_value 16 c with
  | Some _ => true
  | None => false
  end.

(** A group of a colon-hex MAC address: exactly two hexadecimal digits. *)
Definition hex_pair (p : bytes) : bool :=
  match p with
  | [c1; c2] => is_hex c1 && is_hex c2
  | _ => false
  end.

(** The digits of a canonical octet, as numbers. *)
Inductive octet_digits : bytes -> Z -> Prop :=
| octet_1 c d : ord c = d + 48 -> 0 <= d < 10 -> octet_digits [c] d
| octet_2 c1 c2 d1 d2 :
    ord c1 = d1 + 48 -> ord c2 = d2 + 48 -> 1 <= d1 < 10 -> 0 <= d2 < 10 ->
    octet_digits [c1; c2] (d1 * 10 + d2)
| octet_3 c1 c2 c3 d1 d2 d3 :
    ord c1 = d1 + 48 -> ord c2 = d2 + 48 -> ord c3 = d3 + 48 ->
    1 <= d1 < 10 -> 0 <= d2 < 10 -> 0 <= d3 < 10 ->
    octet_digits [c1; c2; c3] ((d1 * 10 + d2) * 10 + d3).

(** The hexadecimal digits, and what is checked of each pair of them. *)
Definition hex_chars : bytes := b "0123456789abcdefABCDEF".

Definition check_hex_pair (c1 c2 : byte) : bool :=
  match int [c1; c2] 16 with
  | Ok n =>
      match chr n with
      | Ok [c] => bool_decide (format_2_2x (ord c) = lower [c1; c2])
      | _ => false
      end
  | _ => false
  end
  && negb (bool_decide (c1 = ":"%byte)) && negb (bool_decide (c2 = ":"%byte)).

(** ** Tables of the 256 bytes *)

(** What is checked of a byte printed as two hexadecimal digits: [int]
    reads it back, and there is no colon in it. *)
Definition check_hex_byte (c : byte) : bool :=
  match int (format_2_2x (ord c)) 16 with
  | Ok n => n =? ord c
  | _ => false
  end
  && forallb (fun x => negb (bool_decide (x = ":"%byte))) (format_2_2x (ord c)).

(** ** Chains of encoder calls *)

(** The calls of a chain such as
    [buff.add_net16string(key).add_net32string(value)], from left to
    right: an exception ends the chain. *)
Fixpoint run_ops (ops : list encode_op) : M OutBuffer.t unit :=
  match ops with
  | [] => ret tt
  | op :: rest => let* _ := run_op op in run_ops rest
  end.

(** ** Lookup in a list of pairs *)

(** The value of the last pair with the given key. *)
Fixpoint last_value (key : bytes) (items : list (bytes * bytes)) : option bytes :=
  match items with
  | [] => None
  | (k, v) :: rest =>
      match last_value key rest with
      | Some v' => Some v'
      | None => if decide (k = key) then Some v else None
      end
  end.

(** ** What a method keeps, and what it raises *)

(** A property of an object that a method keeps, however it ends. *)
Definition preserves {St A : Type} (I : St -> Prop) (m : M St A) : Prop :=
  forall s, I s -> I (snd (m s)).

(** What a method raises when it raises. *)
Definition raises_only {St A : Type} (P : exn -> Prop) (m : M St A) : Prop :=
  forall s e s', m s = (Raise e, s') -> P e.

(** The errors of the encoders: an argument out of range, or the size
    limit. *)
Definition encoder_error (e : exn) : Prop :=
  match e with
  | ValueError _ | OmapiSizeLimitError => True
  | _ => False
  end.

(** What the methods of the connection raise. *)
Definition connection_error (e : exn) : Prop :=
  e = socket_error \/ e = OmapiError "not connected".

(** What the receiving methods raise: an error of the socket, the size
    limit of the input buffer, or an OmapiError. *)
Definition receive_error (e : exn) : Prop :=
  e = socket_error \/ e = OmapiSizeLimitError \/ exists msg, e = OmapiError msg.

(** ** What holds of a client throughout *)

(** The registry holds the null authenticator at 0, and at the default id
    an authenticator that carries this id. *)
Definition registry_ok (self : Omapi.t) : Prop :=
  Omapi.authenticators self !! 0 = Some OmapiNullAuthenticator /\
  exists authenticator,
    Omapi.authenticators self !! Omapi.defauth self = Some authenticator /\
    OmapiAuthenticatorBase.authid authenticator = Omapi.defauth self.

(** The meter of the input buffer covers the unparsed bytes, and it is
    within the limit unless the connection has been closed. *)
Definition buffer_ok (self : Omapi.t) : Prop :=
  len (InBuffer.buff (Omapi.inbuffer self)) <= InBuffer.totalsize (Omapi.inbuffer self) /\
  (InBuffer.totalsize (Omapi.inbuffer self) <= InBuffer.sizelimit \/
   Omapi.connection self = None).

Definition client_ok (self : Omapi.t) : Prop := registry_ok self /\ buffer_ok self.

(** The process: the client is as it should be, whatever [sysrand] gives. *)
Definition process_ok (p : Omapi.process) : Prop := client_ok (Omapi.client p).

(** ** The calls of a program *)

(** The calls that a user of a client makes. *)
Inductive client_call : Type :=
| Call_close
| Call_check_connected
| Call_recv_conn (length : Z)
| Call_send_conn (data : bytes)
| Call_fill_inbuffer
| Call_send_protocol_initialization
| Call_recv_protocol_initialization
| Call_receive_message
| Call_receive_response (message : OmapiMessage.t) (insecure : bool)
| Call_send_message (message : OmapiMessage.t) (sign : bool)
| Call_query_server (message : OmapiMessage.t)
| Call_initialize_authenticator (authenticator : OmapiAuthenticatorBase.t)
| Call_add_host (ip mac : bytes)
| Call_update_host (mac ip : bytes)
| Call_del_host (mac : bytes)
| Call_lookup_ip (mac : bytes)
| Call_lookup_mac (ip : bytes).

(** The result of a call without its value. *)
Definition forget {A St : Type} (x : result A * St) : result unit * St :=
  (match fst x with
   | Ok _ => Ok tt
   | Raise e => Raise e
   | Hang => Hang
   end, snd x).

(** How a call ends, and the process after it. *)
Definition do_call (call : client_call) (p : Omapi.process) : result unit * Omapi.process :=
  match call with
  | Call_close => forget (Omapi.on_client Omapi.close p)
  | Call_check_connected => forget (Omapi.on_client Omapi.check_connected p)
  | Call_recv_conn length => forget (Omapi.on_client (Omapi.recv_conn length) p)
  | Call_send_conn data => forget (Omapi.on_client (Omapi.send_conn data) p)
  | Call_fill_inbuffer => forget (Omapi.on_client Omapi.fill_inbuffer p)
  | Call_send_protocol_initialization =>
      forget (Omapi.on_client Omapi.send_protocol_initialization p)
  | Call_recv_protocol_initialization =>
      forget (Omapi.on_client Omapi.recv_protocol_initialization p)
  | Call_receive_message => forget (Omapi.on_client Omapi.receive_message p)
  | Call_receive_response message insecure =>
      forget (Omapi.on_client (Omapi.receive_response message insecure) p)
  | Call_send_message message sign =>
      forget (Omapi.on_client (Omapi.send_message message sign) p)
  | Call_query_server message => forget (Omapi.on_client (Omapi.query_server message) p)
  | Call_initialize_authenticator authenticator =>
      forget (Omapi.initialize_authenticator authenticator p)
  | Call_add_host ip mac => forget (Omapi.add_host ip mac p)
  | Call_update_host mac ip => forget (Omapi.update_host mac ip p)
  | Call_del_host mac => forget (Omapi.del_host mac p)
  | Call_lookup_ip mac => forget (Omapi.lookup_ip mac p)
  | Call_lookup_mac ip => forget (Omapi.lookup_mac ip p)
  end.

(** The process after a call, whether it returned or raised. *)
Definition run_call (p : Omapi.process) (call : client_call) : Omapi.process :=
  snd (do_call call p).

Definition run_calls (calls : list client_call) (p : Omapi.process) : Omapi.process :=
  fold_left run_call calls p.

(** The process of a program that has made a client and then calls its
    methods; each authenticator that it registers is an object of its
    own. *)
Definition program (sock : Socket.t) (newauth : option OmapiAuthenticatorBase.t)
    (rand : SystemRandom.t) (calls : list client_call) : Omapi.process :=
  run_calls calls (snd (Omapi.init sock newauth rand)).

(** ** An exchange with the server *)

(** The registry of a client without credentials. *)
Definition null_registry : gmap Z OmapiAuthenticatorBase.t :=
  {[ 0 := OmapiNullAuthenticator ]}.

(** A connected client: its registry and default id, the socket with what
    the peer will deliver and what has been sent, and an input buffer that
    is empty and freshly reset. *)
Definition connected (authenticators : gmap Z OmapiAuthenticatorBase.t) (defauth : Z)
    (inbound : list recv_event) (outbound : bytes) : Omapi.t :=
  Omapi.mk authenticators defauth (Some (Socket.mk inbound outbound false))
    (InBuffer.mk [] 0).

(** The same client once disconnected. *)
Definition disconnected (authenticators : gmap Z OmapiAuthenticatorBase.t) (defauth : Z)
    : Omapi.t :=
  Omapi.mk authenticators defauth None (InBuffer.mk [] 0).

(** The pieces in which the peer delivers some bytes: none is empty and
    none is longer than a read of the client. *)
Definition pieces (chunks : list bytes) (data : bytes) : Prop :=
  concat chunks = data /\ Forall (fun chunk => 0 < len chunk <= 2048) chunks.

(** The bytes of the protocol initialization: version 100 and header size
    24, each on four bytes. *)
Definition startup_wire : bytes := struct_pack_L 100 ++ struct_pack_L 24.

(** What [recv_protocol_initialization] does with the result of the
    generator. *)
Definition startup_outcome (version header_size : Z) : result unit :=
  if negb (version =? Omapi.protocol_version)
  then Raise (OmapiError "protocol mismatch")
  else if negb (header_size =? 4 * 6)
  then Raise (OmapiError "header size mismatch")
  else Ok tt.

(** The transaction id that the next [generate_tid] draws, and the
    generator after it. *)
Definition next_tid (rand : SystemRandom.t) : Z :=
  SystemRandom.draws rand (SystemRandom.drawn rand) mod 4294967296.

Definition advance (rand : SystemRandom.t) : SystemRandom.t :=
  SystemRandom.mk (SystemRandom.draws rand) (Datatypes.S (SystemRandom.drawn rand)).

(** A new message with the given opcode, handle, transaction id and
    dictionaries. *)
Definition request_message (opcode handle tid : Z) (message obj : list (bytes * bytes))
    : OmapiMessage.t :=
  OmapiMessage.mk 0 opcode handle tid 0 message obj [].

(** The authenticator signs the message, and [request] is the
    serialization of the signed message. *)
Definition signs (authenticator : OmapiAuthenticatorBase.t) (msg : OmapiMessage.t)
    (request : bytes) : Prop :=
  exists signed,
    OmapiMessage.sign authenticator msg = (Ok tt, signed) /\
    OmapiMessage.as_string signed false = Ok request.

(** The peer answers the request with transaction id [tid]: the pieces it
    delivers are the serialization of [reply], a message with well-formed
    dictionaries that carries [tid] as response id and the default id of
    the client, and that verifies with the registry of the client. *)
Definition answers (authenticators : gmap Z OmapiAuthenticatorBase.t) (defauth tid : Z)
    (reply : OmapiMessage.t) (chunks : list bytes) : Prop :=
  wf_dict (OmapiMessage.message reply) /\ wf_dict (OmapiMessage.obj reply) /\
  (exists data, OmapiMessage.as_string reply false = Ok data /\ pieces chunks data) /\
  OmapiMessage.verify reply authenticators = Ok true /\
  OmapiMessage.rid reply = tid /\
  OmapiMessage.authid reply = defauth.

(** ** Examples *)

(** A message with a zero signature of sixteen bytes. *)
Definition example_message : OmapiMessage.t :=
  OmapiMessage.mk 7 1 2 3 4 [(b "type", b "host")] [(b "ip-address", [x7f; x00; x00; x01])]
    (zeroes 16).

(** A stand-in for the digest in the examples (not a MAC): the first sixteen
    bytes of the key-padded message. *)
Definition toy_digest (key message : bytes) : bytes :=
  firstn 16 (message ++ key ++ repeat x00 16).

(** An HMAC authenticator after the handshake gave it the id 5, with the
    stand-in digest. *)
Definition example_authenticator : OmapiAuthenticatorBase.t :=
  OmapiAuthenticatorBase.set_authid 5
    (OmapiHMACMD5Authenticator toy_digest (b "user") (b "secret")).

(** A buffer one byte short of the limit. *)
Definition nearly_full : OutBuffer.t := OutBuffer.mk (zeroes 65535).

(** A request with transaction id 3, and a reply to some other request
    (response id 4), signed by the null authenticator. *)
Definition example_request : OmapiMessage.t :=
  OmapiMessage.mk 0 1 0 3 0 [(b "type", b "host")] [] [].

(** The reply, an update with response id 4. *)
Definition example_reply : OmapiMessage.t :=
  OmapiMessage.mk 0 3 1 9 4 [] [(b "ip-address", [xc0; x00; x02; x07])] [].

(** Its bytes on the wire. *)
Definition example_reply_wire : bytes :=
  match OmapiMessage.as_string example_reply false with
  | Ok data => data
  | _ => []
  end.

(** A connected client whose peer delivers that reply in two pieces. *)
Definition example_client : Omapi.t :=
  Omapi.mk {[ 0 := OmapiNullAuthenticator ]} 0
    (Some (Socket.mk [RecvData (firstn 10 example_reply_wire);
                      RecvData (skipn 10 example_reply_wire)] [] false))
    InBuffer.init.

(** That client once the reply has been received. *)
Definition example_client_after : Omapi.t :=
  Omapi.mk {[ 0 := OmapiNullAuthenticator ]} 0
    (Some (Socket.mk [] [] false))
    (InBuffer.mk [] 0).

(** The serialization of a message. *)
Definition wire_of (m : OmapiMessage.t) : bytes :=
  match OmapiMessage.as_string m false with
  | Ok data => data
  | _ => []
  end.

(** A client whose socket fails on sending. *)
Definition example_client_broken : Omapi.t :=
  Omapi.mk null_registry 0 (Some (Socket.mk [] [] true)) (InBuffer.mk [] 0).

(** A generator that gives 3, 4, 5 and so on. *)
Definition example_rand : SystemRandom.t :=
  SystemRandom.mk (fun n => 3 + Z.of_nat n) 0.

(** The addresses of a host, as text and as bytes. *)
Definition example_mac : bytes := b "00:1a:2b:3c:4d:5e".

Definition example_hardware_address : bytes := [x00; x1a; x2b; x3c; x4d; x5e].

Definition example_ip : bytes := b "192.0.2.7".

Definition example_ip_address : bytes := [xc0; x00; x02; x07].

(** An update reply with handle 1 to the request with transaction id 3,
    and a status reply to the request with transaction id 4, both by the
    null authenticator. *)
Definition example_answer : OmapiMessage.t :=
  OmapiMessage.mk 0 3 1 9 3 [] [(b "ip-address", example_ip_address)] [].

Definition example_status : OmapiMessage.t := OmapiMessage.mk 0 5 0 10 4 [] [] [].

(** The requests of the host methods, with the transaction ids 3 and 4. *)
Definition example_lookup_request : OmapiMessage.t :=
  request_message OMAPI_OP_OPEN 0 3 [(b "type", b "host")]
    [(b "hardware-address", example_hardware_address)].

Definition example_add_request : OmapiMessage.t :=
  request_message OMAPI_OP_OPEN 0 3
    [(b "type", b "host"); (b "create", struct_pack_I 1); (b "exclusive", struct_pack_I 1)]
    [(b "hardware-address", example_hardware_address); (b "hardware-type", struct_pack_I 1);
     (b "ip-address", example_ip_address)].

Definition example_find_request : OmapiMessage.t :=
  request_message OMAPI_OP_OPEN 0 3 [(b "type", b "host")]
    [(b "hardware-address", example_hardware_address); (b "hardware-type", struct_pack_I 1)].

Definition example_delete_request : OmapiMessage.t :=
  request_message OMAPI_OP_DELETE 1 4 [] [].

Definition example_update_request : OmapiMessage.t :=
  request_message OMAPI_OP_UPDATE 1 4 [] [(b "ip-address", example_ip_address)].

(** An authenticator with credentials, before the server has given it an
    id, and the request that registers it. *)
Definition example_new_authenticator : OmapiAuthenticatorBase.t :=
  OmapiHMACMD5Authenticator toy_digest (b "user") (b "secret").

Definition example_auth_request : OmapiMessage.t :=
  request_message OMAPI_OP_OPEN 0 3 [(b "type", b "authenticator")]
    (OmapiAuthenticatorBase.auth_object example_new_authenticator).

(** * Properties *)

(** ** The doctests of the source *)

Example doctest_add_bindict :
  fst ((let* _ := OutBuffer.add_bindict [(b "foo", b "bar")] in OutBuffer.getvalue)
         OutBuffer.init)
  = Ok ([x00; x03] ++ b "foo" ++ [x00; x00; x00; x03] ++ b "bar" ++ [x00; x00]).
Proof. reflexivity. Qed.

Example doctest_pack_ip :
  (try* packed := pack_ip (b "127.0.0.1") in Ok (len packed)) = Ok 4 /\
  pack_ip (b "127.0.0.1") = Ok [x7f; x00; x00; x01] /\
  pack_ip (b "foo") = Raise (ValueError "given ip address has an invalid number of dots").
Proof. repeat split. Qed.

Example doctest_unpack_ip :
  unpack_ip (b "dead") = Ok (b "100.101.97.100") /\
  unpack_ip (b "alive") = Raise (ValueError "given buffer is not exactly four bytes long").
Proof. repeat split. Qed.

Example doctest_pack_mac :
  pack_mac (b "30:31:32:33:34:35") = Ok (b "012345") /\
  pack_mac (b "bad")
  = Raise (ValueError "given mac addresses has an invalid number of colons").
Proof. repeat split. Qed.

Example doctest_unpack_mac :
  unpack_mac (b "012345") = Ok (b "30:31:32:33:34:35") /\
  unpack_mac (b "bad") = Raise (ValueError "given buffer is not exactly six bytes long").
Proof. repeat split. Qed.

(** ** Bytes and big-endian integers *)

Lemma len_app {A : Type} (l1 l2 : list A) : len (l1 ++ l2) = len l1 + len l2.
Proof. unfold len. rewrite length_app. lia. Qed.

Lemma len_nonneg {A : Type} (l : list A) : 0 <= len l.
Proof. unfold len. lia. Qed.

Lemma len_cons {A : Type} (x : A) (l : list A) : len (x :: l) = 1 + len l.
Proof. unfold len. simpl length. lia. Qed.

Lemma len_nil {A : Type} : len (@nil A) = 0.
Proof. reflexivity. Qed.

Lemma ord_range (c : byte) : 0 <= ord c < 256.
Proof.
  unfold ord. pose proof (Byte.to_N_bounded c) as H.
  lia.
Qed.

Lemma ord_byte_of (z : Z) : ord (byte_of z) = z mod 256.
Proof.
  unfold ord, byte_of.
  assert (Hr : 0 <= z mod 256 < 256) by (apply Z.mod_pos_bound; lia).
  destruct (Byte.of_N (Z.to_N (z mod 256))) as [c|] eqn:E.
  - apply Byte.to_of_N in E. simpl. rewrite E. lia.
  - apply Byte.of_N_None_iff in E. lia.
Qed.

Lemma byte_of_ord (c : byte) : byte_of (ord c) = c.
Proof.
  unfold byte_of. pose proof (ord_range c) as Hr.
  rewrite Z.mod_small by lia. unfold ord.
  rewrite N2Z.id, Byte.of_to_N. reflexivity.
Qed.

Lemma struct_pack_H_length (n : Z) : len (struct_pack_H n) = 2.
Proof. reflexivity. Qed.

Lemma struct_pack_L_length (n : Z) : len (struct_pack_L n) = 4.
Proof. reflexivity. Qed.

Lemma struct_unpack_pack_H (n : Z) : uint16 n -> struct_unpack (struct_pack_H n) = n.
Proof.
  unfold uint16, struct_unpack, struct_pack_H. intros Hn. simpl.
  rewrite !ord_byte_of. 
  pose proof (Z.div_mod n 256 ltac:(lia)).
  rewrite (Z.mod_small (n / 256)) by (split; [apply Z.div_pos; lia | apply Z.div_lt_upper_bound; lia]).
  lia.
Qed.

Lemma struct_unpack_pack_L (n : Z) : uint32 n -> struct_unpack (struct_pack_L n) = n.
Proof.
  unfold uint32, struct_unpack, struct_pack_L. intros Hn. simpl.
  rewrite !ord_byte_of.
  Z.div_mod_to_equations. lia.
Qed.

(** ** The monad *)

Lemma bind_Ok_inv {St A B : Type} (m : M St A) (k : A -> M St B) s r s' :
  bind m k s = (Ok r, s') ->
  exists a s1, m s = (Ok a, s1) /\ k a s1 = (Ok r, s').
Proof.
  unfold bind. destruct (m s) as [[a| e |] s1]; intros H; try discriminate.
  exists a, s1. split; [reflexivity | exact H].
Qed.

Lemma bind_Ok {St A B : Type} (m : M St A) (k : A -> M St B) s a s1 :
  m s = (Ok a, s1) -> bind m k s = k a s1.
Proof. unfold bind. intros ->. reflexivity. Qed.

Lemma bind_Raise {St A B : Type} (m : M St A) (k : A -> M St B) s e s1 :
  m s = (Raise e, s1) -> bind m k s = (Raise e, s1).
Proof. unfold bind. intros ->. reflexivity. Qed.

(** ** OutBuffer: what an operation appends *)

Lemma add_eq (data : bytes) (self : OutBuffer.t) :
  OutBuffer.add data self =
  (if len (OutBuffer.buff self ++ data) >? OutBuffer.sizelimit
   then Raise OmapiSizeLimitError else Ok tt,
   OutBuffer.mk (OutBuffer.buff self ++ data)).
Proof.
  unfold OutBuffer.add, OutBuffer.write, OutBuffer.tell, bind, modify. simpl.
  destruct (len (OutBuffer.buff self ++ data) >? OutBuffer.sizelimit); reflexivity.
Qed.

Lemma appends_add (data : bytes) : appends true (OutBuffer.add data) data.
Proof.
  intros self. rewrite add_eq.
  destruct (len (OutBuffer.buff self ++ data) >? OutBuffer.sizelimit) eqn:E.
  - right. exists data, []. rewrite app_nil_r. repeat split. lia.
  - left. split; [reflexivity | lia].
Qed.

Lemma appends_ret : appends false (ret tt) [].
Proof.
  intros [buf]. left. simpl. rewrite app_nil_r. split; [reflexivity | discriminate].
Qed.

Lemma appends_weaken (strict : bool) m wire : appends true m wire -> appends strict m wire.
Proof.
  intros H self. destruct (H self) as [[E L] | R]; [left | right; exact R].
  split; [exact E | intros _; apply L; reflexivity].
Qed.

Lemma appends_bind (s1 s2 : bool) m1 w1 m2 w2 :
  appends s1 m1 w1 -> appends s2 m2 w2 ->
  appends s2 (let* _ := m1 in m2) (w1 ++ w2).
Proof.
  intros H1 H2 self.
  destruct (H1 self) as [[E1 _] | (written & rest & -> & L & E1)].
  - rewrite (bind_Ok _ _ _ _ _ E1).
    destruct (H2 (OutBuffer.mk (OutBuffer.buff self ++ w1)))
      as [[E2 L2] | (written & rest & -> & L & E2)]; simpl in *.
    + left. rewrite E2, app_assoc. split; [reflexivity | exact L2].
    + right. exists (w1 ++ written), rest.
      rewrite E2, !app_assoc. repeat split. exact L.
  - right. exists written, (rest ++ w2).
    rewrite (bind_Raise _ _ _ _ _ E1), app_assoc. repeat split. exact L.
Qed.

(** An operation that returns has appended all of its bytes. *)
Lemma appends_Ok (strict : bool) m wire self r self' :
  appends strict m wire -> m self = (Ok r, self') ->
  self' = OutBuffer.mk (OutBuffer.buff self ++ wire) /\
  (strict = true -> len (OutBuffer.buff self') <= OutBuffer.sizelimit).
Proof.
  intros H E. destruct (H self) as [[E1 L] | (written & rest & _ & _ & E1)];
    rewrite E1 in E; inversion E; subst. split; [reflexivity | exact L].
Qed.

(** An operation whose bytes do not fit raises the size-limit error. *)
Lemma appends_exceeds m wire self :
  appends true m wire ->
  len (OutBuffer.buff self ++ wire) > OutBuffer.sizelimit ->
  exists written rest,
    wire = written ++ rest /\
    len (OutBuffer.buff self ++ written) > OutBuffer.sizelimit /\
    m self = (Raise OmapiSizeLimitError, OutBuffer.mk (OutBuffer.buff self ++ written)).
Proof.
  intros H L. destruct (H self) as [[_ L'] | R]; [| exact R].
  specialize (L' eq_refl). lia.
Qed.

(** An operation whose bytes fit returns. *)
Lemma appends_fits (strict : bool) m wire self :
  appends strict m wire ->
  len (OutBuffer.buff self ++ wire) <= OutBuffer.sizelimit ->
  m self = (Ok tt, OutBuffer.mk (OutBuffer.buff self ++ wire)).
Proof.
  intros H L. destruct (H self) as [[E _] | (written & rest & -> & L' & _)]; [exact E |].
  rewrite app_assoc, len_app in L. pose proof (len_nonneg rest). lia.
Qed.

Lemma uint32b_spec n : uint32b n = true <-> uint32 n.
Proof. unfold uint32b, uint32. rewrite negb_true_iff, orb_false_iff. lia. Qed.

Lemma uint16b_spec n : uint16b n = true <-> uint16 n.
Proof. unfold uint16b, uint16. rewrite negb_true_iff, orb_false_iff. lia. Qed.

Lemma add_net32int_eq (n : Z) (self : OutBuffer.t) :
  OutBuffer.add_net32int n self =
  if uint32b n then OutBuffer.add (struct_pack_L n) self
  else (Raise (ValueError "not a 32bit unsigned integer"), self).
Proof.
  unfold OutBuffer.add_net32int, uint32b.
  destruct ((n <? 0) || (n >=? 4294967296)); reflexivity.
Qed.

Lemma add_net16int_eq (n : Z) (self : OutBuffer.t) :
  OutBuffer.add_net16int n self =
  if uint16b n then OutBuffer.add (struct_pack_H n) self
  else (Raise (ValueError "not a 16bit unsigned integer"), self).
Proof.
  unfold OutBuffer.add_net16int, uint16b.
  destruct ((n <? 0) || (n >=? 65536)); reflexivity.
Qed.

Lemma appends_add_net32int (n : Z) :
  uint32 n -> appends true (OutBuffer.add_net32int n) (struct_pack_L n).
Proof.
  intros Hn self. rewrite add_net32int_eq.
  apply uint32b_spec in Hn. rewrite Hn. apply appends_add.
Qed.

Lemma appends_add_net16int (n : Z) :
  uint16 n -> appends true (OutBuffer.add_net16int n) (struct_pack_H n).
Proof.
  intros Hn self. rewrite add_net16int_eq.
  apply uint16b_spec in Hn. rewrite Hn. apply appends_add.
Qed.

Lemma appends_add_net16string (s : bytes) :
  len s < 65536 -> appends true (OutBuffer.add_net16string s) (wire_net16string s).
Proof.
  intros Hs self. unfold OutBuffer.add_net16string.
  destruct (len s >=? 65536) eqn:E; [lia |].
  apply (appends_bind true true).
  - apply appends_add_net16int. pose proof (len_nonneg s). unfold uint16. lia.
  - apply appends_add.
Qed.

Lemma appends_add_net32string (s : bytes) :
  len s < 4294967296 -> appends true (OutBuffer.add_net32string s) (wire_net32string s).
Proof.
  intros Hs self. unfold OutBuffer.add_net32string.
  destruct (len s >=? 4294967296) eqn:E; [lia |].
  apply (appends_bind true true).
  - apply appends_add_net32int. pose proof (len_nonneg s). unfold uint32. lia.
  - apply appends_add.
Qed.

Lemma wire_entries_cons (key value : bytes) (items : list (bytes * bytes)) :
  wire_entries ((key, value) :: items) =
  wire_net16string key ++ wire_net32string value ++ wire_entries items.
Proof. unfold wire_entries, wire_entry. simpl. rewrite <- app_assoc. reflexivity. Qed.

Lemma appends_add_entries (items : list (bytes * bytes)) :
  Forall encodable items ->
  appends false (OutBuffer.add_entries items) (wire_entries items).
Proof.
  induction 1 as [| [key value] items [Hk Hv] _ IH].
  - apply appends_ret.
  - rewrite wire_entries_cons.
    change (OutBuffer.add_entries ((key, value) :: items))
      with (let* _ := OutBuffer.add_net16string key in
            let* _ := OutBuffer.add_net32string value in
            OutBuffer.add_entries items).
    apply (appends_bind true false); [apply appends_add_net16string; exact Hk |].
    apply (appends_bind true false); [apply appends_add_net32string; exact Hv |].
    exact IH.
Qed.

Lemma appends_add_bindict (items : list (bytes * bytes)) :
  Forall encodable items ->
  appends true (OutBuffer.add_bindict items) (wire_bindict items).
Proof.
  intros H. unfold OutBuffer.add_bindict, wire_bindict.
  apply (appends_bind false true); [apply appends_add_entries; exact H | apply appends_add].
Qed.

(** ** Generators on a buffer that holds what they need *)

Lemma slice_to_app {A : Type} (data rest : list A) :
  slice_to (data ++ rest) (len data) = data.
Proof.
  unfold slice_to, len. destruct (0 <=? Z.of_nat (length data)) eqn:E; [| exfalso; lia].
  rewrite Nat2Z.id. rewrite firstn_app, Nat.sub_diag, firstn_all. simpl.
  apply app_nil_r.
Qed.

Lemma slice_from_app {A : Type} (data rest : list A) :
  slice_from (data ++ rest) (len data) = rest.
Proof.
  unfold slice_from, len. destruct (0 <=? Z.of_nat (length data)) eqn:E; [| exfalso; lia].
  rewrite Nat2Z.id. rewrite skipn_app, Nat.sub_diag, skipn_all. reflexivity.
Qed.

Lemma next_fixed (data rest : bytes) :
  next (ParseFixed (len data)) (data ++ rest) = (Yielded data, rest).
Proof.
  simpl. rewrite len_app. pose proof (len_nonneg rest).
  destruct (len data + len rest <? len data) eqn:E; [exfalso; lia |].
  rewrite slice_to_app, slice_from_app. reflexivity.
Qed.

Lemma next_bind_yield {A B : Type} (p : Parser A) (k : A -> Parser B) buff a buff' :
  next p buff = (Yielded a, buff') -> next (Bind p k) buff = next (k a) buff'.
Proof. simpl. intros ->. reflexivity. Qed.

Lemma next_map_yield {A B : Type} (f : A -> B) (p : Parser A) buff a buff' :
  next p buff = (Yielded a, buff') -> next (parse_map f p) buff = (Yielded (f a), buff').
Proof. intros H. unfold parse_map. rewrite (next_bind_yield _ _ _ _ _ H). reflexivity. Qed.

Lemma next_chain_yield {T A : Type} (chain : Parser T) (parser : T -> Parser A)
    buff items buff' element buff'' :
  next chain buff = (Yielded items, buff') ->
  next (parser items) buff' = (Yielded element, buff'') ->
  next (chain +> parser) buff = (Yielded (items, element), buff'').
Proof.
  intros H1 H2. unfold parse_chain_snoc.
  rewrite (next_bind_yield _ _ _ _ _ H1), (next_bind_yield _ _ _ _ _ H2). reflexivity.
Qed.

Lemma parse_net16int_pack (n : Z) (rest : bytes) :
  uint16 n -> next InBuffer.parse_net16int (struct_pack_H n ++ rest) = (Yielded n, rest).
Proof.
  intros Hn. unfold InBuffer.parse_net16int, InBuffer.parse_fixedbuffer.
  pose proof (next_fixed (struct_pack_H n) rest) as H.
  change (len (struct_pack_H n)) with 2 in H.
  rewrite (next_map_yield _ _ _ _ _ H), struct_unpack_pack_H by exact Hn.
  reflexivity.
Qed.

Lemma parse_net32int_pack (n : Z) (rest : bytes) :
  uint32 n -> next InBuffer.parse_net32int (struct_pack_L n ++ rest) = (Yielded n, rest).
Proof.
  intros Hn. unfold InBuffer.parse_net32int, InBuffer.parse_fixedbuffer.
  pose proof (next_fixed (struct_pack_L n) rest) as H.
  change (len (struct_pack_L n)) with 4 in H.
  rewrite (next_map_yield _ _ _ _ _ H), struct_unpack_pack_L by exact Hn.
  reflexivity.
Qed.

Lemma parse_net16string_wire (s rest : bytes) :
  len s < 65536 ->
  next InBuffer.parse_net16string (wire_net16string s ++ rest) = (Yielded s, rest).
Proof.
  intros Hs. unfold InBuffer.parse_net16string, wire_net16string.
  rewrite <- app_assoc.
  apply (next_map_yield snd _ _ (tt, len s, s)).
  eapply next_chain_yield.
  - eapply next_chain_yield; [reflexivity |].
    apply parse_net16int_pack. pose proof (len_nonneg s). unfold uint16. lia.
  - apply next_fixed.
Qed.

Lemma parse_net32string_wire (s rest : bytes) :
  len s < 4294967296 ->
  next InBuffer.parse_net32string (wire_net32string s ++ rest) = (Yielded s, rest).
Proof.
  intros Hs. unfold InBuffer.parse_net32string, wire_net32string.
  rewrite <- app_assoc.
  apply (next_map_yield snd _ _ (tt, len s, s)).
  eapply next_chain_yield.
  - eapply next_chain_yield; [reflexivity |].
    apply parse_net32int_pack. pose proof (len_nonneg s). unfold uint32. lia.
  - apply next_fixed.
Qed.

(** One round of the dictionary loop on an entry, and on the end marker. *)
Lemma parse_bindict_body_entry entries key value rest :
  wf_entry (key, value) ->
  next (InBuffer.parse_bindict_body entries) (wire_entry (key, value) ++ rest)
  = (Yielded (inl (entries ++ [(key, value)])), rest).
Proof.
  intros [Hk Hv]. simpl in Hk, Hv.
  unfold InBuffer.parse_bindict_body, wire_entry. simpl fst. simpl snd.
  rewrite <- app_assoc.
  rewrite (next_bind_yield _ _ _ _ _ (parse_net16string_wire key _ ltac:(lia))).
  destruct key as [| c key]; [exfalso; unfold len in Hk; simpl in Hk; lia |].
  rewrite (next_bind_yield _ _ _ _ _ (parse_net32string_wire value _ Hv)).
  reflexivity.
Qed.

Lemma parse_bindict_body_end entries rest :
  next (InBuffer.parse_bindict_body entries) ([x00; x00] ++ rest)
  = (Yielded (inr entries), rest).
Proof.
  unfold InBuffer.parse_bindict_body.
  rewrite (next_bind_yield _ _ _ _ _ (parse_net16string_wire [] rest ltac:(reflexivity))).
  reflexivity.
Qed.

Lemma loop_run_eq {S A : Type} (body : S -> Parser (S + A)) run fuel s buff :
  loop_run body run fuel s buff =
  match run s buff with
  | (Blocked p', buff') => (Blocked (Bind p' (loop_k body)), buff')
  | (Yielded (inr a), buff') => (Yielded a, buff')
  | (Yielded (inl s'), buff') =>
      match fuel with
      | O => (Exhausted, buff')
      | Datatypes.S fuel' => loop_run body run fuel' s' buff'
      end
  | (Exhausted, buff') => (Exhausted, buff')
  end.
Proof. destruct fuel; reflexivity. Qed.

Lemma wire_bindict_cons (key value : bytes) (D : list (bytes * bytes)) (rest : bytes) :
  wire_bindict ((key, value) :: D) ++ rest
  = wire_entry (key, value) ++ wire_bindict D ++ rest.
Proof.
  unfold wire_bindict. rewrite wire_entries_cons. unfold wire_entry. simpl fst. simpl snd.
  rewrite <- !app_assoc. reflexivity.
Qed.

Lemma loop_run_bindict (D : list (bytes * bytes)) :
  wf_dict D ->
  forall (fuel : nat) (entries : list (bytes * bytes)) (rest : bytes),
    (length D <= fuel)%nat ->
    loop_run InBuffer.parse_bindict_body
      (fun s buff => next (InBuffer.parse_bindict_body s) buff)
      fuel entries (wire_bindict D ++ rest)
    = (Yielded (entries ++ D), rest).
Proof.
  induction 1 as [| [key value] D Hkv _ IH]; intros fuel entries rest Hfuel;
    rewrite loop_run_eq; cbv beta.
  - change (wire_bindict [] ++ rest) with ([x00; x00] ++ rest).
    rewrite parse_bindict_body_end, app_nil_r. reflexivity.
  - rewrite wire_bindict_cons, parse_bindict_body_entry by exact Hkv.
    destruct fuel as [| fuel]; [simpl in Hfuel; lia |].
    rewrite IH by (simpl in Hfuel; lia).
    rewrite <- app_assoc. reflexivity.
Qed.

Lemma wire_entries_length (D : list (bytes * bytes)) :
  (length D <= length (wire_entries D))%nat.
Proof.
  induction D as [| [key value] D IH]; [simpl; lia |].
  rewrite wire_entries_cons. unfold wire_net16string, wire_net32string.
  rewrite !length_app. simpl. lia.
Qed.

(** The dictionary parser yields the dictionary that was encoded, and leaves
    what follows the encoding. *)
Lemma parse_bindict_wire (D : list (bytes * bytes)) (rest : bytes) :
  wf_dict D ->
  next InBuffer.parse_bindict (wire_bindict D ++ rest) = (Yielded D, rest).
Proof.
  intros HD. unfold InBuffer.parse_bindict. simpl next.
  apply (loop_run_bindict D HD _ [] rest).
  unfold wire_bindict. rewrite !length_app. pose proof (wire_entries_length D). lia.
Qed.

(** ** OutBuffer: an operation that returns had arguments in range *)

Lemma add_net32int_Ok_inv n self r self' :
  OutBuffer.add_net32int n self = (Ok r, self') ->
  uint32 n /\ self' = OutBuffer.mk (OutBuffer.buff self ++ struct_pack_L n)
  /\ len (OutBuffer.buff self') <= OutBuffer.sizelimit.
Proof.
  rewrite add_net32int_eq. destruct (uint32b n) eqn:E; [| discriminate].
  apply uint32b_spec in E. destruct r. intros H.
  destruct (appends_Ok true _ _ _ _ _ (appends_add _) H) as [-> L]. auto.
Qed.

Lemma add_net16string_Ok_inv s self r self' :
  OutBuffer.add_net16string s self = (Ok r, self') ->
  len s < 65536 /\ self' = OutBuffer.mk (OutBuffer.buff self ++ wire_net16string s)
  /\ len (OutBuffer.buff self') <= OutBuffer.sizelimit.
Proof.
  intros H. destruct r.
  assert (Hs : len s < 65536).
  { unfold OutBuffer.add_net16string in H.
    destruct (len s >=? 65536) eqn:E; [discriminate | lia]. }
  destruct (appends_Ok true _ _ _ _ _ (appends_add_net16string s Hs) H) as [-> L]. auto.
Qed.

Lemma add_net32string_Ok_inv s self r self' :
  OutBuffer.add_net32string s self = (Ok r, self') ->
  len s < 4294967296 /\ self' = OutBuffer.mk (OutBuffer.buff self ++ wire_net32string s)
  /\ len (OutBuffer.buff self') <= OutBuffer.sizelimit.
Proof.
  intros H. destruct r.
  assert (Hs : len s < 4294967296).
  { unfold OutBuffer.add_net32string in H.
    destruct (len s >=? 4294967296) eqn:E; [discriminate | lia]. }
  destruct (appends_Ok true _ _ _ _ _ (appends_add_net32string s Hs) H) as [-> L]. auto.
Qed.

Lemma add_entries_Ok_inv items : forall self r self',
  OutBuffer.add_entries items self = (Ok r, self') ->
  Forall encodable items /\
  self' = OutBuffer.mk (OutBuffer.buff self ++ wire_entries items).
Proof.
  induction items as [| [key value] items IH]; intros self r self' H.
  - inversion H; subst. destruct self' as [buf]. simpl. rewrite app_nil_r. auto.
  - change (OutBuffer.add_entries ((key, value) :: items))
      with (let* _ := OutBuffer.add_net16string key in
            let* _ := OutBuffer.add_net32string value in
            OutBuffer.add_entries items) in H.
    apply bind_Ok_inv in H as (? & s1 & H1 & H).
    apply bind_Ok_inv in H as (? & s2 & H2 & H).
    apply add_net16string_Ok_inv in H1 as (Hk & -> & _).
    apply add_net32string_Ok_inv in H2 as (Hv & -> & _).
    apply IH in H as (Hi & ->). simpl.
    split; [constructor; [split; assumption | exact Hi] |].
    rewrite wire_entries_cons, <- !app_assoc. reflexivity.
Qed.

Lemma add_bindict_Ok_inv items self r self' :
  OutBuffer.add_bindict items self = (Ok r, self') ->
  Forall encodable items /\
  self' = OutBuffer.mk (OutBuffer.buff self ++ wire_bindict items) /\
  len (OutBuffer.buff self') <= OutBuffer.sizelimit.
Proof.
  unfold OutBuffer.add_bindict. intros H.
  apply bind_Ok_inv in H as (? & s1 & H1 & H).
  apply add_entries_Ok_inv in H1 as (Hi & ->). destruct r.
  destruct (appends_Ok true _ _ _ _ _ (appends_add _) H) as [-> L].
  specialize (L eq_refl). simpl in *. unfold wire_bindict.
  rewrite <- app_assoc in *. auto.
Qed.

(** ** Serialization of a message *)

Lemma as_string_Ok_inv (m : OmapiMessage.t) (forsigning : bool) (data : bytes) :
  OmapiMessage.as_string m forsigning = Ok data ->
  serializable m forsigning /\ data = wire m forsigning /\
  len data <= OutBuffer.sizelimit.
Proof.
  unfold OmapiMessage.as_string.
  match goal with |- fst (?prog _) = _ -> _ => destruct (prog OutBuffer.init) as [r final] eqn:E end.
  simpl. intros ->.
  apply bind_Ok_inv in E as (? & s0 & H0 & E).
  apply bind_Ok_inv in E as (? & s1 & H1 & E).
  apply bind_Ok_inv in E as (? & s2 & H2 & E).
  apply bind_Ok_inv in E as (? & s3 & H3 & E).
  apply bind_Ok_inv in E as (? & s4 & H4 & E).
  apply bind_Ok_inv in E as (? & s5 & H5 & E).
  apply bind_Ok_inv in E as (? & s6 & H6 & E).
  apply bind_Ok_inv in E as (? & s7 & H7 & E).
  apply bind_Ok_inv in E as (? & s8 & H8 & E).
  apply add_net32int_Ok_inv in H1 as (V1 & -> & L1).
  apply add_net32int_Ok_inv in H2 as (V2 & -> & L2).
  apply add_net32int_Ok_inv in H3 as (V3 & -> & L3).
  apply add_net32int_Ok_inv in H4 as (V4 & -> & L4).
  apply add_net32int_Ok_inv in H5 as (V5 & -> & L5).
  apply add_bindict_Ok_inv in H6 as (V6 & -> & L6).
  apply add_bindict_Ok_inv in H7 as (V7 & -> & L7).
  unfold OutBuffer.getvalue in E. inversion E; subst; clear E.
  unfold serializable, wire, uint32 in *.
  destruct forsigning; simpl negb in *; cbv iota in *.
  - inversion H0; subst. inversion H8; subst. simpl in *.
    repeat split; try assumption; try lia; try discriminate;
      try (unfold wire_signed; rewrite <- !app_assoc; reflexivity).
  - apply add_net32int_Ok_inv in H0 as (V0 & -> & L0).
    destruct (appends_Ok true _ _ _ _ _ (appends_add _) H8) as [-> L8]; simpl in *.
    repeat split; try assumption; try lia;
      try (unfold wire_message, wire_signed; rewrite <- !app_assoc; reflexivity);
      unfold uint32 in V0; lia.
Qed.

(** Sequencing with an operation whose bytes fit. *)
Lemma bind_fits {B : Type} (strict : bool) m wire (k : unit -> M OutBuffer.t B) self :
  appends strict m wire ->
  len (OutBuffer.buff self ++ wire) <= OutBuffer.sizelimit ->
  bind m k self = k tt (OutBuffer.mk (OutBuffer.buff self ++ wire)).
Proof. intros H L. apply bind_Ok. eapply appends_fits; eassumption. Qed.

Ltac fits :=
  unfold OutBuffer.init; cbn [OutBuffer.buff];
  rewrite ?app_nil_l, ?len_app, ?struct_pack_L_length, ?len_nil;
  unfold OutBuffer.sizelimit in *; lia.

Lemma as_string_fits (m : OmapiMessage.t) (forsigning : bool) :
  serializable m forsigning ->
  len (wire m forsigning) <= OutBuffer.sizelimit ->
  OmapiMessage.as_string m forsigning = Ok (wire m forsigning).
Proof.
  intros (V0 & Vs & V2 & V3 & V4 & V5 & V6 & V7) L.
  assert (Vl : uint32 (len (OmapiMessage.signature m))).
  { pose proof (len_nonneg (OmapiMessage.signature m)). unfold uint32. lia. }
  unfold OmapiMessage.as_string, wire, wire_message, wire_signed in *.
  destruct forsigning; simpl negb; cbv iota;
    rewrite ?len_app, ?struct_pack_L_length in L;
    unfold OutBuffer.init;
    pose proof (len_nonneg (wire_bindict (OmapiMessage.message m)));
    pose proof (len_nonneg (wire_bindict (OmapiMessage.obj m)));
    pose proof (len_nonneg (OmapiMessage.signature m)).
  - rewrite (bind_Ok _ _ _ tt OutBuffer.init) by reflexivity.
    rewrite (bind_fits true _ _ _ _ (appends_add_net32int _ Vl))
      by fits.
    rewrite (bind_fits true _ _ _ _ (appends_add_net32int _ V2))
      by fits.
    rewrite (bind_fits true _ _ _ _ (appends_add_net32int _ V3))
      by fits.
    rewrite (bind_fits true _ _ _ _ (appends_add_net32int _ V4))
      by fits.
    rewrite (bind_fits true _ _ _ _ (appends_add_net32int _ V5))
      by fits.
    rewrite (bind_fits true _ _ _ _ (appends_add_bindict _ V6))
      by fits.
    rewrite (bind_fits true _ _ _ _ (appends_add_bindict _ V7))
      by fits.
    unfold OutBuffer.getvalue. cbn [fst OutBuffer.buff].
    rewrite ?app_nil_l, <- ?app_assoc. reflexivity.
  - specialize (V0 eq_refl).
    rewrite (bind_fits true _ _ _ _ (appends_add_net32int _ V0))
      by fits.
    rewrite (bind_fits true _ _ _ _ (appends_add_net32int _ Vl))
      by fits.
    rewrite (bind_fits true _ _ _ _ (appends_add_net32int _ V2))
      by fits.
    rewrite (bind_fits true _ _ _ _ (appends_add_net32int _ V3))
      by fits.
    rewrite (bind_fits true _ _ _ _ (appends_add_net32int _ V4))
      by fits.
    rewrite (bind_fits true _ _ _ _ (appends_add_net32int _ V5))
      by fits.
    rewrite (bind_fits true _ _ _ _ (appends_add_bindict _ V6))
      by fits.
    rewrite (bind_fits true _ _ _ _ (appends_add_bindict _ V7))
      by fits.
    rewrite (bind_fits true _ _ _ _ (appends_add _))
      by fits.
    unfold OutBuffer.getvalue. cbn [fst OutBuffer.buff].
    rewrite ?app_nil_l, <- ?app_assoc. reflexivity.
Qed.

(** ** Parsing what was encoded *)


Lemma parse_message_wire (m : OmapiMessage.t) (rest : bytes) :
  serializable m false ->
  wf_dict (OmapiMessage.message m) -> wf_dict (OmapiMessage.obj m) ->
  next InBuffer.parse_message (wire_message m ++ rest) = (Yielded m, rest).
Proof.
  intros (V0 & Vs & V2 & V3 & V4 & V5 & _ & _) Wm Wo. specialize (V0 eq_refl).
  assert (Vl : uint32 (len (OmapiMessage.signature m))).
  { pose proof (len_nonneg (OmapiMessage.signature m)). unfold uint32. lia. }
  unfold InBuffer.parse_message, wire_message, wire_signed.
  rewrite <- !app_assoc.
  destruct m as [authid opcode handle tid rid message obj signature].
  cbn [OmapiMessage.authid OmapiMessage.opcode OmapiMessage.handle OmapiMessage.tid
       OmapiMessage.rid OmapiMessage.message OmapiMessage.obj OmapiMessage.signature] in *.
  match goal with |- next (parse_map _ ?chain) ?buff = _ =>
    assert (H : next chain buff
                = (Yielded (tt, authid, len signature, opcode, handle, tid, rid,
                            message, obj, signature), rest));
    [| rewrite (next_map_yield _ _ _ _ _ H); reflexivity]
  end.
  apply next_chain_yield with (buff' := signature ++ rest); [| apply next_fixed].
  eapply next_chain_yield; [| apply parse_bindict_wire; exact Wo].
  eapply next_chain_yield; [| apply parse_bindict_wire; exact Wm].
  eapply next_chain_yield; [| apply parse_net32int_pack; exact V5].
  eapply next_chain_yield; [| apply parse_net32int_pack; exact V4].
  eapply next_chain_yield; [| apply parse_net32int_pack; exact V3].
  eapply next_chain_yield; [| apply parse_net32int_pack; exact V2].
  eapply next_chain_yield; [| apply parse_net32int_pack; exact Vl].
  eapply next_chain_yield; [| apply parse_net32int_pack; exact V0].
  reflexivity.
Qed.

(** C9.  For [u] in [0, 2^16), [add_net16int] appends the two bytes of
    [struct.pack("!H", u)], returns when they fit, and [parse_net16int] reads
    [u] back from them; the same for 32 bits with four bytes.  For [u]
    outside the range, [add_net16int], respectively [add_net32int], raises
    ValueError and leaves the buffer as it was. *)
Theorem net_int_roundtrip_and_reject (u : Z) (self : OutBuffer.t) (rest : bytes) :
  (uint16 u ->
     OutBuffer.buff (snd (OutBuffer.add_net16int u self))
       = OutBuffer.buff self ++ struct_pack_H u /\
     (len (OutBuffer.buff self) + 2 <= OutBuffer.sizelimit ->
        fst (OutBuffer.add_net16int u self) = Ok tt) /\
     next InBuffer.parse_net16int (struct_pack_H u ++ rest) = (Yielded u, rest)) /\
  (uint32 u ->
     OutBuffer.buff (snd (OutBuffer.add_net32int u self))
       = OutBuffer.buff self ++ struct_pack_L u /\
     (len (OutBuffer.buff self) + 4 <= OutBuffer.sizelimit ->
        fst (OutBuffer.add_net32int u self) = Ok tt) /\
     next InBuffer.parse_net32int (struct_pack_L u ++ rest) = (Yielded u, rest)) /\
  (~ uint16 u ->
     OutBuffer.add_net16int u self
       = (Raise (ValueError "not a 16bit unsigned integer"), self)) /\
  (~ uint32 u ->
     OutBuffer.add_net32int u self
       = (Raise (ValueError "not a 32bit unsigned integer"), self)).
Proof.
  split; [| split; [| split]].
  - intros H. split; [| split].
    + rewrite add_net16int_eq. apply uint16b_spec in H. rewrite H, add_eq. reflexivity.
    + intros L. apply uint16b_spec in H. rewrite add_net16int_eq, H.
      rewrite (appends_fits true _ _ _ (appends_add _)); [reflexivity |].
      rewrite len_app, struct_pack_H_length. exact L.
    + apply parse_net16int_pack. exact H.
  - intros H. split; [| split].
    + rewrite add_net32int_eq. apply uint32b_spec in H. rewrite H, add_eq. reflexivity.
    + intros L. apply uint32b_spec in H. rewrite add_net32int_eq, H.
      rewrite (appends_fits true _ _ _ (appends_add _)); [reflexivity |].
      rewrite len_app, struct_pack_L_length. exact L.
    + apply parse_net32int_pack. exact H.
  - intros H. rewrite add_net16int_eq. destruct (uint16b u) eqn:E; [| reflexivity].
    apply uint16b_spec in E. contradiction.
  - intros H. rewrite add_net32int_eq. destruct (uint32b u) eqn:E; [| reflexivity].
    apply uint32b_spec in E. contradiction.
Qed.

(** The theorem at 258, at 65536 and at -1. *)
Lemma net_int_roundtrip_and_reject_witness :
  (next InBuffer.parse_net16int (struct_pack_H 258 ++ [x07]) = (Yielded 258, [x07]) /\
   fst (OutBuffer.add_net16int 258 OutBuffer.init) = Ok tt) /\
  (next InBuffer.parse_net32int (struct_pack_L 258 ++ [x07]) = (Yielded 258, [x07]) /\
   fst (OutBuffer.add_net32int 258 OutBuffer.init) = Ok tt) /\
  OutBuffer.add_net16int 65536 OutBuffer.init
    = (Raise (ValueError "not a 16bit unsigned integer"), OutBuffer.init) /\
  OutBuffer.add_net32int (-1) OutBuffer.init
    = (Raise (ValueError "not a 32bit unsigned integer"), OutBuffer.init).
Proof.
  destruct (net_int_roundtrip_and_reject 258 OutBuffer.init [x07]) as (H16 & H32 & _ & _).
  destruct (net_int_roundtrip_and_reject 65536 OutBuffer.init []) as (_ & _ & R16 & _).
  destruct (net_int_roundtrip_and_reject (-1) OutBuffer.init []) as (_ & _ & _ & R32).
  destruct H16 as (_ & F16 & P16); [unfold uint16; lia |].
  destruct H32 as (_ & F32 & P32); [unfold uint32; lia |].
  split; [| split; [| split]].
  - split; [exact P16 | apply F16; vm_compute; discriminate].
  - split; [exact P32 | apply F32; vm_compute; discriminate].
  - apply R16. unfold uint16. lia.
  - apply R32. unfold uint32. lia.
Defined.

(** ** InBuffer *)

Lemma feed_eq (data : bytes) (self : InBuffer.t) :
  InBuffer.feed data self =
  (if InBuffer.totalsize self + len data >? InBuffer.sizelimit
   then Raise OmapiSizeLimitError else Ok tt,
   InBuffer.mk (InBuffer.buff self ++ data) (InBuffer.totalsize self + len data)).
Proof.
  unfold InBuffer.feed, bind, modify, get, raise, ret.
  cbn [InBuffer.buff InBuffer.totalsize].
  destruct (InBuffer.totalsize self + len data >? InBuffer.sizelimit); reflexivity.
Qed.

Lemma step_eq {A : Type} (gen : Parser A) (self : InBuffer.t) :
  InBuffer.step gen self =
  (fst (next gen (InBuffer.buff self)),
   InBuffer.mk (snd (next gen (InBuffer.buff self))) (InBuffer.totalsize self)).
Proof. unfold InBuffer.step. destruct (next gen (InBuffer.buff self)); reflexivity. Qed.

(** C3.  For a dictionary [D] whose keys are non-empty and at most 65535
    bytes long and whose values are shorter than 2^32 bytes, if [add_bindict]
    returns, then parsing the bytes it appended with [parse_bindict] yields
    exactly [D], in order, and leaves what follows them; in particular on an
    InBuffer fed with these bytes. *)
Theorem bindict_roundtrip (D : list (bytes * bytes)) (self self' : OutBuffer.t) :
  wf_dict D ->
  OutBuffer.add_bindict D self = (Ok tt, self') ->
  exists encoding,
    OutBuffer.buff self' = OutBuffer.buff self ++ encoding /\
    (forall rest, next InBuffer.parse_bindict (encoding ++ rest) = (Yielded D, rest)) /\
    InBuffer.step InBuffer.parse_bindict (snd (InBuffer.feed encoding InBuffer.init))
      = (Yielded D, InBuffer.mk [] (len encoding)).
Proof.
  intros W E. apply add_bindict_Ok_inv in E as (_ & -> & _).
  exists (wire_bindict D). split; [reflexivity |].
  assert (P : forall rest,
             next InBuffer.parse_bindict (wire_bindict D ++ rest) = (Yielded D, rest)).
  { intros rest. apply parse_bindict_wire. exact W. }
  split; [exact P |].
  rewrite feed_eq, step_eq. cbn [snd InBuffer.buff InBuffer.totalsize InBuffer.init].
  specialize (P []). rewrite app_nil_r in P. rewrite app_nil_l, P. reflexivity.
Qed.

(** The theorem at the dictionary of the doctest, [foo] to [bar]. *)
Lemma bindict_roundtrip_witness :
  exists encoding,
    OutBuffer.buff (snd (OutBuffer.add_bindict [(b "foo", b "bar")] OutBuffer.init))
      = OutBuffer.buff OutBuffer.init ++ encoding /\
    (forall rest,
        next InBuffer.parse_bindict (encoding ++ rest)
        = (Yielded [(b "foo", b "bar")], rest)) /\
    InBuffer.step InBuffer.parse_bindict (snd (InBuffer.feed encoding InBuffer.init))
      = (Yielded [(b "foo", b "bar")], InBuffer.mk [] (len encoding)).
Proof.
  apply (bindict_roundtrip [(b "foo", b "bar")] OutBuffer.init).
  - constructor; [| constructor]. unfold wf_entry, len. simpl. lia.
  - reflexivity.
Defined.

(** C7.  For a message with well-formed dictionaries, whatever its
    signature (in particular all zero bytes, of any length), if [as_string]
    returns its full serialization, then [parse_message] on these bytes yields
    a message equal to it in all eight fields and consumes exactly these
    bytes, so exactly [authlen] bytes of signature; the InBuffer accepts the
    bytes, and the parsed message is an OmapiMessage, which has no field for
    [authlen]. *)
Theorem message_roundtrip (m : OmapiMessage.t) (data : bytes) :
  wf_dict (OmapiMessage.message m) -> wf_dict (OmapiMessage.obj m) ->
  OmapiMessage.as_string m false = Ok data ->
  (forall rest, next InBuffer.parse_message (data ++ rest) = (Yielded m, rest)) /\
  InBuffer.feed data InBuffer.init = (Ok tt, InBuffer.mk data (len data)) /\
  InBuffer.step InBuffer.parse_message (InBuffer.mk data (len data))
    = (Yielded m, InBuffer.mk [] (len data)).
Proof.
  intros Wm Wo E. apply as_string_Ok_inv in E as (V & -> & L). unfold wire in *.
  assert (P : forall rest,
             next InBuffer.parse_message (wire_message m ++ rest) = (Yielded m, rest)).
  { intros rest. apply parse_message_wire; assumption. }
  split; [exact P |]. split.
  - rewrite feed_eq. cbn [InBuffer.buff InBuffer.totalsize InBuffer.init].
    unfold InBuffer.sizelimit, OutBuffer.sizelimit in *.
    destruct (0 + len (wire_message m) >? 65536) eqn:G; [exfalso; lia |].
    rewrite app_nil_l, Z.add_0_l. reflexivity.
  - rewrite step_eq. cbn [InBuffer.buff InBuffer.totalsize].
    specialize (P []). rewrite app_nil_r in P. rewrite P. reflexivity.
Qed.

(** The theorem at the example message. *)
Lemma message_roundtrip_witness :
  exists data,
    OmapiMessage.as_string example_message false = Ok data /\
    (forall rest,
        next InBuffer.parse_message (data ++ rest) = (Yielded example_message, rest)).
Proof.
  eexists. split; [reflexivity |].
  apply (message_roundtrip example_message).
  - constructor; [| constructor]. unfold wf_entry, len. simpl. lia.
  - constructor; [| constructor]. unfold wf_entry, len. simpl. lia.
  - reflexivity.
Defined.

(** ** update_object *)

Lemma dict_contains_In (key : bytes) (d : pydict) :
  dict_contains key d = true <-> In key (map fst (dict_items d)).
Proof.
  unfold dict_contains, dict_items. rewrite existsb_exists, in_map_iff.
  split; intros (kv & H1 & H2).
  - exists kv. apply bool_decide_eq_true in H2. auto.
  - exists kv. split; [exact H2 | apply bool_decide_eq_true; exact H1].
Qed.

Lemma remove_key_filter (key : bytes) (entries : list (bytes * bytes)) :
  remove_key key entries
  = List.filter (fun kv => negb (bool_decide (fst kv = key))) entries.
Proof.
  induction entries as [| [k v] entries IH]; [reflexivity |].
  simpl. destruct (decide (k = key)) as [E | E].
  - rewrite bool_decide_eq_true_2 by exact E. exact IH.
  - rewrite bool_decide_eq_false_2 by exact E. simpl. rewrite IH. reflexivity.
Qed.

Lemma filter_filter {A : Type} (f g : A -> bool) (l : list A) :
  List.filter f (List.filter g l) = List.filter (fun x => g x && f x) l.
Proof.
  induction l as [| x l IH]; [reflexivity |].
  simpl. destruct (g x); simpl; [destruct (f x) |]; rewrite ?IH; reflexivity.
Qed.

Lemma remove_keys_filter (keys : list bytes) : forall entries,
  remove_keys keys entries
  = List.filter (fun kv => negb (existsb (fun k => bool_decide (fst kv = k)) keys)) entries.
Proof.
  unfold remove_keys.
  induction keys as [| key keys IH]; intros entries; simpl.
  - induction entries as [| kv entries IHe]; [reflexivity |].
    simpl. rewrite <- IHe. reflexivity.
  - rewrite IH, remove_key_filter, filter_filter.
    apply filter_ext. intros kv. rewrite negb_orb. reflexivity.
Qed.

Lemma existsb_map_fst (key : bytes) (d : list (bytes * bytes)) :
  existsb (fun k => bool_decide (key = k)) (map fst d)
  = existsb (fun kv => bool_decide (fst kv = key)) d.
Proof.
  induction d as [| kv d IH]; [reflexivity |].
  simpl. rewrite IH. f_equal.
  destruct (decide (key = fst kv)) as [E | E].
  - rewrite !bool_decide_eq_true_2; auto.
  - rewrite !bool_decide_eq_false_2; auto.
Qed.

Lemma filter_sublist {A : Type} (f : A -> bool) (l : list A) :
  sublist (List.filter f l) l.
Proof.
  induction l as [| x l IH]; [constructor |].
  simpl. destruct (f x); constructor; exact IH.
Qed.

(** C6, as amended.  [update_object(d)] returns, and leaves in [obj] the
    entries of the old [obj] whose key does not appear in [d], in their
    order, followed by the pairs of [d] in the order of [d.items()], which
    for the dict of Python 2 is the order of the slots of its hash table and
    not that of insertion; the kept entries are what removing every key of
    [d] from the old [obj] leaves.  The other fields of the message are
    unchanged. *)
Theorem update_object_spec (m : OmapiMessage.t) (d : pydict) :
  exists m' kept,
    OmapiMessage.update_object d m = (Ok tt, m') /\
    OmapiMessage.obj m' = kept ++ dict_items d /\
    kept = remove_keys (map fst (dict_items d)) (OmapiMessage.obj m) /\
    sublist kept (OmapiMessage.obj m) /\
    (forall kv, In kv kept <->
                In kv (OmapiMessage.obj m) /\ ~ In (fst kv) (map fst (dict_items d))) /\
    OmapiMessage.authid m' = OmapiMessage.authid m /\
    OmapiMessage.opcode m' = OmapiMessage.opcode m /\
    OmapiMessage.handle m' = OmapiMessage.handle m /\
    OmapiMessage.tid m' = OmapiMessage.tid m /\
    OmapiMessage.rid m' = OmapiMessage.rid m /\
    OmapiMessage.message m' = OmapiMessage.message m /\
    OmapiMessage.signature m' = OmapiMessage.signature m.
Proof.
  eexists. eexists. split; [reflexivity |].
  cbn [OmapiMessage.obj OmapiMessage.set_obj OmapiMessage.authid OmapiMessage.opcode
       OmapiMessage.handle OmapiMessage.tid OmapiMessage.rid OmapiMessage.message
       OmapiMessage.signature].
  split; [reflexivity |].
  assert (E : List.filter (fun kv => negb (dict_contains (fst kv) d)) (OmapiMessage.obj m)
              = remove_keys (map fst (dict_items d)) (OmapiMessage.obj m)).
  { rewrite remove_keys_filter. apply filter_ext. intros kv.
    unfold dict_contains, dict_items. rewrite existsb_map_fst. reflexivity. }
  split; [exact E |].
  split; [apply filter_sublist |].
  split; [| repeat split].
  intros kv. rewrite filter_In, negb_true_iff, <- dict_contains_In.
  destruct (dict_contains (fst kv) d); intuition congruence.
Qed.

(** The hashes of two one-letter keys, as Python 2 gives them with a [long]
    of 64 bits. *)
Lemma string_hash_examples :
  PyDictObject.string_hash 64 (b "a") = 12416037344 /\
  PyDictObject.string_hash 64 (b "b") = 12544037731.
Proof. split; vm_compute; reflexivity. Qed.

(** The items of [dict(name=user, algorithm=...)] come as [auth_object]
    lists them, whichever of the two keys was inserted first. *)
Lemma auth_object_items (long_bits : Z) (user algorithm : bytes) :
  long_bits = 32 \/ long_bits = 64 ->
  option_map PyDictObject.items
    (PyDictObject.of_insertions long_bits
       [(b "name", user); (b "algorithm", algorithm)])
  = Some [(b "name", user); (b "algorithm", algorithm)] /\
  option_map PyDictObject.items
    (PyDictObject.of_insertions long_bits
       [(b "algorithm", algorithm); (b "name", user)])
  = Some [(b "name", user); (b "algorithm", algorithm)].
Proof. intros [-> | ->]; split; vm_compute; reflexivity. Qed.

(** C6 as stated fails.  After [d = {}; d["b"] = "2"; d["a"] = "1"] the
    items of [d] are [("a", "1"), ("b", "2")], with a [long] of 64 bits as
    with one of 32: the hash of ["a"] ends in the bits 000 and that of ["b"]
    in 011, so that ["a"] is in slot 0 of the table and ["b"] in slot 3.
    [update_object(d)] on a message whose object is [("c", "3")] appends
    them in this order, which is not the order of insertion. *)
Lemma update_object_order_counterexample :
  let inserted := [(b "b", b "2"); (b "a", b "1")] in
  let m := OmapiMessage.set_obj [(b "c", b "3")] OmapiMessage.init in
  (exists d,
     PyDictObject.of_insertions 64 inserted = Some d /\
     PyDictObject.items d = [(b "a", b "1"); (b "b", b "2")] /\
     OmapiMessage.obj (snd (OmapiMessage.update_object (PyDictObject.items d) m))
     = [(b "c", b "3"); (b "a", b "1"); (b "b", b "2")] /\
     OmapiMessage.obj (snd (OmapiMessage.update_object (PyDictObject.items d) m))
     <> [(b "c", b "3")] ++ inserted) /\
  (exists d,
     PyDictObject.of_insertions 32 inserted = Some d /\
     PyDictObject.items d = [(b "a", b "1"); (b "b", b "2")] /\
     OmapiMessage.obj (snd (OmapiMessage.update_object (PyDictObject.items d) m))
     = [(b "c", b "3"); (b "a", b "1"); (b "b", b "2")] /\
     OmapiMessage.obj (snd (OmapiMessage.update_object (PyDictObject.items d) m))
     <> [(b "c", b "3")] ++ inserted).
Proof.
  intros inserted m.
  split; eexists; (split; [vm_compute; reflexivity |]);
    (split; [vm_compute; reflexivity |]); (split; [vm_compute; reflexivity |]);
    vm_compute; discriminate.
Qed.

(** ** Signing and verification *)

Ltac message_fields :=
  cbn [OmapiMessage.authid OmapiMessage.opcode OmapiMessage.handle OmapiMessage.tid
       OmapiMessage.rid OmapiMessage.message OmapiMessage.obj OmapiMessage.signature
       OmapiMessage.set_authid OmapiMessage.set_signature OmapiMessage.set_opcode
       OmapiMessage.set_handle OmapiMessage.set_tid OmapiMessage.set_rid
       OmapiMessage.set_message OmapiMessage.set_obj] in *.

Lemma sign_Ok_inv authenticator m r m1 :
  OmapiMessage.sign authenticator m = (Ok r, m1) ->
  exists data,
    OmapiMessage.as_string (presigned authenticator m) true = Ok data /\
    m1 = OmapiMessage.set_signature (OmapiAuthenticatorBase.sign authenticator data)
           (presigned authenticator m) /\
    len (OmapiAuthenticatorBase.sign authenticator data)
      = OmapiAuthenticatorBase.authlen authenticator.
Proof.
  unfold OmapiMessage.sign, bind, modify, get, lift. fold (presigned authenticator m).
  destruct (OmapiMessage.as_string (presigned authenticator m) true) as [data | e |];
    try discriminate.
  message_fields.
  destruct (decide (len (OmapiAuthenticatorBase.sign authenticator data)
                    = OmapiAuthenticatorBase.authlen authenticator)) as [E | E];
    [| discriminate].
  intros H. inversion H; subst. exists data. auto.
Qed.

Lemma sign_Ok authenticator m data :
  OmapiMessage.as_string (presigned authenticator m) true = Ok data ->
  len (OmapiAuthenticatorBase.sign authenticator data)
    = OmapiAuthenticatorBase.authlen authenticator ->
  OmapiMessage.sign authenticator m
  = (Ok tt, OmapiMessage.set_signature (OmapiAuthenticatorBase.sign authenticator data)
              (presigned authenticator m)).
Proof.
  intros E L. unfold OmapiMessage.sign, bind, modify, get, lift.
  fold (presigned authenticator m). rewrite E. message_fields.
  destruct (decide (len (OmapiAuthenticatorBase.sign authenticator data)
                    = OmapiAuthenticatorBase.authlen authenticator)); [reflexivity | contradiction].
Qed.

Lemma presigned_again authenticator m signature :
  presigned authenticator (OmapiMessage.set_signature signature (presigned authenticator m))
  = presigned authenticator m.
Proof. reflexivity. Qed.

(** C8.  If [sign] with an authenticator returns, signing the result again
    with the same authenticator returns and leaves the message as it is, so
    that its full serialization is the same after the first and the second
    signing; after each the signature has [authlen] bytes. *)
Theorem sign_twice (authenticator : OmapiAuthenticatorBase.t) (m m1 : OmapiMessage.t) :
  OmapiMessage.sign authenticator m = (Ok tt, m1) ->
  OmapiMessage.sign authenticator m1 = (Ok tt, m1) /\
  OmapiMessage.as_string (snd (OmapiMessage.sign authenticator m1)) false
    = OmapiMessage.as_string m1 false /\
  len (OmapiMessage.signature m1) = OmapiAuthenticatorBase.authlen authenticator /\
  len (OmapiMessage.signature (snd (OmapiMessage.sign authenticator m1)))
    = OmapiAuthenticatorBase.authlen authenticator.
Proof.
  intros H. apply sign_Ok_inv in H as (data & E & -> & L).
  assert (S2 : OmapiMessage.sign authenticator
                 (OmapiMessage.set_signature
                    (OmapiAuthenticatorBase.sign authenticator data)
                    (presigned authenticator m))
               = (Ok tt, OmapiMessage.set_signature
                           (OmapiAuthenticatorBase.sign authenticator data)
                           (presigned authenticator m))).
  { rewrite (sign_Ok authenticator _ data); rewrite ?presigned_again; auto. }
  rewrite S2. cbn [snd]. message_fields. auto.
Qed.

Lemma as_string_forsigning_fields (m m' : OmapiMessage.t) :
  signed_fields m = signed_fields m' ->
  OmapiMessage.as_string m true = OmapiMessage.as_string m' true.
Proof.
  destruct m, m'. unfold signed_fields. message_fields.
  intros H. injection H as Hl -> -> -> -> -> ->.
  unfold OmapiMessage.as_string. message_fields.
  cbn [negb]. rewrite Hl. reflexivity.
Qed.

Lemma parse_signed_wire (m : OmapiMessage.t) (rest : bytes) :
  serializable m true ->
  wf_dict (OmapiMessage.message m) -> wf_dict (OmapiMessage.obj m) ->
  next parse_signed (wire_signed m ++ rest) = (Yielded (signed_fields m), rest).
Proof.
  intros (_ & Vs & V2 & V3 & V4 & V5 & _ & _) Wm Wo.
  assert (Vl : uint32 (len (OmapiMessage.signature m))).
  { pose proof (len_nonneg (OmapiMessage.signature m)). unfold uint32. lia. }
  unfold parse_signed, wire_signed, signed_fields.
  rewrite <- !app_assoc.
  destruct m as [authid opcode handle tid rid message obj signature].
  message_fields.
  match goal with |- next (parse_map _ ?chain) ?buff = _ =>
    assert (H : next chain buff
                = (Yielded (tt, len signature, opcode, handle, tid, rid, message, obj),
                   rest));
    [| rewrite (next_map_yield _ _ _ _ _ H); reflexivity]
  end.
  eapply next_chain_yield; [| apply parse_bindict_wire; exact Wo].
  eapply next_chain_yield; [| apply parse_bindict_wire; exact Wm].
  eapply next_chain_yield; [| apply parse_net32int_pack; exact V5].
  eapply next_chain_yield; [| apply parse_net32int_pack; exact V4].
  eapply next_chain_yield; [| apply parse_net32int_pack; exact V3].
  eapply next_chain_yield; [| apply parse_net32int_pack; exact V2].
  eapply next_chain_yield; [| apply parse_net32int_pack; exact Vl].
  reflexivity.
Qed.

(** The signed part of a message determines its signed fields. *)
Lemma wire_signed_inj (m1 m2 : OmapiMessage.t) :
  serializable m1 true -> serializable m2 true ->
  wf_dict (OmapiMessage.message m1) -> wf_dict (OmapiMessage.obj m1) ->
  wf_dict (OmapiMessage.message m2) -> wf_dict (OmapiMessage.obj m2) ->
  wire_signed m1 = wire_signed m2 -> signed_fields m1 = signed_fields m2.
Proof.
  intros S1 S2 Wm1 Wo1 Wm2 Wo2 E.
  pose proof (parse_signed_wire m1 [] S1 Wm1 Wo1) as P1.
  pose proof (parse_signed_wire m2 [] S2 Wm2 Wo2) as P2.
  rewrite E, P2 in P1. congruence.
Qed.

Lemma verify_eq (m : OmapiMessage.t) authenticators authenticator data :
  authenticators !! OmapiMessage.authid m = Some authenticator ->
  OmapiMessage.as_string m true = Ok data ->
  OmapiMessage.verify m authenticators
  = Ok (bool_decide (OmapiAuthenticatorBase.sign authenticator data
                     = OmapiMessage.signature m)).
Proof. intros L E. unfold OmapiMessage.verify. rewrite L, E. reflexivity. Qed.

(** What [sign] leaves: the signature of the signed part under the
    authenticator. *)
Lemma signed_verifies authenticator (m m1 : OmapiMessage.t) :
  OmapiMessage.sign authenticator m = (Ok tt, m1) ->
  exists data,
    OmapiMessage.as_string m1 true = Ok data /\
    OmapiMessage.signature m1 = OmapiAuthenticatorBase.sign authenticator data.
Proof.
  intros H. apply sign_Ok_inv in H as (data & E & -> & L).
  exists data. split; [| reflexivity].
  rewrite <- E. apply as_string_forsigning_fields.
  unfold signed_fields, presigned. message_fields. rewrite L.
  unfold zeroes, len. rewrite repeat_length.
  f_equal. f_equal. f_equal. f_equal. f_equal. f_equal.
  pose proof (len_nonneg (OmapiAuthenticatorBase.sign authenticator data)). lia.
Qed.

(** C2, as amended.  For a message [m1] signed by an authenticator:
    the for-signing serialization does not depend on [authid] nor on the
    content of the signature, only on its length; after [authid] is changed,
    [verify] still returns true when the registry has, at the new id, an
    authenticator that signs as the signing one does; and a message with
    well-formed dictionaries that carries the same signature but differs from
    [m1] in [opcode], [handle], [tid], [rid], [message] or [obj] does not
    verify, provided the authenticator gives different signatures for the two
    different for-signing serializations. *)
Theorem signature_coverage (authenticator : OmapiAuthenticatorBase.t)
    (m m1 : OmapiMessage.t) :
  OmapiMessage.sign authenticator m = (Ok tt, m1) ->
  (forall authid' signature',
      len signature' = len (OmapiMessage.signature m1) ->
      OmapiMessage.as_string
        (OmapiMessage.set_signature signature' (OmapiMessage.set_authid authid' m1)) true
      = OmapiMessage.as_string m1 true) /\
  (forall authid' authenticators authenticator',
      authenticators !! authid' = Some authenticator' ->
      (forall data, OmapiAuthenticatorBase.sign authenticator' data
                    = OmapiAuthenticatorBase.sign authenticator data) ->
      OmapiMessage.verify (OmapiMessage.set_authid authid' m1) authenticators = Ok true) /\
  (forall m2 authenticators,
      wf_dict (OmapiMessage.message m1) -> wf_dict (OmapiMessage.obj m1) ->
      wf_dict (OmapiMessage.message m2) -> wf_dict (OmapiMessage.obj m2) ->
      OmapiMessage.signature m2 = OmapiMessage.signature m1 ->
      (OmapiMessage.opcode m2, OmapiMessage.handle m2, OmapiMessage.tid m2,
       OmapiMessage.rid m2, OmapiMessage.message m2, OmapiMessage.obj m2)
      <> (OmapiMessage.opcode m1, OmapiMessage.handle m1, OmapiMessage.tid m1,
          OmapiMessage.rid m1, OmapiMessage.message m1, OmapiMessage.obj m1) ->
      authenticators !! OmapiMessage.authid m2 = Some authenticator ->
      (forall data1 data2,
          OmapiMessage.as_string m1 true = Ok data1 ->
          OmapiMessage.as_string m2 true = Ok data2 ->
          data1 <> data2 ->
          OmapiAuthenticatorBase.sign authenticator data1
          <> OmapiAuthenticatorBase.sign authenticator data2) ->
      OmapiMessage.verify m2 authenticators <> Ok true).
Proof.
  intros H. destruct (signed_verifies _ _ _ H) as (data1 & E1 & S1).
  split; [| split].
  - intros authid' signature' L. apply as_string_forsigning_fields.
    unfold signed_fields. message_fields. rewrite L. reflexivity.
  - intros authid' authenticators authenticator' Hl Hs.
    rewrite (verify_eq _ _ authenticator' data1).
    + message_fields. rewrite Hs, bool_decide_eq_true_2 by (symmetry; exact S1).
      reflexivity.
    + message_fields. exact Hl.
    + rewrite <- E1. apply as_string_forsigning_fields. reflexivity.
  - intros m2 authenticators Wm1 Wo1 Wm2 Wo2 Hsig Hne Hl Hmac.
    destruct (OmapiMessage.as_string m2 true) as [data2 | e |] eqn:E2.
    + rewrite (verify_eq _ _ authenticator data2 Hl E2).
      intros V. injection V as V. apply bool_decide_eq_true in V.
      apply (Hmac data1 data2 E1 eq_refl); [| congruence].
      intros ->.
      apply as_string_Ok_inv in E1 as (V1 & D1 & _).
      apply as_string_Ok_inv in E2 as (V2 & D2 & _).
      unfold wire in *. rewrite D1 in D2.
      apply wire_signed_inj in D2; try assumption.
      apply Hne. unfold signed_fields in D2. congruence.
    + unfold OmapiMessage.verify. rewrite Hl, E2. discriminate.
    + unfold OmapiMessage.verify. rewrite Hl, E2. discriminate.
Qed.

(** The theorem at the example message and authenticator. *)
Lemma sign_twice_witness :
  let m1 := snd (OmapiMessage.sign example_authenticator example_message) in
  OmapiMessage.sign example_authenticator m1 = (Ok tt, m1) /\
  OmapiMessage.as_string (snd (OmapiMessage.sign example_authenticator m1)) false
    = OmapiMessage.as_string m1 false /\
  len (OmapiMessage.signature m1) = 16 /\
  len (OmapiMessage.signature (snd (OmapiMessage.sign example_authenticator m1))) = 16.
Proof.
  apply (sign_twice example_authenticator example_message). reflexivity.
Defined.

(** The theorem at a message signed by the example authenticator: with
    [authid] changed to 9 it verifies against a registry that has the
    authenticator at 9, and with [opcode] changed it does not verify. *)
Lemma signature_coverage_witness :
  let m1 := snd (OmapiMessage.sign example_authenticator example_message) in
  OmapiMessage.verify (OmapiMessage.set_authid 9 m1)
    {[ 9 := OmapiAuthenticatorBase.set_authid 9 example_authenticator ]} = Ok true /\
  OmapiMessage.verify (OmapiMessage.set_opcode 2 m1) {[ 5 := example_authenticator ]}
    <> Ok true.
Proof.
  intros m1.
  destruct (signature_coverage example_authenticator example_message m1 eq_refl)
    as (_ & HB & HC).
  split.
  - apply (HB 9 _ (OmapiAuthenticatorBase.set_authid 9 example_authenticator)).
    + apply lookup_singleton_eq.
    + reflexivity.
  - apply HC.
    + constructor; [| constructor]. unfold wf_entry, len. simpl. lia.
    + constructor; [| constructor]. unfold wf_entry, len. simpl. lia.
    + constructor; [| constructor]. unfold wf_entry, len. simpl. lia.
    + constructor; [| constructor]. unfold wf_entry, len. simpl. lia.
    + reflexivity.
    + discriminate.
    + apply lookup_singleton_eq.
    + intros data1 data2 E1 E2 _.
      vm_compute in E1. vm_compute in E2.
      injection E1 as <-. injection E2 as <-. vm_compute. discriminate.
Defined.

(** C2 as stated fails: a message signed by the null authenticator, whose
    signature is empty whatever is signed, still verifies after its [opcode]
    is changed; and after its [authid] is changed to an id that is not in the
    registry, [verify] returns false. *)
Lemma signature_coverage_counterexample :
  let m1 := snd (OmapiMessage.sign OmapiNullAuthenticator example_message) in
  OmapiMessage.sign OmapiNullAuthenticator example_message = (Ok tt, m1) /\
  OmapiMessage.opcode (OmapiMessage.set_opcode 2 m1) <> OmapiMessage.opcode m1 /\
  OmapiMessage.verify (OmapiMessage.set_opcode 2 m1) {[ 0 := OmapiNullAuthenticator ]}
    = Ok true /\
  OmapiMessage.verify (OmapiMessage.set_authid 5 m1) {[ 0 := OmapiNullAuthenticator ]}
    = Ok false.
Proof.
  split; [reflexivity |]. split; [discriminate |]. split.
  - unfold OmapiMessage.verify. 
    change (OmapiMessage.authid _) with 0. rewrite lookup_singleton_eq. reflexivity.
  - unfold OmapiMessage.verify.
    change (OmapiMessage.authid _) with 5. rewrite lookup_singleton_ne by lia. reflexivity.
Qed.

(** ** The size limit of OutBuffer *)


Lemma appends_run_op (op : encode_op) :
  op_in_range op -> appends true (run_op op) (op_wire op).
Proof.
  destruct op; simpl; intros H.
  - apply appends_add.
  - apply appends_add_net16int; exact H.
  - apply appends_add_net32int; exact H.
  - apply appends_add_net16string; exact H.
  - apply appends_add_net32string; exact H.
  - apply appends_add_bindict; exact H.
Qed.

(** *** The writes of an operation *)

Lemma run_writes_app (ws1 ws2 : list bytes) (rejected : option string) (self : OutBuffer.t) :
  run_writes (ws1 ++ ws2) rejected self
  = match run_writes ws1 None self with
    | (Ok _, self') => run_writes ws2 rejected self'
    | other => other
    end.
Proof.
  revert self. induction ws1 as [| w ws1 IH]; intros self; [reflexivity |].
  cbn [app run_writes]. unfold bind.
  destruct (OutBuffer.add w self) as [[[] | e |] s]; [apply IH | reflexivity | reflexivity].
Qed.


Ltac run_adds :=
  unfold bind, ret, raise;
  repeat match goal with
         | |- context [OutBuffer.add ?data ?s] =>
             destruct (OutBuffer.add data s) as [[[] | ? |] ?]; cbv beta iota;
             try reflexivity
         end.

Lemma add_net16int_writes (integer : Z) (self : OutBuffer.t) :
  OutBuffer.add_net16int integer self
  = run_writes (op_writes (Add_net16int integer)) (op_rejected (Add_net16int integer)) self.
Proof.
  unfold OutBuffer.add_net16int, op_writes, op_rejected, uint16b.
  destruct ((integer <? 0) || (integer >=? 65536)); cbn [negb run_writes]; [reflexivity |].
  run_adds.
Qed.

Lemma add_net32int_writes (integer : Z) (self : OutBuffer.t) :
  OutBuffer.add_net32int integer self
  = run_writes (op_writes (Add_net32int integer)) (op_rejected (Add_net32int integer)) self.
Proof.
  unfold OutBuffer.add_net32int, op_writes, op_rejected, uint32b.
  destruct ((integer <? 0) || (integer >=? 4294967296)); cbn [negb run_writes];
    [reflexivity |].
  run_adds.
Qed.

Lemma add_net16string_writes (string : bytes) (self : OutBuffer.t) :
  OutBuffer.add_net16string string self
  = run_writes (op_writes (Add_net16string string)) (op_rejected (Add_net16string string))
      self.
Proof.
  unfold OutBuffer.add_net16string, op_writes, op_rejected.
  destruct (len string >=? 65536) eqn:E; [reflexivity |].
  cbn [run_writes]. unfold bind at 1. rewrite add_net16int_writes.
  unfold op_writes, op_rejected.
  assert (U : uint16b (len string) = true).
  { apply uint16b_spec. pose proof (len_nonneg string). unfold uint16. lia. }
  rewrite U. cbn [run_writes]. run_adds.
Qed.

Lemma add_net32string_writes (string : bytes) (self : OutBuffer.t) :
  OutBuffer.add_net32string string self
  = run_writes (op_writes (Add_net32string string)) (op_rejected (Add_net32string string))
      self.
Proof.
  unfold OutBuffer.add_net32string, op_writes, op_rejected.
  destruct (len string >=? 4294967296) eqn:E; [reflexivity |].
  cbn [run_writes]. unfold bind at 1. rewrite add_net32int_writes.
  unfold op_writes, op_rejected.
  assert (U : uint32b (len string) = true).
  { apply uint32b_spec. pose proof (len_nonneg string). unfold uint32. lia. }
  rewrite U. cbn [run_writes]. run_adds.
Qed.

Lemma add_bindict_writes (items : list (bytes * bytes)) (self : OutBuffer.t) :
  OutBuffer.add_bindict items self
  = run_writes (entries_writes items) (entries_rejected items) self.
Proof.
  unfold OutBuffer.add_bindict. revert self.
  induction items as [| [key value] items IH]; intros self.
  - cbn [OutBuffer.add_entries entries_writes entries_rejected run_writes]. run_adds.
  - cbn [OutBuffer.add_entries entries_writes entries_rejected].
    unfold bind in *. cbv beta.
    rewrite add_net16string_writes. unfold op_writes, op_rejected.
    destruct (len key >=? 65536) eqn:K; cbn [orb run_writes]; [reflexivity |].
    unfold bind, ret.
    destruct (OutBuffer.add _ self) as [[[] | e |] s1]; [| reflexivity | reflexivity].
    destruct (OutBuffer.add key s1) as [[[] | e |] s2]; [| reflexivity | reflexivity].
    rewrite add_net32string_writes. unfold op_writes, op_rejected.
    destruct (len value >=? 4294967296) eqn:V; cbn [run_writes]; [reflexivity |].
    unfold bind, ret.
    destruct (OutBuffer.add _ s2) as [[[] | e |] s3]; [| reflexivity | reflexivity].
    destruct (OutBuffer.add value s3) as [[[] | e |] s4]; [| reflexivity | reflexivity].
    apply IH.
Qed.

(** An operation is the calls of [add] for its writes, one after the other,
    and then its ValueError, if it has one. *)
Lemma run_op_writes (op : encode_op) (self : OutBuffer.t) :
  run_op op self = run_writes (op_writes op) (op_rejected op) self.
Proof.
  destruct op; cbn [run_op].
  - cbn [op_writes op_rejected run_writes]. run_adds.
  - apply add_net16int_writes.
  - apply add_net32int_writes.
  - apply add_net16string_writes.
  - apply add_net32string_writes.
  - apply add_bindict_writes.
Qed.

(** The calls stop at the first write after which the buffer is above the
    limit. *)
Lemma run_writes_crossing (done : list bytes) (crossing : bytes) (todo : list bytes)
    (rejected : option string) : forall self : OutBuffer.t,
  done = [] \/ len (OutBuffer.buff self ++ concat done) <= OutBuffer.sizelimit ->
  len (OutBuffer.buff self ++ concat done ++ crossing) > OutBuffer.sizelimit ->
  run_writes (done ++ crossing :: todo) rejected self
  = (Raise OmapiSizeLimitError,
     OutBuffer.mk (OutBuffer.buff self ++ concat done ++ crossing)).
Proof.
  induction done as [| w done IH]; intros self F L.
  - cbn [app concat run_writes] in *. unfold bind. rewrite add_eq.
    destruct (len (OutBuffer.buff self ++ crossing) >? OutBuffer.sizelimit) eqn:E;
      [reflexivity | lia].
  - destruct F as [F | F]; [discriminate |].
    cbn [app concat run_writes] in *. unfold bind. rewrite add_eq.
    rewrite !len_app in F. pose proof (len_nonneg (concat done)).
    destruct (len (OutBuffer.buff self ++ w) >? OutBuffer.sizelimit) eqn:E;
      [rewrite len_app in E; lia |].
    rewrite IH; cbn [OutBuffer.buff].
    + rewrite <- !app_assoc. reflexivity.
    + right. rewrite !len_app in *. lia.
    + rewrite <- !app_assoc in *. exact L.
Qed.

(** Writes that stay within the limit are all made. *)
Lemma run_writes_fits (writes : list bytes) (rejected : option string) :
  forall self : OutBuffer.t,
  writes = [] \/ len (OutBuffer.buff self ++ concat writes) <= OutBuffer.sizelimit ->
  run_writes writes rejected self
  = (match rejected with
     | Some msg => Raise (ValueError msg)
     | None => Ok tt
     end, OutBuffer.mk (OutBuffer.buff self ++ concat writes)).
Proof.
  induction writes as [| w writes IH]; intros [buf] F.
  - cbn [run_writes concat OutBuffer.buff]. rewrite app_nil_r.
    destruct rejected; reflexivity.
  - destruct F as [F | F]; [discriminate |].
    cbn [app concat run_writes OutBuffer.buff] in *. unfold bind. rewrite add_eq.
    cbn [OutBuffer.buff]. rewrite !len_app in F. pose proof (len_nonneg (concat writes)).
    destruct (len (buf ++ w) >? OutBuffer.sizelimit) eqn:E; [rewrite len_app in E; lia |].
    rewrite IH; cbn [OutBuffer.buff].
    + rewrite <- !app_assoc. reflexivity.
    + right. rewrite !len_app. lia.
Qed.

(** Among writes that take the buffer above the limit, one is the first to
    do so. *)
Lemma first_crossing (writes : list bytes) : forall held : bytes,
  writes <> [] ->
  len (held ++ concat writes) > OutBuffer.sizelimit ->
  exists done crossing todo,
    writes = done ++ crossing :: todo /\
    (done = [] \/ len (held ++ concat done) <= OutBuffer.sizelimit) /\
    len (held ++ concat done ++ crossing) > OutBuffer.sizelimit.
Proof.
  induction writes as [| w writes IH]; intros held N L; [contradiction |].
  destruct (len (held ++ w) >? OutBuffer.sizelimit) eqn:E.
  - exists [], w, writes. cbn [app concat]. split; [reflexivity |].
    split; [left; reflexivity | lia].
  - destruct writes as [| w' writes].
    + cbn [concat] in L. rewrite app_nil_r in L. lia.
    + destruct (IH (held ++ w)) as (done & crossing & todo & S & F & C).
      * discriminate.
      * cbn [concat] in *. rewrite <- !app_assoc. exact L.
      * exists (w :: done), crossing, todo. cbn [app concat]. rewrite S.
        split; [reflexivity |]. split.
        -- right. destruct F as [-> | F].
           ++ cbn [concat]. rewrite app_nil_r. lia.
           ++ rewrite <- !app_assoc in F. exact F.
        -- rewrite <- !app_assoc in *. exact C.
Qed.

Lemma entries_in_range (items : list (bytes * bytes)) :
  Forall encodable items ->
  entries_rejected items = None /\
  concat (entries_writes items) = wire_bindict items /\
  entries_writes items <> [].
Proof.
  unfold wire_bindict, wire_entries.
  induction 1 as [| [key value] items [K V] _ (R & W & N)].
  - repeat split. discriminate.
  - cbn [fst snd] in K, V. cbn [entries_rejected entries_writes map concat].
    destruct (len key >=? 65536) eqn:EK; [lia |].
    destruct (len value >=? 4294967296) eqn:EV; [lia |].
    cbn [orb concat]. split; [exact R |]. split; [| discriminate].
    unfold wire_entry, wire_net16string, wire_net32string. cbn [fst snd].
    rewrite <- !app_assoc. do 4 f_equal. exact W.
Qed.

(** An operation whose arguments are in range has no ValueError, and its
    writes are the bytes that it is to append. *)
Lemma op_in_range_writes (op : encode_op) :
  op_in_range op ->
  op_rejected op = None /\ concat (op_writes op) = op_wire op /\ op_writes op <> [].
Proof.
  destruct op; cbn [op_in_range op_rejected op_writes op_wire]; intros R.
  - cbn [concat]. rewrite app_nil_r. repeat split. discriminate.
  - apply uint16b_spec in R. rewrite R. cbn [concat]. rewrite app_nil_r.
    repeat split. discriminate.
  - apply uint32b_spec in R. rewrite R. cbn [concat]. rewrite app_nil_r.
    repeat split. discriminate.
  - destruct (len string >=? 65536) eqn:E; [lia |].
    cbn [concat]. rewrite app_nil_r. repeat split. discriminate.
  - destruct (len string >=? 4294967296) eqn:E; [lia |].
    cbn [concat]. rewrite app_nil_r. repeat split. discriminate.
  - apply entries_in_range. exact R.
Qed.

(** C1, as amended.  An encode operation of OutBuffer ([add],
    [add_net16int], [add_net32int], [add_net16string], [add_net32string],
    [add_bindict]) makes its writes one after the other (a string encoder
    writes the length and then the string, [add_bindict] the length of a key,
    the key, the length of a value and the value for each entry, and then
    the end marker) and checks the limit after each write, not before.  When
    its arguments are in the range of the encoder and its bytes would take
    the buffer above 65536, it raises the size-limit error at the first
    write after which the buffer holds more than 65536 bytes: [getvalue()]
    then returns the bytes held before the operation followed by the writes
    of the operation up to and including that one, which is more than 65536
    bytes, and differs from the bytes held before when those were within the
    limit.  An argument outside the range, given to [add_net16int],
    [add_net32int], [add_net16string] or [add_net32string], raises
    ValueError with nothing appended.  [add_bindict] raises ValueError at
    the first key or value outside the range, with its writes for what comes
    before left in the buffer, unless one of these writes takes the buffer
    above the limit: then it raises the size-limit error at that write. *)
Theorem size_limit_after_write (op : encode_op) (self : OutBuffer.t) :
  (op_in_range op ->
   len (OutBuffer.buff self ++ op_wire op) > OutBuffer.sizelimit ->
   exists done crossing todo,
     op_writes op = done ++ crossing :: todo /\
     op_wire op = concat done ++ crossing ++ concat todo /\
     (done = [] \/ len (OutBuffer.buff self ++ concat done) <= OutBuffer.sizelimit) /\
     len (OutBuffer.buff self ++ concat done ++ crossing) > OutBuffer.sizelimit /\
     run_op op self
     = (Raise OmapiSizeLimitError,
        OutBuffer.mk (OutBuffer.buff self ++ concat done ++ crossing)) /\
     fst (OutBuffer.getvalue (snd (run_op op self)))
     = Ok (OutBuffer.buff self ++ concat done ++ crossing) /\
     (len (OutBuffer.buff self) <= OutBuffer.sizelimit -> concat done ++ crossing <> [])) /\
  (forall done crossing todo,
     op_writes op = done ++ crossing :: todo ->
     done = [] \/ len (OutBuffer.buff self ++ concat done) <= OutBuffer.sizelimit ->
     len (OutBuffer.buff self ++ concat done ++ crossing) > OutBuffer.sizelimit ->
     run_op op self
     = (Raise OmapiSizeLimitError,
        OutBuffer.mk (OutBuffer.buff self ++ concat done ++ crossing))) /\
  (forall msg : string,
     op_rejected op = Some msg ->
     (scalar_op op = true -> run_op op self = (Raise (ValueError msg), self)) /\
     (op_writes op = [] \/
      len (OutBuffer.buff self ++ concat (op_writes op)) <= OutBuffer.sizelimit ->
      run_op op self
      = (Raise (ValueError msg),
         OutBuffer.mk (OutBuffer.buff self ++ concat (op_writes op))))).
Proof.
  assert (X : forall done crossing todo,
             op_writes op = done ++ crossing :: todo ->
             done = [] \/ len (OutBuffer.buff self ++ concat done) <= OutBuffer.sizelimit ->
             len (OutBuffer.buff self ++ concat done ++ crossing) > OutBuffer.sizelimit ->
             run_op op self
             = (Raise OmapiSizeLimitError,
                OutBuffer.mk (OutBuffer.buff self ++ concat done ++ crossing))).
  { intros done crossing todo S F C. rewrite run_op_writes, S.
    apply run_writes_crossing; assumption. }
  split; [| split; [exact X |]].
  - intros R L. destruct (op_in_range_writes op R) as (_ & W & N).
    rewrite <- W in L.
    destruct (first_crossing _ _ N L) as (done & crossing & todo & S & F & C).
    exists done, crossing, todo.
    pose proof (X done crossing todo S F C) as E.
    split; [exact S |]. split.
    { rewrite <- W, S, concat_app. cbn [concat]. reflexivity. }
    split; [exact F |]. split; [exact C |]. split; [exact E |]. split.
    { rewrite E. reflexivity. }
    intros H Z. rewrite Z, app_nil_r in C. lia.
  - intros msg J. split.
    + intros Sc. rewrite run_op_writes, J.
      assert (W : op_writes op = []).
      { destruct op as [data | n | n | s | s | items];
          cbn [op_rejected op_writes scalar_op] in *; try discriminate.
        - destruct (uint16b n); [discriminate | reflexivity].
        - destruct (uint32b n); [discriminate | reflexivity].
        - destruct (len s >=? 65536); [reflexivity | discriminate].
        - destruct (len s >=? 4294967296); [reflexivity | discriminate]. }
      rewrite W. destruct self. reflexivity.
    + intros F. rewrite run_op_writes, J. rewrite run_writes_fits by exact F. reflexivity.
Qed.


Lemma Ok_inj {A : Type} (x y : A) : Ok x = Ok y -> x = y.
Proof. intros H. injection H as H. exact H. Qed.

Lemma len_zeroes (n : Z) : 0 <= n -> len (zeroes n) = n.
Proof. intros H. unfold len, zeroes. rewrite repeat_length. lia. Qed.

(** The theorem at three operations.  [add] of two bytes on the buffer of
    65535 bytes; [add_net16string] of two bytes on the same buffer, which
    raises after it has written the length and before it writes the string;
    [add_net16int(65536)], which is rejected with the buffer as it was; and
    [add_bindict] whose second key has 65536 bytes, which is rejected after
    the first entry has been written. *)
Lemma size_limit_after_write_witness :
  (exists done crossing todo,
     op_writes (Add [x01; x02]) = done ++ crossing :: todo /\
     op_wire (Add [x01; x02]) = concat done ++ crossing ++ concat todo /\
     (done = [] \/
      len (OutBuffer.buff nearly_full ++ concat done) <= OutBuffer.sizelimit) /\
     len (OutBuffer.buff nearly_full ++ concat done ++ crossing) > OutBuffer.sizelimit /\
     run_op (Add [x01; x02]) nearly_full
     = (Raise OmapiSizeLimitError,
        OutBuffer.mk (OutBuffer.buff nearly_full ++ concat done ++ crossing)) /\
     fst (OutBuffer.getvalue (snd (run_op (Add [x01; x02]) nearly_full)))
     = Ok (OutBuffer.buff nearly_full ++ concat done ++ crossing) /\
     (len (OutBuffer.buff nearly_full) <= OutBuffer.sizelimit ->
      concat done ++ crossing <> [])) /\
  run_op (Add_net16string [x01; x02]) nearly_full
  = (Raise OmapiSizeLimitError,
     OutBuffer.mk (OutBuffer.buff nearly_full ++ concat [] ++ struct_pack_H 2)) /\
  run_op (Add_net16int 65536) nearly_full
  = (Raise (ValueError "not a 16bit unsigned integer"), nearly_full) /\
  run_op (Add_bindict [(b "k", b "v"); (zeroes 65536, b "w")]) OutBuffer.init
  = (Raise (ValueError "string too long"),
     OutBuffer.mk
       (OutBuffer.buff OutBuffer.init
        ++ concat (op_writes (Add_bindict [(b "k", b "v"); (zeroes 65536, b "w")])))).
Proof.
  assert (L : len (zeroes 65535) = 65535) by (apply len_zeroes; lia).
  split; [| split; [| split]].
  - destruct (size_limit_after_write (Add [x01; x02]) nearly_full) as (H & _ & _).
    apply H.
    + exact I.
    + unfold nearly_full, op_wire. cbn [OutBuffer.buff].
      rewrite len_app, L. unfold OutBuffer.sizelimit. rewrite !len_cons, len_nil. lia.
  - destruct (size_limit_after_write (Add_net16string [x01; x02]) nearly_full)
      as (_ & H & _).
    apply (H [] (struct_pack_H 2) [[x01; x02]]).
    + reflexivity.
    + left. reflexivity.
    + unfold nearly_full. cbn [OutBuffer.buff concat app].
      rewrite len_app, L, struct_pack_H_length. unfold OutBuffer.sizelimit. lia.
  - destruct (size_limit_after_write (Add_net16int 65536) nearly_full) as (_ & _ & H).
    destruct (H "not a 16bit unsigned integer"%string) as [H1 _]; [reflexivity |].
    apply H1. reflexivity.
  - destruct (size_limit_after_write
                (Add_bindict [(b "k", b "v"); (zeroes 65536, b "w")]) OutBuffer.init)
      as (_ & _ & H).
    destruct (H "string too long"%string) as [_ H2]; [vm_compute; reflexivity |].
    apply H2. right. vm_compute. discriminate.
Defined.

(** C1 as stated fails: [add] of one byte on a buffer of 65536 bytes raises
    the size-limit error, and [getvalue()] then returns 65537 bytes, not the
    bytes accumulated before.  And [add_net16string] of a string of 65536
    bytes, which would take an empty buffer above the limit, raises
    ValueError, not the size-limit error. *)
Lemma size_limit_counterexample :
  let self := OutBuffer.mk (zeroes 65536) in
  (len (OutBuffer.buff self ++ [x01]) > OutBuffer.sizelimit /\
   fst (OutBuffer.add [x01] self) = Raise OmapiSizeLimitError /\
   fst (OutBuffer.getvalue (snd (OutBuffer.add [x01] self))) <> Ok (OutBuffer.buff self)) /\
  (len (OutBuffer.buff OutBuffer.init ++ wire_net16string (zeroes 65536))
     > OutBuffer.sizelimit /\
   OutBuffer.add_net16string (zeroes 65536) OutBuffer.init
     = (Raise (ValueError "string too long"), OutBuffer.init)).
Proof.
  intros self.
  assert (L : len (zeroes 65536) = 65536) by (apply len_zeroes; lia).
  split; [split; [| split] | split].
  - unfold self. cbn [OutBuffer.buff]. rewrite len_app, L, len_cons, len_nil.
    unfold OutBuffer.sizelimit. lia.
  - rewrite add_eq. unfold self. cbn [OutBuffer.buff fst].
    rewrite len_app, L, len_cons, len_nil. reflexivity.
  - rewrite add_eq. unfold self. cbn [OutBuffer.buff fst snd OutBuffer.getvalue].
    intros H. apply Ok_inj in H. apply (f_equal len) in H.
    rewrite len_app, L, len_cons, len_nil in H. lia.
  - cbn [OutBuffer.buff OutBuffer.init]. unfold wire_net16string.
    rewrite app_nil_l, len_app, L, struct_pack_H_length. unfold OutBuffer.sizelimit. lia.
  - unfold OutBuffer.add_net16string. rewrite L. reflexivity.
Qed.

(** ** A generator only takes bytes off the buffer *)

Lemma slice_from_length {A : Type} (s : list A) (n : Z) :
  (length (slice_from s n) <= length s)%nat.
Proof. unfold slice_from. destruct (0 <=? n); rewrite length_skipn; lia. Qed.

Lemma loop_run_length {S A : Type} (body : S -> Parser (S + A))
    (run : S -> bytes -> Step (S + A) * bytes) :
  (forall s buff, (length (snd (run s buff)) <= length buff)%nat) ->
  forall fuel s buff,
    (length (snd (loop_run body run fuel s buff)) <= length buff)%nat.
Proof.
  intros Hrun fuel. induction fuel as [| fuel IH]; intros s buff;
    rewrite loop_run_eq; specialize (Hrun s buff);
    destruct (run s buff) as [[p' | [s' | a] |] buff']; simpl in *; try lia.
  specialize (IH s' buff'). lia.
Qed.

Lemma next_length {A : Type} (p : Parser A) :
  forall buff, (length (snd (next p buff)) <= length buff)%nat.
Proof.
  induction p as [A a | n | A B p IHp k IHk | S A body IH s]; intros buff.
  - simpl. lia.
  - simpl. destruct (len buff <? n); simpl; [lia | apply slice_from_length].
  - simpl. specialize (IHp buff).
    destruct (next p buff) as [[p' | a |] buff']; simpl in *; try lia.
    specialize (IHk a buff'). lia.
  - simpl. apply loop_run_length. intros s' buff'. apply IH.
Qed.

(** ** The meter of an InBuffer *)

Lemma run_inbuffer_op_meter (self : InBuffer.t) (op : inbuffer_op) :
  len (InBuffer.buff self) <= InBuffer.totalsize self ->
  len (InBuffer.buff (run_inbuffer_op self op))
  <= InBuffer.totalsize (run_inbuffer_op self op).
Proof.
  intros I. destruct op as [data | | A gen]; unfold run_inbuffer_op.
  - rewrite feed_eq. cbn [snd InBuffer.buff InBuffer.totalsize]. rewrite len_app. lia.
  - unfold InBuffer.resetsize, modify. cbn [snd InBuffer.buff InBuffer.totalsize]. lia.
  - rewrite step_eq. cbn [snd InBuffer.buff InBuffer.totalsize].
    pose proof (next_length gen (InBuffer.buff self)). unfold len in *. lia.
Qed.

Lemma run_inbuffer_ops_meter (ops : list inbuffer_op) : forall self,
  len (InBuffer.buff self) <= InBuffer.totalsize self ->
  len (InBuffer.buff (run_inbuffer_ops ops self))
  <= InBuffer.totalsize (run_inbuffer_ops ops self).
Proof.
  induction ops as [| op ops IH]; intros self I; [exact I |].
  apply IH, run_inbuffer_op_meter, I.
Qed.

Lemma run_inbuffer_ops_bound (ops : list inbuffer_op) : forall self,
  len (InBuffer.buff self) <= InBuffer.totalsize self ->
  InBuffer.totalsize self <= InBuffer.sizelimit ->
  feeds_return ops self ->
  InBuffer.totalsize (run_inbuffer_ops ops self) <= InBuffer.sizelimit.
Proof.
  induction ops as [| op ops IH]; intros self I J F; [exact J |].
  destruct F as [F1 F2].
  apply IH; [apply run_inbuffer_op_meter, I | | exact F2].
  destruct op as [data | | A gen]; unfold run_inbuffer_op.
  - rewrite feed_eq in *. cbn [fst snd InBuffer.totalsize] in *.
    destruct (InBuffer.totalsize self + len data >? InBuffer.sizelimit) eqn:E;
      [discriminate | lia].
  - unfold InBuffer.resetsize, modify. cbn [snd InBuffer.totalsize]. lia.
  - rewrite step_eq. cbn [snd InBuffer.totalsize]. exact J.
Qed.

(** C10, as amended.  After any sequence of [feed], [resetsize] and
    generator steps from the initial state, [totalsize >= len(buff)]; [feed]
    raises the size-limit error exactly when [totalsize] would exceed 65536;
    and as long as no [feed] of the sequence has raised, the unparsed bytes
    are at most 65536. *)
Theorem inbuffer_meter (ops : list inbuffer_op) :
  InBuffer.totalsize (run_inbuffer_ops ops InBuffer.init)
    >= len (InBuffer.buff (run_inbuffer_ops ops InBuffer.init)) /\
  (forall self data,
      (InBuffer.totalsize self + len data > 65536 ->
       fst (InBuffer.feed data self) = Raise OmapiSizeLimitError) /\
      (InBuffer.totalsize self + len data <= 65536 ->
       fst (InBuffer.feed data self) = Ok tt)) /\
  (feeds_return ops InBuffer.init ->
   len (InBuffer.buff (run_inbuffer_ops ops InBuffer.init)) <= 65536).
Proof.
  assert (I0 : len (InBuffer.buff InBuffer.init) <= InBuffer.totalsize InBuffer.init)
    by (unfold InBuffer.init, len; simpl; lia).
  split; [| split].
  - pose proof (run_inbuffer_ops_meter ops _ I0). lia.
  - intros self data. rewrite feed_eq. cbn [fst]. unfold InBuffer.sizelimit.
    split; intros H;
      destruct (InBuffer.totalsize self + len data >? 65536) eqn:E;
      (reflexivity || (exfalso; lia)).
  - intros F. pose proof (run_inbuffer_ops_meter ops _ I0).
    pose proof (run_inbuffer_ops_bound ops _ I0
                  ltac:(unfold InBuffer.init, InBuffer.sizelimit; simpl; lia) F).
    unfold InBuffer.sizelimit in *. lia.
Qed.

(** The theorem at a feed, a parse, a reset and a second feed. *)
Lemma inbuffer_meter_witness :
  len (InBuffer.buff
         (run_inbuffer_ops
            [Feed [x00; x02; x01]; Next InBuffer.parse_net16int; Resetsize; Feed [x05]]
            InBuffer.init)) <= 65536.
Proof.
  apply inbuffer_meter. cbn. auto.
Defined.

(** C10 as stated fails: a [feed] of 65537 bytes raises the size-limit
    error and leaves 65537 unparsed bytes in the buffer. *)
Lemma inbuffer_meter_counterexample :
  let self := run_inbuffer_ops [Feed (zeroes 65537)] InBuffer.init in
  fst (InBuffer.feed (zeroes 65537) InBuffer.init) = Raise OmapiSizeLimitError /\
  len (InBuffer.buff self) > 65536.
Proof.
  assert (L : len (zeroes 65537) = 65537) by (apply len_zeroes; lia).
  unfold run_inbuffer_ops. cbn [fold_left run_inbuffer_op].
  rewrite feed_eq. cbn [fst snd InBuffer.buff InBuffer.totalsize InBuffer.init].
  rewrite app_nil_l, L. split; [reflexivity | lia].
Qed.

(** ** The client: receiving *)

Ltac client_fields :=
  cbn [Omapi.authenticators Omapi.defauth Omapi.connection Omapi.inbuffer
       Omapi.set_connection Omapi.set_inbuffer] in *.

(** What a successful [fill_inbuffer] leaves: the connection is still open
    and only the connection and the buffer have changed. *)
Lemma fill_inbuffer_Ok (self self' : Omapi.t) r :
  Omapi.fill_inbuffer self = (Ok r, self') ->
  is_Some (Omapi.connection self') /\
  Omapi.authenticators self' = Omapi.authenticators self /\
  Omapi.defauth self' = Omapi.defauth self.
Proof.
  unfold Omapi.fill_inbuffer, Omapi.recv_conn, Omapi.check_connected, bind, try_except,
    Omapi.on_connection, Omapi.on_inbuffer, Omapi.close, raise.
  destruct self as [auths defauth [sock |] inb]; client_fields; [| discriminate].
  destruct (Socket.recv 2048 sock) as [[data | e |] sock']; client_fields.
  - destruct data as [| c data]; client_fields; [discriminate |].
    destruct (InBuffer.feed (c :: data) inb) as [[[] | e |] inb']; client_fields.
    + intros H. inversion H; subst. client_fields. eauto.
    + destruct (Omapi.is_size_limit e); client_fields; discriminate.
    + discriminate.
  - destruct (Omapi.is_socket_error e); client_fields; discriminate.
  - discriminate.
Qed.

Lemma receive_message_from_Ok (fuel : nat) :
  forall gen (self self' : Omapi.t) response,
    Omapi.receive_message_from fuel gen self = (Ok response, self') ->
    OmapiMessage.verify response (Omapi.authenticators self') = Ok true /\
    (is_Some (Omapi.connection self) -> is_Some (Omapi.connection self')) /\
    Omapi.authenticators self' = Omapi.authenticators self /\
    Omapi.defauth self' = Omapi.defauth self.
Proof.
  induction fuel as [| fuel IH]; intros gen self self' response;
    cbn [Omapi.receive_message_from];
    destruct (InBuffer.step gen (Omapi.inbuffer self)) as [[gen' | message |] inb].
  - discriminate.
  - unfold bind, Omapi.on_inbuffer, InBuffer.resetsize, modify, get, lift, Omapi.close,
      raise, ret. client_fields.
    destruct (OmapiMessage.verify message (Omapi.authenticators self))
      as [[|] | e |] eqn:V; cbn [negb]; try discriminate.
    + intros H. inversion H; subst. client_fields. auto.
    + client_fields. destruct (Omapi.connection self); discriminate.
  - discriminate.
  - unfold bind at 1.
    destruct (Omapi.fill_inbuffer (Omapi.set_inbuffer inb self)) as [[[] | e |] self1] eqn:F;
      try discriminate.
    intros H. apply IH in H as (V & C & A & D).
    apply fill_inbuffer_Ok in F as (C1 & A1 & D1). client_fields.
    repeat split; [exact V | intros _; apply C, C1 | congruence | congruence].
  - unfold bind, Omapi.on_inbuffer, InBuffer.resetsize, modify, get, lift, Omapi.close,
      raise, ret. client_fields.
    destruct (OmapiMessage.verify message (Omapi.authenticators self))
      as [[|] | e |] eqn:V; cbn [negb]; try discriminate.
    + intros H. inversion H; subst. client_fields. auto.
    + client_fields. destruct (Omapi.connection self); discriminate.
  - discriminate.
Qed.

(** C4, as amended.  When [receive_message] has returned a message, which
    is then verified, and its [rid] is not the [tid] of the request,
    [receive_response] raises OmapiError("received message is not the
    desired response"); the client is left as [receive_message] left it: a
    connection that was open is still open and [check_connected] passes. *)
Theorem unexpected_response_leaves_connection (self self' : Omapi.t)
    (message response : OmapiMessage.t) (insecure : bool) :
  Omapi.receive_message self = (Ok response, self') ->
  OmapiMessage.rid response <> OmapiMessage.tid message ->
  OmapiMessage.verify response (Omapi.authenticators self') = Ok true /\
  Omapi.receive_response message insecure self
    = (Raise (OmapiError "received message is not the desired response"), self') /\
  (is_Some (Omapi.connection self) ->
   is_Some (Omapi.connection self') /\
   Omapi.check_connected self' = (Ok tt, self')).
Proof.
  intros R N. pose proof R as R'. unfold Omapi.receive_message in R'.
  apply receive_message_from_Ok in R' as (V & C & _ & _).
  split; [exact V |]. split.
  - unfold Omapi.receive_response. rewrite (bind_Ok _ _ _ _ _ R).
    unfold OmapiMessage.is_response. rewrite bool_decide_eq_false_2 by exact N.
    reflexivity.
  - intros S. specialize (C S). split; [exact C |].
    unfold Omapi.check_connected. destruct C as [sock ->]. reflexivity.
Qed.

(** ** The client on an unexpected reply *)

Lemma example_receive_message :
  Omapi.receive_message example_client = (Ok example_reply, example_client_after).
Proof. vm_compute. reflexivity. Qed.

(** The theorem at the example client, whose peer replies to another
    request. *)
Lemma unexpected_response_leaves_connection_witness :
  OmapiMessage.verify example_reply (Omapi.authenticators example_client_after) = Ok true /\
  Omapi.receive_response example_request false example_client
    = (Raise (OmapiError "received message is not the desired response"),
       example_client_after) /\
  (is_Some (Omapi.connection example_client) ->
   is_Some (Omapi.connection example_client_after) /\
   Omapi.check_connected example_client_after = (Ok tt, example_client_after)).
Proof.
  apply (unexpected_response_leaves_connection example_client example_client_after
           example_request example_reply false).
  - vm_compute. reflexivity.
  - vm_compute. discriminate.
Defined.

(** C4 as stated fails: after the unexpected reply the connection of the
    example client is not closed, and sending and receiving are not refused
    as not connected. *)
Lemma unexpected_response_counterexample :
  Omapi.receive_message example_client = (Ok example_reply, example_client_after) /\
  OmapiMessage.rid example_reply <> OmapiMessage.tid example_request /\
  Omapi.receive_response example_request false example_client
    = (Raise (OmapiError "received message is not the desired response"),
       example_client_after) /\
  Omapi.connection example_client_after <> None /\
  fst (Omapi.send_conn [x00] example_client_after) = Ok tt /\
  fst (Omapi.recv_conn 2048 example_client_after) = Ok [].
Proof.
  split; [exact example_receive_message |].
  split; [vm_compute; discriminate |].
  split; [vm_compute; reflexivity |].
  split; [vm_compute; discriminate |].
  split; vm_compute; reflexivity.
Qed.

(** ** split and join *)

Lemma split_no_sep (c : byte) (p : bytes) : ~ In c p -> split c p = [p].
Proof.
  induction p as [| x p IH]; intros H; [reflexivity |].
  simpl. destruct (decide (x = c)) as [-> | N]; [exfalso; apply H; left; reflexivity |].
  rewrite IH by (intros G; apply H; right; exact G). reflexivity.
Qed.

Lemma split_app_sep (c : byte) (p s : bytes) :
  ~ In c p -> split c (p ++ c :: s) = p :: split c s.
Proof.
  induction p as [| x p IH]; intros H.
  - simpl. destruct (decide (c = c)); [reflexivity | contradiction].
  - simpl. destruct (decide (x = c)) as [-> | N]; [exfalso; apply H; left; reflexivity |].
    rewrite IH by (intros G; apply H; right; exact G). reflexivity.
Qed.

Lemma split_join (c : byte) (p : bytes) (parts : list bytes) :
  Forall (fun q => ~ In c q) (p :: parts) ->
  split c (join [c] (p :: parts)) = p :: parts.
Proof.
  revert p. induction parts as [| q parts IH]; intros p H.
  - simpl. apply split_no_sep. inversion H; assumption.
  - inversion H as [| ? ? Hp Hr]; subst.
    change (join [c] (p :: q :: parts)) with (p ++ c :: join [c] (q :: parts)).
    rewrite split_app_sep by exact Hp. rewrite IH by exact Hr. reflexivity.
Qed.

(** ** Decimal octets *)

Lemma digit_value_10 (c : byte) (d : Z) :
  digit_value 10 c = Some d -> 0 <= d < 10 /\ ord c = d + 48.
Proof.
  unfold digit_value. pose proof (ord_range c).
  destruct ((48 <=? ord c) && (ord c <=? 57)) eqn:E1.
  - destruct (ord c - 48 <? 10) eqn:E; [| discriminate]. intros [= <-]. lia.
  - destruct ((97 <=? ord c) && (ord c <=? 122)) eqn:E2.
    + destruct (ord c - 87 <? 10) eqn:E; [exfalso; lia | discriminate].
    + destruct ((65 <=? ord c) && (ord c <=? 90)) eqn:E3.
      * destruct (ord c - 55 <? 10) eqn:E; [exfalso; lia | discriminate].
      * rewrite Z.ltb_irrefl. discriminate.
Qed.

Lemma ord_inj (c1 c2 : byte) : ord c1 = ord c2 -> c1 = c2.
Proof. intros H. rewrite <- (byte_of_ord c1), <- (byte_of_ord c2), H. reflexivity. Qed.

Lemma digits_value_lower (s : bytes) : forall acc v,
  0 <= acc -> digits_value 10 acc s = Some v -> acc <= v.
Proof.
  induction s as [| c s IH]; intros acc v Hacc H; simpl in H.
  - injection H as <-. lia.
  - destruct (digit_value 10 c) as [d |] eqn:D; [| discriminate].
    apply digit_value_10 in D as [Hd _]. apply IH in H; lia.
Qed.

Lemma leading_zero (c : byte) (d : Z) (rest : bytes) :
  ord c = d + 48 ->
  match c :: rest with
  | "0"%byte :: _ :: _ => false
  | _ => true
  end = true ->
  rest <> [] -> d <> 0.
Proof.
  intros Ho H Hr ->. assert (c = "0"%byte) as -> by (apply ord_inj; rewrite Ho; reflexivity).
  destruct rest; [contradiction | discriminate].
Qed.

Lemma canonical_octet_digits (p : bytes) :
  canonical_octet p = true ->
  exists v, digits_value 10 0 p = Some v /\ v < 256 /\ octet_digits p v.
Proof.
  unfold canonical_octet.
  destruct (digits_value 10 0 p) as [v |] eqn:V; [| discriminate].
  intros H. apply andb_true_iff in H as [Hv Hz].
  exists v. split; [reflexivity |]. split; [lia |].
  destruct p as [| c1 p]; [discriminate |].
  simpl in V. destruct (digit_value 10 c1) as [d1 |] eqn:D1; [| discriminate].
  apply digit_value_10 in D1 as [R1 O1].
  destruct p as [| c2 p].
  { simpl in V. injection V as <-. rewrite Z.add_0_l. constructor; assumption. }
  pose proof (leading_zero c1 d1 (c2 :: p) O1 Hz ltac:(discriminate)) as N1.
  simpl in V. destruct (digit_value 10 c2) as [d2 |] eqn:D2; [| discriminate].
  apply digit_value_10 in D2 as [R2 O2].
  destruct p as [| c3 p].
  { simpl in V. injection V as <-. constructor; (assumption || lia). }
  simpl in V. destruct (digit_value 10 c3) as [d3 |] eqn:D3; [| discriminate].
  apply digit_value_10 in D3 as [R3 O3].
  destruct p as [| c4 p].
  { simpl in V. injection V as <-. constructor; (assumption || lia). }
  exfalso. simpl in V. destruct (digit_value 10 c4) as [d4 |] eqn:D4; [| discriminate].
  apply digit_value_10 in D4 as [R4 O4].
  apply digits_value_lower in V; lia.
Qed.

Lemma octet_digits_unique (p q : bytes) (v : Z) :
  octet_digits p v -> octet_digits q v -> p = q.
Proof.
  intros Hp Hq. inversion Hp; subst; inversion Hq; subst; try (exfalso; lia);
    repeat f_equal; apply ord_inj; lia.
Qed.

Lemma octet_digits_no_dot (p : bytes) (v : Z) : octet_digits p v -> ~ In "."%byte p.
Proof.
  intros H G. assert (E : ord "."%byte = 46) by reflexivity.
  inversion H; subst; simpl in G; intuition subst; lia.
Qed.

(** The table of the 256 octets: what [str] prints is canonical, and [int]
    reads it back. *)
Lemma octet_table (c : byte) :
  canonical_octet (str (ord c)) = true /\
  digits_value 10 0 (str (ord c)) = Some (ord c) /\
  int (str (ord c)) 10 = Ok (ord c) /\
  chr (ord c) = Ok [c].
Proof. destruct c; vm_compute; repeat split. Qed.

Lemma canonical_octet_roundtrip (p : bytes) :
  canonical_octet p = true ->
  exists c, int p 10 = Ok (ord c) /\ str (ord c) = p /\ ~ In "."%byte p.
Proof.
  intros H. destruct (canonical_octet_digits p H) as (v & V & Hv & D).
  pose proof (digits_value_lower p 0 v ltac:(lia) V) as Hv0.
  exists (byte_of v).
  assert (O : ord (byte_of v) = v) by (rewrite ord_byte_of; apply Z.mod_small; lia).
  destruct (octet_table (byte_of v)) as (T1 & T2 & T3 & _).
  rewrite O in *.
  destruct (canonical_octet_digits _ T1) as (v' & V' & _ & D').
  rewrite T2 in V'. injection V' as <-.
  assert (E : str v = p) by (eapply octet_digits_unique; eassumption).
  rewrite <- E at 1. rewrite T3. split; [reflexivity |]. split; [exact E |].
  eapply octet_digits_no_dot; exact D.
Qed.

(** ** Hexadecimal pairs *)

Lemma is_hex_cases (c : byte) : is_hex c = true -> In c hex_chars.
Proof.
  destruct c; vm_compute; intros H; try discriminate H; clear H;
    repeat (first [left; reflexivity | right]).
Qed.

Lemma check_hex_pairs :
  forallb (fun c1 => forallb (fun c2 => check_hex_pair c1 c2) hex_chars) hex_chars = true.
Proof. vm_compute. reflexivity. Qed.

Lemma chr_Ok_inv (n : Z) (c : byte) : chr n = Ok [c] -> ord c = n.
Proof.
  unfold chr. destruct ((0 <=? n) && (n <? 256)) eqn:E;
    [| destruct ((- 2 ^ 63 <=? n) && (n <? 2 ^ 63)); discriminate].
  intros H. apply Ok_inj in H. injection H as <-.
  rewrite ord_byte_of. apply Z.mod_small. lia.
Qed.

Lemma chr_ord (c : byte) : chr (ord c) = Ok [c].
Proof.
  unfold chr. pose proof (ord_range c).
  destruct ((0 <=? ord c) && (ord c <? 256)) eqn:E; [| exfalso; lia].
  rewrite byte_of_ord. reflexivity.
Qed.

Lemma hex_pair_roundtrip (p : bytes) :
  hex_pair p = true ->
  exists c, int p 16 = Ok (ord c) /\
            format_2_2x (ord c) = lower p /\ ~ In ":"%byte p.
Proof.
  destruct p as [| c1 [| c2 [| c3 p]]]; try discriminate.
  cbn [hex_pair]. intros H. apply andb_true_iff in H as [H1 H2].
  apply is_hex_cases in H1, H2.
  pose proof check_hex_pairs as T.
  rewrite forallb_forall in T. specialize (T c1 H1).
  rewrite forallb_forall in T. specialize (T c2 H2).
  unfold check_hex_pair in T.
  apply andb_true_iff in T as [T N2]. apply andb_true_iff in T as [T N1].
  destruct (int [c1; c2] 16) as [n | |]; try discriminate.
  destruct (chr n) as [[| c [| ? ?]] | |] eqn:C; try discriminate.
  apply chr_Ok_inv in C. subst n. apply bool_decide_eq_true in T.
  exists c. split; [reflexivity |]. split; [exact T |].
  apply negb_true_iff, bool_decide_eq_false in N1, N2.
  simpl. intuition congruence.
Qed.

(** ** lower and join *)

Lemma lower_app (s1 s2 : bytes) : lower (s1 ++ s2) = lower s1 ++ lower s2.
Proof. unfold lower. apply map_app. Qed.

Lemma lower_join_colon (parts : list bytes) :
  lower (join (b ":") parts) = join (b ":") (map lower parts).
Proof.
  induction parts as [| p [| q parts] IH]; [reflexivity | reflexivity |].
  change (join (b ":") (p :: q :: parts)) with (p ++ b ":" ++ join (b ":") (q :: parts)).
  rewrite !lower_app, IH. reflexivity.
Qed.

(** C5, as amended.  For a dotted quad [s] of four octets in canonical
    decimal (no leading zero) with values in [0,255],
    [unpack_ip(pack_ip(s)) == s]; and for a MAC string [s] of six groups of
    exactly two hexadecimal digits separated by colons,
    [unpack_mac(pack_mac(s)) == s.lower()]. *)
Theorem address_roundtrip :
  (forall p1 p2 p3 p4 : bytes,
      canonical_octet p1 = true -> canonical_octet p2 = true ->
      canonical_octet p3 = true -> canonical_octet p4 = true ->
      let s := join (b ".") [p1; p2; p3; p4] in
      exists packed, pack_ip s = Ok packed /\ unpack_ip packed = Ok s) /\
  (forall p1 p2 p3 p4 p5 p6 : bytes,
      hex_pair p1 = true -> hex_pair p2 = true -> hex_pair p3 = true ->
      hex_pair p4 = true -> hex_pair p5 = true -> hex_pair p6 = true ->
      let s := join (b ":") [p1; p2; p3; p4; p5; p6] in
      exists packed, pack_mac s = Ok packed /\ unpack_mac packed = Ok (lower s)).
Proof.
  split.
  - intros p1 p2 p3 p4 H1 H2 H3 H4 s.
    destruct (canonical_octet_roundtrip p1 H1) as (c1 & I1 & S1 & N1).
    destruct (canonical_octet_roundtrip p2 H2) as (c2 & I2 & S2 & N2).
    destruct (canonical_octet_roundtrip p3 H3) as (c3 & I3 & S3 & N3).
    destruct (canonical_octet_roundtrip p4 H4) as (c4 & I4 & S4 & N4).
    exists [c1; c2; c3; c4]. unfold pack_ip, unpack_ip, s.
    change (b ".") with ["."%byte].
    rewrite split_join by (repeat constructor; assumption).
    cbn [len length Z.of_nat negb Z.eqb Pos.of_succ_nat Pos.succ Pos.eqb map_result rbind].
    rewrite I1, I2, I3, I4. cbn [rbind map_result].
    rewrite !chr_ord. cbn [rbind join app map].
    split; [reflexivity |]. rewrite S1, S2, S3, S4. reflexivity.
  - intros p1 p2 p3 p4 p5 p6 H1 H2 H3 H4 H5 H6 s.
    destruct (hex_pair_roundtrip p1 H1) as (c1 & I1 & S1 & N1).
    destruct (hex_pair_roundtrip p2 H2) as (c2 & I2 & S2 & N2).
    destruct (hex_pair_roundtrip p3 H3) as (c3 & I3 & S3 & N3).
    destruct (hex_pair_roundtrip p4 H4) as (c4 & I4 & S4 & N4).
    destruct (hex_pair_roundtrip p5 H5) as (c5 & I5 & S5 & N5).
    destruct (hex_pair_roundtrip p6 H6) as (c6 & I6 & S6 & N6).
    exists [c1; c2; c3; c4; c5; c6]. unfold pack_mac, unpack_mac, s.
    rewrite lower_join_colon.
    change (b ":") with [":"%byte].
    rewrite split_join by (repeat constructor; assumption).
    cbn [len length Z.of_nat negb Z.eqb Pos.of_succ_nat Pos.succ Pos.eqb map_result rbind].
    rewrite I1, I2, I3, I4, I5, I6. cbn [rbind map_result].
    rewrite !chr_ord. cbn [rbind join app map].
    split; [reflexivity |]. rewrite S1, S2, S3, S4, S5, S6. reflexivity.
Qed.

(** The theorem at 192.0.2.7 and at a MAC address of mixed case. *)
Lemma address_roundtrip_witness :
  (exists packed, pack_ip (b "192.0.2.7") = Ok packed /\ unpack_ip packed = Ok (b "192.0.2.7")) /\
  (exists packed,
      pack_mac (b "00:1A:2b:3C:4d:5E") = Ok packed /\
      unpack_mac packed = Ok (lower (b "00:1A:2b:3C:4d:5E"))).
Proof.
  destruct address_roundtrip as [IP MAC]. split.
  - apply (IP (b "192") (b "0") (b "2") (b "7")); reflexivity.
  - apply (MAC (b "00") (b "1A") (b "2b") (b "3C") (b "4d") (b "5E")); reflexivity.
Defined.

(** C5 as stated fails: the four parts of [01.2.3.4] are decimal numbers in
    [0,255], [pack_ip] accepts it, and [unpack_ip] gives back [1.2.3.4]. *)
Lemma address_roundtrip_counterexample :
  Forall (fun p => decimal_octet p = true) (split "."%byte (b "01.2.3.4")) /\
  length (split "."%byte (b "01.2.3.4")) = 4%nat /\
  pack_ip (b "01.2.3.4") = Ok [x01; x02; x03; x04] /\
  unpack_ip [x01; x02; x03; x04] = Ok (b "1.2.3.4") /\
  b "1.2.3.4" <> b "01.2.3.4".
Proof.
  split; [vm_compute; repeat constructor |].
  repeat split; try reflexivity. vm_compute. discriminate.
Qed.

(** ** The bound of [next] is not reached *)

Lemma productive_loop_k {S A : Type} (body : S -> Parser (S + A)) :
  (forall s', productive (S + A) (body s')) ->
  (forall s0 buff s' buff',
      next (body s0) buff = (Yielded (inl s'), buff') ->
      (length buff' < length buff)%nat) ->
  forall r, productive A (loop_k body r).
Proof. intros Hb Hp [s' | a]; simpl; constructor; assumption. Qed.

Lemma loop_run_proceeds {S A : Type} (body : S -> Parser (S + A)) :
  (forall s', productive (S + A) (body s')) ->
  (forall s0 buff s' buff',
      next (body s0) buff = (Yielded (inl s'), buff') ->
      (length buff' < length buff)%nat) ->
  (forall s' buff, proceeds (next (body s') buff)) ->
  forall fuel s buff,
    (length buff <= fuel)%nat ->
    proceeds (loop_run body (fun s' buff' => next (body s') buff') fuel s buff).
Proof.
  intros Hb Hp IH fuel. induction fuel as [| fuel IHf]; intros s buff Hf;
    rewrite loop_run_eq; cbv beta; specialize (IH s buff); pose proof (Hp s buff) as Hp';
    destruct (next (body s) buff) as [[p' | [s' | a] |] buff']; simpl in *; try exact I;
    try contradiction.
  - constructor; [exact IH | apply productive_loop_k; assumption].
  - specialize (Hp' s' buff' eq_refl). lia.
  - constructor; [exact IH | apply productive_loop_k; assumption].
  - apply IHf. specialize (Hp' s' buff' eq_refl). lia.
Qed.

Lemma productive_next {A : Type} (p : Parser A) :
  productive A p -> forall buff, proceeds (next p buff).
Proof.
  induction 1 as [A a | n | A B p k Hp IHp Hk IHk | S A body s Hb IHb Hprog];
    intros buff.
  - exact I.
  - simpl. destruct (len buff <? n); simpl; [constructor | exact I].
  - simpl. specialize (IHp buff).
    destruct (next p buff) as [[p' | a |] buff']; simpl in *.
    + constructor; assumption.
    + apply IHk.
    + contradiction.
  - simpl. apply loop_run_proceeds; auto.
Qed.

(** What a generator that yields at once has read. *)
Lemma next_bind_Yielded_inv {A B : Type} (p : Parser A) (k : A -> Parser B) buff r buff' :
  next (Bind p k) buff = (Yielded r, buff') ->
  exists a b1, next p buff = (Yielded a, b1) /\ next (k a) b1 = (Yielded r, buff').
Proof.
  simpl. destruct (next p buff) as [[p' | a |] b1]; try discriminate.
  intros H. exists a, b1. auto.
Qed.

Lemma slice_from_length_eq {A : Type} (s : list A) (n : Z) :
  0 <= n <= len s -> len (slice_from s n) = len s - n.
Proof.
  intros H. unfold slice_from, len in *. destruct (0 <=? n) eqn:E; [| exfalso; lia].
  rewrite length_skipn. lia.
Qed.

Lemma parse_fixedbuffer_consumes (n : Z) buff data buff' :
  0 <= n ->
  next (InBuffer.parse_fixedbuffer n) buff = (Yielded data, buff') ->
  len buff' = len buff - n.
Proof.
  intros Hn. unfold InBuffer.parse_fixedbuffer. simpl.
  destruct (len buff <? n) eqn:E; [discriminate |].
  intros H. injection H as _ <-. apply slice_from_length_eq. lia.
Qed.

Lemma parse_net16string_consumes buff key buff' :
  next InBuffer.parse_net16string buff = (Yielded key, buff') ->
  len buff' + 2 <= len buff.
Proof.
  unfold InBuffer.parse_net16string, parse_map, parse_chain_snoc, parse_chain0,
    InBuffer.parse_net16int.
  intros H.
  apply next_bind_Yielded_inv in H as (? & b1 & H & E1).
  apply next_bind_Yielded_inv in H as (? & b2 & H & H').
  apply next_bind_Yielded_inv in H as (? & b3 & H & H0).
  injection H as _ <-.
  apply next_bind_Yielded_inv in H0 as (? & b4 & H0 & E2).
  apply next_bind_Yielded_inv in H0 as (? & b5 & H0 & E3).
  apply parse_fixedbuffer_consumes in H0; [| lia].
  injection E3 as _ <-. injection E2 as _ <-. injection E1 as _ <-.
  match type of H' with next ?p _ = _ => pose proof (next_length p b5) as L end.
  rewrite H' in L. unfold len in *. simpl in L. lia.
Qed.

Lemma parse_bindict_body_progress entries buff entries' buff' :
  next (InBuffer.parse_bindict_body entries) buff = (Yielded (inl entries'), buff') ->
  (length buff' < length buff)%nat.
Proof.
  unfold InBuffer.parse_bindict_body. intros H.
  apply next_bind_Yielded_inv in H as (key & b1 & H & H').
  apply parse_net16string_consumes in H.
  match type of H' with next ?p _ = _ => pose proof (next_length p b1) as L end.
  rewrite H' in L. unfold len in *. simpl in L. lia.
Qed.

Lemma productive_parse_map {A B : Type} (f : A -> B) (p : Parser A) :
  productive A p -> productive B (parse_map f p).
Proof. intros H. unfold parse_map. constructor; [exact H | intros; constructor]. Qed.

Lemma productive_chain {T A : Type} (chain : Parser T) (parser : T -> Parser A) :
  productive T chain -> (forall items, productive A (parser items)) ->
  productive (T * A) (chain +> parser).
Proof.
  intros H1 H2. unfold parse_chain_snoc.
  constructor; [exact H1 |]. intros items.
  constructor; [apply H2 | intros; constructor].
Qed.

Lemma productive_parse_net16int : productive Z InBuffer.parse_net16int.
Proof. apply productive_parse_map. constructor. Qed.

Lemma productive_parse_net32int : productive Z InBuffer.parse_net32int.
Proof. apply productive_parse_map. constructor. Qed.

Lemma productive_parse_net16string : productive bytes InBuffer.parse_net16string.
Proof.
  apply productive_parse_map. apply productive_chain.
  - apply productive_chain; [constructor | intros; apply productive_parse_net16int].
  - intros [? ?]. constructor.
Qed.

Lemma productive_parse_net32string : productive bytes InBuffer.parse_net32string.
Proof.
  apply productive_parse_map. apply productive_chain.
  - apply productive_chain; [constructor | intros; apply productive_parse_net32int].
  - intros [? ?]. constructor.
Qed.

Lemma productive_parse_bindict : productive _ InBuffer.parse_bindict.
Proof.
  unfold InBuffer.parse_bindict. constructor.
  - intros entries. unfold InBuffer.parse_bindict_body.
    constructor; [apply productive_parse_net16string |].
    intros [| c key]; [constructor |].
    constructor; [apply productive_parse_net32string | intros; constructor].
  - intros. eapply parse_bindict_body_progress; eassumption.
Qed.

Lemma productive_parse_message : productive _ InBuffer.parse_message.
Proof.
  unfold InBuffer.parse_message. apply productive_parse_map.
  repeat (apply productive_chain;
          [| first [ intros; apply productive_parse_net32int
                   | intros; apply productive_parse_bindict
                   | intros [[[[[[[[? ?] ?] ?] ?] ?] ?] ?] ?]; constructor ]]).
  constructor.
Qed.

Lemma productive_parse_startup_message : productive _ InBuffer.parse_startup_message.
Proof.
  unfold InBuffer.parse_startup_message.
  repeat (apply productive_chain; [| intros; apply productive_parse_net32int]).
  constructor.
Qed.

(** ** Calls that return or raise *)

Lemma settles_bind {St A B : Type} (m : M St A) (k : A -> M St B) :
  settles m -> (forall a, settles (k a)) -> settles (bind m k).
Proof.
  intros Hm Hk s. unfold bind. specialize (Hm s).
  destruct (m s) as [[a | e |] s']; simpl in *; [apply Hk | discriminate | contradiction].
Qed.

Lemma settles_add (data : bytes) : settles (OutBuffer.add data).
Proof.
  intros s. rewrite add_eq. simpl.
  destruct (len (OutBuffer.buff s ++ data) >? OutBuffer.sizelimit); discriminate.
Qed.

Lemma settles_add_net32int (n : Z) : settles (OutBuffer.add_net32int n).
Proof.
  intros s. rewrite add_net32int_eq.
  destruct (uint32b n); [apply settles_add | discriminate].
Qed.

Lemma settles_add_net16int (n : Z) : settles (OutBuffer.add_net16int n).
Proof.
  intros s. rewrite add_net16int_eq.
  destruct (uint16b n); [apply settles_add | discriminate].
Qed.

Lemma settles_add_net16string (s : bytes) : settles (OutBuffer.add_net16string s).
Proof.
  unfold OutBuffer.add_net16string. destruct (len s >=? 65536).
  - intros ?. discriminate.
  - apply settles_bind; [apply settles_add_net16int | intros; apply settles_add].
Qed.

Lemma settles_add_net32string (s : bytes) : settles (OutBuffer.add_net32string s).
Proof.
  unfold OutBuffer.add_net32string. destruct (len s >=? 4294967296).
  - intros ?. discriminate.
  - apply settles_bind; [apply settles_add_net32int | intros; apply settles_add].
Qed.

Lemma settles_add_entries (items : list (bytes * bytes)) :
  settles (OutBuffer.add_entries items).
Proof.
  induction items as [| [key value] items IH].
  - intros ?. discriminate.
  - change (OutBuffer.add_entries ((key, value) :: items))
      with (let* _ := OutBuffer.add_net16string key in
            let* _ := OutBuffer.add_net32string value in
            OutBuffer.add_entries items).
    apply settles_bind; [apply settles_add_net16string | intros _].
    apply settles_bind; [apply settles_add_net32string | intros _; exact IH].
Qed.

Lemma settles_add_bindict (items : list (bytes * bytes)) :
  settles (OutBuffer.add_bindict items).
Proof.
  unfold OutBuffer.add_bindict.
  apply settles_bind; [apply settles_add_entries | intros; apply settles_add].
Qed.

Lemma as_string_settles (m : OmapiMessage.t) (forsigning : bool) :
  OmapiMessage.as_string m forsigning <> Hang.
Proof.
  unfold OmapiMessage.as_string.
  match goal with |- fst (?prog _) <> _ => assert (S : settles prog); [| apply S] end.
  assert (R : forall St, settles (@ret St unit tt)) by (intros St s; discriminate).
  repeat (apply settles_bind;
          [first [ apply settles_add_net32int | apply settles_add_bindict
                 | destruct forsigning; simpl;
                   first [apply R | apply settles_add_net32int | apply settles_add] ]
          | intros _]).
  intros s. discriminate.
Qed.

Lemma verify_settles (m : OmapiMessage.t) authenticators :
  OmapiMessage.verify m authenticators <> Hang.
Proof.
  unfold OmapiMessage.verify. destruct (authenticators !! OmapiMessage.authid m);
    [| discriminate].
  pose proof (as_string_settles m true).
  destruct (OmapiMessage.as_string m true); simpl; [discriminate | discriminate | contradiction].
Qed.

(** ** receive_message returns or raises *)

Lemma recv_pending (sock sock' : Socket.t) (n : Z) (c : byte) (data : bytes) :
  0 < n ->
  Socket.recv n sock = (Ok (c :: data), sock') ->
  (Socket.pending sock' < Socket.pending sock)%nat.
Proof.
  intros Hn. unfold Socket.recv, Socket.pending.
  destruct sock as [[| [chunk |] rest] out br]; cbn [Socket.inbound]; try discriminate.
  intros H. injection H as H <-. cbn [Socket.inbound].
  pose proof (slice_from_length_eq chunk n) as L.
  destruct (Z_le_gt_dec n (len chunk)) as [G | G].
  - specialize (L ltac:(lia)).
    destruct (slice_from chunk n) as [| x more] eqn:E; cbn [fold_right].
    + lia.
    + unfold len in *. simpl length in *. lia.
  - assert (E : slice_from chunk n = []).
    { unfold slice_from. destruct (0 <=? n) eqn:E0; [| exfalso; lia].
      apply skipn_all2. unfold len in G. lia. }
    rewrite E. cbn [fold_right]. lia.
Qed.

Lemma fill_inbuffer_settles (self : Omapi.t) :
  fst (Omapi.fill_inbuffer self) <> Hang /\
  (forall self', Omapi.fill_inbuffer self = (Ok tt, self') ->
                 (client_pending self' < client_pending self)%nat).
Proof.
  unfold Omapi.fill_inbuffer, Omapi.recv_conn, Omapi.check_connected, bind, try_except,
    Omapi.on_connection, Omapi.on_inbuffer, Omapi.close, raise, client_pending.
  destruct self as [auths defauth [sock |] inb]; client_fields;
    [| split; [discriminate | intros; discriminate]].
  destruct (Socket.recv 2048 sock) as [[data | e |] sock'] eqn:R; client_fields.
  - destruct data as [| c data]; client_fields;
      [split; [discriminate | intros; discriminate] |].
    rewrite feed_eq. client_fields.
    apply recv_pending in R; [| lia].
    destruct (InBuffer.totalsize inb + len (c :: data) >? InBuffer.sizelimit);
      cbn [Omapi.is_size_limit]; client_fields.
    + split; [discriminate | intros; discriminate].
    + split; [discriminate |]. intros self' H. injection H as <-. client_fields.
      simpl. exact R.
  - destruct (Omapi.is_socket_error e); client_fields;
      split; try discriminate; intros; discriminate.
  - exfalso. unfold Socket.recv in R.
    destruct (Socket.inbound sock) as [| [chunk |] rest]; discriminate.
Qed.

Lemma receive_message_from_settles (fuel : nat) :
  forall gen self,
    productive _ gen -> (client_pending self < fuel)%nat ->
    fst (Omapi.receive_message_from fuel gen self) <> Hang.
Proof.
  induction fuel as [| fuel IH]; intros gen self P F; [lia |].
  cbn [Omapi.receive_message_from]. rewrite step_eq.
  pose proof (productive_next gen P (InBuffer.buff (Omapi.inbuffer self))) as N.
  destruct (next gen (InBuffer.buff (Omapi.inbuffer self))) as [[gen' | message |] buff'];
    cbn [fst snd] in *; [| | contradiction].
  - unfold bind at 1.
    match goal with |- context [Omapi.fill_inbuffer ?s] =>
      destruct (fill_inbuffer_settles s) as [H1 H2];
      destruct (Omapi.fill_inbuffer s) as [[[] | e |] self1] eqn:E
    end; cbn [fst] in *; [| discriminate | contradiction].
    apply IH; [exact N |]. specialize (H2 self1 eq_refl).
    unfold client_pending in *. client_fields. lia.
  - unfold bind, Omapi.on_inbuffer, InBuffer.resetsize, modify, get, lift, Omapi.close,
      raise, ret. client_fields.
    pose proof (verify_settles message (Omapi.authenticators self)) as V.
    destruct (OmapiMessage.verify message (Omapi.authenticators self)) as [[|] | e |];
      cbn [negb fst]; try discriminate; [| contradiction].
    client_fields. destruct (Omapi.connection self); cbn [fst]; discriminate.
Qed.

(** The loop of [receive_message] ends: it returns a message or raises. *)
Lemma receive_message_settles (self : Omapi.t) :
  fst (Omapi.receive_message self) <> Hang.
Proof.
  unfold Omapi.receive_message. apply receive_message_from_settles.
  - apply productive_parse_message.
  - unfold client_pending. lia.
Qed.

(** ** Resuming a generator
    A generator that has yielded [None] and is resumed once more bytes have
    arrived gives what it would have given with these bytes there from the
    start. *)
Lemma slice_to_frame (b1 b2 : bytes) (n : Z) :
  0 <= n <= len b1 -> slice_to (b1 ++ b2) n = slice_to b1 n.
Proof.
  intros H. unfold slice_to, len in *. destruct (0 <=? n) eqn:E; [| exfalso; lia].
  rewrite firstn_app. replace (Z.to_nat n - length b1)%nat with O by lia.
  simpl. apply app_nil_r.
Qed.

Lemma slice_from_frame (b1 b2 : bytes) (n : Z) :
  0 <= n <= len b1 -> slice_from (b1 ++ b2) n = slice_from b1 n ++ b2.
Proof.
  intros H. unfold slice_from, len in *. destruct (0 <=? n) eqn:E; [| exfalso; lia].
  rewrite skipn_app. replace (Z.to_nat n - length b1)%nat with O by lia.
  reflexivity.
Qed.

Lemma loop_run_fuel {S A : Type} (body : S -> Parser (S + A))
    (run : S -> bytes -> Step (S + A) * bytes) :
  (forall s0 buff s' buff',
      run s0 buff = (Yielded (inl s'), buff') -> (length buff' < length buff)%nat) ->
  forall f1 f2 s buff,
    (length buff <= f1)%nat -> (length buff <= f2)%nat ->
    loop_run body run f1 s buff = loop_run body run f2 s buff.
Proof.
  intros Hp f1. induction f1 as [| f1 IH]; intros f2 s buff H1 H2;
    rewrite (loop_run_eq body run _ s buff), (loop_run_eq body run f2 s buff);
    pose proof (Hp s buff) as Hp';
    destruct (run s buff) as [[p' | [s' | a] |] buff']; try reflexivity;
    specialize (Hp' s' buff' eq_refl).
  - lia.
  - destruct f2 as [| f2]; [lia |]. apply IH; lia.
Qed.

Lemma reads_loop_k {S A : Type} (I : S -> Prop) (Q : A -> Prop)
    (body : S -> Parser (S + A)) :
  (forall s', I s' ->
              reads (S + A) (fun r => match r with inl s'' => I s'' | inr a => Q a end)
                (body s')) ->
  (forall s0 buff s' buff',
      next (body s0) buff = (Yielded (inl s'), buff') ->
      (length buff' < length buff)%nat) ->
  forall r, match r with inl s'' => I s'' | inr a => Q a end -> reads A Q (loop_k body r).
Proof.
  intros Hb Hp [s' | a] H; simpl.
  - econstructor; eassumption.
  - constructor. exact H.
Qed.

Lemma loop_run_resumes {S A : Type} (I : S -> Prop) (Q : A -> Prop)
    (body : S -> Parser (S + A)) :
  (forall s', I s' ->
              reads (S + A) (fun r => match r with inl s'' => I s'' | inr a => Q a end)
                (body s')) ->
  (forall s0 buff s' buff',
      next (body s0) buff = (Yielded (inl s'), buff') ->
      (length buff' < length buff)%nat) ->
  (forall s', I s' -> forall b1 more,
        resumes (fun r => match r with inl s'' => I s'' | inr a => Q a end)
          (body s') b1 more) ->
  forall f1 s b1 more f2,
    I s -> (length b1 <= f1)%nat -> (length (b1 ++ more) <= f2)%nat ->
    match loop_run body (fun s' buff' => next (body s') buff') f1 s b1 with
    | (Yielded a, rest) =>
        Q a /\
        loop_run body (fun s' buff' => next (body s') buff') f2 s (b1 ++ more)
        = (Yielded a, rest ++ more)
    | (Blocked p', rest) =>
        reads A Q p' /\
        loop_run body (fun s' buff' => next (body s') buff') f2 s (b1 ++ more)
        = next p' (rest ++ more)
    | (Exhausted, _) => False
    end.
Proof.
  intros Hb Hp IHb f1. induction f1 as [| f1 IH]; intros s b1 more f2 Hs H1 H2;
    rewrite (loop_run_eq _ _ _ s b1), (loop_run_eq _ _ f2 s (b1 ++ more)); cbv beta;
    pose proof (IHb s Hs b1 more) as R; unfold resumes in R;
    pose proof (Hp s b1) as P1; pose proof (Hp s (b1 ++ more)) as P2;
    destruct (next (body s) b1) as [[p' | [s' | a] |] rest];
    try contradiction.
  (* fuel 0 *)
  - destruct R as [Rp R]. split.
    + econstructor; [exact Rp | apply (reads_loop_k I Q); assumption].
    + rewrite R in *. simpl.
      destruct (next p' (rest ++ more)) as [[q | [s' | a] |] b']; try reflexivity.
      specialize (P2 s' b' eq_refl).
      destruct f2 as [| f2]; [lia |].
      apply loop_run_fuel; [exact Hp | lia | lia].
  - specialize (P1 s' rest eq_refl). lia.
  - destruct R as [Ra R]. rewrite R. auto.
  (* fuel S f1 *)
  - destruct R as [Rp R]. split.
    + econstructor; [exact Rp | apply (reads_loop_k I Q); assumption].
    + rewrite R in *. simpl.
      destruct (next p' (rest ++ more)) as [[q | [s' | a] |] b']; try reflexivity.
      specialize (P2 s' b' eq_refl).
      destruct f2 as [| f2]; [lia |].
      apply loop_run_fuel; [exact Hp | lia | lia].
  - destruct R as [Rs R]. rewrite R.
    specialize (P1 s' rest eq_refl). specialize (P2 s' (rest ++ more) R).
    destruct f2 as [| f2]; [lia |].
    apply IH; [exact Rs | lia | lia].
  - destruct R as [Ra R]. rewrite R. auto.
Qed.

Theorem next_resumes {A : Type} (Q : A -> Prop) (p : Parser A) :
  reads A Q p -> forall b1 more, resumes Q p b1 more.
Proof.
  induction 1 as [A Q a Ha | Q n Hn HQ | A B P Q p k Hp IHp Hk IHk
                 | S A I Q body s Hs Hb IHb Hprog];
    intros b1 more; unfold resumes.
  - simpl. auto.
  - simpl. rewrite len_app. pose proof (len_nonneg more).
    destruct (len b1 <? n) eqn:E.
    + split; [apply reads_ParseFixed; assumption | simpl; rewrite len_app; reflexivity].
    + split; [apply HQ |].
      destruct (len b1 + len more <? n) eqn:E'; [exfalso; lia |].
      rewrite slice_to_frame, slice_from_frame by lia. reflexivity.
  - specialize (IHp b1 more). unfold resumes in IHp. simpl.
    destruct (next p b1) as [[p' | a |] rest]; [| | contradiction].
    + destruct IHp as [Rp R]. split; [econstructor; eassumption |].
      rewrite R. reflexivity.
    + destruct IHp as [Pa R]. rewrite R. apply (IHk a Pa rest more).
  - simpl. apply (loop_run_resumes I Q); auto.
Qed.

Lemma reads_weaken {A : Type} (P Q : A -> Prop) (p : Parser A) :
  reads A P p -> (forall a, P a -> Q a) -> reads A Q p.
Proof.
  intros H. revert Q.
  induction H as [A P a Ha | P n Hn HP | A B P0 P p k Hp IHp Hk IHk
                 | S A I P body s Hs Hb IHb Hprog]; intros Q HQ.
  - constructor. auto.
  - constructor; auto.
  - econstructor; [exact Hp |]. intros a Ha. apply IHk; assumption.
  - apply (reads_Loop S A I Q); [exact Hs | | exact Hprog].
    intros s' Hs'. apply IHb; [exact Hs' |]. intros [s'' | a]; auto.
Qed.

Lemma struct_unpack_nonneg (data : bytes) : 0 <= struct_unpack data.
Proof.
  unfold struct_unpack.
  assert (G : forall acc, 0 <= acc -> 0 <= fold_left (fun a c => a * 256 + ord c) data acc).
  { induction data as [| c data IH]; intros acc Hacc; simpl; [exact Hacc |].
    apply IH. pose proof (ord_range c). lia. }
  apply G. lia.
Qed.

Lemma reads_parse_map {A B : Type} (P : A -> Prop) (Q : B -> Prop) (f : A -> B)
    (p : Parser A) :
  reads A P p -> (forall a, P a -> Q (f a)) -> reads B Q (parse_map f p).
Proof.
  intros H HQ. unfold parse_map. econstructor; [exact H |].
  intros a Ha. constructor. auto.
Qed.

Lemma reads_chain {T A : Type} (P : T -> Prop) (Q : A -> Prop) (chain : Parser T)
    (parser : T -> Parser A) :
  reads T P chain -> (forall items, P items -> reads A Q (parser items)) ->
  reads (T * A) (fun x => P (fst x) /\ Q (snd x)) (chain +> parser).
Proof.
  intros H1 H2. unfold parse_chain_snoc. econstructor; [exact H1 |].
  intros items Hi. econstructor; [exact (H2 items Hi) |].
  intros element He. constructor. auto.
Qed.

Lemma reads_chain0 : reads unit (fun _ => True) parse_chain0.
Proof. constructor. exact I. Qed.

Lemma reads_parse_net16int : reads Z (fun n => 0 <= n) InBuffer.parse_net16int.
Proof.
  apply (reads_parse_map (fun _ => True)).
  - apply reads_ParseFixed; [lia | auto].
  - intros data _. apply struct_unpack_nonneg.
Qed.

Lemma reads_parse_net32int : reads Z (fun n => 0 <= n) InBuffer.parse_net32int.
Proof.
  apply (reads_parse_map (fun _ => True)).
  - apply reads_ParseFixed; [lia | auto].
  - intros data _. apply struct_unpack_nonneg.
Qed.

Lemma reads_parse_net16string : reads bytes (fun _ => True) InBuffer.parse_net16string.
Proof.
  unfold InBuffer.parse_net16string.
  eapply reads_parse_map; [| auto].
  eapply reads_chain.
  - eapply reads_chain; [apply reads_chain0 | intros _ _; apply reads_parse_net16int].
  - intros [[] n] [_ Hn]. apply (reads_ParseFixed (fun _ => True)); [exact Hn | auto].
Qed.

Lemma reads_parse_net32string : reads bytes (fun _ => True) InBuffer.parse_net32string.
Proof.
  unfold InBuffer.parse_net32string.
  eapply reads_parse_map; [| auto].
  eapply reads_chain.
  - eapply reads_chain; [apply reads_chain0 | intros _ _; apply reads_parse_net32int].
  - intros [[] n] [_ Hn]. apply (reads_ParseFixed (fun _ => True)); [exact Hn | auto].
Qed.

Lemma reads_parse_bindict :
  reads (list (bytes * bytes)) (fun _ => True) InBuffer.parse_bindict.
Proof.
  unfold InBuffer.parse_bindict.
  apply (reads_Loop _ _ (fun _ => True)); [exact I | |].
  - intros entries _. unfold InBuffer.parse_bindict_body.
    econstructor; [apply reads_parse_net16string |].
    intros [| c key] _; [constructor; exact I |].
    econstructor; [apply reads_parse_net32string |].
    intros value _. constructor. exact I.
  - intros. eapply parse_bindict_body_progress; eassumption.
Qed.

Lemma reads_parse_message : reads OmapiMessage.t (fun _ => True) InBuffer.parse_message.
Proof.
  unfold InBuffer.parse_message.
  eapply reads_parse_map; [| auto].
  eapply reads_chain.
  - eapply reads_chain; [| intros; apply reads_parse_bindict].
    eapply reads_chain; [| intros; apply reads_parse_bindict].
    eapply reads_chain; [| intros; apply reads_parse_net32int].
    eapply reads_chain; [| intros; apply reads_parse_net32int].
    eapply reads_chain; [| intros; apply reads_parse_net32int].
    eapply reads_chain; [| intros; apply reads_parse_net32int].
    eapply reads_chain; [| intros; apply reads_parse_net32int].
    eapply reads_chain; [| intros; apply reads_parse_net32int].
    apply reads_chain0.
  - intros [[[[[[[[[] authid] authlen] opcode] handle] tid] rid] message] obj] H.
    cbn [fst snd] in H. apply (reads_ParseFixed (fun _ => True)); [tauto | auto].
Qed.

(** A generator fed piecemeal yields what it yields on the whole input. *)
Theorem next_fed_yields {A : Type} (Q : A -> Prop) (chunks : list bytes) :
  forall (gen : Parser A) (buff : bytes) (a : A) (rest : bytes),
    reads A Q gen ->
    next gen (buff ++ concat chunks) = (Yielded a, rest) ->
    exists rest', fst (next_fed gen buff chunks) = Yielded a /\
                  snd (next_fed gen buff chunks) = rest'.
Proof.
  induction chunks as [| chunk chunks IH]; intros gen buff a rest R H.
  - simpl in *. rewrite app_nil_r in H. rewrite H. eauto.
  - cbn [next_fed]. pose proof (next_resumes Q gen R buff (concat (chunk :: chunks))) as N.
    unfold resumes in N. rewrite H in N.
    destruct (next gen buff) as [[gen' | a' |] buff']; [| | contradiction].
    + destruct N as [R' N]. simpl concat in N. rewrite app_assoc in N.
      eapply IH; [exact R' | symmetry; exact N].
    + destruct N as [_ N]. injection N as <- _. eauto.
Qed.

(** A message that arrives in pieces is parsed as it is from one piece. *)
Lemma parse_message_piecemeal (m : OmapiMessage.t) (data : bytes) (chunks : list bytes) :
  wf_dict (OmapiMessage.message m) -> wf_dict (OmapiMessage.obj m) ->
  OmapiMessage.as_string m false = Ok data ->
  concat chunks = data ->
  fst (next_fed InBuffer.parse_message [] chunks) = Yielded m.
Proof.
  intros Wm Wo E C. apply as_string_Ok_inv in E as (V & -> & _). unfold wire in *.
  destruct (next_fed_yields (fun _ => True) chunks InBuffer.parse_message [] m []
              reads_parse_message) as (rest' & H & _); [| exact H].
  rewrite app_nil_l, C, <- (app_nil_r (wire_message m)).
  apply parse_message_wire; assumption.
Qed.

(** The example message in three pieces, the second cut inside a
    dictionary. *)
Lemma parse_message_piecemeal_example :
  exists c1 c2 c3,
    OmapiMessage.as_string example_message false = Ok (c1 ++ c2 ++ c3) /\
    len c1 = 10 /\ len c2 = 25 /\
    fst (next_fed InBuffer.parse_message [] [c1; c2; c3]) = Yielded example_message.
Proof.
  destruct (OmapiMessage.as_string example_message false) as [data | |] eqn:E;
    try (vm_compute in E; discriminate).
  exists (firstn 10 data), (firstn 25 (skipn 10 data)), (skipn 35 data).
  assert (C : firstn 10 data ++ firstn 25 (skipn 10 data) ++ skipn 35 data = data).
  { rewrite <- (firstn_skipn 10 data) at 4. f_equal.
    rewrite <- (firstn_skipn 25 (skipn 10 data)) at 2. f_equal.
    rewrite skipn_skipn. reflexivity. }
  split; [rewrite C; reflexivity |].
  vm_compute in E. injection E as <-.
  split; [reflexivity |]. split; [reflexivity |]. vm_compute. reflexivity.
Qed.

(** ** The client receives what the peer sent *)

Lemma slice_whole {A : Type} (s : list A) (n : Z) :
  len s <= n -> slice_to s n = s /\ slice_from s n = [].
Proof.
  intros H. unfold slice_to, slice_from, len in *.
  destruct (0 <=? n) eqn:E; [| exfalso; lia].
  split; [apply firstn_all2 | apply skipn_all2]; lia.
Qed.

Lemma fill_inbuffer_chunk auths defauth rest_in out br buff ts (chunk : bytes) :
  0 < len chunk <= 2048 ->
  ts + len chunk <= InBuffer.sizelimit ->
  Omapi.fill_inbuffer
    (Omapi.mk auths defauth (Some (Socket.mk (RecvData chunk :: rest_in) out br))
       (InBuffer.mk buff ts))
  = (Ok tt,
     Omapi.mk auths defauth (Some (Socket.mk rest_in out br))
       (InBuffer.mk (buff ++ chunk) (ts + len chunk))).
Proof.
  intros Hc Ht.
  unfold Omapi.fill_inbuffer, Omapi.recv_conn, Omapi.check_connected, bind, try_except,
    Omapi.on_connection, Omapi.on_inbuffer, Omapi.close, raise, Socket.recv.
  client_fields. cbn [Socket.inbound Socket.outbound Socket.broken].
  destruct (slice_whole chunk 2048 ltac:(lia)) as [-> ->].
  client_fields.
  destruct chunk as [| c chunk]; [exfalso; unfold len in Hc; simpl in Hc; lia |].
  rewrite feed_eq. client_fields. cbn [InBuffer.buff InBuffer.totalsize].
  destruct (ts + len (c :: chunk) >? InBuffer.sizelimit) eqn:E; [exfalso; lia |].
  reflexivity.
Qed.

Lemma receive_message_from_delivers (m : OmapiMessage.t) auths defauth later out br
    (chunks : list bytes) :
  OmapiMessage.verify m auths = Ok true ->
  Forall (fun chunk => 0 < len chunk <= 2048) chunks ->
  forall fuel gen buff ts,
    (length chunks < fuel)%nat ->
    reads _ (fun _ => True) gen ->
    next gen (buff ++ concat chunks) = (Yielded m, []) ->
    ts + len (concat chunks) <= InBuffer.sizelimit ->
    Omapi.receive_message_from fuel gen
      (Omapi.mk auths defauth (Some (Socket.mk (map RecvData chunks ++ later) out br))
         (InBuffer.mk buff ts))
    = (Ok m, Omapi.mk auths defauth (Some (Socket.mk later out br)) (InBuffer.mk [] 0)).
Proof.
  intros V HF. induction HF as [| chunk chunks Hc HF IH];
    intros fuel gen buff ts Hfuel R N Ht;
    (destruct fuel as [| fuel]; [simpl in Hfuel; lia |]);
    cbn [Omapi.receive_message_from]; rewrite step_eq; client_fields;
    cbn [InBuffer.buff InBuffer.totalsize].
  - simpl in N. rewrite app_nil_r in N. rewrite N. cbn [fst snd].
    unfold bind, Omapi.on_inbuffer, InBuffer.resetsize, modify, get, lift, ret.
    client_fields. rewrite V. reflexivity.
  - pose proof (next_resumes _ gen R buff (concat (chunk :: chunks))) as Rs.
    unfold resumes in Rs. rewrite N in Rs.
    destruct (next gen buff) as [[gen' | a |] rest]; [| | contradiction].
    + destruct Rs as [R' Rs]. cbn [fst snd].
      simpl concat in *. rewrite len_app in Ht. pose proof (len_nonneg (concat chunks)).
      cbn [map app]. unfold Omapi.set_inbuffer. client_fields.
      unfold bind at 1. rewrite fill_inbuffer_chunk by lia.
      apply IH; [simpl in Hfuel; lia | exact R' | | lia].
      rewrite <- app_assoc. symmetry. exact Rs.
    + exfalso. destruct Rs as [_ Rs]. injection Rs as _ Rs.
      simpl concat in Rs. symmetry in Rs.
      apply app_eq_nil in Rs as [_ Rs]. apply app_eq_nil in Rs as [Rs _].
      subst chunk. unfold len in Hc. simpl in Hc. lia.
Qed.

(** A message that the peer sends in pieces of at most 2048 bytes, to a
    client whose input buffer is empty and freshly reset, is what
    [receive_message] returns, once the pieces have been received, if it
    verifies. *)
Theorem receive_message_delivers (m : OmapiMessage.t) (data : bytes)
    (chunks : list bytes) auths defauth later out br :
  wf_dict (OmapiMessage.message m) -> wf_dict (OmapiMessage.obj m) ->
  OmapiMessage.as_string m false = Ok data ->
  concat chunks = data ->
  Forall (fun chunk => 0 < len chunk <= 2048) chunks ->
  OmapiMessage.verify m auths = Ok true ->
  Omapi.receive_message
    (Omapi.mk auths defauth (Some (Socket.mk (map RecvData chunks ++ later) out br))
       (InBuffer.mk [] 0))
  = (Ok m, Omapi.mk auths defauth (Some (Socket.mk later out br)) (InBuffer.mk [] 0)).
Proof.
  intros Wm Wo E C HF V. apply as_string_Ok_inv in E as (S & -> & L). unfold wire in *.
  unfold Omapi.receive_message. apply receive_message_from_delivers; try assumption.
  - client_fields. cbn [from_option]. unfold Socket.pending. cbn [Socket.inbound].
    clear. induction chunks as [| chunk chunks IH]; simpl; [lia |].
    simpl in IH. lia.
  - apply reads_parse_message.
  - rewrite app_nil_l, C, <- (app_nil_r (wire_message m)).
    apply parse_message_wire; assumption.
  - rewrite C. unfold InBuffer.sizelimit, OutBuffer.sizelimit in *. lia.
Qed.

(** ** Addresses: from bytes to text and back *)

Lemma map_result_length {A B : Type} (f : A -> result B) (xs : list A) :
  forall ys, map_result f xs = Ok ys -> length ys = length xs.
Proof.
  induction xs as [| x xs IH]; intros ys H; simpl in H.
  - injection H as <-. reflexivity.
  - destruct (f x) as [y | |]; try discriminate. simpl in H.
    destruct (map_result f xs) as [ys' | |]; try discriminate. simpl in H.
    injection H as <-. simpl. f_equal. apply IH. reflexivity.
Qed.

Lemma map_result_Forall2 {A B : Type} (f : A -> result B) (xs : list A) :
  forall ys, map_result f xs = Ok ys -> Forall2 (fun x y => f x = Ok y) xs ys.
Proof.
  induction xs as [| x xs IH]; intros ys H; simpl in H.
  - injection H as <-. constructor.
  - destruct (f x) as [y | |] eqn:E; try discriminate. simpl in H.
    destruct (map_result f xs) as [ys' | |]; try discriminate. simpl in H.
    injection H as <-. constructor; [exact E | apply IH; reflexivity].
Qed.

Lemma chr_Ok_length (i : Z) (s : bytes) : chr i = Ok s -> len s = 1.
Proof.
  unfold chr. destruct ((0 <=? i) && (i <? 256));
    [| destruct ((- 2 ^ 63 <=? i) && (i <? 2 ^ 63)); discriminate].
  intros H. injection H as <-. reflexivity.
Qed.

Lemma join_singletons (parts : list bytes) :
  Forall (fun p => len p = 1) parts -> len (join [] parts) = len parts.
Proof.
  induction 1 as [| p parts Hp Hr IH]; [reflexivity |].
  destruct parts as [| q parts].
  - simpl. rewrite Hp. reflexivity.
  - change (join [] (p :: q :: parts)) with (p ++ [] ++ join [] (q :: parts)).
    rewrite app_nil_l, len_app, IH, Hp. unfold len. simpl length. lia.
Qed.

(** What the two packers return for a string cut into parts: one byte for
    each part. *)
Lemma pack_parts (base : Z) (parts : list bytes) (packed : bytes) :
  (try* values := map_result (fun part => int part base) parts in
   try* chars := map_result chr values in
   Ok (join [] chars)) = Ok packed ->
  len packed = len parts.
Proof.
  destruct (map_result (fun part => int part base) parts) as [values | e |] eqn:E1;
    simpl; try discriminate.
  destruct (map_result chr values) as [chars | e |] eqn:E2; simpl; try discriminate.
  intros H. injection H as <-.
  pose proof (map_result_length _ _ _ E1) as L1.
  pose proof (map_result_length _ _ _ E2) as L2.
  rewrite join_singletons; [unfold len; lia |].
  apply map_result_Forall2 in E2. clear -E2.
  induction E2 as [| x y xs ys Hxy F IH]; constructor; [| exact IH].
  eapply chr_Ok_length; exact Hxy.
Qed.

Lemma pack_ip_length (ipstr packed : bytes) : pack_ip ipstr = Ok packed -> len packed = 4.
Proof.
  unfold pack_ip. destruct (len (split "."%byte ipstr) =? 4) eqn:E; cbn [negb];
    [| discriminate].
  intros H. apply pack_parts in H. lia.
Qed.

Lemma pack_mac_length (macstr packed : bytes) : pack_mac macstr = Ok packed -> len packed = 6.
Proof.
  unfold pack_mac. destruct (len (split ":"%byte macstr) =? 6) eqn:E; cbn [negb];
    [| discriminate].
  intros H. apply pack_parts in H. lia.
Qed.

Lemma hex_table (c : byte) :
  int (format_2_2x (ord c)) 16 = Ok (ord c) /\ ~ In ":"%byte (format_2_2x (ord c)).
Proof.
  assert (T : check_hex_byte c = true) by (destruct c; vm_compute; reflexivity).
  unfold check_hex_byte in T. apply andb_true_iff in T as [T1 T2].
  destruct (int (format_2_2x (ord c)) 16) as [n | |]; try discriminate.
  split; [f_equal; lia |].
  intros G. rewrite forallb_forall in T2. specialize (T2 _ G).
  apply negb_true_iff, bool_decide_eq_false in T2. contradiction.
Qed.

Lemma dec_table (c : byte) :
  int (str (ord c)) 10 = Ok (ord c) /\ ~ In "."%byte (str (ord c)).
Proof.
  destruct (octet_table c) as (T1 & _ & T3 & _). split; [exact T3 |].
  destruct (canonical_octet_roundtrip _ T1) as (c' & _ & _ & N). exact N.
Qed.

Lemma unpack_pack :
  (forall fourbytes : bytes,
      len fourbytes = 4 ->
      exists ipstr, unpack_ip fourbytes = Ok ipstr /\ pack_ip ipstr = Ok fourbytes) /\
  (forall sixbytes : bytes,
      len sixbytes = 6 ->
      exists macstr, unpack_mac sixbytes = Ok macstr /\ pack_mac macstr = Ok sixbytes).
Proof.
  split.
  - intros [| c1 [| c2 [| c3 [| c4 [| c5 rest]]]]] L;
      try (exfalso; unfold len in L; simpl in L; lia).
    eexists. split; [reflexivity |].
    unfold pack_ip. cbn [map]. change (b ".") with ["."%byte].
    destruct (dec_table c1) as [I1 N1], (dec_table c2) as [I2 N2],
             (dec_table c3) as [I3 N3], (dec_table c4) as [I4 N4].
    rewrite split_join by (repeat constructor; assumption).
    cbn [len length Z.of_nat negb Z.eqb Pos.of_succ_nat Pos.succ Pos.eqb map_result rbind].
    rewrite I1, I2, I3, I4. cbn [rbind map_result].
    rewrite !chr_ord. reflexivity.
  - intros [| c1 [| c2 [| c3 [| c4 [| c5 [| c6 [| c7 rest]]]]]]] L;
      try (exfalso; unfold len in L; simpl in L; lia).
    eexists. split; [reflexivity |].
    unfold pack_mac. cbn [map]. change (b ":") with [":"%byte].
    destruct (hex_table c1) as [I1 N1], (hex_table c2) as [I2 N2],
             (hex_table c3) as [I3 N3], (hex_table c4) as [I4 N4],
             (hex_table c5) as [I5 N5], (hex_table c6) as [I6 N6].
    rewrite split_join by (repeat constructor; assumption).
    cbn [len length Z.of_nat negb Z.eqb Pos.of_succ_nat Pos.succ Pos.eqb map_result rbind].
    rewrite I1, I2, I3, I4, I5, I6. cbn [rbind map_result].
    rewrite !chr_ord. reflexivity.
Qed.

(** X1.  What [unpack_ip] prints for four bytes, [pack_ip] reads back as
    these four bytes; and what [unpack_mac] prints for six bytes, [pack_mac]
    reads back as these six bytes. *)
Theorem address_unpack_pack :
  (forall fourbytes : bytes,
      len fourbytes = 4 ->
      exists ipstr, unpack_ip fourbytes = Ok ipstr /\ pack_ip ipstr = Ok fourbytes) /\
  (forall sixbytes : bytes,
      len sixbytes = 6 ->
      exists macstr, unpack_mac sixbytes = Ok macstr /\ pack_mac macstr = Ok sixbytes).
Proof. exact unpack_pack. Qed.

(** The theorem at the bytes of 192.0.2.7 and of 00:1a:2b:3c:4d:5e. *)
Lemma address_unpack_pack_witness :
  (exists ipstr,
      unpack_ip [xc0; x00; x02; x07] = Ok ipstr /\ pack_ip ipstr = Ok [xc0; x00; x02; x07]) /\
  (exists macstr,
      unpack_mac [x00; x1a; x2b; x3c; x4d; x5e] = Ok macstr /\
      pack_mac macstr = Ok [x00; x1a; x2b; x3c; x4d; x5e]).
Proof.
  destruct address_unpack_pack as [IP MAC]. split.
  - apply (IP [xc0; x00; x02; x07]). reflexivity.
  - apply (MAC [x00; x1a; x2b; x3c; x4d; x5e]). reflexivity.
Defined.

(** X2.  When [pack_ip] returns, it returns four bytes, and the text that
    [unpack_ip] prints for them is a normal form of the address: [pack_ip]
    maps it to the same four bytes.  The same holds of [pack_mac] and
    [unpack_mac] with six bytes. *)
Theorem pack_address_normal_form (s packed : bytes) :
  (pack_ip s = Ok packed ->
   len packed = 4 /\
   exists ipstr, unpack_ip packed = Ok ipstr /\ pack_ip ipstr = Ok packed) /\
  (pack_mac s = Ok packed ->
   len packed = 6 /\
   exists macstr, unpack_mac packed = Ok macstr /\ pack_mac macstr = Ok packed).
Proof.
  destruct unpack_pack as [IP MAC]. split; intros H.
  - apply pack_ip_length in H. split; [exact H | apply IP; exact H].
  - apply pack_mac_length in H. split; [exact H | apply MAC; exact H].
Qed.

(** The theorem at an address with a leading zero and at a MAC address in
    upper case. *)
Lemma pack_address_normal_form_witness :
  (len [x01; x02; x03; x04] = 4 /\
   exists ipstr, unpack_ip [x01; x02; x03; x04] = Ok ipstr /\
                 pack_ip ipstr = Ok [x01; x02; x03; x04]) /\
  (len [x00; x1a; x2b; x3c; x4d; x5e] = 6 /\
   exists macstr, unpack_mac [x00; x1a; x2b; x3c; x4d; x5e] = Ok macstr /\
                  pack_mac macstr = Ok [x00; x1a; x2b; x3c; x4d; x5e]).
Proof.
  split.
  - apply (pack_address_normal_form (b "01.2.3.4") [x01; x02; x03; x04]). reflexivity.
  - apply (pack_address_normal_form (b "00:1A:2B:3C:4D:5E") [x00; x1a; x2b; x3c; x4d; x5e]).
    reflexivity.
Defined.

(** ** What a parser yields was on the buffer *)

Lemma slice_to_from {A : Type} (s : list A) (n : Z) : slice_to s n ++ slice_from s n = s.
Proof. unfold slice_to, slice_from. destruct (0 <=? n); apply firstn_skipn. Qed.

Lemma slice_to_length {A : Type} (s : list A) (n : Z) :
  0 <= n <= len s -> len (slice_to s n) = n.
Proof.
  intros H. unfold slice_to, len in *. destruct (0 <=? n) eqn:E; [| exfalso; lia].
  rewrite length_firstn. lia.
Qed.

Lemma parse_fixedbuffer_inv (n : Z) (buff data rest : bytes) :
  0 <= n ->
  next (ParseFixed n) buff = (Yielded data, rest) ->
  buff = data ++ rest /\ len data = n.
Proof.
  intros Hn. simpl. destruct (len buff <? n) eqn:E; [discriminate |].
  intros H. injection H as <- <-. split; [symmetry; apply slice_to_from |].
  apply slice_to_length. lia.
Qed.

Lemma byte_of_eq (z : Z) (c : byte) : z mod 256 = ord c -> byte_of z = c.
Proof. intros H. apply ord_inj. rewrite ord_byte_of. exact H. Qed.

Lemma struct_pack_unpack_H (data : bytes) :
  len data = 2 -> struct_pack_H (struct_unpack data) = data /\ uint16 (struct_unpack data).
Proof.
  destruct data as [| c1 [| c2 [| c3 data]]]; intros L;
    try (exfalso; unfold len in L; simpl in L; lia).
  unfold struct_unpack, struct_pack_H, uint16. cbn [fold_left].
  pose proof (ord_range c1). pose proof (ord_range c2).
  split; [| lia].
  f_equal; [| f_equal]; apply byte_of_eq; Z.div_mod_to_equations; lia.
Qed.

Lemma struct_pack_unpack_L (data : bytes) :
  len data = 4 -> struct_pack_L (struct_unpack data) = data /\ uint32 (struct_unpack data).
Proof.
  destruct data as [| c1 [| c2 [| c3 [| c4 [| c5 data]]]]]; intros L;
    try (exfalso; unfold len in L; simpl in L; lia).
  unfold struct_unpack, struct_pack_L, uint32. cbn [fold_left].
  pose proof (ord_range c1). pose proof (ord_range c2).
  pose proof (ord_range c3). pose proof (ord_range c4).
  split; [| lia].
  f_equal; [| f_equal; [| f_equal; [| f_equal]]]; apply byte_of_eq;
    Z.div_mod_to_equations; lia.
Qed.

Lemma parse_map_inv {A B : Type} (f : A -> B) (p : Parser A) buff r rest :
  next (parse_map f p) buff = (Yielded r, rest) ->
  exists a, next p buff = (Yielded a, rest) /\ r = f a.
Proof.
  unfold parse_map. intros H.
  apply next_bind_Yielded_inv in H as (a & b1 & H & H').
  injection H' as <- <-. eauto.
Qed.

Lemma parse_chain_inv {T A : Type} (chain : Parser T) (parser : T -> Parser A)
    buff r rest :
  next (chain +> parser) buff = (Yielded r, rest) ->
  exists b1, next chain buff = (Yielded (fst r), b1) /\
             next (parser (fst r)) b1 = (Yielded (snd r), rest).
Proof.
  unfold parse_chain_snoc. intros H.
  apply next_bind_Yielded_inv in H as (items & b1 & H & H').
  apply next_bind_Yielded_inv in H' as (element & b2 & H' & H'').
  injection H'' as <- <-. eauto.
Qed.

Lemma parse_chain0_inv buff r rest :
  next parse_chain0 buff = (Yielded r, rest) -> rest = buff.
Proof. intros H. injection H as _ <-. reflexivity. Qed.

Lemma parse_net16int_inv buff v rest :
  next InBuffer.parse_net16int buff = (Yielded v, rest) ->
  buff = struct_pack_H v ++ rest /\ uint16 v.
Proof.
  unfold InBuffer.parse_net16int, InBuffer.parse_fixedbuffer. intros H.
  apply parse_map_inv in H as (data & H & ->).
  apply parse_fixedbuffer_inv in H as [-> L]; [| lia].
  destruct (struct_pack_unpack_H data L) as [-> U]. auto.
Qed.

Lemma parse_net32int_inv buff v rest :
  next InBuffer.parse_net32int buff = (Yielded v, rest) ->
  buff = struct_pack_L v ++ rest /\ uint32 v.
Proof.
  unfold InBuffer.parse_net32int, InBuffer.parse_fixedbuffer. intros H.
  apply parse_map_inv in H as (data & H & ->).
  apply parse_fixedbuffer_inv in H as [-> L]; [| lia].
  destruct (struct_pack_unpack_L data L) as [-> U]. auto.
Qed.

Lemma parse_net16string_inv buff s rest :
  next InBuffer.parse_net16string buff = (Yielded s, rest) ->
  buff = wire_net16string s ++ rest /\ len s < 65536.
Proof.
  unfold InBuffer.parse_net16string, InBuffer.parse_fixedbuffer. intros H.
  apply parse_map_inv in H as ([[[] n] data] & H & ->).
  apply parse_chain_inv in H as (b1 & H & H2). cbn [fst snd] in *.
  apply parse_chain_inv in H as (b0 & H & H1). cbn [fst snd] in *.
  apply parse_chain0_inv in H. subst b0.
  apply parse_net16int_inv in H1 as [-> U].
  apply parse_fixedbuffer_inv in H2 as [-> L]; [| unfold uint16 in U; lia].
  unfold wire_net16string. rewrite L, <- app_assoc. unfold uint16 in U. split; [reflexivity | lia].
Qed.

Lemma parse_net32string_inv buff s rest :
  next InBuffer.parse_net32string buff = (Yielded s, rest) ->
  buff = wire_net32string s ++ rest /\ len s < 4294967296.
Proof.
  unfold InBuffer.parse_net32string, InBuffer.parse_fixedbuffer. intros H.
  apply parse_map_inv in H as ([[[] n] data] & H & ->).
  apply parse_chain_inv in H as (b1 & H & H2). cbn [fst snd] in *.
  apply parse_chain_inv in H as (b0 & H & H1). cbn [fst snd] in *.
  apply parse_chain0_inv in H. subst b0.
  apply parse_net32int_inv in H1 as [-> U].
  apply parse_fixedbuffer_inv in H2 as [-> L]; [| unfold uint32 in U; lia].
  unfold wire_net32string. rewrite L, <- app_assoc. unfold uint32 in U. split; [reflexivity | lia].
Qed.

Lemma parse_bindict_body_inv entries buff r rest :
  next (InBuffer.parse_bindict_body entries) buff = (Yielded r, rest) ->
  match r with
  | inr D => D = entries /\ buff = [x00; x00] ++ rest
  | inl entries' =>
      exists kv, entries' = entries ++ [kv] /\ wf_entry kv /\ buff = wire_entry kv ++ rest
  end.
Proof.
  unfold InBuffer.parse_bindict_body. intros H.
  apply next_bind_Yielded_inv in H as (key & b1 & H & H').
  apply parse_net16string_inv in H as [-> Lk].
  destruct key as [| c key].
  - injection H' as <- <-. split; reflexivity.
  - apply next_bind_Yielded_inv in H' as (value & b2 & H' & H'').
    injection H'' as <- <-.
    apply parse_net32string_inv in H' as [-> Lv].
    exists (c :: key, value). split; [reflexivity |]. split.
    + unfold wf_entry. cbn [fst snd]. unfold len in *. simpl length in *. lia.
    + unfold wire_entry. cbn [fst snd]. rewrite <- app_assoc. reflexivity.
Qed.

Lemma wire_bindict_snoc_cons (kv : bytes * bytes) (D : list (bytes * bytes)) (rest : bytes) :
  wire_entry kv ++ wire_bindict D ++ rest = wire_bindict (kv :: D) ++ rest.
Proof. destruct kv as [key value]. symmetry. apply wire_bindict_cons. Qed.

Lemma loop_run_bindict_inv (fuel : nat) :
  forall entries buff D rest,
    loop_run InBuffer.parse_bindict_body
      (fun s buff => next (InBuffer.parse_bindict_body s) buff) fuel entries buff
    = (Yielded D, rest) ->
    exists D', D = entries ++ D' /\ wf_dict D' /\ buff = wire_bindict D' ++ rest.
Proof.
  induction fuel as [| fuel IH]; intros entries buff D rest; rewrite loop_run_eq; cbv beta;
    destruct (next (InBuffer.parse_bindict_body entries) buff) as [[p' | [s' | a] |] b1] eqn:N;
    try discriminate.
  - intros H. injection H as <- <-. apply parse_bindict_body_inv in N as [-> ->].
    exists []. rewrite app_nil_r. repeat split. constructor.
  - intros H. apply IH in H as (D' & -> & W & ->).
    apply parse_bindict_body_inv in N as (kv & -> & Wkv & ->).
    exists (kv :: D'). rewrite <- app_assoc. split; [reflexivity |].
    split; [constructor; assumption |]. apply wire_bindict_snoc_cons.
  - intros H. injection H as <- <-. apply parse_bindict_body_inv in N as [-> ->].
    exists []. rewrite app_nil_r. repeat split. constructor.
Qed.

Lemma parse_bindict_inv buff D rest :
  next InBuffer.parse_bindict buff = (Yielded D, rest) ->
  buff = wire_bindict D ++ rest /\ wf_dict D.
Proof.
  unfold InBuffer.parse_bindict. simpl next. intros H.
  apply loop_run_bindict_inv in H as (D' & -> & W & ->). auto.
Qed.

Lemma wf_dict_encodable (D : list (bytes * bytes)) : wf_dict D -> Forall encodable D.
Proof.
  induction 1 as [| kv D [H1 H2] _ IH]; constructor; [| exact IH].
  unfold encodable. lia.
Qed.

(** What [parse_message] yields: the bytes it took off the buffer are the
    wire format of the message, whose fields are in the range of the
    encoders. *)
Lemma parse_message_inv buff m rest :
  next InBuffer.parse_message buff = (Yielded m, rest) ->
  buff = wire_message m ++ rest /\
  serializable m false /\
  wf_dict (OmapiMessage.message m) /\ wf_dict (OmapiMessage.obj m).
Proof.
  unfold InBuffer.parse_message, InBuffer.parse_fixedbuffer. intros H.
  apply parse_map_inv in H
    as ([[[[[[[[[[] authid] authlen] opcode] handle] tid] rid] message] obj] signature]
        & H & ->).
  apply parse_chain_inv in H as (b9 & H & H9). cbn [fst snd] in *.
  apply parse_chain_inv in H as (b8 & H & H8). cbn [fst snd] in *.
  apply parse_chain_inv in H as (b7 & H & H7). cbn [fst snd] in *.
  apply parse_chain_inv in H as (b6 & H & H6). cbn [fst snd] in *.
  apply parse_chain_inv in H as (b5 & H & H5). cbn [fst snd] in *.
  apply parse_chain_inv in H as (b4 & H & H4). cbn [fst snd] in *.
  apply parse_chain_inv in H as (b3 & H & H3). cbn [fst snd] in *.
  apply parse_chain_inv in H as (b2 & H & H2). cbn [fst snd] in *.
  apply parse_chain_inv in H as (b1 & H & H1). cbn [fst snd] in *.
  apply parse_chain0_inv in H. subst b1.
  apply parse_net32int_inv in H1 as [-> U1].
  apply parse_net32int_inv in H2 as [-> U2].
  apply parse_net32int_inv in H3 as [-> U3].
  apply parse_net32int_inv in H4 as [-> U4].
  apply parse_net32int_inv in H5 as [-> U5].
  apply parse_net32int_inv in H6 as [-> U6].
  apply parse_bindict_inv in H7 as [-> W7].
  apply parse_bindict_inv in H8 as [-> W8].
  apply parse_fixedbuffer_inv in H9 as [-> L]; [| unfold uint32 in U2; lia].
  unfold OmapiMessage.from_fields, wire_message, wire_signed, serializable.
  cbn [OmapiMessage.authid OmapiMessage.opcode OmapiMessage.handle OmapiMessage.tid
       OmapiMessage.rid OmapiMessage.message OmapiMessage.obj OmapiMessage.signature].
  rewrite L. split; [rewrite <- !app_assoc; reflexivity |].
  split; [| split; assumption].
  repeat split; try (unfold uint32 in *; lia); apply wf_dict_encodable; assumption.
Qed.

(** X3.  Whatever [parse_message] yields is a message whose
    dictionaries are well formed and whose serialization by [as_string] is
    the very bytes that the parser took off the buffer, as long as these
    are at most 65536; [as_string] returns exactly in that case, and the
    parser yields the message again from these bytes. *)
Theorem parse_message_serializes (buff rest : bytes) (m : OmapiMessage.t) :
  next InBuffer.parse_message buff = (Yielded m, rest) ->
  exists data,
    buff = data ++ rest /\
    wf_dict (OmapiMessage.message m) /\ wf_dict (OmapiMessage.obj m) /\
    (forall rest', next InBuffer.parse_message (data ++ rest') = (Yielded m, rest')) /\
    (len data <= 65536 <-> OmapiMessage.as_string m false = Ok data).
Proof.
  intros H. apply parse_message_inv in H as (-> & S & Wm & Wo).
  exists (wire_message m). split; [reflexivity |]. split; [exact Wm |]. split; [exact Wo |].
  split.
  - intros rest'. apply parse_message_wire; assumption.
  - split.
    + intros L. apply (as_string_fits m false S). exact L.
    + intros E. apply as_string_Ok_inv in E as (_ & _ & L). exact L.
Qed.

(** The theorem at the bytes of the example reply, followed by one more
    byte. *)
Lemma parse_message_serializes_witness :
  exists data,
    example_reply_wire ++ [x2a] = data ++ [x2a] /\
    wf_dict (OmapiMessage.message example_reply) /\
    wf_dict (OmapiMessage.obj example_reply) /\
    (forall rest',
        next InBuffer.parse_message (data ++ rest') = (Yielded example_reply, rest')) /\
    (len data <= 65536 <-> OmapiMessage.as_string example_reply false = Ok data).
Proof.
  apply (parse_message_serializes (example_reply_wire ++ [x2a]) [x2a] example_reply).
  vm_compute. reflexivity.
Defined.

(** X4.  A message is not delivered before its last byte has
    arrived: on any proper prefix of its serialization [parse_message]
    yields [None], and the suspended generator yields the message once the
    remaining bytes are on the buffer, which it leaves empty. *)
Theorem parse_message_waits (m : OmapiMessage.t) (data b1 b2 : bytes) :
  wf_dict (OmapiMessage.message m) -> wf_dict (OmapiMessage.obj m) ->
  OmapiMessage.as_string m false = Ok data ->
  data = b1 ++ b2 -> b2 <> [] ->
  exists gen' unparsed,
    next InBuffer.parse_message b1 = (Blocked gen', unparsed) /\
    next gen' (unparsed ++ b2) = (Yielded m, []).
Proof.
  intros Wm Wo E -> N2.
  apply as_string_Ok_inv in E as (S & E & _). unfold wire in E.
  pose proof (parse_message_wire m [] S Wm Wo) as P. rewrite app_nil_r, <- E in P.
  pose proof (next_resumes _ _ reads_parse_message b1 b2) as R. unfold resumes in R.
  destruct (next InBuffer.parse_message b1) as [[gen' | a |] unparsed];
    [| | contradiction].
  - destruct R as [_ R]. exists gen', unparsed. split; [reflexivity |].
    rewrite <- R. exact P.
  - exfalso. destruct R as [_ R]. rewrite R in P. injection P as _ P.
    apply app_eq_nil in P as [_ P]. contradiction.
Qed.

(** The theorem at the example reply, cut after its tenth byte. *)
Lemma parse_message_waits_witness :
  exists gen' unparsed,
    next InBuffer.parse_message (firstn 10 example_reply_wire) = (Blocked gen', unparsed) /\
    next gen' (unparsed ++ skipn 10 example_reply_wire) = (Yielded example_reply, []).
Proof.
  apply (parse_message_waits example_reply example_reply_wire).
  - constructor.
  - constructor; [| constructor]. unfold wf_entry, len. simpl. lia.
  - reflexivity.
  - symmetry. apply firstn_skipn.
  - vm_compute. discriminate.
Defined.

(** ** Chains of encoder calls *)

Lemma run_op_Ok_inv (op : encode_op) self r self' :
  run_op op self = (Ok r, self') ->
  op_in_range op /\
  self' = OutBuffer.mk (OutBuffer.buff self ++ op_wire op) /\
  len (OutBuffer.buff self') <= OutBuffer.sizelimit.
Proof.
  destruct op as [data | n | n | s | s | items]; cbn [run_op op_in_range op_wire]; intros H.
  - destruct r. destruct (appends_Ok true _ _ _ _ _ (appends_add data) H) as [-> L]. auto.
  - rewrite add_net16int_eq in H. destruct (uint16b n) eqn:E; [| discriminate].
    apply uint16b_spec in E. destruct r.
    destruct (appends_Ok true _ _ _ _ _ (appends_add _) H) as [-> L]. auto.
  - apply add_net32int_Ok_inv in H. exact H.
  - apply add_net16string_Ok_inv in H. exact H.
  - apply add_net32string_Ok_inv in H. exact H.
  - apply add_bindict_Ok_inv in H. exact H.
Qed.

Lemma run_ops_Ok_inv (ops : list encode_op) : forall self self',
  run_ops ops self = (Ok tt, self') ->
  Forall op_in_range ops /\
  self' = OutBuffer.mk (OutBuffer.buff self ++ concat (map op_wire ops)) /\
  (ops = [] \/ len (OutBuffer.buff self') <= OutBuffer.sizelimit).
Proof.
  induction ops as [| op ops IH]; intros self self' H.
  - injection H as <-. destruct self as [buf]. simpl. rewrite app_nil_r. auto.
  - cbn [run_ops] in H. apply bind_Ok_inv in H as (? & s1 & H1 & H).
    apply run_op_Ok_inv in H1 as (R & -> & L1).
    apply IH in H as (Rs & -> & L). cbn [OutBuffer.buff] in *.
    split; [constructor; assumption |].
    split; [cbn [map concat]; rewrite <- app_assoc; reflexivity |].
    right. destruct L as [-> | L]; [| exact L].
    simpl. rewrite app_nil_r. exact L1.
Qed.

Lemma run_ops_fits (ops : list encode_op) : forall self,
  Forall op_in_range ops ->
  len (OutBuffer.buff self ++ concat (map op_wire ops)) <= OutBuffer.sizelimit ->
  run_ops ops self = (Ok tt, OutBuffer.mk (OutBuffer.buff self ++ concat (map op_wire ops))).
Proof.
  induction ops as [| op ops IH]; intros self R L.
  - destruct self as [buf]. simpl. rewrite app_nil_r. reflexivity.
  - inversion R as [| ? ? Rop Rops]; subst. cbn [run_ops map concat] in *.
    rewrite app_assoc in L |- *.
    assert (L1 : len (OutBuffer.buff self ++ op_wire op) <= OutBuffer.sizelimit).
    { rewrite len_app in L. pose proof (len_nonneg (concat (map op_wire ops))). lia. }
    rewrite (bind_fits true _ _ _ _ (appends_run_op op Rop) L1).
    apply (IH (OutBuffer.mk (OutBuffer.buff self ++ op_wire op))); assumption.
Qed.

(** X5.  A chain of encoder calls on an OutBuffer returns exactly
    when every argument is in the range of its encoder and the bytes of all
    the calls fit below the limit together with what the buffer held; the
    buffer then holds what it held followed by the encodings in the order of
    the calls. *)
Theorem outbuffer_chain (ops : list encode_op) (self self' : OutBuffer.t) :
  run_ops ops self = (Ok tt, self') <->
  Forall op_in_range ops /\
  self' = OutBuffer.mk (OutBuffer.buff self ++ concat (map op_wire ops)) /\
  (ops = [] \/ len (OutBuffer.buff self') <= OutBuffer.sizelimit).
Proof.
  split; [apply run_ops_Ok_inv |].
  intros (R & -> & [-> | L]).
  - destruct self as [buf]. simpl. rewrite app_nil_r. reflexivity.
  - apply run_ops_fits; assumption.
Qed.

(** ** dict(items), and update_object seen through it *)

Lemma dict_getitem_setitem (k v key : bytes) (d : pydict) :
  dict_getitem (dict_setitem k v d) key
  = if decide (k = key) then Ok v else dict_getitem d key.
Proof.
  induction d as [| [k0 v0] d IH]; cbn [dict_setitem dict_getitem].
  - destruct (decide (k = key)); reflexivity.
  - destruct (decide (k0 = k)) as [-> | N]; cbn [dict_getitem].
    + destruct (decide (k = key)); reflexivity.
    + rewrite IH. destruct (decide (k0 = key)) as [-> | N0]; [| reflexivity].
      destruct (decide (k = key)); [congruence | reflexivity].
Qed.

Lemma dict_getitem_fold (items : list (bytes * bytes)) : forall (d : pydict) (key : bytes),
  dict_getitem (fold_left (fun d kv => dict_setitem (fst kv) (snd kv) d) items d) key
  = match last_value key items with
    | Some v => Ok v
    | None => dict_getitem d key
    end.
Proof.
  induction items as [| [k v] items IH]; intros d key; cbn [fold_left last_value fst snd];
    [reflexivity |].
  rewrite IH. destruct (last_value key items); [reflexivity |].
  rewrite dict_getitem_setitem. destruct (decide (k = key)); reflexivity.
Qed.

(** [dict(items)[key]] is the value of the last pair with that key, and a
    KeyError when there is none. *)
Lemma dict_getitem_dict (items : list (bytes * bytes)) (key : bytes) :
  dict_getitem (dict items) key
  = match last_value key items with
    | Some v => Ok v
    | None => Raise KeyError
    end.
Proof. unfold dict. rewrite dict_getitem_fold. reflexivity. Qed.

Lemma last_value_app (key : bytes) (l1 l2 : list (bytes * bytes)) :
  last_value key (l1 ++ l2)
  = match last_value key l2 with
    | Some v => Some v
    | None => last_value key l1
    end.
Proof.
  induction l1 as [| [k v] l1 IH]; cbn [app last_value].
  - destruct (last_value key l2); reflexivity.
  - rewrite IH. destruct (last_value key l2); reflexivity.
Qed.

Lemma last_value_filter (key : bytes) (f : bytes * bytes -> bool) (l : list (bytes * bytes)) :
  (forall v, f (key, v) = true) ->
  last_value key (List.filter f l) = last_value key l.
Proof.
  intros Hf. induction l as [| [k v] l IH]; [reflexivity |].
  cbn [List.filter]. destruct (f (k, v)) eqn:E; cbn [last_value]; rewrite IH.
  - reflexivity.
  - destruct (last_value key l); [reflexivity |].
    destruct (decide (k = key)) as [-> | N]; [| reflexivity].
    rewrite Hf in E. discriminate.
Qed.

Lemma dict_contains_false (key : bytes) (d : pydict) :
  dict_contains key d = false -> last_value key d = None.
Proof.
  unfold dict_contains. induction d as [| [k v] d IH]; [reflexivity |].
  cbn [existsb fst last_value]. intros H. apply orb_false_iff in H as [H1 H2].
  rewrite (IH H2). apply bool_decide_eq_false in H1.
  destruct (decide (k = key)); [contradiction | reflexivity].
Qed.

(** In a dict, whose keys are pairwise distinct, the pair with a key is the
    last one with it. *)
Lemma last_value_dict (key : bytes) (d : pydict) :
  NoDup (map fst d) ->
  dict_getitem d key
  = match last_value key d with
    | Some v => Ok v
    | None => Raise KeyError
    end.
Proof.
  induction d as [| [k v] d IH]; intros N; [reflexivity |].
  cbn [map fst] in N. apply NoDup_cons in N as [Nk N].
  cbn [dict_getitem last_value]. destruct (decide (k = key)) as [-> | Ne].
  - assert (E : last_value key d = None).
    { apply dict_contains_false. unfold dict_contains.
      apply not_true_is_false. intros C. apply existsb_exists in C as ([k' v'] & I & C).
      apply bool_decide_eq_true in C. cbn [fst] in C. subst k'.
      apply Nk. apply list_elem_of_In. apply (in_map fst) in I. exact I. }
    rewrite E. reflexivity.
  - rewrite (IH N). destruct (last_value key d); reflexivity.
Qed.

(** X6.  After [update_object(update)], looking a key up in
    the object of the message, as [dict(self.obj)[key]] does, gives the
    value that [update] has for it when it has one, and what the object had
    for it before otherwise; and a second [update_object(update)] leaves the
    message as the first has left it. *)
Theorem update_object_lookup (m : OmapiMessage.t) (update : pydict) (key : bytes) :
  NoDup (map fst update) ->
  let m' := snd (OmapiMessage.update_object update m) in
  dict_getitem (dict (OmapiMessage.obj m')) key
  = (if dict_contains key update then dict_getitem update key
     else dict_getitem (dict (OmapiMessage.obj m)) key) /\
  OmapiMessage.update_object update m' = (Ok tt, m').
Proof.
  intros N. cbv zeta.
  unfold OmapiMessage.update_object, bind, modify, dict_items. cbn [snd].
  message_fields. split.
  - rewrite !dict_getitem_dict, last_value_app, (last_value_dict key update N).
    destruct (dict_contains key update) eqn:C.
    + destruct (last_value key update) as [v |] eqn:E; [reflexivity |].
      exfalso. unfold dict_contains in C. apply existsb_exists in C as ([k v] & I & C).
      apply bool_decide_eq_true in C. cbn [fst] in C. subst k.
      clear -I E. induction update as [| [k0 v0] update IH]; [contradiction |].
      cbn [last_value] in E. destruct (last_value key update) eqn:E'; [discriminate |].
      destruct I as [I | I]; [injection I as -> ->; destruct (decide (key = key));
                               [discriminate | contradiction] |].
      apply IH; [exact I | reflexivity].
    + rewrite (dict_contains_false key update C).
      rewrite last_value_filter; [reflexivity |].
      intros v. cbn [fst]. rewrite C. reflexivity.
  - f_equal. unfold OmapiMessage.set_obj. message_fields. f_equal.
    rewrite List.filter_app.
    assert (G : forall l, (forall kv, In kv l -> In kv update) ->
                List.filter (fun kv => negb (dict_contains (fst kv) update)) l = []).
    { induction l as [| kv l IH]; intros Hl; [reflexivity |].
      cbn [List.filter].
      assert (C : dict_contains (fst kv) update = true).
      { apply existsb_exists. exists kv. split; [apply Hl; left; reflexivity |].
        apply bool_decide_eq_true. reflexivity. }
      rewrite C. cbn [negb]. apply IH. intros kv' I. apply Hl. right. exact I. }
    rewrite (G update) by auto. rewrite app_nil_r, filter_filter.
    f_equal. apply List.filter_ext. intros kv.
    destruct (dict_contains (fst kv) update); reflexivity.
Qed.

(** The theorem at the example message, updated with a new address and a
    name. *)
Lemma update_object_lookup_witness :
  let m' := snd (OmapiMessage.update_object
                   [(b "ip-address", [xc0; x00; x02; x07]); (b "name", b "printer")]
                   example_message) in
  dict_getitem (dict (OmapiMessage.obj m')) (b "ip-address")
  = (if dict_contains (b "ip-address")
          [(b "ip-address", [xc0; x00; x02; x07]); (b "name", b "printer")]
     then dict_getitem [(b "ip-address", [xc0; x00; x02; x07]); (b "name", b "printer")]
            (b "ip-address")
     else dict_getitem (dict (OmapiMessage.obj example_message)) (b "ip-address")) /\
  OmapiMessage.update_object
    [(b "ip-address", [xc0; x00; x02; x07]); (b "name", b "printer")] m' = (Ok tt, m').
Proof.
  apply (update_object_lookup example_message
           [(b "ip-address", [xc0; x00; x02; x07]); (b "name", b "printer")]
           (b "ip-address")).
  constructor; [| constructor; [| constructor]].
  - intros H. apply list_elem_of_In in H. simpl in H. destruct H as [H | []]. discriminate H.
  - intros H. apply list_elem_of_In in H. simpl in H. exact H.
Defined.

(** ** What the methods of a client keep *)

Lemma bind_Raise_inv {St A B : Type} (m : M St A) (k : A -> M St B) s e s' :
  bind m k s = (Raise e, s') ->
  m s = (Raise e, s') \/ exists a s1, m s = (Ok a, s1) /\ k a s1 = (Raise e, s').
Proof.
  unfold bind. destruct (m s) as [[a | e0 |] s1]; intros H; try discriminate.
  - right. eauto.
  - left. injection H as -> ->. reflexivity.
Qed.

Lemma preserves_bind {St A B : Type} (I : St -> Prop) (m : M St A) (k : A -> M St B) :
  preserves I m -> (forall a, preserves I (k a)) -> preserves I (bind m k).
Proof.
  intros Hm Hk s Hs. unfold bind. specialize (Hm s Hs).
  destruct (m s) as [[a | e |] s1]; cbn [snd] in *; [apply Hk; exact Hm | exact Hm | exact Hm].
Qed.

Lemma preserves_ret {St A : Type} (I : St -> Prop) (a : A) : preserves I (ret a).
Proof. intros s Hs. exact Hs. Qed.

Lemma preserves_raise {St A : Type} (I : St -> Prop) (e : exn) : preserves I (@raise St A e).
Proof. intros s Hs. exact Hs. Qed.

Lemma preserves_lift {St A : Type} (I : St -> Prop) (r : result A) : preserves I (lift r).
Proof. intros s Hs. exact Hs. Qed.

Lemma preserves_get {St : Type} (I : St -> Prop) : preserves I get.
Proof. intros s Hs. exact Hs. Qed.

Lemma preserves_try_except {St A : Type} (I : St -> Prop) (m : M St A) handles handler :
  preserves I m -> (forall e, preserves I (handler e)) ->
  preserves I (try_except m handles handler).
Proof.
  intros Hm Hh s Hs. unfold try_except. specialize (Hm s Hs).
  destruct (m s) as [[a | e |] s1]; cbn [snd] in *; [exact Hm | | exact Hm].
  destruct (handles e); [apply Hh; exact Hm | exact Hm].
Qed.

Lemma preserves_if {St A : Type} (I : St -> Prop) (c : bool) (m1 m2 : M St A) :
  preserves I m1 -> preserves I m2 -> preserves I (if c then m1 else m2).
Proof. destruct c; auto. Qed.

Ltac client_state :=
  unfold client_ok, buffer_ok, registry_ok in *;
  cbn [fst snd Omapi.authenticators Omapi.defauth Omapi.connection Omapi.inbuffer
       Omapi.set_connection Omapi.set_inbuffer InBuffer.buff InBuffer.totalsize] in *.

Lemma client_ok_close : preserves client_ok Omapi.close.
Proof.
  intros [auths defauth [sock |] inb] H; unfold Omapi.close; client_state; intuition.
Qed.

Lemma client_ok_check_connected : preserves client_ok Omapi.check_connected.
Proof. intros [auths defauth [sock |] inb] H; exact H. Qed.

Lemma client_ok_on_connection {A : Type} (m : M Socket.t A) :
  preserves client_ok (Omapi.on_connection m).
Proof.
  intros [auths defauth [sock |] inb] H; unfold Omapi.on_connection; client_state.
  - destruct (m sock) as [r sock']. client_state.
    destruct H as [R [B1 [B2 | B2]]]; [auto | discriminate].
  - exact H.
Qed.

Lemma client_ok_recv_conn (length : Z) : preserves client_ok (Omapi.recv_conn length).
Proof.
  unfold Omapi.recv_conn. apply preserves_bind; [apply client_ok_check_connected |].
  intros _. apply preserves_try_except; [apply client_ok_on_connection |].
  intros e. apply preserves_bind; [apply client_ok_close | intros; apply preserves_raise].
Qed.

Lemma client_ok_send_conn (data : bytes) : preserves client_ok (Omapi.send_conn data).
Proof.
  unfold Omapi.send_conn. apply preserves_bind; [apply client_ok_check_connected |].
  intros _. apply preserves_try_except; [apply client_ok_on_connection |].
  intros e. apply preserves_bind; [apply client_ok_close | intros; apply preserves_raise].
Qed.

(** [feed] within [fill_inbuffer]: when the limit is passed the connection
    is closed. *)
Lemma client_ok_feed (data : bytes) :
  preserves client_ok
    (try_except (Omapi.on_inbuffer (InBuffer.feed data)) Omapi.is_size_limit
       (fun e => let* _ := Omapi.close in raise e)).
Proof.
  intros [auths defauth conn [buff ts]] [R [B1 B2]].
  unfold try_except, Omapi.on_inbuffer. client_state. rewrite feed_eq.
  client_state. pose proof (len_app buff data) as L.
  destruct (ts + len data >? InBuffer.sizelimit) eqn:E; client_state;
    cbn [Omapi.is_size_limit].
  - unfold bind, Omapi.close, raise. client_state.
    destruct conn; client_state; (split; [exact R |]); (split; [lia | right; reflexivity]).
  - split; [exact R |]. split; [lia |].
    destruct B2 as [B2 | B2]; [left; lia | right; exact B2].
Qed.

Lemma client_ok_fill_inbuffer : preserves client_ok Omapi.fill_inbuffer.
Proof.
  unfold Omapi.fill_inbuffer. apply preserves_bind; [apply client_ok_recv_conn |].
  intros [| c data].
  - apply preserves_bind; [apply client_ok_close | intros; apply preserves_raise].
  - apply client_ok_feed.
Qed.

(** A step of a generator on the buffer of the client. *)
Lemma client_ok_step {A : Type} (gen : Parser A) (self : Omapi.t) :
  client_ok self ->
  client_ok (Omapi.set_inbuffer (snd (InBuffer.step gen (Omapi.inbuffer self))) self).
Proof.
  intros [R [B1 B2]]. rewrite step_eq.
  destruct self as [auths defauth conn [buff ts]]. client_state.
  split; [exact R |]. split; [| exact B2].
  pose proof (next_length gen buff) as L. unfold len in *. lia.
Qed.

Lemma client_ok_resetsize : preserves client_ok (Omapi.on_inbuffer InBuffer.resetsize).
Proof.
  intros [auths defauth conn [buff ts]] [R [B1 B2]].
  unfold Omapi.on_inbuffer, InBuffer.resetsize, modify. client_state.
  split; [exact R |]. split; [lia |]. destruct B2 as [B2 | B2]; [left; lia | right; exact B2].
Qed.

Lemma client_ok_deliver (message : OmapiMessage.t) :
  preserves client_ok
    (let* _ := Omapi.on_inbuffer InBuffer.resetsize in
     let* self' := get in
     let* verified := lift (OmapiMessage.verify message (Omapi.authenticators self')) in
     if negb verified
     then let* _ := Omapi.close in raise (OmapiError "bad omapi message signature")
     else ret message).
Proof.
  apply preserves_bind; [apply client_ok_resetsize | intros _].
  apply preserves_bind; [apply preserves_get | intros self'].
  apply preserves_bind; [apply preserves_lift | intros verified].
  apply preserves_if; [| apply preserves_ret].
  apply preserves_bind; [apply client_ok_close | intros; apply preserves_raise].
Qed.

Lemma client_ok_receive_message_from (fuel : nat) :
  forall gen, preserves client_ok (Omapi.receive_message_from fuel gen).
Proof.
  induction fuel as [| fuel IH]; intros gen self H; cbn [Omapi.receive_message_from];
    pose proof (client_ok_step gen self H) as S;
    destruct (InBuffer.step gen (Omapi.inbuffer self)) as [[gen' | message |] ib];
    cbn [snd] in S; try exact S.
  - apply client_ok_deliver. exact S.
  - apply (preserves_bind client_ok Omapi.fill_inbuffer); [| | exact S].
    + apply client_ok_fill_inbuffer.
    + intros _. apply IH.
  - apply client_ok_deliver. exact S.
Qed.

Lemma client_ok_receive_message : preserves client_ok Omapi.receive_message.
Proof. intros self H. apply client_ok_receive_message_from. exact H. Qed.

Lemma client_ok_receive_response message insecure :
  preserves client_ok (Omapi.receive_response message insecure).
Proof.
  unfold Omapi.receive_response.
  apply preserves_bind; [apply client_ok_receive_message | intros response].
  apply preserves_if; [apply preserves_raise |].
  apply preserves_bind; [apply preserves_get | intros self].
  apply preserves_if; [apply preserves_raise | apply preserves_ret].
Qed.

Lemma client_ok_send_message message sign :
  preserves client_ok (Omapi.send_message message sign).
Proof.
  unfold Omapi.send_message.
  apply preserves_bind; [apply client_ok_check_connected | intros _].
  apply preserves_bind; [apply preserves_get | intros self].
  apply preserves_bind.
  - destruct sign; [| apply preserves_ret].
    destruct (Omapi.authenticators self !! Omapi.defauth self) as [authenticator |];
      [| apply preserves_raise].
    intros s Hs. destruct (OmapiMessage.sign authenticator message) as [[[] | e |] m'];
      exact Hs.
  - intros message'. apply preserves_bind; [apply preserves_lift | intros data].
    apply preserves_bind; [apply client_ok_send_conn | intros; apply preserves_ret].
Qed.

Lemma client_ok_query_server message : preserves client_ok (Omapi.query_server message).
Proof.
  unfold Omapi.query_server.
  apply preserves_bind; [apply client_ok_send_message | intros message'].
  apply client_ok_receive_response.
Qed.

Lemma client_ok_send_protocol_initialization :
  preserves client_ok Omapi.send_protocol_initialization.
Proof.
  unfold Omapi.send_protocol_initialization.
  apply preserves_bind; [apply client_ok_check_connected | intros _].
  apply preserves_bind; [apply preserves_lift | intros data].
  apply client_ok_send_conn.
Qed.

Lemma client_ok_startup (result : unit * Z * Z) :
  preserves client_ok
    (let* _ := Omapi.on_inbuffer InBuffer.resetsize in
     let '(_, version, header_size) := result in
     if negb (version =? Omapi.protocol_version)
     then let* _ := Omapi.close in raise (OmapiError "protocol mismatch")
     else if negb (header_size =? 4 * 6)
     then let* _ := Omapi.close in raise (OmapiError "header size mismatch")
     else ret tt).
Proof.
  destruct result as [[[] version] header_size].
  apply preserves_bind; [apply client_ok_resetsize | intros _].
  apply preserves_if;
    [apply preserves_bind; [apply client_ok_close | intros; apply preserves_raise] |].
  apply preserves_if;
    [apply preserves_bind; [apply client_ok_close | intros; apply preserves_raise] |].
  apply preserves_ret.
Qed.

Lemma client_ok_recv_protocol_initialization_from (fuel : nat) :
  forall gen, preserves client_ok (Omapi.recv_protocol_initialization_from fuel gen).
Proof.
  induction fuel as [| fuel IH]; intros gen self H;
    cbn [Omapi.recv_protocol_initialization_from];
    pose proof (client_ok_step gen self H) as S;
    destruct (InBuffer.step gen (Omapi.inbuffer self)) as [[gen' | result |] ib];
    cbn [snd] in S; try exact S.
  - apply client_ok_startup. exact S.
  - apply (preserves_bind client_ok Omapi.fill_inbuffer); [| | exact S].
    + apply client_ok_fill_inbuffer.
    + intros _. apply IH.
  - apply client_ok_startup. exact S.
Qed.

Lemma client_ok_recv_protocol_initialization :
  preserves client_ok Omapi.recv_protocol_initialization.
Proof. intros self H. apply client_ok_recv_protocol_initialization_from. exact H. Qed.

Lemma process_ok_on_client {A : Type} (m : M Omapi.t A) :
  preserves client_ok m -> preserves process_ok (Omapi.on_client m).
Proof.
  intros Hm [self rand] H. unfold Omapi.on_client, process_ok in *.
  cbn [Omapi.client Omapi.sysrand] in *. specialize (Hm self H).
  destruct (m self) as [r self']. exact Hm.
Qed.

Lemma process_ok_on_sysrand {A : Type} (m : M SystemRandom.t A) :
  preserves process_ok (Omapi.on_sysrand m).
Proof.
  intros [self rand] H. unfold Omapi.on_sysrand, process_ok in *.
  cbn [Omapi.client Omapi.sysrand] in *. destruct (m rand) as [r rand']. exact H.
Qed.

Lemma process_ok_query_server message :
  preserves process_ok (Omapi.on_client (Omapi.query_server message)).
Proof. apply process_ok_on_client, client_ok_query_server. Qed.

Lemma process_ok_initialize_authenticator authenticator :
  preserves process_ok (Omapi.initialize_authenticator authenticator).
Proof.
  unfold Omapi.initialize_authenticator.
  apply preserves_bind; [apply process_ok_on_sysrand | intros msg].
  apply preserves_bind; [apply process_ok_query_server | intros response].
  apply preserves_if; [apply preserves_raise |].
  destruct (OmapiMessage.handle response =? 0) eqn:E; [apply preserves_raise |].
  apply process_ok_on_client.
  intros [auths defauth conn inb] [[R0 R] B]. unfold modify. client_state.
  split; [| exact B]. split.
  - rewrite lookup_insert_ne by lia. exact R0.
  - eexists. rewrite lookup_insert_eq. split; reflexivity.
Qed.

Lemma process_ok_add_host ip mac : preserves process_ok (Omapi.add_host ip mac).
Proof.
  unfold Omapi.add_host.
  apply preserves_bind; [apply process_ok_on_sysrand | intros msg].
  apply preserves_bind; [apply preserves_lift | intros hardware_address].
  apply preserves_bind; [apply preserves_lift | intros ip_address].
  apply preserves_bind; [apply process_ok_query_server | intros response].
  apply preserves_if; [apply preserves_raise | apply preserves_ret].
Qed.

Lemma process_ok_update_host mac ip : preserves process_ok (Omapi.update_host mac ip).
Proof.
  unfold Omapi.update_host.
  apply preserves_bind; [apply process_ok_on_sysrand | intros msg].
  apply preserves_bind; [apply preserves_lift | intros hardware_address].
  apply preserves_bind; [apply process_ok_query_server | intros response].
  apply preserves_if; [apply process_ok_add_host |].
  apply preserves_bind; [apply process_ok_on_sysrand | intros update].
  apply preserves_bind; [apply preserves_lift | intros ip_address].
  apply preserves_bind; [apply process_ok_query_server | intros response'].
  apply preserves_if; [apply preserves_raise | apply preserves_ret].
Qed.

Lemma process_ok_del_host mac : preserves process_ok (Omapi.del_host mac).
Proof.
  unfold Omapi.del_host.
  apply preserves_bind; [apply process_ok_on_sysrand | intros msg].
  apply preserves_bind; [apply preserves_lift | intros hardware_address].
  apply preserves_bind; [apply process_ok_query_server | intros response].
  apply preserves_if; [apply preserves_raise |].
  apply preserves_if; [apply preserves_raise |].
  apply preserves_bind; [apply process_ok_on_sysrand | intros msg'].
  apply preserves_bind; [apply process_ok_query_server | intros response'].
  apply preserves_if; [apply preserves_raise | apply preserves_ret].
Qed.

Lemma process_ok_lookup_ip mac : preserves process_ok (Omapi.lookup_ip mac).
Proof.
  unfold Omapi.lookup_ip.
  apply preserves_bind; [apply process_ok_on_sysrand | intros msg].
  apply preserves_bind; [apply preserves_lift | intros hardware_address].
  apply preserves_bind; [apply process_ok_query_server | intros response].
  apply preserves_if; [apply preserves_raise |].
  apply preserves_try_except; [| intros; apply preserves_raise].
  apply preserves_bind; [apply preserves_lift | intros; apply preserves_lift].
Qed.

Lemma process_ok_lookup_mac ip : preserves process_ok (Omapi.lookup_mac ip).
Proof.
  unfold Omapi.lookup_mac.
  apply preserves_bind; [apply process_ok_on_sysrand | intros msg].
  apply preserves_bind; [apply preserves_lift | intros ip_address].
  apply preserves_bind; [apply process_ok_query_server | intros response].
  apply preserves_if; [apply preserves_raise |].
  apply preserves_try_except; [| intros; apply preserves_raise].
  apply preserves_bind; [apply preserves_lift | intros; apply preserves_lift].
Qed.

Lemma process_ok_call (call : client_call) (p : Omapi.process) :
  process_ok p -> process_ok (run_call p call).
Proof.
  intros H. unfold run_call, do_call, forget.
  destruct call; cbn [snd].
  - apply process_ok_on_client; [exact client_ok_close | exact H].
  - apply process_ok_on_client; [exact client_ok_check_connected | exact H].
  - apply process_ok_on_client; [exact (client_ok_recv_conn _) | exact H].
  - apply process_ok_on_client; [exact (client_ok_send_conn _) | exact H].
  - apply process_ok_on_client; [exact client_ok_fill_inbuffer | exact H].
  - apply process_ok_on_client; [exact client_ok_send_protocol_initialization | exact H].
  - apply process_ok_on_client; [exact client_ok_recv_protocol_initialization | exact H].
  - apply process_ok_on_client; [exact client_ok_receive_message | exact H].
  - apply process_ok_on_client; [exact (client_ok_receive_response _ _) | exact H].
  - apply process_ok_on_client; [exact (client_ok_send_message _ _) | exact H].
  - apply process_ok_on_client; [exact (client_ok_query_server _) | exact H].
  - apply process_ok_initialize_authenticator; exact H.
  - apply process_ok_add_host; exact H.
  - apply process_ok_update_host; exact H.
  - apply process_ok_del_host; exact H.
  - apply process_ok_lookup_ip; exact H.
  - apply process_ok_lookup_mac; exact H.
Qed.

Lemma process_ok_init sock newauth rand : process_ok (snd (Omapi.init sock newauth rand)).
Proof.
  unfold Omapi.init.
  match goal with |- process_ok (snd (?m ?s)) =>
    assert (P : preserves process_ok m); [| apply P] end.
  - apply preserves_bind;
      [apply process_ok_on_client, client_ok_send_protocol_initialization | intros _].
    apply preserves_bind;
      [apply process_ok_on_client, client_ok_recv_protocol_initialization | intros _].
    destruct newauth; [apply process_ok_initialize_authenticator | apply preserves_ret].
  - unfold process_ok. cbn [Omapi.client]. client_state.
    split; [split |].
    + apply lookup_singleton_eq.
    + exists OmapiNullAuthenticator. split; [apply lookup_singleton_eq | reflexivity].
    + unfold InBuffer.init, InBuffer.sizelimit. cbn [InBuffer.buff InBuffer.totalsize].
      unfold len. simpl. split; [lia | left; lia].
Qed.

Lemma process_ok_program sock newauth rand calls :
  process_ok (program sock newauth rand calls).
Proof.
  unfold program, run_calls.
  generalize (process_ok_init sock newauth rand).
  generalize (snd (Omapi.init sock newauth rand)) as p.
  induction calls as [| call calls IH]; intros p H; [exact H |].
  cbn [fold_left]. apply IH. apply process_ok_call. exact H.
Qed.

(** ** What the methods raise *)

Lemma raises_only_bind {St A B : Type} (P : exn -> Prop) (m : M St A) (k : A -> M St B) :
  raises_only P m -> (forall a, raises_only P (k a)) -> raises_only P (bind m k).
Proof.
  intros Hm Hk s e s' H. apply bind_Raise_inv in H as [H | (a & s1 & _ & H)].
  - eapply Hm; exact H.
  - eapply Hk; exact H.
Qed.

Lemma raises_only_ret {St A : Type} (P : exn -> Prop) (a : A) : raises_only P (@ret St A a).
Proof. intros s e s' H. discriminate H. Qed.

Lemma raises_only_get {St : Type} (P : exn -> Prop) : raises_only P (@get St).
Proof. intros s e s' H. discriminate H. Qed.

Lemma raises_only_modify {St : Type} (P : exn -> Prop) (f : St -> St) :
  raises_only P (modify f).
Proof. intros s e s' H. discriminate H. Qed.

Lemma raises_only_raise {St A : Type} (P : exn -> Prop) (e : exn) :
  P e -> raises_only P (@raise St A e).
Proof. intros He s e' s' H. injection H as <- _. exact He. Qed.

Lemma raises_only_lift {St A : Type} (P : exn -> Prop) (r : result A) :
  (forall e, r = Raise e -> P e) -> raises_only P (@lift St A r).
Proof. intros Hr s e s' H. unfold lift in H. injection H as H _. apply Hr. exact H. Qed.

Lemma raises_only_if {St A : Type} (P : exn -> Prop) (c : bool) (m1 m2 : M St A) :
  raises_only P m1 -> raises_only P m2 -> raises_only P (if c then m1 else m2).
Proof. destruct c; auto. Qed.

Lemma raises_only_weaken {St A : Type} (P Q : exn -> Prop) (m : M St A) :
  raises_only P m -> (forall e, P e -> Q e) -> raises_only Q m.
Proof. intros Hm HPQ s e s' H. apply HPQ. eapply Hm. exact H. Qed.

Lemma raises_only_try_except {St A : Type} (P Q : exn -> Prop) (m : M St A)
    handles handler :
  raises_only Q m -> (forall e, Q e -> handles e = false -> P e) ->
  (forall e, raises_only P (handler e)) ->
  raises_only P (try_except m handles handler).
Proof.
  intros Hm Hq Hh s e s'. unfold try_except.
  destruct (m s) as [[a | e0 |] s1] eqn:E; try discriminate.
  destruct (handles e0) eqn:Eh.
  - apply Hh.
  - intros H. injection H as <- _. apply Hq; [eapply Hm; exact E | exact Eh].
Qed.

Lemma add_raises (data : bytes) : raises_only encoder_error (OutBuffer.add data).
Proof.
  intros s e s'. rewrite add_eq.
  destruct (len (OutBuffer.buff s ++ data) >? OutBuffer.sizelimit); [| discriminate].
  intros H. injection H as <- _. exact I.
Qed.

Lemma add_net32int_raises (n : Z) : raises_only encoder_error (OutBuffer.add_net32int n).
Proof.
  intros s e s'. rewrite add_net32int_eq. destruct (uint32b n); [apply add_raises |].
  intros H. injection H as <- _. exact I.
Qed.

Lemma add_net16int_raises (n : Z) : raises_only encoder_error (OutBuffer.add_net16int n).
Proof.
  intros s e s'. rewrite add_net16int_eq. destruct (uint16b n); [apply add_raises |].
  intros H. injection H as <- _. exact I.
Qed.

Lemma add_net32string_raises (s : bytes) :
  raises_only encoder_error (OutBuffer.add_net32string s).
Proof.
  unfold OutBuffer.add_net32string. apply raises_only_if.
  - apply raises_only_raise. exact I.
  - apply raises_only_bind; [apply add_net32int_raises | intros _; apply add_raises].
Qed.

Lemma add_net16string_raises (s : bytes) :
  raises_only encoder_error (OutBuffer.add_net16string s).
Proof.
  unfold OutBuffer.add_net16string. apply raises_only_if.
  - apply raises_only_raise. exact I.
  - apply raises_only_bind; [apply add_net16int_raises | intros _; apply add_raises].
Qed.

Lemma add_entries_raises (items : list (bytes * bytes)) :
  raises_only encoder_error (OutBuffer.add_entries items).
Proof.
  induction items as [| [key value] items IH]; cbn [OutBuffer.add_entries].
  - apply raises_only_ret.
  - apply raises_only_bind; [apply add_net16string_raises | intros _].
    apply raises_only_bind; [apply add_net32string_raises | intros _; exact IH].
Qed.

Lemma add_bindict_raises (items : list (bytes * bytes)) :
  raises_only encoder_error (OutBuffer.add_bindict items).
Proof.
  unfold OutBuffer.add_bindict.
  apply raises_only_bind; [apply add_entries_raises | intros _; apply add_raises].
Qed.

Lemma as_string_raises (m : OmapiMessage.t) (forsigning : bool) (e : exn) :
  OmapiMessage.as_string m forsigning = Raise e -> encoder_error e.
Proof.
  unfold OmapiMessage.as_string.
  match goal with |- fst (?prog ?s) = _ -> _ =>
    assert (R : raises_only encoder_error prog);
    [| intros H; destruct (prog s) as [r s'] eqn:E; cbn [fst] in H; subst r;
       exact (R _ _ _ E)]
  end.
  apply raises_only_bind;
    [destruct forsigning; cbn [negb];
       [apply raises_only_ret | apply add_net32int_raises] | intros _].
  apply raises_only_bind; [apply add_net32int_raises | intros _].
  apply raises_only_bind; [apply add_net32int_raises | intros _].
  apply raises_only_bind; [apply add_net32int_raises | intros _].
  apply raises_only_bind; [apply add_net32int_raises | intros _].
  apply raises_only_bind; [apply add_net32int_raises | intros _].
  apply raises_only_bind; [apply add_bindict_raises | intros _].
  apply raises_only_bind; [apply add_bindict_raises | intros _].
  apply raises_only_bind;
    [destruct forsigning; cbn [negb]; [apply raises_only_ret | apply add_raises] | intros _].
  intros s e0 s' H. discriminate H.
Qed.

(** [sign] raises what the encoders raise, or fails its assertion. *)
Lemma sign_raises (authenticator : OmapiAuthenticatorBase.t) :
  raises_only (fun e => encoder_error e \/ e = AssertionError)
    (OmapiMessage.sign authenticator).
Proof.
  unfold OmapiMessage.sign.
  apply raises_only_bind; [apply raises_only_modify | intros _].
  apply raises_only_bind; [apply raises_only_modify | intros _].
  apply raises_only_bind; [apply raises_only_get | intros self].
  apply raises_only_bind;
    [apply raises_only_lift; intros e H; left; eapply as_string_raises; exact H | intros data].
  apply raises_only_bind; [apply raises_only_modify | intros _].
  apply raises_only_bind; [apply raises_only_get | intros self'].
  destruct (decide _); [apply raises_only_ret | apply raises_only_raise; right; reflexivity].
Qed.

Lemma check_connected_raises : raises_only connection_error Omapi.check_connected.
Proof.
  intros self e self'. unfold Omapi.check_connected.
  destruct (Omapi.connection self); [discriminate |].
  intros H. injection H as <- _. right. reflexivity.
Qed.

Lemma close_raises (P : exn -> Prop) : raises_only P Omapi.close.
Proof.
  intros self e self'. unfold Omapi.close. destruct (Omapi.connection self); discriminate.
Qed.

Lemma send_conn_raises (data : bytes) : raises_only connection_error (Omapi.send_conn data).
Proof.
  intros [auths defauth [sock |] inb] e self'.
  - unfold Omapi.send_conn, bind, Omapi.check_connected, try_except, Omapi.on_connection,
      Socket.sendall, Omapi.close, raise. client_fields.
    destruct (Socket.broken sock); client_fields; cbn [Omapi.is_socket_error];
      client_fields; [| discriminate].
    intros H. injection H as <- _. left. reflexivity.
  - intros H. injection H as <- _. right. reflexivity.
Qed.

Lemma recv_raises (length : Z) (sock sock' : Socket.t) (e : exn) :
  Socket.recv length sock = (Raise e, sock') -> e = socket_error.
Proof.
  unfold Socket.recv. destruct (Socket.inbound sock) as [| [data |] rest]; try discriminate.
  intros H. injection H as <- _. reflexivity.
Qed.

Lemma recv_conn_raises (length : Z) : raises_only connection_error (Omapi.recv_conn length).
Proof.
  intros [auths defauth [sock |] inb] e self'.
  - unfold Omapi.recv_conn, bind, Omapi.check_connected, try_except, Omapi.on_connection,
      Omapi.close, raise. client_fields.
    destruct (Socket.recv length sock) as [[data | e0 |] sock1] eqn:R; client_fields;
      try discriminate.
    apply recv_raises in R. subst e0. cbn [Omapi.is_socket_error]. client_fields.
    intros H. injection H as <- _. left. reflexivity.
  - intros H. injection H as <- _. right. reflexivity.
Qed.

(** What [send_message] raises: the errors of signing and of the encoders,
    those of the connection, and a KeyError when no authenticator is
    registered at the default id. *)
Lemma send_message_raises message sign (self : Omapi.t) e self' :
  Omapi.send_message message sign self = (Raise e, self') ->
  encoder_error e \/ e = AssertionError \/ connection_error e \/
  (e = KeyError /\ Omapi.authenticators self !! Omapi.defauth self = None).
Proof.
  unfold Omapi.send_message. intros H.
  apply bind_Raise_inv in H as [H | ([] & s1 & H0 & H)].
  { apply check_connected_raises in H. auto. }
  assert (s1 = self) as ->.
  { unfold Omapi.check_connected in H0. destruct (Omapi.connection self); [| discriminate].
    injection H0 as <-. reflexivity. }
  apply bind_Raise_inv in H as [H | (s & s2 & H1 & H)]; [discriminate |].
  injection H1 as <- <-.
  apply bind_Raise_inv in H as [H | (message' & s3 & H1 & H)].
  { destruct sign; [| discriminate].
    destruct (Omapi.authenticators self !! Omapi.defauth self) as [authenticator |] eqn:L.
    - destruct (OmapiMessage.sign authenticator message) as [[[] | e0 |] m'] eqn:S;
        try discriminate.
      injection H as <- _. apply sign_raises in S. destruct S; auto.
    - injection H as <- _. auto. }
  apply bind_Raise_inv in H as [H | (data & s4 & H2 & H)].
  { unfold lift in H. injection H as H _. apply as_string_raises in H. auto. }
  apply bind_Raise_inv in H as [H | (? & s5 & H3 & H)]; [| discriminate].
  apply send_conn_raises in H. auto.
Qed.

(** X7.  In a program that has made a client and called any of
    its methods, in any order and whatever the peer and the random number
    generator have given, each authenticator that it registers being an
    object of its own, the registry of the client holds the null
    authenticator at id 0 and holds, at the default id, an authenticator
    that carries this id, so that [send_message] does not raise KeyError;
    and the meter of the input buffer covers the unparsed bytes and is
    within the limit unless the connection has been closed. *)
Theorem client_invariant (sock : Socket.t) (newauth : option OmapiAuthenticatorBase.t)
    (rand : SystemRandom.t) (calls : list client_call) :
  let self := Omapi.client (program sock newauth rand calls) in
  registry_ok self /\ buffer_ok self /\
  forall message sign, fst (Omapi.send_message message sign self) <> Raise KeyError.
Proof.
  cbv zeta. destruct (process_ok_program sock newauth rand calls) as [R B].
  split; [exact R |]. split; [exact B |].
  intros message sign E.
  destruct (Omapi.send_message message sign _) as [r self'] eqn:S. cbn [fst] in E. subst r.
  apply send_message_raises in S as [S | [S | [[S | S] | [_ S]]]]; try discriminate.
  - destruct S.
  - destruct R as [_ (authenticator & L & _)]. rewrite L in S. discriminate.
Qed.

(** ** Errors while receiving *)

Lemma fill_inbuffer_Raise (self self' : Omapi.t) (e : exn) :
  Omapi.fill_inbuffer self = (Raise e, self') ->
  Omapi.connection self' = None /\ receive_error e.
Proof.
  destruct self as [auths defauth [sock |] [buff ts]];
    unfold Omapi.fill_inbuffer, Omapi.recv_conn, Omapi.check_connected, bind, try_except,
      Omapi.on_connection, Omapi.on_inbuffer, Omapi.close, raise; client_fields.
  - destruct (Socket.recv 2048 sock) as [[data | e0 |] sock1] eqn:R; client_fields.
    + destruct data as [| c data]; client_fields.
      * intros H. injection H as <- <-. split; [reflexivity |].
        right. right. eexists. reflexivity.
      * rewrite feed_eq. cbn [InBuffer.buff InBuffer.totalsize].
        destruct (ts + len (c :: data) >? InBuffer.sizelimit);
          cbn [Omapi.is_size_limit]; client_fields; [| discriminate].
        intros H. injection H as <- <-. split; [reflexivity |]. right. left. reflexivity.
    + apply recv_raises in R. subst e0. cbn [Omapi.is_socket_error]. client_fields.
      intros H. injection H as <- <-. split; [reflexivity | left; reflexivity].
    + discriminate.
  - intros H. injection H as <- <-. split; [reflexivity |].
    right. right. eexists. reflexivity.
Qed.

(** What a [fill_inbuffer] that returns has done: bytes of the peer are on
    the buffer and on its meter, which is within the limit. *)
Lemma fill_inbuffer_Ok_inv (self self' : Omapi.t) :
  Omapi.fill_inbuffer self = (Ok tt, self') ->
  exists data,
    Omapi.inbuffer self'
    = InBuffer.mk (InBuffer.buff (Omapi.inbuffer self) ++ data)
        (InBuffer.totalsize (Omapi.inbuffer self) + len data) /\
    InBuffer.totalsize (Omapi.inbuffer self) + len data <= InBuffer.sizelimit /\
    Omapi.authenticators self' = Omapi.authenticators self.
Proof.
  destruct self as [auths defauth [sock |] [buff ts]];
    unfold Omapi.fill_inbuffer, Omapi.recv_conn, Omapi.check_connected, bind, try_except,
      Omapi.on_connection, Omapi.on_inbuffer, Omapi.close, raise; client_fields;
    [| discriminate].
  destruct (Socket.recv 2048 sock) as [[data | e0 |] sock1] eqn:R; client_fields.
  - destruct data as [| c data]; client_fields; [discriminate |].
    rewrite feed_eq. cbn [InBuffer.buff InBuffer.totalsize].
    destruct (ts + len (c :: data) >? InBuffer.sizelimit) eqn:E;
      cbn [Omapi.is_size_limit]; client_fields; [discriminate |].
    intros H. injection H as <-. client_fields. cbn [InBuffer.buff InBuffer.totalsize].
    exists (c :: data). split; [reflexivity |]. split; [lia | reflexivity].
  - destruct (Omapi.is_socket_error e0); client_fields; discriminate.
  - discriminate.
Qed.

Lemma serializable_forsigning (m : OmapiMessage.t) :
  serializable m false -> serializable m true.
Proof. intros (_ & H). split; [discriminate | exact H]. Qed.

Lemma wire_signed_length (m : OmapiMessage.t) : len (wire_signed m) <= len (wire_message m).
Proof.
  unfold wire_message. rewrite !len_app.
  pose proof (len_nonneg (struct_pack_L (OmapiMessage.authid m))).
  pose proof (len_nonneg (OmapiMessage.signature m)). lia.
Qed.

Lemma appends_raises (strict : bool) m wire :
  appends strict m wire -> raises_only (fun e => e = OmapiSizeLimitError) m.
Proof.
  intros H self e self' E.
  destruct (H self) as [[E1 _] | (written & rest & _ & _ & E1)]; rewrite E1 in E;
    [discriminate | injection E as <- _; reflexivity].
Qed.

(** With fields in the range of the encoders, [as_string] returns or
    raises the size-limit error. *)
Lemma as_string_serializable (m : OmapiMessage.t) (forsigning : bool) (e : exn) :
  serializable m forsigning ->
  OmapiMessage.as_string m forsigning = Raise e -> e = OmapiSizeLimitError.
Proof.
  intros (V0 & Vs & V2 & V3 & V4 & V5 & V6 & V7).
  assert (Vl : uint32 (len (OmapiMessage.signature m))).
  { pose proof (len_nonneg (OmapiMessage.signature m)). unfold uint32. lia. }
  unfold OmapiMessage.as_string.
  match goal with |- fst (?prog ?s) = _ -> _ =>
    assert (R : raises_only (fun e => e = OmapiSizeLimitError) prog);
    [| intros H; destruct (prog s) as [r s'] eqn:E; cbn [fst] in H; subst r;
       exact (R _ _ _ E)]
  end.
  apply raises_only_bind;
    [destruct forsigning; cbn [negb];
       [apply raises_only_ret
       | eapply appends_raises, appends_add_net32int, V0; reflexivity] | intros _].
  apply raises_only_bind; [eapply appends_raises, appends_add_net32int, Vl | intros _].
  apply raises_only_bind; [eapply appends_raises, appends_add_net32int, V2 | intros _].
  apply raises_only_bind; [eapply appends_raises, appends_add_net32int, V3 | intros _].
  apply raises_only_bind; [eapply appends_raises, appends_add_net32int, V4 | intros _].
  apply raises_only_bind; [eapply appends_raises, appends_add_net32int, V5 | intros _].
  apply raises_only_bind; [eapply appends_raises, appends_add_bindict, V6 | intros _].
  apply raises_only_bind; [eapply appends_raises, appends_add_bindict, V7 | intros _].
  apply raises_only_bind;
    [destruct forsigning; cbn [negb];
       [apply raises_only_ret | eapply appends_raises, appends_add] | intros _].
  intros s e0 s' H. discriminate H.
Qed.

(** A message that the parser has yielded is verified without an error
    when it was at most 65536 bytes long, and in any case with no other
    error than that of the size limit. *)
Lemma verify_parsed (m : OmapiMessage.t) (input rest : bytes) authenticators :
  next InBuffer.parse_message input = (Yielded m, rest) ->
  (len input <= InBuffer.sizelimit ->
   exists verified, OmapiMessage.verify m authenticators = Ok verified) /\
  ((exists verified, OmapiMessage.verify m authenticators = Ok verified) \/
   OmapiMessage.verify m authenticators = Raise OmapiSizeLimitError).
Proof.
  intros N. apply parse_message_inv in N as (-> & S & _ & _).
  apply serializable_forsigning in S.
  unfold OmapiMessage.verify.
  destruct (authenticators !! OmapiMessage.authid m) as [authenticator |]; [| eauto].
  split.
  - intros L. rewrite (as_string_fits m true S); [cbn [rbind]; eauto |].
    cbn [wire]. pose proof (wire_signed_length m). rewrite len_app in L.
    pose proof (len_nonneg rest). unfold InBuffer.sizelimit, OutBuffer.sizelimit in *. lia.
  - pose proof (as_string_serializable m true) as R.
    pose proof (as_string_settles m true) as T.
    destruct (OmapiMessage.as_string m true) as [data | e |]; cbn [rbind].
    + left. eauto.
    + right. rewrite (R e S eq_refl). reflexivity.
    + contradiction.
Qed.

Lemma deliver_Raise (message : OmapiMessage.t) (self self' : Omapi.t) (e : exn) :
  (exists verified, OmapiMessage.verify message (Omapi.authenticators self) = Ok verified) \/
  Omapi.connection self = None ->
  (exists verified, OmapiMessage.verify message (Omapi.authenticators self) = Ok verified) \/
  OmapiMessage.verify message (Omapi.authenticators self) = Raise OmapiSizeLimitError ->
  (let* _ := Omapi.on_inbuffer InBuffer.resetsize in
   let* self' := get in
   let* verified := lift (OmapiMessage.verify message (Omapi.authenticators self')) in
   if negb verified
   then let* _ := Omapi.close in raise (OmapiError "bad omapi message signature")
   else ret message) self = (Raise e, self') ->
  Omapi.connection self' = None /\ receive_error e.
Proof.
  destruct self as [auths defauth conn inb].
  unfold bind, Omapi.on_inbuffer, InBuffer.resetsize, modify, get, lift, Omapi.close,
    raise, ret. client_fields.
  intros H1 H2.
  destruct (OmapiMessage.verify message auths) as [[|] | e0 |] eqn:V; cbn [negb];
    try discriminate.
  - destruct conn; client_fields; intros H; injection H as <- <-;
      (split; [reflexivity |]); right; right; eexists; reflexivity.
  - intros H. injection H as <- <-. client_fields.
    destruct H1 as [[verified H1] | H1]; [discriminate |].
    split; [exact H1 |].
    destruct H2 as [[verified H2] | H2]; [discriminate |].
    injection H2 as ->. right. left. reflexivity.
Qed.

Lemma receive_message_from_Raise (fuel : nat) :
  forall gen (self self' : Omapi.t) (input : bytes) (e : exn),
    reads _ (fun _ => True) gen ->
    (forall more,
        next InBuffer.parse_message (input ++ more)
        = next gen (InBuffer.buff (Omapi.inbuffer self) ++ more)) ->
    len input <= InBuffer.totalsize (Omapi.inbuffer self) ->
    InBuffer.totalsize (Omapi.inbuffer self) <= InBuffer.sizelimit \/
    Omapi.connection self = None ->
    Omapi.receive_message_from fuel gen self = (Raise e, self') ->
    Omapi.connection self' = None /\ receive_error e.
Proof.
  induction fuel as [| fuel IH]; intros gen self self' input e R I L B;
    cbn [Omapi.receive_message_from]; rewrite step_eq;
    pose proof (I []) as I0; rewrite !app_nil_r in I0;
    pose proof (next_resumes _ gen R (InBuffer.buff (Omapi.inbuffer self))) as Rs;
    unfold resumes in Rs;
    destruct (next gen (InBuffer.buff (Omapi.inbuffer self))) as [[gen' | message |] rest]
      eqn:N; cbn [fst snd]; try discriminate.
  - intros H. destruct (verify_parsed message input rest (Omapi.authenticators self) I0)
      as [V1 V2].
    apply deliver_Raise in H; [exact H | | exact V2]. client_fields.
    destruct B as [B | B]; [left; apply V1; lia | right; exact B].
  - intros H. apply bind_Raise_inv in H as [H | ([] & self1 & F & H)].
    + apply fill_inbuffer_Raise in H. exact H.
    + pose proof F as F'. apply fill_inbuffer_Ok_inv in F' as (data & E & Lt & _).
      client_fields. cbn [InBuffer.buff InBuffer.totalsize] in *.
      apply (IH gen' self1 self' (input ++ data)) in H.
      * exact H.
      * destruct (Rs data) as [R' _]. exact R'.
      * intros more. rewrite E. cbn [InBuffer.buff].
        rewrite <- !app_assoc, I. destruct (Rs (data ++ more)) as [_ Rs']. exact Rs'.
      * rewrite E. cbn [InBuffer.totalsize]. rewrite len_app. lia.
      * left. rewrite E. cbn [InBuffer.totalsize]. exact Lt.
  - intros H. destruct (verify_parsed message input rest (Omapi.authenticators self) I0)
      as [V1 V2].
    apply deliver_Raise in H; [exact H | | exact V2]. client_fields.
    destruct B as [B | B]; [left; apply V1; lia | right; exact B].
Qed.

Lemma startup_Raise (result : unit * Z * Z) (self self' : Omapi.t) (e : exn) :
  (let* _ := Omapi.on_inbuffer InBuffer.resetsize in
   let '(_, version, header_size) := result in
   if negb (version =? Omapi.protocol_version)
   then let* _ := Omapi.close in raise (OmapiError "protocol mismatch")
   else if negb (header_size =? 4 * 6)
   then let* _ := Omapi.close in raise (OmapiError "header size mismatch")
   else ret tt) self = (Raise e, self') ->
  Omapi.connection self' = None /\ receive_error e.
Proof.
  destruct result as [[[] version] header_size]. destruct self as [auths defauth conn inb].
  unfold bind, Omapi.on_inbuffer, InBuffer.resetsize, modify, Omapi.close, raise, ret.
  client_fields.
  destruct (version =? Omapi.protocol_version); cbn [negb].
  - destruct (header_size =? 4 * 6); cbn [negb]; [discriminate |].
    destruct conn; client_fields; intros H; injection H as <- <-;
      (split; [reflexivity |]); right; right; eexists; reflexivity.
  - destruct conn; client_fields; intros H; injection H as <- <-;
      (split; [reflexivity |]); right; right; eexists; reflexivity.
Qed.

Lemma recv_protocol_initialization_from_Raise (fuel : nat) :
  forall gen (self self' : Omapi.t) (e : exn),
    Omapi.recv_protocol_initialization_from fuel gen self = (Raise e, self') ->
    Omapi.connection self' = None /\ receive_error e.
Proof.
  induction fuel as [| fuel IH]; intros gen self self' e;
    cbn [Omapi.recv_protocol_initialization_from];
    destruct (InBuffer.step gen (Omapi.inbuffer self)) as [[gen' | result |] ib];
    try discriminate.
  - apply startup_Raise.
  - intros H. apply bind_Raise_inv in H as [H | ([] & self1 & F & H)].
    + apply fill_inbuffer_Raise in H. exact H.
    + apply IH in H. exact H.
  - apply startup_Raise.
Qed.

Lemma send_protocol_initialization_Raise (self self' : Omapi.t) (e : exn) :
  Omapi.send_protocol_initialization self = (Raise e, self') ->
  Omapi.connection self' = None /\ connection_error e.
Proof.
  destruct self as [auths defauth [sock |] inb];
    unfold Omapi.send_protocol_initialization, Omapi.send_conn, bind, Omapi.check_connected,
      lift, try_except, Omapi.on_connection, Socket.sendall, Omapi.close, raise;
    client_fields.
  - change (fst ((let* _ := OutBuffer.add_net32int Omapi.protocol_version in
                  let* _ := OutBuffer.add_net32int (4 * 6) in OutBuffer.getvalue)
                   OutBuffer.init))
      with (Ok [x00; x00; x00; x64; x00; x00; x00; x18]).
    client_fields.
    destruct (Socket.broken sock); client_fields; cbn [Omapi.is_socket_error];
      client_fields; [| discriminate].
    intros H. injection H as <- <-. split; [reflexivity | left; reflexivity].
  - intros H. injection H as <- <-. split; [reflexivity | right; reflexivity].
Qed.

(** X8.  When a method of the handshake raises, the
    client is left disconnected: [send_protocol_initialization] raises the
    error of the socket or OmapiError("not connected"), and
    [recv_protocol_initialization] the error of the socket, the size-limit
    error or an OmapiError, among them that of a version or a header size
    that is not the expected one. *)
Theorem handshake_error_is_fatal (self self' : Omapi.t) (e : exn) :
  (Omapi.send_protocol_initialization self = (Raise e, self') ->
   Omapi.connection self' = None /\ connection_error e) /\
  (Omapi.recv_protocol_initialization self = (Raise e, self') ->
   Omapi.connection self' = None /\ receive_error e).
Proof.
  split.
  - apply send_protocol_initialization_Raise.
  - unfold Omapi.recv_protocol_initialization. apply recv_protocol_initialization_from_Raise.
Qed.

(** The theorem at a client whose socket fails on sending, and at one whose
    peer closes the stream. *)
Lemma handshake_error_is_fatal_witness :
  (Omapi.connection (disconnected null_registry 0) = None /\ connection_error socket_error) /\
  (Omapi.connection (disconnected null_registry 0) = None /\
   receive_error (OmapiError "connection closed")).
Proof.
  split.
  - apply (handshake_error_is_fatal example_client_broken (disconnected null_registry 0) socket_error).
    reflexivity.
  - apply (handshake_error_is_fatal (connected null_registry 0 [] []) (disconnected null_registry 0)
             (OmapiError "connection closed")).
    reflexivity.
Defined.

(** X9.  On a client whose input buffer is within its
    meter and limit, [receive_message] raises nothing but the error of the
    socket, the size-limit error or an OmapiError, and when it raises the
    client is left disconnected.  [receive_response] raises the same errors
    with the same effect, and besides them only its own two OmapiErrors, for
    a message that is not the response or that another authenticator has
    signed. *)
Theorem receive_error_is_fatal (self self' : Omapi.t) (message : OmapiMessage.t)
    (insecure : bool) (e : exn) :
  buffer_ok self ->
  (Omapi.receive_message self = (Raise e, self') ->
   Omapi.connection self' = None /\ receive_error e) /\
  (Omapi.receive_response message insecure self = (Raise e, self') ->
   (Omapi.connection self' = None /\ receive_error e) \/
   e = OmapiError "received message is not the desired response" \/
   e = OmapiError "received message is signed with wrong authenticator").
Proof.
  intros [B1 B2].
  assert (R : forall e self',
             Omapi.receive_message self = (Raise e, self') ->
             Omapi.connection self' = None /\ receive_error e).
  { intros e0 self0. unfold Omapi.receive_message.
    apply (receive_message_from_Raise _ _ _ _ (InBuffer.buff (Omapi.inbuffer self)));
      [apply reads_parse_message | reflexivity | exact B1 | exact B2]. }
  split; [apply R |].
  unfold Omapi.receive_response. intros H.
  apply bind_Raise_inv in H as [H | (response & self1 & _ & H)]; [left; apply R; exact H |].
  right. destruct (negb (OmapiMessage.is_response response message)).
  - injection H as <- _. left. reflexivity.
  - unfold bind, get in H.
    destruct (negb (bool_decide (OmapiMessage.authid response = Omapi.defauth self1))
              && negb insecure); [| discriminate].
    injection H as <- _. right. reflexivity.
Qed.

(** The theorem at a client whose peer closes the stream. *)
Lemma receive_error_is_fatal_witness :
  (Omapi.connection (disconnected null_registry 0) = None /\
   receive_error (OmapiError "connection closed")) /\
  ((Omapi.connection (disconnected null_registry 0) = None /\
    receive_error (OmapiError "connection closed")) \/
   OmapiError "connection closed"
   = OmapiError "received message is not the desired response" \/
   OmapiError "connection closed"
   = OmapiError "received message is signed with wrong authenticator").
Proof.
  destruct (receive_error_is_fatal (connected null_registry 0 [] []) (disconnected null_registry 0) example_request
              false (OmapiError "connection closed")) as [H1 H2].
  - unfold buffer_ok, connected, InBuffer.sizelimit, len. simpl. lia.
  - split; [apply H1; reflexivity | apply H2; reflexivity].
Defined.

(** ** The calls of a client return or raise *)

Lemma settles_ret {St A : Type} (a : A) : settles (@ret St A a).
Proof. intros s. discriminate. Qed.

Lemma settles_raise {St A : Type} (e : exn) : settles (@raise St A e).
Proof. intros s. discriminate. Qed.

Lemma settles_get {St : Type} : settles (@get St).
Proof. intros s. discriminate. Qed.

Lemma settles_modify {St : Type} (f : St -> St) : settles (modify f).
Proof. intros s. discriminate. Qed.

Lemma settles_lift {St A : Type} (r : result A) : r <> Hang -> settles (@lift St A r).
Proof. intros H s. exact H. Qed.

Lemma settles_if {St A : Type} (c : bool) (m1 m2 : M St A) :
  settles m1 -> settles m2 -> settles (if c then m1 else m2).
Proof. destruct c; auto. Qed.

Lemma settles_try_except {St A : Type} (m : M St A) handles handler :
  settles m -> (forall e, settles (handler e)) -> settles (try_except m handles handler).
Proof.
  intros Hm Hh s. unfold try_except. specialize (Hm s).
  destruct (m s) as [[a | e |] s1]; cbn [fst] in *; [discriminate | | contradiction].
  destruct (handles e); [apply Hh | discriminate].
Qed.

Lemma settles_on_connection {A : Type} (m : M Socket.t A) :
  settles m -> settles (Omapi.on_connection m).
Proof.
  intros Hm [auths defauth [sock |] inb]; unfold Omapi.on_connection; client_fields;
    [| discriminate].
  specialize (Hm sock). destruct (m sock) as [r sock']. exact Hm.
Qed.

Lemma settles_on_inbuffer {A : Type} (m : M InBuffer.t A) :
  settles m -> settles (Omapi.on_inbuffer m).
Proof.
  intros Hm self. unfold Omapi.on_inbuffer. specialize (Hm (Omapi.inbuffer self)).
  destruct (m (Omapi.inbuffer self)) as [r ib]. exact Hm.
Qed.

Lemma settles_close : settles Omapi.close.
Proof. intros self. unfold Omapi.close. destruct (Omapi.connection self); discriminate. Qed.

Lemma settles_check_connected : settles Omapi.check_connected.
Proof.
  intros self. unfold Omapi.check_connected. destruct (Omapi.connection self); discriminate.
Qed.

Lemma settles_recv (length : Z) : settles (Socket.recv length).
Proof.
  intros sock. unfold Socket.recv.
  destruct (Socket.inbound sock) as [| [data |] rest]; discriminate.
Qed.

Lemma settles_sendall (data : bytes) : settles (Socket.sendall data).
Proof. intros sock. unfold Socket.sendall. destruct (Socket.broken sock); discriminate. Qed.

Lemma settles_recv_conn (length : Z) : settles (Omapi.recv_conn length).
Proof.
  unfold Omapi.recv_conn. apply settles_bind; [apply settles_check_connected | intros _].
  apply settles_try_except; [apply settles_on_connection, settles_recv |].
  intros e. apply settles_bind; [apply settles_close | intros; apply settles_raise].
Qed.

Lemma settles_send_conn (data : bytes) : settles (Omapi.send_conn data).
Proof.
  unfold Omapi.send_conn. apply settles_bind; [apply settles_check_connected | intros _].
  apply settles_try_except; [apply settles_on_connection, settles_sendall |].
  intros e. apply settles_bind; [apply settles_close | intros; apply settles_raise].
Qed.

Lemma settles_fill_inbuffer : settles Omapi.fill_inbuffer.
Proof. intros self. apply fill_inbuffer_settles. Qed.

Lemma settles_receive_message : settles Omapi.receive_message.
Proof. intros self. apply receive_message_settles. Qed.

Lemma settles_receive_response message insecure :
  settles (Omapi.receive_response message insecure).
Proof.
  unfold Omapi.receive_response.
  apply settles_bind; [apply settles_receive_message | intros response].
  apply settles_if; [apply settles_raise |].
  apply settles_bind; [apply settles_get | intros self].
  apply settles_if; [apply settles_raise | apply settles_ret].
Qed.

Lemma settles_sign (authenticator : OmapiAuthenticatorBase.t) :
  settles (OmapiMessage.sign authenticator).
Proof.
  unfold OmapiMessage.sign.
  apply settles_bind; [apply settles_modify | intros _].
  apply settles_bind; [apply settles_modify | intros _].
  apply settles_bind; [apply settles_get | intros self].
  apply settles_bind; [apply settles_lift, as_string_settles | intros data].
  apply settles_bind; [apply settles_modify | intros _].
  apply settles_bind; [apply settles_get | intros self'].
  destruct (decide _); [apply settles_ret | apply settles_raise].
Qed.

Lemma settles_send_message message sign : settles (Omapi.send_message message sign).
Proof.
  unfold Omapi.send_message.
  apply settles_bind; [apply settles_check_connected | intros _].
  apply settles_bind; [apply settles_get | intros self].
  apply settles_bind.
  - destruct sign; [| apply settles_ret].
    destruct (Omapi.authenticators self !! Omapi.defauth self) as [authenticator |];
      [| apply settles_raise].
    intros s. pose proof (settles_sign authenticator message) as S.
    destruct (OmapiMessage.sign authenticator message) as [[[] | e |] m']; cbn [fst] in *;
      [discriminate | discriminate | contradiction].
  - intros message'. apply settles_bind; [apply settles_lift, as_string_settles | intros data].
    apply settles_bind; [apply settles_send_conn | intros; apply settles_ret].
Qed.

Lemma settles_query_server message : settles (Omapi.query_server message).
Proof.
  unfold Omapi.query_server.
  apply settles_bind; [apply settles_send_message | intros; apply settles_receive_response].
Qed.

Lemma settles_send_protocol_initialization : settles Omapi.send_protocol_initialization.
Proof.
  unfold Omapi.send_protocol_initialization.
  apply settles_bind; [apply settles_check_connected | intros _].
  apply settles_bind; [| intros data; apply settles_send_conn].
  apply settles_lift. vm_compute. discriminate.
Qed.

Lemma settles_startup (result : unit * Z * Z) :
  settles
    (let* _ := Omapi.on_inbuffer InBuffer.resetsize in
     let '(_, version, header_size) := result in
     if negb (version =? Omapi.protocol_version)
     then let* _ := Omapi.close in raise (OmapiError "protocol mismatch")
     else if negb (header_size =? 4 * 6)
     then let* _ := Omapi.close in raise (OmapiError "header size mismatch")
     else ret tt).
Proof.
  destruct result as [[[] version] header_size].
  apply settles_bind; [apply settles_on_inbuffer, settles_modify | intros _].
  apply settles_if;
    [apply settles_bind; [apply settles_close | intros; apply settles_raise] |].
  apply settles_if;
    [apply settles_bind; [apply settles_close | intros; apply settles_raise] |].
  apply settles_ret.
Qed.

Lemma recv_protocol_initialization_from_settles (fuel : nat) :
  forall gen self,
    productive _ gen -> (client_pending self < fuel)%nat ->
    fst (Omapi.recv_protocol_initialization_from fuel gen self) <> Hang.
Proof.
  induction fuel as [| fuel IH]; intros gen self P F; [lia |].
  cbn [Omapi.recv_protocol_initialization_from]. rewrite step_eq.
  pose proof (productive_next gen P (InBuffer.buff (Omapi.inbuffer self))) as N.
  destruct (next gen (InBuffer.buff (Omapi.inbuffer self))) as [[gen' | result |] buff'];
    cbn [fst snd] in *; [| | contradiction].
  - unfold bind at 1.
    match goal with |- context [Omapi.fill_inbuffer ?s] =>
      destruct (fill_inbuffer_settles s) as [H1 H2];
      destruct (Omapi.fill_inbuffer s) as [[[] | e |] self1] eqn:E
    end; cbn [fst] in *; [| discriminate | contradiction].
    apply IH; [exact N |]. specialize (H2 self1 eq_refl).
    unfold client_pending in *. client_fields. lia.
  - apply settles_startup.
Qed.

Lemma settles_recv_protocol_initialization : settles Omapi.recv_protocol_initialization.
Proof.
  intros self. unfold Omapi.recv_protocol_initialization.
  apply recv_protocol_initialization_from_settles.
  - apply productive_parse_startup_message.
  - unfold client_pending. lia.
Qed.

Lemma settles_on_client {A : Type} (m : M Omapi.t A) :
  settles m -> settles (Omapi.on_client m).
Proof.
  intros Hm p. unfold Omapi.on_client. specialize (Hm (Omapi.client p)).
  destruct (m (Omapi.client p)) as [r self]. exact Hm.
Qed.

Lemma settles_on_sysrand {A : Type} (m : M SystemRandom.t A) :
  settles m -> settles (Omapi.on_sysrand m).
Proof.
  intros Hm p. unfold Omapi.on_sysrand. specialize (Hm (Omapi.sysrand p)).
  destruct (m (Omapi.sysrand p)) as [r rand]. exact Hm.
Qed.

Lemma settles_generate_tid (m : OmapiMessage.t) : settles (OmapiMessage.generate_tid m).
Proof.
  intros rand. unfold OmapiMessage.generate_tid, bind, SystemRandom.randrange. cbn.
  discriminate.
Qed.

Lemma map_result_settles {A B : Type} (f : A -> result B) (xs : list A) :
  (forall x, f x <> Hang) -> map_result f xs <> Hang.
Proof.
  intros Hf. induction xs as [| x xs IH]; [discriminate |].
  cbn [map_result]. specialize (Hf x). destruct (f x); cbn [rbind]; try discriminate;
    [| contradiction].
  destruct (map_result f xs); cbn [rbind]; [discriminate | discriminate | contradiction].
Qed.

Lemma int_settles (s : bytes) (base : Z) : int s base <> Hang.
Proof.
  unfold int.
  destruct (match strip s with
            | "+"%byte :: r => (false, r)
            | "-"%byte :: r => (true, r)
            | _ => (false, strip s)
            end) as [negative s1].
  destruct (if base =? 16
            then match lstrip s1 with
                 | "0"%byte :: "x"%byte :: r => r
                 | "0"%byte :: "X"%byte :: r => r
                 | _ => lstrip s1
                 end
            else lstrip s1) as [| c s2]; [discriminate |].
  destruct (digits_value base 0 (c :: s2)); discriminate.
Qed.

Lemma chr_settles (i : Z) : chr i <> Hang.
Proof.
  unfold chr. destruct ((0 <=? i) && (i <? 256)); [discriminate |].
  destruct ((- 2 ^ 63 <=? i) && (i <? 2 ^ 63)); discriminate.
Qed.

Lemma pack_parts_settles (base : Z) (parts : list bytes) :
  (try* values := map_result (fun part => int part base) parts in
   try* chars := map_result chr values in
   Ok (join [] chars)) <> Hang.
Proof.
  pose proof (map_result_settles (fun part => int part base) parts
                (fun part => int_settles part base)) as H1.
  destruct (map_result (fun part => int part base) parts) as [values | e |];
    cbn [rbind]; [| discriminate | contradiction].
  pose proof (map_result_settles chr values chr_settles) as H2.
  destruct (map_result chr values); cbn [rbind]; [discriminate | discriminate | contradiction].
Qed.

Lemma pack_ip_settles (ipstr : bytes) : pack_ip ipstr <> Hang.
Proof.
  unfold pack_ip. destruct (negb _); [discriminate | apply pack_parts_settles].
Qed.

Lemma pack_mac_settles (macstr : bytes) : pack_mac macstr <> Hang.
Proof.
  unfold pack_mac. destruct (negb _); [discriminate | apply pack_parts_settles].
Qed.

Lemma unpack_ip_settles (fourbytes : bytes) : unpack_ip fourbytes <> Hang.
Proof. unfold unpack_ip. destruct (negb _); discriminate. Qed.

Lemma unpack_mac_settles (sixbytes : bytes) : unpack_mac sixbytes <> Hang.
Proof. unfold unpack_mac. destruct (negb _); discriminate. Qed.

Lemma dict_getitem_settles (d : pydict) (key : bytes) : dict_getitem d key <> Hang.
Proof.
  induction d as [| [k v] d IH]; cbn [dict_getitem]; [discriminate |].
  destruct (decide (k = key)); [discriminate | exact IH].
Qed.

Lemma settles_open (typename : bytes) :
  settles (Omapi.on_sysrand (OmapiMessage.open typename)).
Proof. apply settles_on_sysrand, settles_generate_tid. Qed.

Lemma settles_query (message : OmapiMessage.t) :
  settles (Omapi.on_client (Omapi.query_server message)).
Proof. apply settles_on_client, settles_query_server. Qed.

Lemma settles_initialize_authenticator authenticator :
  settles (Omapi.initialize_authenticator authenticator).
Proof.
  unfold Omapi.initialize_authenticator.
  apply settles_bind; [apply settles_open | intros msg].
  apply settles_bind; [apply settles_query | intros response].
  apply settles_if; [apply settles_raise |].
  apply settles_if; [apply settles_raise |].
  apply settles_on_client, settles_modify.
Qed.

Lemma settles_add_host ip mac : settles (Omapi.add_host ip mac).
Proof.
  unfold Omapi.add_host.
  apply settles_bind; [apply settles_open | intros msg].
  apply settles_bind; [apply settles_lift, pack_mac_settles | intros hardware_address].
  apply settles_bind; [apply settles_lift, pack_ip_settles | intros ip_address].
  apply settles_bind; [apply settles_query | intros response].
  apply settles_if; [apply settles_raise | apply settles_ret].
Qed.

Lemma settles_update_host mac ip : settles (Omapi.update_host mac ip).
Proof.
  unfold Omapi.update_host.
  apply settles_bind; [apply settles_open | intros msg].
  apply settles_bind; [apply settles_lift, pack_mac_settles | intros hardware_address].
  apply settles_bind; [apply settles_query | intros response].
  apply settles_if; [apply settles_add_host |].
  apply settles_bind; [apply settles_on_sysrand, settles_generate_tid | intros update].
  apply settles_bind; [apply settles_lift, pack_ip_settles | intros ip_address].
  apply settles_bind; [apply settles_query | intros response'].
  apply settles_if; [apply settles_raise | apply settles_ret].
Qed.

Lemma settles_del_host mac : settles (Omapi.del_host mac).
Proof.
  unfold Omapi.del_host.
  apply settles_bind; [apply settles_open | intros msg].
  apply settles_bind; [apply settles_lift, pack_mac_settles | intros hardware_address].
  apply settles_bind; [apply settles_query | intros response].
  apply settles_if; [apply settles_raise |].
  apply settles_if; [apply settles_raise |].
  apply settles_bind; [apply settles_on_sysrand, settles_generate_tid | intros msg'].
  apply settles_bind; [apply settles_query | intros response'].
  apply settles_if; [apply settles_raise | apply settles_ret].
Qed.

Lemma settles_lookup_ip mac : settles (Omapi.lookup_ip mac).
Proof.
  unfold Omapi.lookup_ip.
  apply settles_bind; [apply settles_open | intros msg].
  apply settles_bind; [apply settles_lift, pack_mac_settles | intros hardware_address].
  apply settles_bind; [apply settles_query | intros response].
  apply settles_if; [apply settles_raise |].
  apply settles_try_except; [| intros; apply settles_raise].
  apply settles_bind; [apply settles_lift, dict_getitem_settles | intros fourbytes].
  apply settles_lift, unpack_ip_settles.
Qed.

Lemma settles_lookup_mac ip : settles (Omapi.lookup_mac ip).
Proof.
  unfold Omapi.lookup_mac.
  apply settles_bind; [apply settles_open | intros msg].
  apply settles_bind; [apply settles_lift, pack_ip_settles | intros ip_address].
  apply settles_bind; [apply settles_query | intros response].
  apply settles_if; [apply settles_raise |].
  apply settles_try_except; [| intros; apply settles_raise].
  apply settles_bind; [apply settles_lift, dict_getitem_settles | intros sixbytes].
  apply settles_lift, unpack_mac_settles.
Qed.

Lemma forget_settles {A St : Type} (m : M St A) (s : St) :
  settles m -> fst (forget (m s)) <> Hang.
Proof.
  intros Hm. unfold forget. specialize (Hm s). cbn [fst].
  destruct (fst (m s)); [discriminate | discriminate | contradiction].
Qed.

(** X10.  With a peer that delivers finitely many pieces and then
    closes or breaks the stream, every call of a method of the client
    returns or raises, and so does the constructor: the loops that wait for
    the peer end, since each round takes at least one byte that the peer
    has sent, or finds the stream closed or broken. *)
Theorem client_calls_settle (call : client_call) (p : Omapi.process)
    (sock : Socket.t) (newauth : option OmapiAuthenticatorBase.t) (rand : SystemRandom.t) :
  fst (do_call call p) <> Hang /\ fst (Omapi.init sock newauth rand) <> Hang.
Proof.
  split.
  - unfold do_call. destruct call; apply forget_settles.
    + exact (settles_on_client _ settles_close).
    + exact (settles_on_client _ settles_check_connected).
    + exact (settles_on_client _ (settles_recv_conn _)).
    + exact (settles_on_client _ (settles_send_conn _)).
    + exact (settles_on_client _ settles_fill_inbuffer).
    + exact (settles_on_client _ settles_send_protocol_initialization).
    + exact (settles_on_client _ settles_recv_protocol_initialization).
    + exact (settles_on_client _ settles_receive_message).
    + exact (settles_on_client _ (settles_receive_response _ _)).
    + exact (settles_on_client _ (settles_send_message _ _)).
    + exact (settles_on_client _ (settles_query_server _)).
    + exact (settles_initialize_authenticator _).
    + exact (settles_add_host _ _).
    + exact (settles_update_host _ _).
    + exact (settles_del_host _).
    + exact (settles_lookup_ip _).
    + exact (settles_lookup_mac _).
  - unfold Omapi.init.
    match goal with |- fst (?m ?s) <> Hang => assert (S : settles m); [| apply S] end.
    apply settles_bind;
      [exact (settles_on_client _ settles_send_protocol_initialization) | intros _].
    apply settles_bind;
      [exact (settles_on_client _ settles_recv_protocol_initialization) | intros _].
    destruct newauth; [apply settles_initialize_authenticator | apply settles_ret].
Qed.

(** ** The handshake *)

Lemma send_conn_connected auths defauth inbound out inb (data : bytes) :
  Omapi.send_conn data
    (Omapi.mk auths defauth (Some (Socket.mk inbound out false)) inb)
  = (Ok tt, Omapi.mk auths defauth (Some (Socket.mk inbound (out ++ data) false)) inb).
Proof. reflexivity. Qed.

Lemma send_protocol_initialization_connected auths defauth inbound out inb :
  Omapi.send_protocol_initialization
    (Omapi.mk auths defauth (Some (Socket.mk inbound out false)) inb)
  = (Ok tt,
     Omapi.mk auths defauth (Some (Socket.mk inbound (out ++ startup_wire) false)) inb).
Proof. reflexivity. Qed.

Lemma reads_parse_startup_message :
  reads _ (fun _ => True) InBuffer.parse_startup_message.
Proof.
  unfold InBuffer.parse_startup_message.
  eapply reads_weaken.
  - eapply reads_chain; [| intros; apply reads_parse_net32int].
    eapply reads_chain; [| intros; apply reads_parse_net32int].
    apply reads_chain0.
  - auto.
Qed.

Lemma parse_startup_message_wire (version header_size : Z) (rest : bytes) :
  uint32 version -> uint32 header_size ->
  next InBuffer.parse_startup_message
    (struct_pack_L version ++ struct_pack_L header_size ++ rest)
  = (Yielded (tt, version, header_size), rest).
Proof.
  intros Hv Hh. unfold InBuffer.parse_startup_message.
  eapply next_chain_yield; [| apply parse_net32int_pack; exact Hh].
  eapply next_chain_yield; [| apply parse_net32int_pack; exact Hv].
  reflexivity.
Qed.

Lemma recv_protocol_initialization_from_delivers (version header_size : Z)
    auths defauth later out br (chunks : list bytes) :
  Forall (fun chunk => 0 < len chunk <= 2048) chunks ->
  forall fuel gen buff ts,
    (length chunks < fuel)%nat ->
    reads _ (fun _ => True) gen ->
    next gen (buff ++ concat chunks) = (Yielded (tt, version, header_size), []) ->
    ts + len (concat chunks) <= InBuffer.sizelimit ->
    Omapi.recv_protocol_initialization_from fuel gen
      (Omapi.mk auths defauth (Some (Socket.mk (map RecvData chunks ++ later) out br))
         (InBuffer.mk buff ts))
    = (startup_outcome version header_size,
       Omapi.mk auths defauth
         (match startup_outcome version header_size with
          | Ok _ => Some (Socket.mk later out br)
          | _ => None
          end)
         (InBuffer.mk [] 0)).
Proof.
  intros HF. induction HF as [| chunk chunks Hc HF IH];
    intros fuel gen buff ts Hfuel R N Ht;
    (destruct fuel as [| fuel]; [simpl in Hfuel; lia |]);
    cbn [Omapi.recv_protocol_initialization_from]; rewrite step_eq; client_fields;
    cbn [InBuffer.buff InBuffer.totalsize].
  - simpl in N. rewrite app_nil_r in N. rewrite N. cbn [fst snd].
    unfold bind, Omapi.on_inbuffer, InBuffer.resetsize, modify, ret, startup_outcome,
      Omapi.close, raise.
    client_fields. cbn [map app InBuffer.buff].
    destruct (negb (version =? Omapi.protocol_version)); [reflexivity |].
    destruct (negb (header_size =? 4 * 6)); reflexivity.
  - pose proof (next_resumes _ gen R buff (concat (chunk :: chunks))) as Rs.
    unfold resumes in Rs. rewrite N in Rs.
    destruct (next gen buff) as [[gen' | a |] rest]; [| | contradiction].
    + destruct Rs as [R' Rs]. cbn [fst snd].
      simpl concat in *. rewrite len_app in Ht. pose proof (len_nonneg (concat chunks)).
      cbn [map app]. unfold Omapi.set_inbuffer. client_fields.
      unfold bind at 1. rewrite fill_inbuffer_chunk by lia.
      apply IH; [simpl in Hfuel; lia | exact R' | | lia].
      rewrite <- app_assoc. symmetry. exact Rs.
    + exfalso. destruct Rs as [_ Rs]. injection Rs as _ Rs.
      simpl concat in Rs. symmetry in Rs.
      apply app_eq_nil in Rs as [_ Rs]. apply app_eq_nil in Rs as [Rs _].
      subst chunk. unfold len in Hc. simpl in Hc. lia.
Qed.

Lemma pending_chunks (chunks : list bytes) (later : list recv_event) out br :
  (length chunks
   < Datatypes.S (Socket.pending (Socket.mk (map RecvData chunks ++ later) out br)))%nat.
Proof.
  unfold Socket.pending. cbn [Socket.inbound].
  induction chunks as [| chunk chunks IH]; simpl; [lia |]. simpl in IH. lia.
Qed.

Lemma recv_protocol_initialization_delivers (version header_size : Z)
    auths defauth later out (chunks : list bytes) :
  uint32 version -> uint32 header_size ->
  pieces chunks (struct_pack_L version ++ struct_pack_L header_size) ->
  Omapi.recv_protocol_initialization
    (connected auths defauth (map RecvData chunks ++ later) out)
  = (startup_outcome version header_size,
     match startup_outcome version header_size with
     | Ok _ => connected auths defauth later out
     | _ => disconnected auths defauth
     end).
Proof.
  intros Hv Hh [C HF]. unfold Omapi.recv_protocol_initialization, connected.
  rewrite (recv_protocol_initialization_from_delivers version header_size).
  - unfold disconnected. destruct (startup_outcome version header_size); reflexivity.
  - exact HF.
  - client_fields. cbn [from_option]. apply pending_chunks.
  - apply reads_parse_startup_message.
  - rewrite app_nil_l, C.
    rewrite <- (app_nil_r (struct_pack_L header_size)).
    apply parse_startup_message_wire; assumption.
  - rewrite C, len_app, !struct_pack_L_length. unfold InBuffer.sizelimit. lia.
Qed.

(** X11.  [send_protocol_initialization] on an open connection
    sends eight bytes, the version 100 and the header size 24.  A client
    whose peer delivers the eight bytes of a version and a header size, in
    pieces of any size up to that of a read, returns from
    [recv_protocol_initialization] with an empty buffer exactly when they
    are 100 and 24, so for what another client has sent; for any other
    version or header size it raises OmapiError and is left disconnected. *)
Theorem handshake_roundtrip (version header_size : Z) (chunks : list bytes)
    auths defauth inbound out auths' defauth' later out' :
  uint32 version -> uint32 header_size ->
  pieces chunks (struct_pack_L version ++ struct_pack_L header_size) ->
  Omapi.send_protocol_initialization (connected auths defauth inbound out)
  = (Ok tt, connected auths defauth inbound (out ++ startup_wire)) /\
  len startup_wire = 8 /\
  (struct_pack_L version ++ struct_pack_L header_size = startup_wire ->
   Omapi.recv_protocol_initialization
     (connected auths' defauth' (map RecvData chunks ++ later) out')
   = (Ok tt, connected auths' defauth' later out')) /\
  (struct_pack_L version ++ struct_pack_L header_size <> startup_wire ->
   exists msg,
     Omapi.recv_protocol_initialization
       (connected auths' defauth' (map RecvData chunks ++ later) out')
     = (Raise (OmapiError msg), disconnected auths' defauth')).
Proof.
  intros Hv Hh P.
  split; [apply send_protocol_initialization_connected |].
  split; [reflexivity |].
  rewrite (recv_protocol_initialization_delivers version header_size) by assumption.
  unfold startup_outcome, Omapi.protocol_version.
  destruct (version =? 100) eqn:E1; cbn [negb].
  - destruct (header_size =? 4 * 6) eqn:E2; cbn [negb].
    + split; [reflexivity |]. intros N. exfalso. apply N.
      unfold startup_wire. f_equal; f_equal; lia.
    + split; [| eauto]. intros E. exfalso.
      apply app_inj_1 in E as [_ E]; [| reflexivity].
      apply (f_equal struct_unpack) in E.
      rewrite struct_unpack_pack_L in E by exact Hh. vm_compute in E. lia.
  - split; [| eauto]. intros E. exfalso.
    apply app_inj_1 in E as [E _]; [| reflexivity].
    apply (f_equal struct_unpack) in E.
    rewrite struct_unpack_pack_L in E by exact Hv. vm_compute in E. lia.
Qed.

(** The theorem at the eight bytes that a client sends, delivered in a
    piece of three and a piece of five. *)
Lemma handshake_roundtrip_witness :
  Omapi.recv_protocol_initialization
    (connected {[ 0 := OmapiNullAuthenticator ]} 0
       (map RecvData [[x00; x00; x00]; [x64; x00; x00; x00; x18]] ++ []) [])
  = (Ok tt, connected {[ 0 := OmapiNullAuthenticator ]} 0 [] []).
Proof.
  destruct (handshake_roundtrip 100 24 [[x00; x00; x00]; [x64; x00; x00; x00; x18]]
              {[ 0 := OmapiNullAuthenticator ]} 0 [] []
              {[ 0 := OmapiNullAuthenticator ]} 0 [] []) as (_ & _ & H & _).
  - unfold uint32. lia.
  - unfold uint32. lia.
  - split; [reflexivity |]. repeat constructor; unfold len; simpl; lia.
  - apply H. reflexivity.
Defined.

(** ** Sending a message, and the exchange with the server *)

Lemma send_message_Ok_inv message (self self' : Omapi.t) (m1 : OmapiMessage.t) :
  Omapi.send_message message true self = (Ok m1, self') ->
  exists sock authenticator data,
    Omapi.connection self = Some sock /\ Socket.broken sock = false /\
    Omapi.authenticators self !! Omapi.defauth self = Some authenticator /\
    OmapiMessage.sign authenticator message = (Ok tt, m1) /\
    OmapiMessage.as_string m1 false = Ok data /\
    self' = Omapi.mk (Omapi.authenticators self) (Omapi.defauth self)
              (Some (Socket.mk (Socket.inbound sock) (Socket.outbound sock ++ data) false))
              (Omapi.inbuffer self).
Proof.
  destruct self as [auths defauth [sock |] inb];
    unfold Omapi.send_message, bind, Omapi.check_connected, get; client_fields;
    [| discriminate].
  destruct (auths !! defauth) as [authenticator |]; [| discriminate].
  destruct (OmapiMessage.sign authenticator message) as [[[] | e |] m'] eqn:S;
    try discriminate.
  unfold lift. destruct (OmapiMessage.as_string m' false) as [data | e |] eqn:A;
    try discriminate.
  unfold Omapi.send_conn, bind, Omapi.check_connected, try_except, Omapi.on_connection,
    Socket.sendall, Omapi.close, raise, ret. client_fields.
  destruct sock as [inbound out broken]. cbn [Socket.broken Socket.inbound Socket.outbound].
  destruct broken; client_fields; cbn [Omapi.is_socket_error]; client_fields;
    [discriminate |].
  intros H. injection H as <- <-.
  exists (Socket.mk inbound out false), authenticator, data.
  cbn [Socket.broken Socket.inbound Socket.outbound]. repeat split; assumption.
Qed.

Lemma send_message_connected auths defauth inbound out inb message authenticator m1 data :
  auths !! defauth = Some authenticator ->
  OmapiMessage.sign authenticator message = (Ok tt, m1) ->
  OmapiMessage.as_string m1 false = Ok data ->
  Omapi.send_message message true
    (Omapi.mk auths defauth (Some (Socket.mk inbound out false)) inb)
  = (Ok m1, Omapi.mk auths defauth (Some (Socket.mk inbound (out ++ data) false)) inb).
Proof.
  intros L S A.
  unfold Omapi.send_message, bind, Omapi.check_connected, get. client_fields.
  rewrite L, S. unfold lift. rewrite A. reflexivity.
Qed.

(** What [sign] leaves of the message: all but [authid] and the
    signature. *)
Lemma sign_keeps authenticator (m m1 : OmapiMessage.t) r :
  OmapiMessage.sign authenticator m = (Ok r, m1) ->
  OmapiMessage.authid m1 = OmapiAuthenticatorBase.authid authenticator /\
  OmapiMessage.opcode m1 = OmapiMessage.opcode m /\
  OmapiMessage.handle m1 = OmapiMessage.handle m /\
  OmapiMessage.tid m1 = OmapiMessage.tid m /\
  OmapiMessage.rid m1 = OmapiMessage.rid m /\
  OmapiMessage.message m1 = OmapiMessage.message m /\
  OmapiMessage.obj m1 = OmapiMessage.obj m.
Proof.
  intros H. apply sign_Ok_inv in H as (data & _ & -> & _).
  unfold presigned. message_fields. repeat split.
Qed.

Lemma signed_message_verifies authenticators authenticator (m m1 : OmapiMessage.t) :
  authenticators !! OmapiAuthenticatorBase.authid authenticator = Some authenticator ->
  OmapiMessage.sign authenticator m = (Ok tt, m1) ->
  OmapiMessage.verify m1 authenticators = Ok true.
Proof.
  intros L S. pose proof (sign_keeps _ _ _ _ S) as (A & _).
  apply signed_verifies in S as (data & E & Sg).
  rewrite (verify_eq m1 authenticators authenticator data); [| rewrite A; exact L | exact E].
  rewrite Sg. rewrite bool_decide_eq_true_2; reflexivity.
Qed.

Lemma send_message_sends (message m1 : OmapiMessage.t) (self self' : Omapi.t) :
  registry_ok self ->
  Omapi.send_message message true self = (Ok m1, self') ->
  exists sock data,
    Omapi.connection self = Some sock /\
    Omapi.connection self'
    = Some (Socket.mk (Socket.inbound sock) (Socket.outbound sock ++ data) false) /\
    OmapiMessage.as_string m1 false = Ok data /\
    OmapiMessage.authid m1 = Omapi.defauth self /\
    OmapiMessage.obj m1 = OmapiMessage.obj message /\
    OmapiMessage.message m1 = OmapiMessage.message message /\
    signed_fields m1
    = signed_fields (OmapiMessage.set_signature (OmapiMessage.signature m1) message) /\
    OmapiMessage.verify m1 (Omapi.authenticators self) = Ok true /\
    (wf_dict (OmapiMessage.message message) -> wf_dict (OmapiMessage.obj message) ->
     next InBuffer.parse_message data = (Yielded m1, [])).
Proof.
  intros [_ (a & La & Ia)] H.
  apply send_message_Ok_inv in H as (sock & authenticator & data & C & Br & L & S & A & ->).
  rewrite La in L. injection L as <-.
  pose proof (sign_keeps _ _ _ _ S) as (K1 & K2 & K3 & K4 & K5 & K6 & K7).
  exists sock, data. client_fields.
  split; [exact C |]. split; [reflexivity |]. split; [exact A |].
  split; [congruence |]. split; [exact K7 |]. split; [exact K6 |].
  split; [unfold signed_fields; message_fields; congruence |].
  split.
  - apply (signed_message_verifies _ a message); [rewrite Ia; exact La | exact S].
  - intros Wm Wo. rewrite <- K6 in Wm. rewrite <- K7 in Wo.
    pose proof A as A'. apply as_string_Ok_inv in A' as (Sz & E & _). cbn [wire] in E.
    rewrite E, <- (app_nil_r (wire_message m1)).
    apply parse_message_wire; assumption.
Qed.

(** X12.  When [send_message] returns on a client whose
    default authenticator is registered under its own id, it has sent
    exactly the serialization of the message as signed, whose fields other
    than [authid] and the signature are those of the message given; a peer
    that parses these bytes gets this message, if its dictionaries are well
    formed, and verifies it with the same registry. *)
Theorem send_message_accepted (message m1 : OmapiMessage.t) (self self' : Omapi.t) :
  registry_ok self ->
  Omapi.send_message message true self = (Ok m1, self') ->
  exists sock data,
    Omapi.connection self = Some sock /\
    Omapi.connection self'
    = Some (Socket.mk (Socket.inbound sock) (Socket.outbound sock ++ data) false) /\
    OmapiMessage.as_string m1 false = Ok data /\
    OmapiMessage.authid m1 = Omapi.defauth self /\
    OmapiMessage.obj m1 = OmapiMessage.obj message /\
    OmapiMessage.message m1 = OmapiMessage.message message /\
    signed_fields m1
    = signed_fields (OmapiMessage.set_signature (OmapiMessage.signature m1) message) /\
    OmapiMessage.verify m1 (Omapi.authenticators self) = Ok true /\
    (wf_dict (OmapiMessage.message message) -> wf_dict (OmapiMessage.obj message) ->
     next InBuffer.parse_message data = (Yielded m1, [])).
Proof. apply send_message_sends. Qed.




Lemma null_registry_ok inbound out : registry_ok (connected null_registry 0 inbound out).
Proof.
  split; [apply lookup_singleton_eq |].
  exists OmapiNullAuthenticator. split; [apply lookup_singleton_eq | reflexivity].
Qed.

(** The theorem at the example request, sent by a client without
    credentials. *)
Lemma send_message_accepted_witness :
  exists sock data,
    Omapi.connection (connected null_registry 0 [] []) = Some sock /\
    Omapi.connection (connected null_registry 0 [] (wire_of example_request))
    = Some (Socket.mk (Socket.inbound sock) (Socket.outbound sock ++ data) false) /\
    OmapiMessage.as_string example_request false = Ok data /\
    OmapiMessage.authid example_request = Omapi.defauth (connected null_registry 0 [] []) /\
    OmapiMessage.obj example_request = OmapiMessage.obj example_request /\
    OmapiMessage.message example_request = OmapiMessage.message example_request /\
    signed_fields example_request
    = signed_fields (OmapiMessage.set_signature (OmapiMessage.signature example_request)
                       example_request) /\
    OmapiMessage.verify example_request
      (Omapi.authenticators (connected null_registry 0 [] [])) = Ok true /\
    (wf_dict (OmapiMessage.message example_request) ->
     wf_dict (OmapiMessage.obj example_request) ->
     next InBuffer.parse_message data = (Yielded example_request, [])).
Proof.
  apply (send_message_accepted example_request example_request
           (connected null_registry 0 [] [])
           (connected null_registry 0 [] (wire_of example_request))).
  - apply null_registry_ok.
  - vm_compute. reflexivity.
Defined.


(** ** The requests for hosts *)

Lemma open_eq (typename : bytes) (rand : SystemRandom.t) :
  OmapiMessage.open typename rand
  = (Ok (request_message OMAPI_OP_OPEN 0 (next_tid rand) [(b "type", typename)] []),
     advance rand).
Proof. reflexivity. Qed.

Lemma update_eq (handle : Z) (rand : SystemRandom.t) :
  OmapiMessage.update handle rand
  = (Ok (request_message OMAPI_OP_UPDATE handle (next_tid rand) [] []), advance rand).
Proof. reflexivity. Qed.

Lemma delete_eq (handle : Z) (rand : SystemRandom.t) :
  OmapiMessage.delete handle rand
  = (Ok (request_message OMAPI_OP_DELETE handle (next_tid rand) [] []), advance rand).
Proof. reflexivity. Qed.

Lemma next_tid_range (rand : SystemRandom.t) : uint32 (next_tid rand).
Proof. unfold next_tid, uint32. apply Z.mod_pos_bound. lia. Qed.

(** One exchange: the request is signed and sent, and the reply that the
    peer delivers is returned. *)
Lemma query_server_exchange auths defauth authenticator (msg reply : OmapiMessage.t)
    (request : bytes) (chunks : list bytes) later out :
  auths !! defauth = Some authenticator ->
  signs authenticator msg request ->
  answers auths defauth (OmapiMessage.tid msg) reply chunks ->
  Omapi.query_server msg (connected auths defauth (map RecvData chunks ++ later) out)
  = (Ok reply, connected auths defauth later (out ++ request)).
Proof.
  intros L (signed & S & A) (Wm & Wo & (data & E & C & HF) & V & Rid & Aid).
  unfold Omapi.query_server, connected.
  rewrite (bind_Ok _ _ _ _ _ (send_message_connected _ _ _ _ _ _ _ _ _ L S A)).
  unfold Omapi.receive_response.
  rewrite (bind_Ok _ _ _ _ _
             (receive_message_delivers reply data chunks auths defauth later
                (out ++ request) false Wm Wo E C HF V)).
  pose proof (sign_keeps _ _ _ _ S) as (_ & _ & _ & T & _).
  unfold OmapiMessage.is_response.
  rewrite bool_decide_eq_true_2 by congruence. cbn [negb].
  unfold bind, get. client_fields.
  rewrite bool_decide_eq_true_2 by exact Aid. reflexivity.
Qed.

(** X14.  [lookup_ip(mac)] on a connected client, for a MAC address
    that [pack_mac] accepts: it draws a transaction id, sends one message,
    the signed open request for a host with that hardware address, and with
    the reply of the peer it returns what [unpack_ip] gives for the value of
    the last [ip-address] entry of the reply's object; it raises the
    not-found error when the reply is not an update or has no such entry.
    [lookup_mac(ip)] does the same with the [ip-address] sent and the
    [hardware-address] looked up. *)
Theorem lookup_exchange (mac ip packed : bytes) auths defauth authenticator
    (reply : OmapiMessage.t) (request : bytes) (chunks : list bytes) later out rand :
  auths !! defauth = Some authenticator ->
  answers auths defauth (next_tid rand) reply chunks ->
  (pack_mac mac = Ok packed ->
   signs authenticator
     (request_message OMAPI_OP_OPEN 0 (next_tid rand) [(b "type", b "host")]
        [(b "hardware-address", packed)]) request ->
   Omapi.lookup_ip mac
     (Omapi.mk_process (connected auths defauth (map RecvData chunks ++ later) out) rand)
   = (if negb (OmapiMessage.opcode reply =? OMAPI_OP_UPDATE) then Raise OmapiErrorNotFound
      else match last_value (b "ip-address") (OmapiMessage.obj reply) with
           | Some fourbytes => unpack_ip fourbytes
           | None => Raise OmapiErrorNotFound
           end,
      Omapi.mk_process (connected auths defauth later (out ++ request)) (advance rand))) /\
  (pack_ip ip = Ok packed ->
   signs authenticator
     (request_message OMAPI_OP_OPEN 0 (next_tid rand) [(b "type", b "host")]
        [(b "ip-address", packed)]) request ->
   Omapi.lookup_mac ip
     (Omapi.mk_process (connected auths defauth (map RecvData chunks ++ later) out) rand)
   = (if negb (OmapiMessage.opcode reply =? OMAPI_OP_UPDATE) then Raise OmapiErrorNotFound
      else match last_value (b "hardware-address") (OmapiMessage.obj reply) with
           | Some sixbytes => unpack_mac sixbytes
           | None => Raise OmapiErrorNotFound
           end,
      Omapi.mk_process (connected auths defauth later (out ++ request)) (advance rand))).
Proof.
  intros L An. split; intros P Sg.
  - unfold Omapi.lookup_ip, bind at 1, Omapi.on_sysrand.
    cbn [Omapi.client Omapi.sysrand]. rewrite open_eq.
    unfold bind at 1, lift. rewrite P.
    unfold bind at 1, Omapi.on_client. cbn [Omapi.client Omapi.sysrand].
    unfold Omapi.obj_append, OmapiMessage.set_obj, request_message in *.
    message_fields. cbn [app].
    rewrite (query_server_exchange auths defauth authenticator _ reply request chunks
               later out L Sg An).
    destruct (negb (OmapiMessage.opcode reply =? OMAPI_OP_UPDATE)); [reflexivity |].
    unfold try_except, bind, lift. rewrite dict_getitem_dict.
    destruct (last_value (b "ip-address") (OmapiMessage.obj reply)) as [fourbytes |].
    + destruct (unpack_ip fourbytes) as [ipstr | e |] eqn:U; [reflexivity | | reflexivity].
      unfold unpack_ip in U. destruct (negb (len fourbytes =? 4)); [| discriminate].
      injection U as <-. reflexivity.
    + reflexivity.
  - unfold Omapi.lookup_mac, bind at 1, Omapi.on_sysrand.
    cbn [Omapi.client Omapi.sysrand]. rewrite open_eq.
    unfold bind at 1, lift. rewrite P.
    unfold bind at 1, Omapi.on_client. cbn [Omapi.client Omapi.sysrand].
    unfold Omapi.obj_append, OmapiMessage.set_obj, request_message in *.
    message_fields. cbn [app].
    rewrite (query_server_exchange auths defauth authenticator _ reply request chunks
               later out L Sg An).
    destruct (negb (OmapiMessage.opcode reply =? OMAPI_OP_UPDATE)); [reflexivity |].
    unfold try_except, bind, lift. rewrite dict_getitem_dict.
    destruct (last_value (b "hardware-address") (OmapiMessage.obj reply)) as [sixbytes |].
    + destruct (unpack_mac sixbytes) as [macstr | e |] eqn:U; [reflexivity | | reflexivity].
      unfold unpack_mac in U. destruct (negb (len sixbytes =? 6)); [| discriminate].
      injection U as <-. reflexivity.
    + reflexivity.
Qed.

Lemma add_host_runs (ip mac hardware_address ip_address : bytes) auths defauth
    authenticator (reply : OmapiMessage.t) (request : bytes) (chunks : list bytes)
    later out rand :
  auths !! defauth = Some authenticator ->
  pack_mac mac = Ok hardware_address -> pack_ip ip = Ok ip_address ->
  signs authenticator
    (request_message OMAPI_OP_OPEN 0 (next_tid rand)
       [(b "type", b "host"); (b "create", struct_pack_I 1);
        (b "exclusive", struct_pack_I 1)]
       [(b "hardware-address", hardware_address); (b "hardware-type", struct_pack_I 1);
        (b "ip-address", ip_address)]) request ->
  answers auths defauth (next_tid rand) reply chunks ->
  Omapi.add_host ip mac
    (Omapi.mk_process (connected auths defauth (map RecvData chunks ++ later) out) rand)
  = (if negb (OmapiMessage.opcode reply =? OMAPI_OP_UPDATE)
     then Raise (OmapiError "add failed") else Ok tt,
     Omapi.mk_process (connected auths defauth later (out ++ request)) (advance rand)).
Proof.
  intros L Pm Pi Sg An.
  unfold Omapi.add_host, bind at 1, Omapi.on_sysrand.
  cbn [Omapi.client Omapi.sysrand]. rewrite open_eq.
  unfold bind at 1, lift. rewrite Pm.
  unfold bind at 1. rewrite Pi.
  unfold bind at 1, Omapi.on_client. cbn [Omapi.client Omapi.sysrand].
  unfold Omapi.obj_append, Omapi.message_append, OmapiMessage.set_obj,
    OmapiMessage.set_message, request_message in *.
  message_fields. cbn [app].
  rewrite (query_server_exchange auths defauth authenticator _ reply request chunks
             later out L Sg An).
  destruct (negb (OmapiMessage.opcode reply =? OMAPI_OP_UPDATE)); reflexivity.
Qed.

(** X15.  [add_host(ip, mac)] on a connected client, for
    addresses that [pack_mac] and [pack_ip] accept: it draws a transaction
    id and sends one message, the signed open request for a host with the
    entries [create] and [exclusive] set to 1 and with the hardware address,
    the hardware type 1 and the ip address as object; it returns when the
    reply of the peer is an update and raises OmapiError("add failed")
    otherwise. *)
Theorem add_host_exchange (ip mac hardware_address ip_address : bytes) auths defauth
    authenticator (reply : OmapiMessage.t) (request : bytes) (chunks : list bytes)
    later out rand :
  auths !! defauth = Some authenticator ->
  pack_mac mac = Ok hardware_address -> pack_ip ip = Ok ip_address ->
  signs authenticator
    (request_message OMAPI_OP_OPEN 0 (next_tid rand)
       [(b "type", b "host"); (b "create", struct_pack_I 1);
        (b "exclusive", struct_pack_I 1)]
       [(b "hardware-address", hardware_address); (b "hardware-type", struct_pack_I 1);
        (b "ip-address", ip_address)]) request ->
  answers auths defauth (next_tid rand) reply chunks ->
  Omapi.add_host ip mac
    (Omapi.mk_process (connected auths defauth (map RecvData chunks ++ later) out) rand)
  = (if negb (OmapiMessage.opcode reply =? OMAPI_OP_UPDATE)
     then Raise (OmapiError "add failed") else Ok tt,
     Omapi.mk_process (connected auths defauth later (out ++ request)) (advance rand)).
Proof. apply add_host_runs. Qed.

(** X16.  A method that is given a MAC address which [pack_mac]
    rejects raises what [pack_mac] raises, after it has drawn a transaction
    id and before anything is sent: the client is as it was.  The same
    holds of [lookup_mac] for an ip address which [pack_ip] rejects, and of
    [add_host] for such an ip address with a MAC address that is
    accepted. *)
Theorem malformed_address (mac ip : bytes) (e : exn) (p : Omapi.process) :
  (pack_mac mac = Raise e ->
   Omapi.add_host ip mac p
   = (Raise e, Omapi.mk_process (Omapi.client p) (advance (Omapi.sysrand p))) /\
   Omapi.update_host mac ip p
   = (Raise e, Omapi.mk_process (Omapi.client p) (advance (Omapi.sysrand p))) /\
   Omapi.del_host mac p
   = (Raise e, Omapi.mk_process (Omapi.client p) (advance (Omapi.sysrand p))) /\
   Omapi.lookup_ip mac p
   = (Raise e, Omapi.mk_process (Omapi.client p) (advance (Omapi.sysrand p)))) /\
  (pack_ip ip = Raise e ->
   Omapi.lookup_mac ip p
   = (Raise e, Omapi.mk_process (Omapi.client p) (advance (Omapi.sysrand p))) /\
   ((exists hardware_address, pack_mac mac = Ok hardware_address) ->
    Omapi.add_host ip mac p
    = (Raise e, Omapi.mk_process (Omapi.client p) (advance (Omapi.sysrand p))))).
Proof.
  destruct p as [self rand]. cbn [Omapi.client Omapi.sysrand].
  split; intros P.
  - unfold Omapi.add_host, Omapi.update_host, Omapi.del_host, Omapi.lookup_ip.
    unfold bind at 1 3 5 7, Omapi.on_sysrand. cbn [Omapi.client Omapi.sysrand].
    rewrite !open_eq. unfold bind, lift. rewrite P. auto.
  - split.
    + unfold Omapi.lookup_mac. unfold bind at 1, Omapi.on_sysrand.
      cbn [Omapi.client Omapi.sysrand]. rewrite open_eq. unfold bind, lift. rewrite P.
      reflexivity.
    + intros [hardware_address Pm].
      unfold Omapi.add_host. unfold bind at 1, Omapi.on_sysrand.
      cbn [Omapi.client Omapi.sysrand]. rewrite open_eq. unfold bind, lift.
      rewrite Pm, P. reflexivity.
Qed.

(** X17.  [del_host(mac)] on a connected client, for a MAC
    address that [pack_mac] accepts: it sends the signed open request for a
    host with that hardware address and hardware type 1.  When the reply is
    not an update it raises the not-found error, and when the reply is an
    update with handle 0 it raises OmapiError; in both cases nothing more
    is sent.  Otherwise it draws a second transaction id and sends the
    signed delete request for the handle of the reply; it returns when the
    second reply is a status and raises OmapiError("delete failed")
    otherwise. *)
Theorem del_host_exchange (mac hardware_address : bytes) auths defauth authenticator
    (reply1 reply2 : OmapiMessage.t) (request1 request2 : bytes)
    (chunks1 chunks2 : list bytes) later out rand :
  auths !! defauth = Some authenticator ->
  pack_mac mac = Ok hardware_address ->
  signs authenticator
    (request_message OMAPI_OP_OPEN 0 (next_tid rand) [(b "type", b "host")]
       [(b "hardware-address", hardware_address); (b "hardware-type", struct_pack_I 1)])
    request1 ->
  answers auths defauth (next_tid rand) reply1 chunks1 ->
  (OmapiMessage.opcode reply1 <> OMAPI_OP_UPDATE ->
   Omapi.del_host mac
     (Omapi.mk_process (connected auths defauth (map RecvData chunks1 ++ later) out) rand)
   = (Raise OmapiErrorNotFound,
      Omapi.mk_process (connected auths defauth later (out ++ request1)) (advance rand))) /\
  (OmapiMessage.opcode reply1 = OMAPI_OP_UPDATE -> OmapiMessage.handle reply1 = 0 ->
   Omapi.del_host mac
     (Omapi.mk_process (connected auths defauth (map RecvData chunks1 ++ later) out) rand)
   = (Raise (OmapiError "received invalid handle from server"),
      Omapi.mk_process (connected auths defauth later (out ++ request1)) (advance rand))) /\
  (OmapiMessage.opcode reply1 = OMAPI_OP_UPDATE -> OmapiMessage.handle reply1 <> 0 ->
   signs authenticator
     (request_message OMAPI_OP_DELETE (OmapiMessage.handle reply1)
        (next_tid (advance rand)) [] []) request2 ->
   answers auths defauth (next_tid (advance rand)) reply2 chunks2 ->
   Omapi.del_host mac
     (Omapi.mk_process
        (connected auths defauth (map RecvData chunks1 ++ map RecvData chunks2 ++ later) out)
        rand)
   = (if negb (OmapiMessage.opcode reply2 =? OMAPI_OP_STATUS)
      then Raise (OmapiError "delete failed") else Ok tt,
      Omapi.mk_process (connected auths defauth later ((out ++ request1) ++ request2))
        (advance (advance rand)))).
Proof.
  intros L Pm Sg An.
  assert (Q : forall later',
             Omapi.del_host mac
               (Omapi.mk_process
                  (connected auths defauth (map RecvData chunks1 ++ later') out) rand)
             = (let* response :=
                  ret reply1 : M Omapi.process OmapiMessage.t in
                if negb (OmapiMessage.opcode response =? OMAPI_OP_UPDATE)
                then raise OmapiErrorNotFound
                else if OmapiMessage.handle response =? 0
                then raise (OmapiError "received invalid handle from server")
                else
                  let* msg := Omapi.on_sysrand
                                (OmapiMessage.delete (OmapiMessage.handle response)) in
                  let* response := Omapi.on_client (Omapi.query_server msg) in
                  if negb (OmapiMessage.opcode response =? OMAPI_OP_STATUS)
                  then raise (OmapiError "delete failed")
                  else ret tt)
                 (Omapi.mk_process (connected auths defauth later' (out ++ request1))
                    (advance rand))).
  { intros later'.
    unfold Omapi.del_host, bind at 1, Omapi.on_sysrand.
    cbn [Omapi.client Omapi.sysrand]. rewrite open_eq.
    unfold bind at 1, lift. rewrite Pm.
    unfold bind at 1, Omapi.on_client. cbn [Omapi.client Omapi.sysrand].
    unfold Omapi.obj_append, OmapiMessage.set_obj, request_message in *.
    message_fields. cbn [app].
    rewrite (query_server_exchange auths defauth authenticator _ reply1 request1 chunks1
               later' out L Sg An).
    reflexivity. }
  split; [| split].
  - intros N. rewrite Q. unfold bind, ret.
    destruct (OmapiMessage.opcode reply1 =? OMAPI_OP_UPDATE) eqn:E; [exfalso; lia |].
    reflexivity.
  - intros E H0. rewrite Q. unfold bind, ret. rewrite E, H0. reflexivity.
  - intros E H0 Sg2 An2. rewrite Q. unfold bind at 1, ret. rewrite E, Z.eqb_refl. cbn [negb].
    destruct (OmapiMessage.handle reply1 =? 0) eqn:E0; [exfalso; lia |].
    unfold bind at 1, Omapi.on_sysrand. cbn [Omapi.client Omapi.sysrand]. rewrite delete_eq.
    unfold bind at 1, Omapi.on_client. cbn [Omapi.client Omapi.sysrand].
    rewrite (query_server_exchange auths defauth authenticator _ reply2 request2 chunks2
               later (out ++ request1) L Sg2 An2).
    destruct (negb (OmapiMessage.opcode reply2 =? OMAPI_OP_STATUS)); reflexivity.
Qed.

(** X18.  [update_host(mac, ip)] on a connected client, for a
    MAC address that [pack_mac] accepts: it sends the signed open request
    for a host with that hardware address.  When the reply is an update, it
    draws a second transaction id and only then packs the ip address: for an
    address that [pack_ip] rejects it raises with the first request sent;
    otherwise it sends the signed update request for the handle of the
    reply with the ip address as object, returns when the second reply is a
    status and raises OmapiError otherwise.  When the first reply is not an
    update, it goes on as [add_host(ip, mac)] does, with a second
    transaction id. *)
Theorem update_host_exchange (mac ip hardware_address : bytes) auths defauth authenticator
    (reply1 reply2 : OmapiMessage.t) (request1 request2 : bytes)
    (chunks1 chunks2 : list bytes) later out rand :
  auths !! defauth = Some authenticator ->
  pack_mac mac = Ok hardware_address ->
  signs authenticator
    (request_message OMAPI_OP_OPEN 0 (next_tid rand) [(b "type", b "host")]
       [(b "hardware-address", hardware_address)]) request1 ->
  answers auths defauth (next_tid rand) reply1 chunks1 ->
  (OmapiMessage.opcode reply1 = OMAPI_OP_UPDATE ->
   forall e, pack_ip ip = Raise e ->
   Omapi.update_host mac ip
     (Omapi.mk_process (connected auths defauth (map RecvData chunks1 ++ later) out) rand)
   = (Raise e,
      Omapi.mk_process (connected auths defauth later (out ++ request1))
        (advance (advance rand)))) /\
  (OmapiMessage.opcode reply1 = OMAPI_OP_UPDATE ->
   forall ip_address, pack_ip ip = Ok ip_address ->
   signs authenticator
     (request_message OMAPI_OP_UPDATE (OmapiMessage.handle reply1)
        (next_tid (advance rand)) [] [(b "ip-address", ip_address)]) request2 ->
   answers auths defauth (next_tid (advance rand)) reply2 chunks2 ->
   Omapi.update_host mac ip
     (Omapi.mk_process
        (connected auths defauth (map RecvData chunks1 ++ map RecvData chunks2 ++ later) out)
        rand)
   = (if negb (OmapiMessage.opcode reply2 =? OMAPI_OP_STATUS)
      then Raise (OmapiError ("Could not update host with mac: "
                              ++ string_of_list_byte mac))
      else Ok tt,
      Omapi.mk_process (connected auths defauth later ((out ++ request1) ++ request2))
        (advance (advance rand)))) /\
  (OmapiMessage.opcode reply1 <> OMAPI_OP_UPDATE ->
   forall ip_address, pack_ip ip = Ok ip_address ->
   signs authenticator
     (request_message OMAPI_OP_OPEN 0 (next_tid (advance rand))
        [(b "type", b "host"); (b "create", struct_pack_I 1);
         (b "exclusive", struct_pack_I 1)]
        [(b "hardware-address", hardware_address); (b "hardware-type", struct_pack_I 1);
         (b "ip-address", ip_address)]) request2 ->
   answers auths defauth (next_tid (advance rand)) reply2 chunks2 ->
   Omapi.update_host mac ip
     (Omapi.mk_process
        (connected auths defauth (map RecvData chunks1 ++ map RecvData chunks2 ++ later) out)
        rand)
   = (if negb (OmapiMessage.opcode reply2 =? OMAPI_OP_UPDATE)
      then Raise (OmapiError "add failed") else Ok tt,
      Omapi.mk_process (connected auths defauth later ((out ++ request1) ++ request2))
        (advance (advance rand)))).
Proof.
  intros L Pm Sg An.
  assert (Q : forall later',
             Omapi.update_host mac ip
               (Omapi.mk_process
                  (connected auths defauth (map RecvData chunks1 ++ later') out) rand)
             = (if negb (OmapiMessage.opcode reply1 =? OMAPI_OP_UPDATE)
                then Omapi.add_host ip mac
                else
                  let* update := Omapi.on_sysrand
                                   (OmapiMessage.update (OmapiMessage.handle reply1)) in
                  let* ip_address := lift (pack_ip ip) in
                  let update := OmapiMessage.set_obj [(b "ip-address", ip_address)] update in
                  let* response := Omapi.on_client (Omapi.query_server update) in
                  if negb (OmapiMessage.opcode response =? OMAPI_OP_STATUS)
                  then raise (OmapiError ("Could not update host with mac: "
                                          ++ string_of_list_byte mac))
                  else ret tt)
                 (Omapi.mk_process (connected auths defauth later' (out ++ request1))
                    (advance rand))).
  { intros later'.
    unfold Omapi.update_host, bind at 1, Omapi.on_sysrand.
    cbn [Omapi.client Omapi.sysrand]. rewrite open_eq.
    unfold bind at 1, lift. rewrite Pm.
    unfold bind at 1, Omapi.on_client. cbn [Omapi.client Omapi.sysrand].
    unfold Omapi.obj_append, OmapiMessage.set_obj, request_message in *.
    message_fields. cbn [app].
    rewrite (query_server_exchange auths defauth authenticator _ reply1 request1 chunks1
               later' out L Sg An).
    reflexivity. }
  split; [| split].
  - intros E e Pi. rewrite Q, E, Z.eqb_refl. cbn [negb].
    unfold bind at 1, Omapi.on_sysrand. cbn [Omapi.client Omapi.sysrand]. rewrite update_eq.
    unfold bind at 1, lift. rewrite Pi. reflexivity.
  - intros E ip_address Pi Sg2 An2. rewrite Q, E, Z.eqb_refl. cbn [negb].
    unfold bind at 1, Omapi.on_sysrand. cbn [Omapi.client Omapi.sysrand]. rewrite update_eq.
    unfold bind at 1, lift. rewrite Pi.
    unfold bind at 1, Omapi.on_client. cbn [Omapi.client Omapi.sysrand].
    unfold OmapiMessage.set_obj, request_message in *. message_fields.
    rewrite (query_server_exchange auths defauth authenticator _ reply2 request2 chunks2
               later (out ++ request1) L Sg2 An2).
    destruct (negb (OmapiMessage.opcode reply2 =? OMAPI_OP_STATUS)); reflexivity.
  - intros N ip_address Pi Sg2 An2. rewrite Q.
    destruct (OmapiMessage.opcode reply1 =? OMAPI_OP_UPDATE) eqn:E; [exfalso; lia |].
    cbn [negb].
    apply (add_host_runs ip mac hardware_address ip_address auths defauth authenticator
             reply2 request2 chunks2 later (out ++ request1) (advance rand));
      assumption.
Qed.

(** ** The host methods at the examples *)

Lemma null_signs (msg : OmapiMessage.t) (data : bytes) :
  OmapiMessage.sign OmapiNullAuthenticator msg = (Ok tt, msg) ->
  OmapiMessage.as_string msg false = Ok data ->
  signs OmapiNullAuthenticator msg data.
Proof. intros S A. exists msg. auto. Qed.

Lemma example_answers (tid : Z) (reply : OmapiMessage.t) :
  wf_dict (OmapiMessage.message reply) -> wf_dict (OmapiMessage.obj reply) ->
  OmapiMessage.as_string reply false = Ok (wire_of reply) ->
  (0 <? len (wire_of reply)) && (len (wire_of reply) <=? 2048) = true ->
  OmapiMessage.verify reply null_registry = Ok true ->
  OmapiMessage.rid reply = tid -> OmapiMessage.authid reply = 0 ->
  answers null_registry 0 tid reply [wire_of reply].
Proof.
  intros Wm Wo A Sz V R I. split; [exact Wm |]. split; [exact Wo |].
  split; [| auto]. exists (wire_of reply). split; [exact A |].
  split; [simpl; apply app_nil_r |]. constructor; [lia | constructor].
Qed.

Ltac example_entries := repeat constructor; unfold wf_entry, len; simpl; lia.

Lemma example_answer_answers : answers null_registry 0 3 example_answer [wire_of example_answer].
Proof. apply example_answers; try reflexivity; example_entries. Qed.

Lemma example_status_answers : answers null_registry 0 4 example_status [wire_of example_status].
Proof. apply example_answers; try reflexivity; example_entries. Qed.

(** The theorem at a client without credentials whose peer answers with the
    example answer. *)
Lemma lookup_exchange_witness :
  Omapi.lookup_ip example_mac
    (Omapi.mk_process
       (connected null_registry 0 (map RecvData [wire_of example_answer] ++ []) [])
       example_rand)
  = (Ok example_ip,
     Omapi.mk_process (connected null_registry 0 [] ([] ++ wire_of example_lookup_request))
       (advance example_rand)).
Proof.
  refine (proj1 (lookup_exchange example_mac example_ip example_hardware_address
                   null_registry 0 OmapiNullAuthenticator example_answer
                   (wire_of example_lookup_request) [wire_of example_answer] [] []
                   example_rand _ _) _ _).
  - reflexivity.
  - exact example_answer_answers.
  - reflexivity.
  - apply null_signs; reflexivity.
Defined.

(** The theorem at the same client, for a host that is added. *)
Lemma add_host_exchange_witness :
  Omapi.add_host example_ip example_mac
    (Omapi.mk_process
       (connected null_registry 0 (map RecvData [wire_of example_answer] ++ []) [])
       example_rand)
  = (Ok tt,
     Omapi.mk_process (connected null_registry 0 [] ([] ++ wire_of example_add_request))
       (advance example_rand)).
Proof.
  apply (add_host_exchange example_ip example_mac example_hardware_address
           example_ip_address null_registry 0 OmapiNullAuthenticator example_answer
           (wire_of example_add_request) [wire_of example_answer] [] [] example_rand).
  - reflexivity.
  - reflexivity.
  - reflexivity.
  - apply null_signs; reflexivity.
  - exact example_answer_answers.
Defined.

(** The theorem at a MAC address with five groups and an ip address with
    three parts. *)
Lemma malformed_address_witness :
  Omapi.lookup_ip (b "00:1a:2b:3c:4d")
    (Omapi.mk_process (connected null_registry 0 [] []) example_rand)
  = (Raise (ValueError "given mac addresses has an invalid number of colons"),
     Omapi.mk_process (connected null_registry 0 [] []) (advance example_rand)) /\
  Omapi.add_host (b "192.0.2") example_mac
    (Omapi.mk_process (connected null_registry 0 [] []) example_rand)
  = (Raise (ValueError "given ip address has an invalid number of dots"),
     Omapi.mk_process (connected null_registry 0 [] []) (advance example_rand)).
Proof.
  split.
  - apply (malformed_address (b "00:1a:2b:3c:4d") example_ip
             (ValueError "given mac addresses has an invalid number of colons")
             (Omapi.mk_process (connected null_registry 0 [] []) example_rand)).
    reflexivity.
  - apply (malformed_address example_mac (b "192.0.2")
             (ValueError "given ip address has an invalid number of dots")
             (Omapi.mk_process (connected null_registry 0 [] []) example_rand)).
    + reflexivity.
    + exists example_hardware_address. reflexivity.
Defined.

(** The theorem at a client whose peer answers the open request with the
    example answer, of handle 1, and the delete request with a status. *)
Lemma del_host_exchange_witness :
  Omapi.del_host example_mac
    (Omapi.mk_process
       (connected null_registry 0
          (map RecvData [wire_of example_answer] ++ map RecvData [wire_of example_status]
           ++ []) [])
       example_rand)
  = (Ok tt,
     Omapi.mk_process
       (connected null_registry 0 []
          (([] ++ wire_of example_find_request) ++ wire_of example_delete_request))
       (advance (advance example_rand))).
Proof.
  refine (proj2 (proj2 (del_host_exchange example_mac example_hardware_address
                          null_registry 0 OmapiNullAuthenticator
                          example_answer example_status
                          (wire_of example_find_request) (wire_of example_delete_request)
                          [wire_of example_answer] [wire_of example_status] [] []
                          example_rand _ _ _ _)) _ _ _ _).
  - reflexivity.
  - reflexivity.
  - apply null_signs; reflexivity.
  - exact example_answer_answers.
  - reflexivity.
  - discriminate.
  - apply null_signs; reflexivity.
  - exact example_status_answers.
Defined.

(** The theorem at a client whose peer answers the open request with the
    example answer, of handle 1, and the update request with a status. *)
Lemma update_host_exchange_witness :
  Omapi.update_host example_mac example_ip
    (Omapi.mk_process
       (connected null_registry 0
          (map RecvData [wire_of example_answer] ++ map RecvData [wire_of example_status]
           ++ []) [])
       example_rand)
  = (Ok tt,
     Omapi.mk_process
       (connected null_registry 0 []
          (([] ++ wire_of example_lookup_request) ++ wire_of example_update_request))
       (advance (advance example_rand))).
Proof.
  refine (proj1 (proj2 (update_host_exchange example_mac example_ip
                          example_hardware_address null_registry 0 OmapiNullAuthenticator
                          example_answer example_status
                          (wire_of example_lookup_request) (wire_of example_update_request)
                          [wire_of example_answer] [wire_of example_status] [] []
                          example_rand _ _ _ _)) _ example_ip_address _ _ _).
  - reflexivity.
  - reflexivity.
  - apply null_signs; reflexivity.
  - exact example_answer_answers.
  - reflexivity.
  - reflexivity.
  - apply null_signs; reflexivity.
  - exact example_status_answers.
Defined.

(** ** New messages *)

Lemma request_message_serializable (opcode handle tid : Z)
    (message obj : list (bytes * bytes)) :
  uint32 opcode -> uint32 handle -> uint32 tid ->
  Forall encodable message -> Forall encodable obj ->
  serializable (request_message opcode handle tid message obj) false.
Proof.
  intros Ho Hh Ht Hm Hobj. unfold serializable, request_message. message_fields.
  unfold uint32, len in *. simpl length. repeat split; (assumption || lia).
Qed.

(** X19.  The transaction id that [generate_tid] draws is in
    the range of the 32-bit encoder, whatever the random number generator
    gives.  So [as_string] raises no ValueError for a message made by
    [open] with a type name shorter than 2^32 bytes, or by [update] or
    [delete] with a handle in the 32-bit range: it returns the wire format
    of the message when that is at most 65536 bytes long, and
    [parse_message] yields the message from it. *)
Theorem new_message_serializes (typename : bytes) (handle : Z) (rand : SystemRandom.t) :
  len typename < 4294967296 -> uint32 handle ->
  forall m : OmapiMessage.t,
    OmapiMessage.open typename rand = (Ok m, advance rand) \/
    OmapiMessage.update handle rand = (Ok m, advance rand) \/
    OmapiMessage.delete handle rand = (Ok m, advance rand) ->
    uint32 (OmapiMessage.tid m) /\
    (forall e, OmapiMessage.as_string m false = Raise e -> e = OmapiSizeLimitError) /\
    (len (wire_message m) <= 65536 ->
     OmapiMessage.as_string m false = Ok (wire_message m) /\
     next InBuffer.parse_message (wire_message m) = (Yielded m, [])).
Proof.
  intros Lt Hh m H.
  assert (S : serializable m false /\ wf_dict (OmapiMessage.message m) /\
              wf_dict (OmapiMessage.obj m) /\ uint32 (OmapiMessage.tid m)).
  { pose proof (next_tid_range rand) as T.
    assert (U1 : uint32 1) by (unfold uint32; lia).
    assert (U3 : uint32 3) by (unfold uint32; lia).
    assert (U6 : uint32 6) by (unfold uint32; lia).
    assert (U0 : uint32 0) by (unfold uint32; lia).
    destruct H as [H | [H | H]].
    - rewrite open_eq in H. injection H as <-.
      split; [apply request_message_serializable; try assumption |].
      + constructor; [| constructor]. unfold encodable. cbn [fst snd].
        pose proof (len_nonneg typename). unfold len at 1. simpl length. lia.
      + constructor.
      + unfold request_message. message_fields.
        split; [| split; [constructor | exact T]].
        constructor; [| constructor]. unfold wf_entry. cbn [fst snd].
        pose proof (len_nonneg typename). unfold len at 1 2. simpl length. lia.
    - rewrite update_eq in H. injection H as <-.
      split; [apply request_message_serializable; try assumption; constructor |].
      unfold request_message. message_fields.
      split; [constructor | split; [constructor | exact T]].
    - rewrite delete_eq in H. injection H as <-.
      split; [apply request_message_serializable; try assumption; constructor |].
      unfold request_message. message_fields.
      split; [constructor | split; [constructor | exact T]]. }
  destruct S as (S & Wm & Wo & T). split; [exact T |]. split.
  - intros e E. eapply as_string_serializable; eassumption.
  - intros L. split; [apply (as_string_fits m false S); exact L |].
    rewrite <- (app_nil_r (wire_message m)) at 1. apply parse_message_wire; assumption.
Qed.

(** The theorem at the message that [open("host")] makes with the example
    generator. *)
Lemma new_message_serializes_witness :
  uint32 (OmapiMessage.tid (request_message OMAPI_OP_OPEN 0 3 [(b "type", b "host")] [])) /\
  (forall e,
      OmapiMessage.as_string (request_message OMAPI_OP_OPEN 0 3 [(b "type", b "host")] [])
        false = Raise e ->
      e = OmapiSizeLimitError) /\
  (len (wire_message (request_message OMAPI_OP_OPEN 0 3 [(b "type", b "host")] []))
   <= 65536 ->
   OmapiMessage.as_string (request_message OMAPI_OP_OPEN 0 3 [(b "type", b "host")] []) false
   = Ok (wire_message (request_message OMAPI_OP_OPEN 0 3 [(b "type", b "host")] [])) /\
   next InBuffer.parse_message
     (wire_message (request_message OMAPI_OP_OPEN 0 3 [(b "type", b "host")] []))
   = (Yielded (request_message OMAPI_OP_OPEN 0 3 [(b "type", b "host")] []), [])).
Proof.
  apply (new_message_serializes (b "host") 0 example_rand).
  - unfold len. simpl. lia.
  - unfold uint32. lia.
  - left. reflexivity.
Defined.

(** ** Receiving a message in pieces *)

(** X20.  On a connected client with an empty input
    buffer, whose peer delivers the serialization of a message with
    well-formed dictionaries in pieces of any sizes up to that of a read,
    [receive_message] returns this message once the last piece has been
    read, if it verifies with the registry; it has read these pieces and no
    more, and the input buffer is empty again.  If the message does not
    verify, [receive_message] raises OmapiError and the client is left
    disconnected. *)
Theorem receive_message_in_pieces (m : OmapiMessage.t) (data : bytes)
    (chunks : list bytes) auths defauth later out :
  wf_dict (OmapiMessage.message m) -> wf_dict (OmapiMessage.obj m) ->
  OmapiMessage.as_string m false = Ok data ->
  pieces chunks data ->
  (OmapiMessage.verify m auths = Ok true ->
   Omapi.receive_message (connected auths defauth (map RecvData chunks ++ later) out)
   = (Ok m, connected auths defauth later out)) /\
  (OmapiMessage.verify m auths = Ok false ->
   Omapi.receive_message (connected auths defauth (map RecvData chunks ++ later) out)
   = (Raise (OmapiError "bad omapi message signature"), disconnected auths defauth)).
Proof.
  intros Wm Wo E [C HF]. split; intros V.
  - apply (receive_message_delivers m data chunks); assumption.
  - pose proof E as E'. apply as_string_Ok_inv in E' as (S & Ew & Lw). cbn [wire] in Ew.
    unfold Omapi.receive_message, connected.
    assert (G : forall fuel gen buff ts chunks,
               Forall (fun chunk => 0 < len chunk <= 2048) chunks ->
               (length chunks < fuel)%nat ->
               reads _ (fun _ => True) gen ->
               next gen (buff ++ concat chunks) = (Yielded m, []) ->
               ts + len (concat chunks) <= InBuffer.sizelimit ->
               Omapi.receive_message_from fuel gen
                 (Omapi.mk auths defauth
                    (Some (Socket.mk (map RecvData chunks ++ later) out false))
                    (InBuffer.mk buff ts))
               = (Raise (OmapiError "bad omapi message signature"),
                  disconnected auths defauth)).
    { clear C HF chunks. intros fuel gen buff ts chunks HF. revert fuel gen buff ts.
      induction HF as [| chunk chunks Hc HF IH]; intros fuel gen buff ts Hfuel R N Ht;
        (destruct fuel as [| fuel]; [simpl in Hfuel; lia |]);
        cbn [Omapi.receive_message_from]; rewrite step_eq; client_fields;
        cbn [InBuffer.buff InBuffer.totalsize].
      - simpl in N. rewrite app_nil_r in N. rewrite N. cbn [fst snd].
        unfold bind, Omapi.on_inbuffer, InBuffer.resetsize, modify, get, lift, ret,
          Omapi.close, raise.
        client_fields. rewrite V. reflexivity.
      - pose proof (next_resumes _ gen R buff (concat (chunk :: chunks))) as Rs.
        unfold resumes in Rs. rewrite N in Rs.
        destruct (next gen buff) as [[gen' | a |] rest]; [| | contradiction].
        + destruct Rs as [R' Rs]. cbn [fst snd].
          simpl concat in *. rewrite len_app in Ht.
          pose proof (len_nonneg (concat chunks)).
          cbn [map app]. unfold Omapi.set_inbuffer. client_fields.
          unfold bind at 1. rewrite fill_inbuffer_chunk by lia.
          apply IH; [simpl in Hfuel; lia | exact R' | | lia].
          rewrite <- app_assoc. symmetry. exact Rs.
        + exfalso. destruct Rs as [_ Rs]. injection Rs as _ Rs.
          simpl concat in Rs. symmetry in Rs.
          apply app_eq_nil in Rs as [_ Rs]. apply app_eq_nil in Rs as [Rs _].
          subst chunk. unfold len in Hc. simpl in Hc. lia. }
    apply G.
    + exact HF.
    + client_fields. cbn [from_option]. apply pending_chunks.
    + apply reads_parse_message.
    + rewrite app_nil_l, C, Ew, <- (app_nil_r (wire_message m)).
      apply parse_message_wire; assumption.
    + rewrite C. unfold InBuffer.sizelimit, OutBuffer.sizelimit in *. lia.
Qed.

(** The theorem at the example answer, delivered in a piece of ten bytes
    and the rest. *)
Lemma receive_message_in_pieces_witness :
  Omapi.receive_message
    (connected null_registry 0
       (map RecvData [firstn 10 (wire_of example_answer); skipn 10 (wire_of example_answer)]
        ++ []) [])
  = (Ok example_answer, connected null_registry 0 [] []).
Proof.
  refine (proj1 (receive_message_in_pieces example_answer (wire_of example_answer)
                   [firstn 10 (wire_of example_answer); skipn 10 (wire_of example_answer)]
                   null_registry 0 [] [] _ _ _ _) _).
  - constructor.
  - example_entries.
  - reflexivity.
  - split; [reflexivity |]. repeat constructor; vm_compute; intuition discriminate.
  - reflexivity.
Defined.

(** ** Registering an authenticator, and the constructor *)

(** What the three tests of [initialize_authenticator] on the reply give. *)
Lemma initialize_authenticator_runs (new : OmapiAuthenticatorBase.t) auths defauth
    authenticator (reply : OmapiMessage.t) (request : bytes) (chunks : list bytes)
    later out rand :
  auths !! defauth = Some authenticator ->
  signs authenticator
    (request_message OMAPI_OP_OPEN 0 (next_tid rand) [(b "type", b "authenticator")]
       (OmapiAuthenticatorBase.auth_object new)) request ->
  answers auths defauth (next_tid rand) reply chunks ->
  Omapi.initialize_authenticator new
    (Omapi.mk_process (connected auths defauth (map RecvData chunks ++ later) out) rand)
  = (if negb (OmapiMessage.opcode reply =? OMAPI_OP_UPDATE)
     then (Raise (OmapiError "received non-update response for open"),
           Omapi.mk_process (connected auths defauth later (out ++ request)) (advance rand))
     else if OmapiMessage.handle reply =? 0
     then (Raise (OmapiError "received invalid authid from server"),
           Omapi.mk_process (connected auths defauth later (out ++ request)) (advance rand))
     else (Ok tt,
           Omapi.mk_process
             (connected
                (<[OmapiMessage.handle reply
                   := OmapiAuthenticatorBase.set_authid (OmapiMessage.handle reply) new]>
                   auths)
                (OmapiMessage.handle reply) later (out ++ request))
             (advance rand))).
Proof.
  intros L Sg An.
  unfold Omapi.initialize_authenticator, bind at 1, Omapi.on_sysrand.
  cbn [Omapi.client Omapi.sysrand]. rewrite open_eq.
  unfold bind at 1, Omapi.on_client. cbn [Omapi.client Omapi.sysrand].
  change (snd (OmapiMessage.update_object (OmapiAuthenticatorBase.auth_object new)
                 (request_message OMAPI_OP_OPEN 0 (next_tid rand)
                    [(b "type", b "authenticator")] [])))
    with (request_message OMAPI_OP_OPEN 0 (next_tid rand) [(b "type", b "authenticator")]
            (OmapiAuthenticatorBase.auth_object new)).
  rewrite (query_server_exchange auths defauth authenticator _ reply request chunks
             later out L Sg An).
  destruct (negb (OmapiMessage.opcode reply =? OMAPI_OP_UPDATE)); [reflexivity |].
  destruct (OmapiMessage.handle reply =? 0); reflexivity.
Qed.

(** X21.  [initialize_authenticator(authenticator)] on a
    connected client, for an authenticator object that the registry does
    not hold yet, sends one message, the open request for an authenticator
    with the items of the [auth_object] of the new authenticator as object,
    signed by the authenticator that is the default one so far.
    When the reply is an update with a handle other than 0, the new
    authenticator is registered under this handle, carries it as [authid]
    and is the default one: a message that [send_message] signs from then
    on carries this id and the signature that the new authenticator gives.
    When the reply is not an update, or its handle is 0, the method raises
    OmapiError and the registry and the default id are as before. *)
Theorem initialize_authenticator_exchange (new : OmapiAuthenticatorBase.t) auths defauth
    authenticator (reply : OmapiMessage.t) (request : bytes) (chunks : list bytes)
    later out rand :
  auths !! defauth = Some authenticator ->
  signs authenticator
    (request_message OMAPI_OP_OPEN 0 (next_tid rand) [(b "type", b "authenticator")]
       (OmapiAuthenticatorBase.auth_object new)) request ->
  answers auths defauth (next_tid rand) reply chunks ->
  let p := Omapi.mk_process (connected auths defauth (map RecvData chunks ++ later) out)
             rand in
  let unchanged := Omapi.mk_process (connected auths defauth later (out ++ request))
                     (advance rand) in
  (OmapiMessage.opcode reply <> OMAPI_OP_UPDATE ->
   Omapi.initialize_authenticator new p
   = (Raise (OmapiError "received non-update response for open"), unchanged)) /\
  (OmapiMessage.opcode reply = OMAPI_OP_UPDATE -> OmapiMessage.handle reply = 0 ->
   Omapi.initialize_authenticator new p
   = (Raise (OmapiError "received invalid authid from server"), unchanged)) /\
  (OmapiMessage.opcode reply = OMAPI_OP_UPDATE -> OmapiMessage.handle reply <> 0 ->
   exists self',
     Omapi.initialize_authenticator new p
     = (Ok tt, Omapi.mk_process self' (advance rand)) /\
     self' = connected
               (<[OmapiMessage.handle reply
                  := OmapiAuthenticatorBase.set_authid (OmapiMessage.handle reply) new]>
                  auths)
               (OmapiMessage.handle reply) later (out ++ request) /\
     forall message m1 self'',
       Omapi.send_message message true self' = (Ok m1, self'') ->
       OmapiMessage.authid m1 = OmapiMessage.handle reply /\
       exists data,
         OmapiMessage.as_string m1 true = Ok data /\
         OmapiMessage.signature m1 = OmapiAuthenticatorBase.sign new data).
Proof.
  intros L Sg An. cbv zeta.
  pose proof (initialize_authenticator_runs new auths defauth authenticator reply request
                chunks later out rand L Sg An) as R.
  split; [| split].
  - intros N. rewrite R.
    destruct (OmapiMessage.opcode reply =? OMAPI_OP_UPDATE) eqn:E; [exfalso; lia |].
    reflexivity.
  - intros E H0. rewrite R, E, H0. reflexivity.
  - intros E H0. rewrite R, E, Z.eqb_refl. cbn [negb].
    destruct (OmapiMessage.handle reply =? 0) eqn:E0; [exfalso; lia |].
    eexists. split; [reflexivity |]. split; [reflexivity |].
    intros message m1 self'' S.
    apply send_message_Ok_inv in S as (sock & a & data & _ & _ & La & S & _ & _).
    unfold connected in La. client_fields. rewrite lookup_insert_eq in La.
    injection La as <-.
    pose proof (sign_keeps _ _ _ _ S) as (A & _). split; [exact A |].
    apply signed_verifies in S. exact S.
Qed.

(** The theorem at a client without credentials that registers the example
    authenticator, and whose peer gives it the handle 1. *)
Lemma initialize_authenticator_exchange_witness :
  exists self',
    Omapi.initialize_authenticator example_new_authenticator
      (Omapi.mk_process
         (connected null_registry 0 (map RecvData [wire_of example_answer] ++ []) [])
         example_rand)
    = (Ok tt, Omapi.mk_process self' (advance example_rand)) /\
    self' = connected
              (<[OmapiMessage.handle example_answer
                 := OmapiAuthenticatorBase.set_authid (OmapiMessage.handle example_answer)
                      example_new_authenticator]> null_registry)
              (OmapiMessage.handle example_answer) [] ([] ++ wire_of example_auth_request) /\
    forall message m1 self'',
      Omapi.send_message message true self' = (Ok m1, self'') ->
      OmapiMessage.authid m1 = OmapiMessage.handle example_answer /\
      exists data,
        OmapiMessage.as_string m1 true = Ok data /\
        OmapiMessage.signature m1
        = OmapiAuthenticatorBase.sign example_new_authenticator data.
Proof.
  refine (proj2 (proj2 (initialize_authenticator_exchange example_new_authenticator
                          null_registry 0 OmapiNullAuthenticator example_answer
                          (wire_of example_auth_request) [wire_of example_answer] [] []
                          example_rand _ _ _)) _ _).
  - reflexivity.
  - apply null_signs; reflexivity.
  - exact example_answer_answers.
  - reflexivity.
  - discriminate.
Defined.

Lemma init_handshake (inbound : list recv_event) (chunks0 : list bytes) rand
    (rest : M Omapi.process unit) :
  pieces chunks0 startup_wire ->
  (let* _ := Omapi.on_client Omapi.send_protocol_initialization in
   let* _ := Omapi.on_client Omapi.recv_protocol_initialization in
   rest)
    (Omapi.mk_process
       (Omapi.mk {[ 0 := OmapiNullAuthenticator ]} 0
          (Some (Socket.mk (map RecvData chunks0 ++ inbound) [] false)) InBuffer.init)
       rand)
  = rest (Omapi.mk_process (connected null_registry 0 inbound startup_wire) rand).
Proof.
  intros P.
  unfold bind at 1, Omapi.on_client. cbn [Omapi.client Omapi.sysrand].
  rewrite send_protocol_initialization_connected.
  unfold bind at 1. cbn [Omapi.client Omapi.sysrand]. rewrite app_nil_l.
  change (Omapi.mk {[ 0 := OmapiNullAuthenticator ]} 0
            (Some (Socket.mk (map RecvData chunks0 ++ inbound) startup_wire false))
            InBuffer.init)
    with (connected null_registry 0 (map RecvData chunks0 ++ inbound) startup_wire).
  rewrite (recv_protocol_initialization_delivers 100 24);
    [reflexivity | unfold uint32; lia | unfold uint32; lia | exact P].
Qed.

(** X22.  The constructor, on a socket that is connected to a
    peer which delivers the eight bytes of the protocol initialization,
    returns a client that has sent its own eight bytes.  Without
    credentials, the client has the null authenticator alone, at id 0, as
    default.  With credentials, it has then sent the open request for the
    new authenticator, signed by the null authenticator, and when the peer
    answers with an update that carries a handle other than 0, the new
    authenticator is registered under this handle besides the null one, and
    is the default. *)
Theorem constructor_exchange (new : OmapiAuthenticatorBase.t) (chunks0 chunks : list bytes)
    (reply : OmapiMessage.t) (request : bytes) later rand :
  pieces chunks0 startup_wire ->
  Omapi.init (Socket.mk (map RecvData chunks0 ++ later) [] false) None rand
  = (Ok tt, Omapi.mk_process (connected null_registry 0 later startup_wire) rand) /\
  (signs OmapiNullAuthenticator
     (request_message OMAPI_OP_OPEN 0 (next_tid rand) [(b "type", b "authenticator")]
        (OmapiAuthenticatorBase.auth_object new)) request ->
   answers null_registry 0 (next_tid rand) reply chunks ->
   OmapiMessage.opcode reply = OMAPI_OP_UPDATE -> OmapiMessage.handle reply <> 0 ->
   Omapi.init (Socket.mk (map RecvData chunks0 ++ map RecvData chunks ++ later) [] false)
     (Some new) rand
   = (Ok tt,
      Omapi.mk_process
        (connected
           (<[OmapiMessage.handle reply
              := OmapiAuthenticatorBase.set_authid (OmapiMessage.handle reply) new]>
              null_registry)
           (OmapiMessage.handle reply) later (startup_wire ++ request))
        (advance rand))).
Proof.
  intros P. split.
  - unfold Omapi.init. rewrite (init_handshake later chunks0 rand _ P). reflexivity.
  - intros Sg An E H0. unfold Omapi.init.
    rewrite (init_handshake (map RecvData chunks ++ later) chunks0 rand _ P).
    rewrite (initialize_authenticator_runs new null_registry 0 OmapiNullAuthenticator reply
               request chunks later startup_wire rand eq_refl Sg An).
    rewrite E, Z.eqb_refl. cbn [negb].
    destruct (OmapiMessage.handle reply =? 0) eqn:E0; [exfalso; lia |]. reflexivity.
Qed.

(** The theorem at a peer that delivers its eight bytes in two pieces, and
    then the example answer. *)
Lemma constructor_exchange_witness :
  Omapi.init
    (Socket.mk (map RecvData [[x00; x00; x00]; [x64; x00; x00; x00; x18]] ++ []) [] false)
    None example_rand
  = (Ok tt, Omapi.mk_process (connected null_registry 0 [] startup_wire) example_rand) /\
  Omapi.init
    (Socket.mk (map RecvData [[x00; x00; x00]; [x64; x00; x00; x00; x18]]
                ++ map RecvData [wire_of example_answer] ++ []) [] false)
    (Some example_new_authenticator) example_rand
  = (Ok tt,
     Omapi.mk_process
       (connected
          (<[OmapiMessage.handle example_answer
             := OmapiAuthenticatorBase.set_authid (OmapiMessage.handle example_answer)
                  example_new_authenticator]> null_registry)
          (OmapiMessage.handle example_answer) []
          (startup_wire ++ wire_of example_auth_request))
       (advance example_rand)).
Proof.
  destruct (constructor_exchange example_new_authenticator
              [[x00; x00; x00]; [x64; x00; x00; x00; x18]] [wire_of example_answer]
              example_answer (wire_of example_auth_request) [] example_rand) as [H1 H2].
  - split; [reflexivity |]. repeat constructor; unfold len; simpl; lia.
  - split; [exact H1 |]. apply H2.
    + apply null_signs; reflexivity.
    + exact example_answer_answers.
    + reflexivity.
    + discriminate.
Defined.
